(** * The SQL query builder of ibis: expression trees to SELECT statements

    A shallow embedding of [ibis/backends/base/sql/compiler/query_builder.py]:
    the existence-predicate lowering, the correlated-reference check, the
    table-set formatter, the select builder and the set-operation
    flattening of the query builder, with the properties of the
    specification stated over them. *)

From Stdlib Require Import ZArith Lia.
From stdpp Require Import base option list strings pretty gmap.

Local Open Scope string_scope.
Local Open Scope list_scope.

(** ** Errors

    Every failure of the compiler is a synchronous Python exception.  A
    computation returns [Ok] with its value or [Raise] with the exception. *)

Inductive exception :=
| NotImplementedError
| TranslationError
| RelationError
| InternalError
| AttributeError
| AssertionError
| ValueError
| TypeError
| IndexError
| RecursionError
| KeyError.

Inductive result (A : Type) :=
| Ok (a : A)
| Raise (e : exception).
Arguments Ok {A} a.
Arguments Raise {A} e.

#[global] Instance result_ret : MRet result := fun A a => Ok a.
#[global] Instance result_bind : MBind result := fun A B k m =>
  match m with
  | Ok a => k a
  | Raise e => Raise e
  end.

(** A loop that builds a list and stops at the first exception. *)
Fixpoint traverse {A B} (f : A -> result B) (l : list A) : result (list B) :=
  match l with
  | [] => Ok []
  | x :: l' =>
      match f x with
      | Ok y =>
          match traverse f l' with
          | Ok ys => Ok (y :: ys)
          | Raise e => Raise e
          end
      | Raise e => Raise e
      end
  end.

Definition is_Ok {A} (r : result A) : bool :=
  match r with Ok _ => true | Raise _ => false end.

(** ** Expressions

    [ir]: the classes of expression objects the compiler tests with
    [isinstance], and [OtherExpr] for an expression of any other class.
    [ops]: the operation nodes.  An expression is an operation node wrapped
    in its expression class, [expr.op()] gives the node back. *)

Module ir.
Inductive class :=
| TableExpr
| BooleanColumn
| BooleanScalar
| ColumnExpr
| ScalarExpr
| AnalyticExpr
| ExprList
| OtherExpr.

Definition is_ScalarExpr (c : class) : bool :=
  match c with BooleanScalar | ScalarExpr => true | _ => false end.
Definition is_ColumnExpr (c : class) : bool :=
  match c with BooleanColumn | ColumnExpr => true | _ => false end.
Definition is_ValueExpr (c : class) : bool :=
  is_ScalarExpr c || is_ColumnExpr c.
Definition is_TableExpr (c : class) : bool :=
  match c with TableExpr => true | _ => false end.
Definition is_BooleanColumn (c : class) : bool :=
  match c with BooleanColumn => true | _ => false end.
End ir.

(** Arguments of a node that are not expressions. *)
Inductive value :=
| VNone
| VBool (b : bool)
| VInt (z : Z)
| VStr (s : string).

Module ops.
Inductive join_type :=
| InnerJoin
| LeftJoin
| RightJoin
| OuterJoin
| LeftAntiJoin
| LeftSemiJoin
| CrossJoin.

Inductive expr :=
| Expr (cls : ir.class) (op : node)
with node :=
| PhysicalTable (name : option string)
| SQLQueryResult (query : string)
| SelfReference (table : expr)
| Join (how : join_type) (left right : expr) (predicates : list expr)
| MaterializedJoin (join : expr)
| Selection (table : expr) (selections predicates sort_keys : list expr)
| Aggregation (table : expr)
    (metrics by_ having predicates sort_keys : list expr)
| Distinct (table : expr)
| Limit (table : expr) (n offset : Z)
| Union (left right : expr) (distinct : bool)
| Intersection (left right : expr)
| Difference (left right : expr)
| TableColumn (name : string) (table : expr)
| TableArrayView (table : expr)
| ExistsSubquery (foreign_table : option expr) (predicates : list expr)
| NotExistsSubquery (foreign_table : option expr) (predicates : list expr)
| Literal (v : value)
| Any (arg : expr)
| NotAny (arg : expr)
| TopK (arg : expr) (k : Z) (by_ : expr)
| SummaryFilter (e : expr)
| SortKey (e : expr) (ascending : bool)
| BinaryOp (name : string) (boolean : bool) (left right : expr)
| ValueOp (name : string) (boolean : bool) (args : list (expr + value))
| ExpressionList (exprs : list expr).
End ops.

Abbreviation expr := ops.expr.
Abbreviation node := ops.node.
Abbreviation Expr := ops.Expr.

(** [expr.op()] and the class of the expression object. *)
Definition op (e : expr) : node := match e with Expr _ n => n end.
Definition class_of (e : expr) : ir.class := match e with Expr c _ => c end.

Definition isinstance_TableExpr (e : expr) : bool := ir.is_TableExpr (class_of e).
Definition isinstance_BooleanColumn (e : expr) : bool :=
  ir.is_BooleanColumn (class_of e).
Definition isinstance_ScalarExpr (e : expr) : bool := ir.is_ScalarExpr (class_of e).

(** [op.to_expr()] of a table node. *)
Definition to_table (n : node) : expr := Expr ir.TableExpr n.

(** An argument as [flat_args] yields it: an expression or another value. *)
Abbreviation arg := (expr + value)%type.
Abbreviation AExpr := (@inl expr value).
Abbreviation AVal := (@inr expr value).

Definition opt_arg (o : option expr) : arg :=
  match o with Some e => AExpr e | None => AVal VNone end.

(** [node.flat_args()]: the arguments in declaration order, list arguments
    flattened one level. *)
Definition flat_args (n : node) : list arg :=
  match n with
  | ops.PhysicalTable name =>
      [AVal (match name with Some s => VStr s | None => VNone end)]
  | ops.SQLQueryResult q => [AVal (VStr q)]
  | ops.SelfReference t => [AExpr t]
  | ops.Join _ l r ps => AExpr l :: AExpr r :: map AExpr ps
  | ops.MaterializedJoin j => [AExpr j]
  | ops.Selection t sel ps sk =>
      AExpr t :: map AExpr sel ++ map AExpr ps ++ map AExpr sk
  | ops.Aggregation t ms bys hv ps sk =>
      AExpr t :: map AExpr ms ++ map AExpr bys ++ map AExpr hv
        ++ map AExpr ps ++ map AExpr sk
  | ops.Distinct t => [AExpr t]
  | ops.Limit t n off => [AExpr t; AVal (VInt n); AVal (VInt off)]
  | ops.Union l r d => [AExpr l; AExpr r; AVal (VBool d)]
  | ops.Intersection l r => [AExpr l; AExpr r]
  | ops.Difference l r => [AExpr l; AExpr r]
  | ops.TableColumn name t => [AVal (VStr name); AExpr t]
  | ops.TableArrayView t => [AExpr t]
  | ops.ExistsSubquery ft ps => opt_arg ft :: map AExpr ps
  | ops.NotExistsSubquery ft ps => opt_arg ft :: map AExpr ps
  | ops.Literal v => [AVal v]
  | ops.Any a => [AExpr a]
  | ops.NotAny a => [AExpr a]
  | ops.TopK a k b => [AExpr a; AVal (VInt k); AExpr b]
  | ops.SummaryFilter e => [AExpr e]
  | ops.SortKey e asc => [AExpr e; AVal (VBool asc)]
  | ops.BinaryOp _ _ l r => [AExpr l; AExpr r]
  | ops.ValueOp _ _ args => args
  | ops.ExpressionList es => map AExpr es
  end.

(** [isinstance(node, ops.Join)]. *)
Definition isinstance_Join (n : node) : bool :=
  match n with ops.Join _ _ _ _ => true | _ => false end.

(** ** Size of an expression, the measure of every tree walk *)

Definition sum_sizes {A} (f : A -> nat) (l : list A) : nat :=
  foldr (fun x acc => f x + acc) 0 l.

Fixpoint expr_size (e : expr) : nat :=
  match e with
  | Expr _ n => S (node_size n)
  end
with node_size (n : node) : nat :=
  let opt o := match o with Some e => expr_size e | None => 0 end in
  match n with
  | ops.PhysicalTable _ | ops.SQLQueryResult _ | ops.Literal _ => 0
  | ops.SelfReference t | ops.MaterializedJoin t | ops.Distinct t
  | ops.Limit t _ _ | ops.TableColumn _ t | ops.TableArrayView t
  | ops.Any t | ops.NotAny t | ops.SummaryFilter t | ops.SortKey t _ =>
      expr_size t
  | ops.Join _ l r ps => expr_size l + expr_size r + sum_sizes expr_size ps
  | ops.Selection t sel ps sk =>
      expr_size t + sum_sizes expr_size sel + sum_sizes expr_size ps
        + sum_sizes expr_size sk
  | ops.Aggregation t ms bys hv ps sk =>
      expr_size t + sum_sizes expr_size ms + sum_sizes expr_size bys
        + sum_sizes expr_size hv + sum_sizes expr_size ps
        + sum_sizes expr_size sk
  | ops.Union l r _ | ops.Intersection l r | ops.Difference l r
  | ops.BinaryOp _ _ l r | ops.TopK l _ r =>
      expr_size l + expr_size r
  | ops.ExistsSubquery ft ps | ops.NotExistsSubquery ft ps =>
      opt ft + sum_sizes expr_size ps
  | ops.ValueOp _ _ args =>
      sum_sizes (fun a => match a with inl e => expr_size e | inr _ => 0 end) args
  | ops.ExpressionList es => sum_sizes expr_size es
  end.

(** ** Node identity

    Sets and dictionaries of the compiler are keyed by nodes and
    expressions; their hashing and equality are defined with the node
    classes, outside this module.  A key function stands for them: two
    nodes are the same member of a set when their keys are equal. *)

Class Hashing := {
  key : Type;
  key_eq_dec :: EqDecision key;
  key_countable :: Countable key;
  node_key : node -> key;
  expr_key : expr -> key;
}.

(** ** The query context *)

Section QueryContext.
Context `{Hashing}.

(** Modelled from the spec: the Query Context class is defined in
    [compiler/base.py], which is not part of the sources.  It owns the alias
    registry, the extraction set, the always-alias flag and a reference to
    its parent context. *)
#[warnings="-register-all"]
Inductive QueryContext := mkQueryContext {
  table_refs : gmap key string;
  extracted_subexprs : gset key;
  always_alias : bool;
  parent : option QueryContext;
}.

Definition empty_context : QueryContext :=
  mkQueryContext ∅ ∅ false None.

(** Modelled from the spec: [has_reference(node, search_parents)]. *)
Fixpoint has_ref (ctx : QueryContext) (n : node) (parent_contexts : bool) : bool :=
  match table_refs ctx !! node_key n with
  | Some _ => true
  | None =>
      match parent ctx with
      | Some p => parent_contexts && has_ref p n parent_contexts
      | None => false
      end
  end.

(** Modelled from the spec: the alias of a node, looked up in the context
    and then in its ancestors. *)
Fixpoint get_ref (ctx : QueryContext) (n : node) : option string :=
  match table_refs ctx !! node_key n with
  | Some a => Some a
  | None =>
      match parent ctx with
      | Some p => get_ref p n
      | None => None
      end
  end.

(** Modelled from the spec: recording an alias in the registry; an alias
    that is [None] records nothing. *)
Definition set_ref (ctx : QueryContext) (n : node) (alias : option string)
  : QueryContext :=
  match alias with
  | Some a =>
      mkQueryContext (<[node_key n := a]> (table_refs ctx))
        (extracted_subexprs ctx) (always_alias ctx) (parent ctx)
  | None => ctx
  end.

(** Modelled from the spec: the top-most ancestor of a context, and the
    number of aliases along the parent chain. *)
Fixpoint top_context (ctx : QueryContext) : QueryContext :=
  match parent ctx with
  | Some p => top_context p
  | None => ctx
  end.

Fixpoint count_refs (ctx : QueryContext) : nat :=
  size (table_refs ctx)
  + match parent ctx with Some p => count_refs p | None => 0 end.

(** Modelled from the spec: [get_or_create_alias(node)] returns an existing
    alias or mints the next one, [t0], [t1], ..., and records it. *)
Definition make_alias (ctx : QueryContext) (n : node) : QueryContext :=
  match get_ref ctx n with
  | Some a => set_ref ctx n (Some a)
  | None => set_ref ctx n (Some ("t" +:+ pretty (count_refs ctx)))
  end.

(** Modelled from the spec: [needs_alias(node)] holds when more than one
    distinct table reference exists or the always-alias flag is set. *)
Definition need_aliases (ctx : QueryContext) : bool :=
  always_alias ctx || bool_decide (1 < size (table_refs ctx)).

(** Modelled from the spec: setting the always-alias flag. *)
Definition set_always_alias (ctx : QueryContext) : QueryContext :=
  mkQueryContext (table_refs ctx) (extracted_subexprs ctx) true (parent ctx).

(** Modelled from the spec: [is_extracted(node)] and [mark_extracted(node)]
    over the extraction set. *)
Definition is_extracted (ctx : QueryContext) (e : expr) : bool :=
  bool_decide (node_key (op e) ∈ extracted_subexprs ctx).

Definition set_extracted (ctx : QueryContext) (e : expr) : QueryContext :=
  mkQueryContext (table_refs ctx)
    ({[node_key (op e)]} ∪ extracted_subexprs ctx)
    (always_alias ctx) (parent ctx).

End QueryContext.

(** ** Set operations of the query builder

    [flatten_union] and its two siblings yield the operands of a chain of
    set operations; for unions the [distinct] flag of every union node is
    interleaved.  The Python lists hold tables and flags side by side. *)

Abbreviation item := (expr + bool)%type.

Fixpoint flatten_union (table : expr) : list item :=
  match table with
  | Expr _ (ops.Union l r distinct) =>
      flatten_union l ++ [inr distinct] ++ flatten_union r
  | _ => [inl table]
  end.

Definition flatten_intersection (table : expr) : list item :=
  match op table with
  | ops.Intersection l r => flatten_union l ++ flatten_union r
  | _ => [inl table]
  end.

Definition flatten_difference (table : expr) : list item :=
  match op table with
  | ops.Difference l r => flatten_union l ++ flatten_union r
  | _ => [inl table]
  end.

(** The slices [l[::2]] and [l[1::2]]. *)
Fixpoint slice_even {A} (l : list A) : list A :=
  match l with
  | [] => []
  | x :: l' => x :: slice_odd l'
  end
with slice_odd {A} (l : list A) : list A :=
  match l with
  | [] => []
  | _ :: l' => slice_even l'
  end.

(** A flag taken from the flattened list is used as a condition; an
    expression object has no truth value. *)
Definition truth (x : item) : result bool :=
  match x with
  | inr b => Ok b
  | inl _ => Raise ValueError
  end.

(** The statement classes of the three set operations ([SetOp] keeps the
    operand list, the expression and the context). *)
Module Union.
Section defs.
Context `{Hashing}.

Record t := mk {
  tables : list item;
  expr_ : expr;
  context : QueryContext;
  distincts : list item;
}.

Definition keyword (distinct : bool) : string :=
  if distinct then "UNION" else "UNION ALL".

Definition _get_keyword_list (self : t) : result (list string) :=
  traverse (fun d => b ← truth d; mret (keyword b)) (distincts self).

End defs.
End Union.

Module Intersection.
Section defs.
Context `{Hashing}.

Record t := mk {
  tables : list item;
  expr_ : expr;
  context : QueryContext;
}.

Definition _get_keyword_list (self : t) : list string :=
  map (fun _ => "INTERSECT") (seq 0 (length (tables self) - 1)).

End defs.
End Intersection.

Module Difference.
Section defs.
Context `{Hashing}.

Record t := mk {
  tables : list item;
  expr_ : expr;
  context : QueryContext;
}.

Definition _get_keyword_list (self : t) : list string :=
  replicate (length (tables self) - 1) "EXCEPT".

End defs.
End Difference.

Section QueryBuilder_setops.
Context `{Hashing}.

Record QueryBuilder := mkQueryBuilder {
  qb_expr : expr;
  qb_context : QueryContext;
}.

Definition _make_union (self : QueryBuilder) : result Union.t :=
  let union_info := flatten_union (qb_expr self) in
  let npieces := length union_info in
  if bool_decide (3 <= npieces) && negb (npieces mod 2 =? 0)%nat then
    let table_exprs := slice_even union_info in
    let distincts := slice_odd union_info in
    Ok (Union.mk table_exprs (qb_expr self) (qb_context self) distincts)
  else Raise AssertionError.

Definition _make_intersect (self : QueryBuilder) : Intersection.t :=
  let table_exprs := flatten_intersection (qb_expr self) in
  Intersection.mk table_exprs (qb_expr self) (qb_context self).

Definition _make_difference (self : QueryBuilder) : Difference.t :=
  let table_exprs := flatten_difference (qb_expr self) in
  Difference.mk table_exprs (qb_expr self) (qb_context self).

End QueryBuilder_setops.

(** ** The expression interface

    Methods of expressions and nodes, and functions of the analysis module
    [L], that the compiler calls and that are defined outside it. *)
Class ExprAPI := {
  (** [expr._root_tables()] *)
  _root_tables : expr -> list node;
  (** [node.blocks()] *)
  blocks : node -> bool;
  (** [L.flatten_predicate(expr)] *)
  flatten_predicate : expr -> list expr;
  (** [L.is_reduction(expr)] and [L.is_scalar_reduction(expr)] *)
  is_reduction : expr -> bool;
  is_scalar_reduction : expr -> bool;
  (** [L.reduction_to_aggregation(expr, default_name)] *)
  reduction_to_aggregation : expr -> string -> expr * string;
  (** [L.substitute_parents(expr, memo)] *)
  substitute_parents : expr -> expr;
  (** [ir.find_base_table(expr)] and [L.find_source_table(expr)] *)
  find_base_table : expr -> option expr;
  find_source_table : expr -> expr;
  (** [expr.get_name()], which raises for an unnamed expression, and
      [expr.name(name)] *)
  get_name : expr -> result string;
  name : expr -> string -> expr;
  (** [expr.to_aggregation()] of an analytic expression, and of a top-K
      expression with [backup_metric_name] and [parent_table] *)
  to_aggregation : expr -> expr;
  topk_to_aggregation : expr -> string -> option expr -> expr;
  (** [aggregation.to_array()] *)
  to_array : expr -> expr;
  (** [table.aggregate(exprs)], [table.projection(exprs)],
      [table.distinct()] and the column [getattr(table, name)] *)
  aggregate : expr -> list expr -> expr;
  projection : expr -> list expr -> expr;
  distinct : expr -> expr;
  get_column : expr -> string -> expr;
  (** the histogram rewrite of the select builder: it builds a bucket
      expression over floating-point literals and a random column suffix,
      and may replace the table-set *)
  visit_select_Histogram : expr -> option expr -> result (expr * option expr);
  (** [ExtractSubqueries.extract(builder)], from the table-set and the
      filters of the builder *)
  extract_subqueries : option expr -> list expr -> list expr;
  (** the check of [join.materialize()]: the joined tables share a column
      name *)
  overlapping_columns : expr -> bool;
  (** [type(op)] called on arguments one of which is [None]: the node the
      constructor of the class of [op] builds over the arguments, a [None]
      among them coerced as the rule of its argument says, or the
      exception it raises *)
  construct_over_None : node -> list (option expr + value) -> result node;
}.

(** A [for] loop over a list with a body that may run out of fuel. *)
Fixpoint for_each {S A} (body : S -> A -> option S) (st : S) (l : list A)
  : option S :=
  match l with
  | [] => Some st
  | x :: l' =>
      match body st x with
      | Some st' => for_each body st' l'
      | None => None
      end
  end.

(** ** Lowering of existence predicates *)

Module _AnyToExistsTransform.
Section defs.
Context `{Hashing} `{ExprAPI}.

Record t := mk {
  context : QueryContext;
  expr_ : expr;
  parent_table : expr;
  query_roots : gset key;
  foreign_table : option expr;
  predicates : list expr;
}.

(** [_AnyToExistsTransform(context, expr, parent_table)]; the two result
    fields are set when [get_result] starts. *)
Definition init (ctx : QueryContext) (e parent_table : expr) : t :=
  mk ctx e parent_table (list_to_set (node_key <$> _root_tables parent_table))
    None [].

Definition _is_root (self : t) (what : node) : bool :=
  bool_decide (node_key what ∈ query_roots self).

Definition set_foreign_table (self : t) (e : expr) : t :=
  mk (context self) (expr_ self) (parent_table self) (query_roots self)
    (Some e) (predicates self).

Definition append_predicate (self : t) (e : expr) : t :=
  mk (context self) (expr_ self) (parent_table self) (query_roots self)
    (foreign_table self) (predicates self ++ [e]).

(** The search returns the first blocking table, or Python's [None]; the
    outer option is [None] when the fuel is used up. *)
Fixpoint _find_blocking_table (fuel : nat) (e : expr) : option (option expr) :=
  match fuel with
  | 0 => None
  | S fuel =>
      if blocks (op e) then Some (Some e)
      else
        (fix loop (args : list arg) : option (option expr) :=
           match args with
           | [] => Some None
           | inl a :: rest =>
               match _find_blocking_table fuel a with
               | None => None
               | Some (Some result) => Some (Some result)
               | Some None => loop rest
               end
           | inr _ :: rest => loop rest
           end) (flat_args (op e))
  end.

Fixpoint _visit (fuel : nat) (self : t) (e : expr) : option t :=
  match fuel with
  | 0 => None
  | S fuel =>
      for_each
        (fun self a =>
           match a with
           | inl a =>
               if isinstance_TableExpr a then _visit_table fuel self a
               else if isinstance_BooleanColumn a then
                 for_each
                   (fun self sub_expr =>
                      _visit fuel (append_predicate self sub_expr) sub_expr)
                   self (flatten_predicate a)
               else _visit fuel self a
           | inr _ => Some self
           end)
        self (flat_args (op e))
  end
with _visit_table (fuel : nat) (self : t) (e : expr) : option t :=
  match fuel with
  | 0 => None
  | S fuel =>
      if isinstance_TableExpr e then
        match _find_blocking_table (expr_size e) e with
        | None => None
        | Some None => Some self
        | Some (Some base_table) =>
            if _is_root self (op base_table) then Some self
            else Some (set_foreign_table self e)
        end
      else if negb (blocks (op e)) then
        for_each
          (fun self a =>
             match a with
             | inl a => _visit fuel self a
             | inr _ => Some self
             end)
          self (flat_args (op e))
      else Some self
  end.

Definition get_result (self : t) : option expr :=
  let self :=
    mk (context self) (expr_ self) (parent_table self) (query_roots self)
      None [] in
  match _visit (expr_size (expr_ self)) self (expr_ self) with
  | Some self =>
      let o :=
        match op (expr_ self) with
        | ops.Any _ => ops.ExistsSubquery (foreign_table self) (predicates self)
        | _ => ops.NotExistsSubquery (foreign_table self) (predicates self)
        end in
      Some (Expr ir.BooleanColumn o)
  | None => None
  end.

End defs.
End _AnyToExistsTransform.

(** ** The correlated-reference check *)

Module _CorrelatedRefCheck.
Section defs.
Context `{Hashing} `{ExprAPI}.

(** The checker object.  [encountered] is a history variable, absent from
    the Python object: the calls of [ref_check] so far, each with the node
    and the [in_subquery] flag it was given. *)
Record t := mk {
  ctx : QueryContext;
  expr_ : expr;
  query_roots : gset key;
  foreign_refs : list node;
  has_foreign_root : bool;
  has_query_root : bool;
  encountered : list (node * bool);
}.

(** [_CorrelatedRefCheck(query, expr)], from the context and the table-set
    of the query. *)
Definition init (context : QueryContext) (table_set : expr) (e : expr) : t :=
  mk context e (list_to_set (node_key <$> _root_tables table_set))
    [] false false [].

Definition is_root (self : t) (what : node) : bool :=
  bool_decide (node_key what ∈ query_roots self).

Definition is_subquery (self : t) (n : node) : bool :=
  match n with
  | ops.TableArrayView _ | ops.ExistsSubquery _ _ | ops.NotExistsSubquery _ _ =>
      true
  | ops.TableColumn _ table => negb (is_root self (op table))
  | _ => false
  end.

Definition with_ctx (self : t) (c : QueryContext) : t :=
  mk c (expr_ self) (query_roots self) (foreign_refs self)
    (has_foreign_root self) (has_query_root self) (encountered self).

Definition ref_check (self : t) (n : node) (in_subquery : bool) : t :=
  let self :=
    mk (ctx self) (expr_ self) (query_roots self) (foreign_refs self)
      (has_foreign_root self) (has_query_root self)
      (encountered self ++ [(n, in_subquery)]) in
  let c := ctx self in
  let is_aliased := has_ref c n false in
  if is_root self n then
    if in_subquery then
      mk c (expr_ self) (query_roots self) (foreign_refs self)
        (has_foreign_root self) true (encountered self)
    else self
  else
    if in_subquery then
      let self :=
        mk c (expr_ self) (query_roots self) (foreign_refs self)
          true (has_query_root self) (encountered self) in
      if negb is_aliased && has_ref c n true
      then with_ctx self (make_alias c n)
      else self
    else if negb (has_ref c n false) then with_ctx self (make_alias c n)
    else self.

Abbreviation cache := (gset (key * bool)).

(** The state of a walk: the checker, the [visit_cache] set, and the
    [visit_table_cache] argument, [None] until a [visit_table] call creates
    the set and shares it with the calls below it. *)
Definition walk_state : Type := t * cache * option cache.

Definition isinstance_PhysicalTable_or_SelfReference (n : node) : bool :=
  match n with
  | ops.PhysicalTable _ | ops.SelfReference _ => true
  | _ => false
  end.

Fixpoint visit (fuel : nat) (e : expr) (in_subquery : bool) (st : walk_state)
  : option walk_state :=
  match fuel with
  | 0 => None
  | S fuel =>
      let '(self, visit_cache, visit_table_cache) := st in
      let n := op e in
      let k := (node_key n, in_subquery) in
      if bool_decide (k ∈ visit_cache) then Some st
      else
        let visit_cache := {[k]} ∪ visit_cache in
        let in_subquery := in_subquery || is_subquery self n in
        for_each
          (fun st a =>
             match a with
             | inl a =>
                 if isinstance_TableExpr a
                 then visit_table fuel a in_subquery st
                 else visit fuel a in_subquery st
             | inr _ => Some st
             end)
          (self, visit_cache, visit_table_cache) (flat_args n)
  end
with visit_table (fuel : nat) (e : expr) (in_subquery : bool) (st : walk_state)
  : option walk_state :=
  match fuel with
  | 0 => None
  | S fuel =>
      let '(self, visit_cache, caller_cache) := st in
      let visit_table_cache := default ∅ caller_cache in
      (* the caller sees the changes only of a set it passed *)
      let leave (st : walk_state) : walk_state :=
        let '(self, visit_cache, own) := st in
        (self, visit_cache,
         match caller_cache with Some _ => own | None => None end) in
      let k := (expr_key e, in_subquery) in
      if bool_decide (k ∈ visit_table_cache) then Some st
      else
        let visit_table_cache := {[k]} ∪ visit_table_cache in
        let n := op e in
        let self :=
          if isinstance_PhysicalTable_or_SelfReference n
          then ref_check self n in_subquery else self in
        leave <$>
          for_each
            (fun st a =>
               match a with
               | inl a => visit fuel a in_subquery st
               | inr _ => Some st
               end)
            (self, visit_cache, Some visit_table_cache) (flat_args n)
  end.

(** [get_result]: the walk from the predicate with both caches unset, then
    the conjunction of the two flags. *)
Definition get_result (self : t) : option (bool * t) :=
  match visit (expr_size (expr_ self)) (expr_ self) false (self, ∅, None) with
  | Some (self, _, _) =>
      Some (has_query_root self && has_foreign_root self, self)
  | None => None
  end.

End defs.
End _CorrelatedRefCheck.

(** ** The table-set formatter *)

(** The collaborators of the statement classes: the dialect's translator
    and identifier quoting, [util.indent], and the context's memoized
    compilation of a sub-expression. *)
Class Externals `{Hashing} := {
  quote_identifier : string -> string;
  util_indent : string -> nat -> string;
  translate : QueryContext -> expr -> bool -> bool -> result string;
  get_compiled_expr : QueryContext -> expr -> result string;
}.

(** [str.join]. *)
Fixpoint join_str (sep : string) (l : list string) : string :=
  match l with
  | [] => EmptyString
  | [x] => x
  | x :: l' => x +:+ sep +:+ join_str sep l'
  end.

Definition concat_str (l : list string) : string :=
  foldr String.append EmptyString l.

(** The line break. *)
Definition nl : string := String (Ascii.ascii_of_nat 10) EmptyString.

(** [str.format] of a value that may be [None]. *)
Definition fmt (o : option string) : string :=
  match o with Some s => s | None => "None" end.

(** [buf.write(x)] accepts strings only. *)
Definition written (o : option string) : result string :=
  match o with Some s => Ok s | None => Raise TypeError end.

Module TableSetFormatter.
Section defs.
Context `{Externals}.

Record t := mk {
  context : QueryContext;
  expr_ : expr;
  indent : nat;
  join_tables : list (option string);
  join_types : list string;
  join_predicates : list (list expr);
}.

(** [TableSetFormatter(parent, expr, indent=2)]. *)
Definition init (ctx : QueryContext) (e : expr) : t :=
  mk ctx e 2 [] [] [].

Definition _join_names (how : ops.join_type) : string :=
  match how with
  | ops.InnerJoin => "INNER JOIN"
  | ops.LeftJoin => "LEFT OUTER JOIN"
  | ops.RightJoin => "RIGHT OUTER JOIN"
  | ops.OuterJoin => "FULL OUTER JOIN"
  | ops.LeftAntiJoin => "LEFT ANTI JOIN"
  | ops.LeftSemiJoin => "LEFT SEMI JOIN"
  | ops.CrossJoin => "CROSS JOIN"
  end.

Definition _translate (self : t) (e : expr) : result string :=
  translate (context self) e false false.

Definition _non_equijoin_supported : bool := true.

Definition isinstance_Equals (n : node) : bool :=
  match n with
  | ops.BinaryOp name _ _ _ => bool_decide (name = "Equals")
  | _ => false
  end.

Fixpoint _validate_join_predicates (predicates : list expr) : result unit :=
  match predicates with
  | [] => Ok tt
  | pred :: rest =>
      if negb (isinstance_Equals (op pred)) && negb _non_equijoin_supported
      then Raise TranslationError
      else _validate_join_predicates rest
  end.

Definition _get_join_type (how : ops.join_type) : string := _join_names how.

Definition _quote_identifier (name : string) : string := quote_identifier name.

Definition _format_table (self : t) (e : expr) : result (option string) :=
  let ctx := context self in
  let o := op e in
  let ref_expr := match o with ops.SelfReference table => table | _ => e end in
  let ref_op := op ref_expr in
  let with_alias (result : string) (is_subquery : bool) :=
    if is_subquery || need_aliases ctx
    then Some (result +:+ " " +:+ fmt (get_ref ctx (op e)))
    else Some result in
  match ref_op with
  | ops.PhysicalTable name =>
      match name with
      | None => Raise RelationError
      | Some name => Ok (with_alias (_quote_identifier name) false)
      end
  | _ =>
      if is_extracted ctx ref_expr then
        let alias := get_ref ctx (op e) in
        match o with
        | ops.SelfReference _ =>
            Ok (Some (fmt (get_ref ctx (op ref_expr)) +:+ " " +:+ fmt alias))
        | _ => Ok alias
        end
      else
        subquery ← get_compiled_expr ctx e;
        Ok (with_alias
              ("(" +:+ nl +:+ util_indent subquery (indent self) +:+ nl +:+ ")")
              true)
  end.

Definition push (self : t) (tables : list (option string)) (jname : string)
    (predicates : list expr) : t :=
  mk (context self) (expr_ self) (indent self)
    (join_tables self ++ tables)
    (join_types self ++ [jname])
    (join_predicates self ++ [predicates]).

Fixpoint _walk_join_tree (self : t) (o : node) : result t :=
  match o with
  | ops.Join how l r predicates =>
      let left := op l in
      let right := op r in
      if isinstance_Join left && isinstance_Join right
      then Raise NotImplementedError
      else
        _ ← _validate_join_predicates predicates;
        let jname := _get_join_type how in
        if isinstance_Join left then
          self ← _walk_join_tree self left;
          tr ← _format_table self r;
          Ok (push self [tr] jname predicates)
        else if isinstance_Join right then
          Raise NotImplementedError
        else
          tl ← _format_table self l;
          tr ← _format_table self r;
          Ok (push self [tl; tr] jname predicates)
  | _ => Raise AttributeError
  end.

(** One predicate of a join: translated, and parenthesized when the join
    has more than one. *)
Definition format_pred (self : t) (npreds : nat) (pred : expr) : result string :=
  new_pred ← _translate self pred;
  Ok (if bool_decide (1 < npreds) then "(" +:+ new_pred +:+ ")" else new_pred).

(** What one iteration of the loop of [get_result] writes. *)
Definition format_join (self : t)
    (j : string * option string * list expr) : result string :=
  let '(jtype, table, preds) := j in
  let line := nl +:+ util_indent (jtype +:+ " " +:+ fmt table) (indent self) in
  let npreds := length preds in
  fmt_preds ← traverse (format_pred self npreds) preds;
  if bool_decide (0 < length fmt_preds) then
    let conj := " AND" +:+ nl +:+ "   " in
    Ok (line +:+ nl
          +:+ util_indent ("ON " +:+ join_str conj fmt_preds) (indent self * 2))
  else Ok line.

(** [zip] of the three lists, as long as the shortest. *)
Definition zip3 {A B C} (la : list A) (lb : list B) (lc : list C)
  : list (A * B * C) :=
  zip (zip la lb) lc.

Definition joins (self : t) : list (string * option string * list expr) :=
  zip3 (join_types self) (tail (join_tables self)) (join_predicates self).

Definition get_result (self : t) : result string :=
  let o := op (expr_ self) in
  self ← (if isinstance_Join o then _walk_join_tree self o
          else tbl ← _format_table self (expr_ self);
               Ok (mk (context self) (expr_ self) (indent self)
                     (join_tables self ++ [tbl]) (join_types self)
                     (join_predicates self)));
  first ← match join_tables self with
          | x :: _ => written x
          | [] => Raise IndexError
          end;
  clauses ← traverse (format_join self) (joins self);
  Ok (first +:+ concat_str clauses).

End defs.
End TableSetFormatter.

(** ** The select statement *)

(** What the builder hands over to adapt a raw result: [toolz.identity],
    the cell of a named column, or a named column. *)
Inductive handler :=
| identity
| scalar_handler (field : string)
| column_handler (name : string).

(** The fields of a [Select]; the lists that default to [None] in the
    constructor are stored as the empty list. *)
Section Select.
Context `{Hashing}.

Record Select := mkSelect {
  s_context : QueryContext;
  s_select_set : option (list expr);
  s_table_set : option expr;
  s_distinct : bool;
  s_parent_expr : expr;
  s_where : list expr;
  s_group_by : list nat;
  s_having : list expr;
  s_order_by : list expr;
  s_limit : option (Z * Z);
  s_subqueries : list expr;
  s_indent : nat;
  s_result_handler : handler;
}.

End Select.

(** ** The select builder *)

(** [isinstance(op, ops.TableNode)] and [isinstance(op, ops.ValueOp)]. *)
Definition isinstance_TableNode (n : node) : bool :=
  match n with
  | ops.PhysicalTable _ | ops.SQLQueryResult _ | ops.SelfReference _
  | ops.Join _ _ _ _ | ops.MaterializedJoin _ | ops.Selection _ _ _ _
  | ops.Aggregation _ _ _ _ _ _ | ops.Distinct _ | ops.Limit _ _ _
  | ops.Union _ _ _ | ops.Intersection _ _ | ops.Difference _ _ => true
  | _ => false
  end.

(** [table.materialize()] builds the materialized join of a join, which
    the library refuses with [RelationError] when the joined tables share
    a column name, and gives another table back as it is. *)
Definition materialize `{ExprAPI} (e : expr) : result expr :=
  if isinstance_Join (op e) then
    if overlapping_columns e then Raise RelationError
    else Ok (to_table (ops.MaterializedJoin e))
  else Ok e.

(** [left.semi_join(right, predicates)] and [left == right] build these
    nodes. *)
Definition semi_join (l r : expr) (predicates : list expr) : expr :=
  to_table (ops.Join ops.LeftSemiJoin l r predicates).

Definition equals_ (l r : expr) : expr :=
  Expr ir.BooleanColumn (ops.BinaryOp "Equals" true l r).

Module SelectBuilder.
Section defs.
Context `{Hashing} `{ExprAPI}.

Record t := mk {
  expr_ : expr;
  query_expr : expr;
  result_handler : handler;
  context : QueryContext;
  queries : list Select;
  table_set : option expr;
  select_set : option (list expr);
  group_by : option (list nat);
  having : option (list expr);
  filters : list expr;
  limit : option (Z * Z);
  sort_by : list expr;
  subqueries : list expr;
  distinct_ : bool;
  op_memo : gset key;
}.

Definition set_context (self : t) (c : QueryContext) : t :=
  mk (expr_ self) (query_expr self) (result_handler self) c (queries self)
    (table_set self) (select_set self) (group_by self) (having self)
    (filters self) (limit self) (sort_by self) (subqueries self)
    (distinct_ self) (op_memo self).

Definition set_queries (self : t) (q : list Select) : t :=
  mk (expr_ self) (query_expr self) (result_handler self) (context self) q
    (table_set self) (select_set self) (group_by self) (having self)
    (filters self) (limit self) (sort_by self) (subqueries self)
    (distinct_ self) (op_memo self).

Definition set_table_set (self : t) (ts : option expr) : t :=
  mk (expr_ self) (query_expr self) (result_handler self) (context self)
    (queries self) ts (select_set self) (group_by self) (having self)
    (filters self) (limit self) (sort_by self) (subqueries self)
    (distinct_ self) (op_memo self).

Definition set_select_set (self : t) (ss : option (list expr)) : t :=
  mk (expr_ self) (query_expr self) (result_handler self) (context self)
    (queries self) (table_set self) ss (group_by self) (having self)
    (filters self) (limit self) (sort_by self) (subqueries self)
    (distinct_ self) (op_memo self).

Definition set_filters (self : t) (fs : list expr) : t :=
  mk (expr_ self) (query_expr self) (result_handler self) (context self)
    (queries self) (table_set self) (select_set self) (group_by self)
    (having self) fs (limit self) (sort_by self) (subqueries self)
    (distinct_ self) (op_memo self).

Definition set_limit (self : t) (l : option (Z * Z)) : t :=
  mk (expr_ self) (query_expr self) (result_handler self) (context self)
    (queries self) (table_set self) (select_set self) (group_by self)
    (having self) (filters self) l (sort_by self) (subqueries self)
    (distinct_ self) (op_memo self).

Definition set_sort_by (self : t) (sk : list expr) : t :=
  mk (expr_ self) (query_expr self) (result_handler self) (context self)
    (queries self) (table_set self) (select_set self) (group_by self)
    (having self) (filters self) (limit self) sk (subqueries self)
    (distinct_ self) (op_memo self).

Definition set_subqueries (self : t) (sq : list expr) : t :=
  mk (expr_ self) (query_expr self) (result_handler self) (context self)
    (queries self) (table_set self) (select_set self) (group_by self)
    (having self) (filters self) (limit self) (sort_by self) sq
    (distinct_ self) (op_memo self).

Definition set_distinct (self : t) (b : bool) : t :=
  mk (expr_ self) (query_expr self) (result_handler self) (context self)
    (queries self) (table_set self) (select_set self) (group_by self)
    (having self) (filters self) (limit self) (sort_by self) (subqueries self)
    b (op_memo self).

Definition set_grouping (self : t) (g : option (list nat))
    (hv : option (list expr)) : t :=
  mk (expr_ self) (query_expr self) (result_handler self) (context self)
    (queries self) (table_set self) (select_set self) g hv
    (filters self) (limit self) (sort_by self) (subqueries self)
    (distinct_ self) (op_memo self).

Definition memoize (self : t) (n : node) : t :=
  mk (expr_ self) (query_expr self) (result_handler self) (context self)
    (queries self) (table_set self) (select_set self) (group_by self)
    (having self) (filters self) (limit self) (sort_by self) (subqueries self)
    (distinct_ self) ({[node_key n]} ∪ op_memo self).

(** [_adapt_expr]: a table expression passes through; other expressions
    are adapted to a table expression and a handler of the result. *)
Definition _adapt_expr (e : expr) : result (expr * handler) :=
  let _get_scalar := scalar_handler in
  let _get_column := column_handler in
  match class_of e with
  | ir.TableExpr => Ok (e, identity)
  | ir.BooleanScalar | ir.ScalarExpr =>
      if is_scalar_reduction e then
        let '(table_expr, name) := reduction_to_aggregation e "tmp" in
        Ok (table_expr, _get_scalar name)
      else
        match find_base_table e with
        | None =>
            match op e with
            | ops.ValueOp "ScalarParameter" _ _ =>
                match get_name e with
                | Ok name => Ok (e, _get_scalar name)
                | Raise _ => Raise AssertionError
                end
            | _ => Ok (name e "tmp", _get_scalar "tmp")
            end
        | Some _ => Raise NotImplementedError
        end
  | ir.AnalyticExpr => Ok (to_aggregation e, identity)
  | ir.ExprList =>
      match op e with
      | ops.ExpressionList exprs =>
          let is_aggregation := forallb is_scalar_reduction exprs in
          let any_aggregation := existsb is_scalar_reduction exprs in
          if is_aggregation then
            match exprs with
            | x :: _ =>
                match find_base_table x with
                | Some table => Ok (aggregate table exprs, identity)
                | None => Raise AttributeError
                end
            | [] => Raise IndexError
            end
          else if negb any_aggregation then Ok (e, identity)
          else Raise NotImplementedError
      | _ => Raise AttributeError
      end
  | ir.BooleanColumn | ir.ColumnExpr =>
      match op e with
      | ops.TableColumn col table =>
          Ok (projection table [get_column table col], _get_column col)
      | ops.ValueOp "DistinctColumn" _ (inl a :: _) =>
          let base_table := find_source_table e in
          let name_ := match get_name a with Ok n => n | Raise _ => "tmp" end in
          Ok (distinct (projection base_table [name a name_]),
              _get_column name_)
      | _ =>
          let base_table := find_source_table e in
          Ok (projection base_table [name e "tmp"], _get_column "tmp")
      end
  | ir.OtherExpr => Raise TranslationError
  end.

(** [SelectBuilder(expr, context)]. *)
Definition init (e : expr) (ctx : QueryContext) : result t :=
  '(query_expr, result_handler) ← _adapt_expr e;
  Ok (mk e query_expr result_handler ctx [] None None None None [] None []
        [] false ∅).

(** [_get_subtables]: the loop over the stack, one iteration per unit of
    fuel. *)
Fixpoint _get_subtables_loop (fuel : nat) (stack : list expr) (seen : gset key)
    (subtables : list expr) : result (list expr) :=
  match stack with
  | [] => Ok subtables
  | e :: stack =>
      match fuel with
      | 0 => Raise RecursionError
      | S fuel =>
          let o := op e in
          if bool_decide (node_key o ∈ seen)
          then _get_subtables_loop fuel stack seen subtables
          else
            let seen := {[node_key o]} ∪ seen in
            match o with
            | ops.Join _ l r _ =>
                _get_subtables_loop fuel (l :: r :: stack) seen subtables
            | _ => _get_subtables_loop fuel stack seen (subtables ++ [e])
            end
      end
  end.

Definition _get_subtables (e : expr) : result (list expr) :=
  _get_subtables_loop (expr_size e) [e] ∅ [].

Definition first_table_arg (args : list arg) : option expr :=
  head (omap (fun a => match a with
                       | inl a => if isinstance_TableExpr a then Some a else None
                       | inr _ => None
                       end) args).

Fixpoint _blocking_base (fuel : nat) (e : expr) : result (option expr) :=
  match fuel with
  | 0 => Raise RecursionError
  | S fuel =>
      let n := op e in
      if blocks n || isinstance_Join n then Ok (Some e)
      else
        match first_table_arg (flat_args n) with
        | Some a => _blocking_base fuel a
        | None => Ok None
        end
  end.

(** [base.equals(x)] for [x] among the bases found so far. *)
Definition equals_any (base : expr) (bases : list (option expr)) : bool :=
  existsb (fun x => match x with
                    | Some x => bool_decide (expr_key base = expr_key x)
                    | None => false
                    end) bases.

Fixpoint _all_distinct_roots_loop (subtables : list expr)
    (bases : list (option expr)) : result bool :=
  match subtables with
  | [] => Ok true
  | t :: rest =>
      base ← _blocking_base (expr_size t) t;
      match base, bases with
      | None, _ :: _ => Raise AttributeError
      | None, [] => _all_distinct_roots_loop rest (bases ++ [base])
      | Some b, _ =>
          if equals_any b bases then Ok false
          else _all_distinct_roots_loop rest (bases ++ [base])
      end
  end.

Definition _all_distinct_roots (subtables : list expr) : result bool :=
  _all_distinct_roots_loop subtables [].

Definition _sub (what : expr) : expr := substitute_parents what.

Definition _convert_group_by (exprs : list expr) : list nat :=
  seq 0 (length exprs).

(** *** Analysis of the table set *)

(** A [for] loop whose body may raise. *)
Definition for_result {S A} (body : S -> A -> result S) (st : S) (l : list A)
  : result S :=
  foldl (fun r x => st ← r; body st x) (Ok st) l.

(** [_collect_Join], which calls [_collect] back on the joined tables and
    tells whether they can be fused in the statement. *)
Definition _collect_Join (collect : t -> expr -> bool -> result t)
    (self : t) (e : expr) (toplevel : bool) : result (bool * t) :=
  let self :=
    if toplevel then
      let subbed := _sub e in
      set_select_set (set_table_set self (Some subbed)) (Some [subbed])
    else self in
  subtables ← _get_subtables e;
  can_substitute ← _all_distinct_roots subtables;
  if can_substitute : bool then
    self ← for_result (fun self table => collect self table false)
             self subtables;
    Ok (can_substitute, self)
  else Ok (can_substitute, self).

(** [_collect] and its other handlers, chosen by the name of the node class
    and then by [isinstance]. *)
Fixpoint _collect (fuel : nat) (self : t) (e : expr) (toplevel : bool)
  : result t :=
  match fuel with
  | 0 => Raise RecursionError
  | S fuel =>
      let o := op e in
      if bool_decide (node_key o ∈ op_memo self) then Ok self
      else
        self ←
          match o with
          | ops.Distinct table =>
              let self := if toplevel then set_distinct self true else self in
              _collect fuel self table toplevel
          | ops.Limit table n offset =>
              if negb toplevel then Ok self
              else
                let self :=
                  match limit self with
                  | None => set_limit self (Some (n, offset))
                  | Some _ => self
                  end in
                _collect fuel self table toplevel
          | ops.Union _ _ _ =>
              if toplevel then Raise NotImplementedError else Ok self
          | ops.Aggregation table _ _ _ _ _ =>
              if toplevel then
                match op (_sub e) with
                | ops.Aggregation sub_table metrics by_ having predicates sort_keys =>
                    let self := set_grouping self (Some (_convert_group_by by_))
                                  (Some having) in
                    let self := set_select_set self (Some (by_ ++ metrics)) in
                    let self := set_table_set self (Some sub_table) in
                    let self := set_filters self predicates in
                    let self := set_sort_by self sort_keys in
                    _collect fuel self table false
                | _ => Raise AttributeError
                end
              else Ok self
          | ops.Selection table selections predicates sort_keys =>
              if toplevel then
                '(can_sub, self) ←
                  (if isinstance_Join (op table)
                   then _collect_Join (_collect fuel) self table false
                   else self ← _collect fuel self table false;
                        Ok (false, self));
                '(selections, filters, sort_keys, table) ←
                  (if can_sub : bool then
                     match op (_sub e) with
                     | ops.Selection stable sselections spredicates ssort_keys =>
                         Ok (sselections, spredicates, ssort_keys, stable)
                     | _ => Raise AttributeError
                     end
                   else Ok (selections, predicates, sort_keys, table));
                let selections :=
                  match selections with [] => [table] | _ => selections end in
                let self := set_sort_by self sort_keys in
                let self := set_select_set self (Some selections) in
                let self := set_table_set self (Some table) in
                Ok (set_filters self filters)
              else Ok self
          | ops.MaterializedJoin join =>
              let self :=
                if toplevel then
                  let subbed := _sub join in
                  set_select_set (set_table_set self (Some subbed))
                    (Some [subbed])
                else self in
              '(_, self) ← _collect_Join (_collect fuel) self join false;
              Ok self
          | ops.PhysicalTable _ | ops.SQLQueryResult _ =>
              if toplevel
              then Ok (set_table_set (set_select_set self (Some [e])) (Some e))
              else Ok self
          | ops.SelfReference table =>
              if toplevel then _collect fuel self table toplevel else Ok self
          | ops.Join _ _ _ _ =>
              '(_, self) ← _collect_Join (_collect fuel) self e toplevel;
              Ok self
          | _ => Raise NotImplementedError
          end;
        Ok (memoize self o)
  end.

Definition _collect_elements (self : t) : result t :=
  let source_expr := query_expr self in
  let root_op := op source_expr in
  source_expr ←
    (if isinstance_Join root_op then materialize source_expr
     else Ok source_expr);
  if isinstance_TableNode root_op then
    self ← _collect (S (expr_size source_expr)) self source_expr true;
    match table_set self with
    | None => Raise InternalError
    | Some _ => Ok self
    end
  else
    match root_op with
    | ops.ExpressionList exprs => Ok (set_select_set self (Some exprs))
    | _ => Ok (set_select_set self (Some [source_expr]))
    end.

(** *** Analysis and rewrites of expressions *)

(** [expr._factory(type(op)(...))]: the node rebuilt over new arguments,
    in the class of the expression. *)
Definition _factory (e : expr) (n : node) : expr := Expr (class_of e) n.

Definition isinstance_Histogram (n : node) : bool :=
  match n with
  | ops.ValueOp name _ _ => bool_decide (name = "Histogram")
  | _ => false
  end.

(** The loop over the arguments of a value operation: the expressions among
    them are visited, the other arguments are kept. *)
Fixpoint visit_select_args (f : t -> expr -> result (expr * t)) (self : t)
    (args : list arg) : result (list arg * t) :=
  match args with
  | [] => Ok ([], self)
  | inl a :: rest =>
      '(a, self) ← f self a;
      '(rest, self) ← visit_select_args f self rest;
      Ok (inl a :: rest, self)
  | inr v :: rest =>
      '(rest, self) ← visit_select_args f self rest;
      Ok (inr v :: rest, self)
  end.

Fixpoint _visit_select_expr (self : t) (e : expr) : result (expr * t) :=
  let o := op e in
  if isinstance_Histogram o then
    '(new_expr, ts) ← visit_select_Histogram e (table_set self);
    Ok (new_expr, set_table_set self ts)
  else
    match e with
    | Expr _ (ops.TableColumn col table) =>
        '(table, self) ← _visit_select_expr self table;
        Ok (_factory e (ops.TableColumn col table), self)
    | Expr _ (ops.TableArrayView table) =>
        '(table, self) ← _visit_select_expr self table;
        Ok (_factory e (ops.TableArrayView table), self)
    | Expr _ (ops.Any a) =>
        '(a, self) ← _visit_select_expr self a;
        Ok (_factory e (ops.Any a), self)
    | Expr _ (ops.NotAny a) =>
        '(a, self) ← _visit_select_expr self a;
        Ok (_factory e (ops.NotAny a), self)
    | Expr _ (ops.SummaryFilter a) =>
        '(a, self) ← _visit_select_expr self a;
        Ok (_factory e (ops.SummaryFilter a), self)
    | Expr _ (ops.TopK a k b) =>
        '(a, self) ← _visit_select_expr self a;
        '(b, self) ← _visit_select_expr self b;
        Ok (_factory e (ops.TopK a k b), self)
    | Expr _ (ops.BinaryOp nm bl l r) =>
        '(l, self) ← _visit_select_expr self l;
        '(r, self) ← _visit_select_expr self r;
        Ok (_factory e (ops.BinaryOp nm bl l r), self)
    | Expr _ (ops.ValueOp nm bl args) =>
        '(new_args, self) ← visit_select_args _visit_select_expr self args;
        Ok (_factory e (ops.ValueOp nm bl new_args), self)
    | _ => Ok (e, self)
    end.

Fixpoint visit_all (f : t -> expr -> result (expr * t)) (self : t)
    (l : list expr) : result (list expr * t) :=
  match l with
  | [] => Ok ([], self)
  | e :: rest =>
      '(e, self) ← f self e;
      '(rest, self) ← visit_all f self rest;
      Ok (e :: rest, self)
  end.

Definition _analyze_select_exprs (self : t) : result t :=
  match select_set self with
  | None => Raise TypeError
  | Some select_set =>
      '(new_select_set, self) ← visit_all _visit_select_expr self select_set;
      Ok (set_select_set self (Some new_select_set))
  end.

Definition _rewrite_reduction_filter (e : expr) : expr :=
  let '(aggregation, _) := reduction_to_aggregation e "tmp" in
  to_array aggregation.

(** [_visit_filter_Any], also bound to [_visit_filter_NotAny].  The walk of
    the transform that runs out of fuel is a Python recursion that does not
    end. *)
Definition _visit_filter_Any (self : t) (e : expr) : result expr :=
  match table_set self with
  | None => Raise AttributeError
  | Some table_set =>
      let transform := _AnyToExistsTransform.init (context self) e table_set in
      match _AnyToExistsTransform.get_result transform with
      | Some r => Ok r
      | None => Raise RecursionError
      end
  end.

(** [_visit_filter_SummaryFilter] returns nothing and replaces the
    table-set. *)
Definition _visit_filter_SummaryFilter (self : t) (e : expr) : result t :=
  match op e with
  | ops.SummaryFilter summary_expr =>
      let rank_set :=
        topk_to_aggregation summary_expr "__tmp__" (table_set self) in
      match op summary_expr with
      | ops.TopK a _ _ =>
          nm ← get_name a;
          let pred := equals_ a (get_column rank_set nm) in
          match table_set self with
          | Some table_set =>
              Ok (set_table_set self (Some (semi_join table_set rank_set [pred])))
          | None => Raise AttributeError
          end
      | _ => Raise AttributeError
      end
  | _ => Raise AttributeError
  end.

(** The arguments a node is rebuilt over, when none of them is [None]. *)
Fixpoint all_present (visited : list (option expr + value))
  : option (list arg) :=
  match visited with
  | [] => Some []
  | inl (Some a) :: rest => cons (inl a) <$> all_present rest
  | inl None :: _ => None
  | inr v :: rest => cons (inr v) <$> all_present rest
  end.

(** [type(op)] called on the visited arguments: [built], the node of the
    class of [o] over them, when none of them is [None].  A visited
    argument is [None] when the visit of a top-K filter returned nothing;
    what the constructor makes of it is defined with the node classes. *)
Definition rebuild (o : node) (built : option node)
    (visited : list (option expr + value)) : result node :=
  match built with
  | Some n => Ok n
  | None => construct_over_None o visited
  end.

(** The loop over the arguments of a value operation in a filter: the
    expressions are visited, the other arguments are kept. *)
Fixpoint visit_filter_args (f : t -> expr -> result (option expr * t))
    (self : t) (args : list arg) : result (list (option expr + value) * t) :=
  match args with
  | [] => Ok ([], self)
  | inl a :: rest =>
      '(a, self) ← f self a;
      '(rest, self) ← visit_filter_args f self rest;
      Ok (inl a :: rest, self)
  | inr v :: rest =>
      '(rest, self) ← visit_filter_args f self rest;
      Ok (inr v :: rest, self)
  end.

(** [_visit_filter] returns the rewritten predicate, or [None] when the
    rewrite leaves no predicate. *)
Fixpoint _visit_filter (self : t) (e : expr) : result (option expr * t) :=
  match e with
  | Expr _ (ops.Any _) | Expr _ (ops.NotAny _) =>
      r ← _visit_filter_Any self e; Ok (Some r, self)
  | Expr _ (ops.SummaryFilter _) =>
      self ← _visit_filter_SummaryFilter self e; Ok (None, self)
  | Expr _ o =>
      if isinstance_ScalarExpr e && is_reduction e
      then Ok (Some (_rewrite_reduction_filter e), self)
      else
        match o with
        | ops.BinaryOp nm bl l r =>
            '(new_l, self) ← _visit_filter self l;
            '(new_r, self) ← _visit_filter self r;
            n ← rebuild o
                  (l ← new_l; r ← new_r; Some (ops.BinaryOp nm bl l r))
                  [inl new_l; inl new_r];
            Ok (Some (_factory e n), self)
        | ops.ValueOp _ true _ | ops.TableColumn _ _ | ops.Literal _ =>
            Ok (Some e, self)
        | ops.ValueOp nm false args =>
            '(visited, self) ← visit_filter_args _visit_filter self args;
            n ← rebuild o (ops.ValueOp nm false <$> all_present visited)
                  visited;
            Ok (Some (_factory e n), self)
        | ops.TableArrayView table =>
            '(visited, self) ← _visit_filter self table;
            n ← rebuild o (ops.TableArrayView <$> visited) [inl visited];
            Ok (Some (_factory e n), self)
        | ops.TopK a k b =>
            '(new_a, self) ← _visit_filter self a;
            '(new_b, self) ← _visit_filter self b;
            n ← rebuild o
                  (a ← new_a; b ← new_b; Some (ops.TopK a k b))
                  [inl new_a; inr (VInt k); inl new_b];
            Ok (Some (_factory e n), self)
        | _ => Raise NotImplementedError
        end
  end.

(** The loop of [_analyze_filter_exprs]: the predicates that a rewrite
    leaves are appended to [new_where]. *)
Fixpoint _analyze_filter_loop (self : t) (filters new_where : list expr)
  : result (list expr * t) :=
  match filters with
  | [] => Ok (new_where, self)
  | e :: rest =>
      '(new_expr, self) ← _visit_filter self e;
      match new_expr with
      | Some new_expr => _analyze_filter_loop self rest (new_where ++ [new_expr])
      | None => _analyze_filter_loop self rest new_where
      end
  end.

Definition _analyze_filter_exprs (self : t) : result t :=
  '(new_where, self) ← _analyze_filter_loop self (filters self) [];
  Ok (set_filters self new_where).

(** *** Subquery analysis *)

Fixpoint _analyze_subqueries_loop (self : t) (found : list expr) : t :=
  match found with
  | [] => self
  | e :: rest =>
      if negb (is_extracted (context self) e) then
        let self := set_subqueries self (subqueries self ++ [e]) in
        let self := set_context self (set_extracted (context self) e) in
        _analyze_subqueries_loop self rest
      else _analyze_subqueries_loop self rest
  end.

Definition _analyze_subqueries (self : t) : t :=
  let found := extract_subqueries (table_set self) (filters self) in
  let self := set_subqueries self [] in
  _analyze_subqueries_loop self found.

(** *** Aliases *)

Fixpoint _make_table_aliases (ctx : QueryContext) (e : expr) : QueryContext :=
  match e with
  | Expr _ (ops.Join _ l r _) =>
      let ctx := if isinstance_TableExpr l then _make_table_aliases ctx l else ctx in
      if isinstance_TableExpr r then _make_table_aliases ctx r else ctx
  | _ =>
      if negb (is_extracted ctx e) then make_alias ctx (op e)
      else set_ref ctx (op e) (get_ref (top_context ctx) (op e))
  end.

(** [_foreign_ref_check(query, expr)]; the checker works on the context of
    the builder, which keeps the aliases the check has made. *)
Definition _foreign_ref_check (self : t) (e : expr) : result (bool * t) :=
  match table_set self with
  | None => Raise AttributeError
  | Some table_set =>
      let checker := _CorrelatedRefCheck.init (context self) table_set e in
      match _CorrelatedRefCheck.get_result checker with
      | Some (r, checker) =>
          Ok (r, set_context self (_CorrelatedRefCheck.ctx checker))
      | None => Raise RecursionError
      end
  end.

Definition _populate_context (self : t) : result t :=
  let self :=
    match table_set self with
    | Some table_set =>
        set_context self (_make_table_aliases (context self) table_set)
    | None => self
    end in
  for_result
    (fun self e =>
       '(needs_alias, self) ← _foreign_ref_check self e;
       if needs_alias : bool
       then Ok (set_context self (set_always_alias (context self)))
       else Ok self)
    self (filters self).

(** *** The statement *)

Definition _select_class (self : t) : Select :=
  mkSelect (context self) (select_set self) (table_set self) (distinct_ self)
    (query_expr self) (filters self) (default [] (group_by self))
    (default [] (having self)) (sort_by self) (limit self) (subqueries self)
    2 (result_handler self).

Definition _build_result_query (self : t) : result (Select * t) :=
  self ← _collect_elements self;
  self ← _analyze_select_exprs self;
  self ← _analyze_filter_exprs self;
  let self := _analyze_subqueries self in
  self ← _populate_context self;
  Ok (_select_class self, self).

(** The class has no attribute [_wrap_result], and neither has a subclass
    in the sources: looking it up raises. *)
Definition _wrap_result (self : t) : result Select := Raise AttributeError.

Definition get_result (self : t) : result (Select * t) :=
  match queries self with
  | _ :: _ => r ← _wrap_result self; Ok (r, self)
  | [] =>
      '(select_query, self) ← _build_result_query self;
      let self := set_queries self (queries self ++ [select_query]) in
      Ok (select_query, self)
  end.

End defs.
End SelectBuilder.

(** ** Compilation of a select statement *)

(** [val.count('\n')] as a condition, and [s.split('\n')[-1]]. *)
Fixpoint has_newline (s : string) : bool :=
  match s with
  | EmptyString => false
  | String c s' => bool_decide (c = Ascii.ascii_of_nat 10) || has_newline s'
  end.

Fixpoint last_line (s : string) : string :=
  match s with
  | EmptyString => EmptyString
  | String c s' =>
      if has_newline s then
        if bool_decide (c = Ascii.ascii_of_nat 10) && negb (has_newline s')
        then s' else last_line s'
      else s
  end.

(** [filter(None, fragments)]: a fragment that is [None] or empty is
    dropped. *)
Definition present (fragments : list (option string)) : list string :=
  omap (fun f => match f with
                 | Some EmptyString | None => None
                 | Some s => Some s
                 end) fragments.

(** What the formatting of a statement raises: an exception of the compiler
    or of what it calls, or the [UnboundLocalError] of Python for a local
    variable that is read before it is bound. *)
Inductive raised :=
| Raised (e : exception)
| UnboundLocalError.

Inductive outcome (A : Type) :=
| Done (a : A)
| Fails (r : raised).
Arguments Done {A} a.
Arguments Fails {A} r.

#[global] Instance outcome_ret : MRet outcome := fun A a => Done a.
#[global] Instance outcome_bind : MBind outcome := fun A B k m =>
  match m with
  | Done a => k a
  | Fails r => Fails r
  end.

Definition run {A} (r : result A) : outcome A :=
  match r with
  | Ok a => Done a
  | Raise e => Fails (Raised e)
  end.

Module Select.
Section defs.
Context `{Externals}.

Definition _translate (self : Select) (e : expr) (named permit_subquery : bool)
  : result string :=
  translate (s_context self) e named permit_subquery.

Definition format_subqueries (self : Select) : result (option string) :=
  match s_subqueries self with
  | [] => Ok None
  | subqueries =>
      let context := s_context self in
      buf ← traverse
              (fun e =>
                 compiled ← get_compiled_expr context e;
                 let formatted := util_indent compiled 2 in
                 let alias := get_ref context (op e) in
                 Ok (fmt alias +:+ " AS (" +:+ nl +:+ formatted +:+ nl +:+ ")"))
              subqueries;
      Ok (Some ("WITH " +:+ join_str ("," +:+ nl) buf))
  end.

(** The first loop of [format_select_set].  The variable [expr_str] keeps
    its value of the iteration before when an item is neither a value nor a
    table expression, and is unbound when there is no iteration before. *)
Fixpoint format_select_items (self : Select) (select_set : list expr)
    (expr_str : option string) : outcome (list string) :=
  match select_set with
  | [] => Done []
  | e :: rest =>
      let context := s_context self in
      expr_str ←
        (if ir.is_ValueExpr (class_of e) then
           s ← run (_translate self e true false); Done (Some s)
         else if isinstance_TableExpr e then
           if need_aliases context then
             match get_ref context (op e) with
             | Some EmptyString | None => Done (Some "*")
             | Some alias => Done (Some (alias +:+ ".*"))
             end
           else Done (Some "*")
         else Done expr_str);
      match expr_str with
      | None => Fails UnboundLocalError
      | Some s =>
          formatted ← format_select_items self rest expr_str;
          Done (s :: formatted)
      end
  end.

Definition max_length : nat := 70.

(** One iteration of the second loop: the buffer, the length of the line
    being written and the number of items on it. *)
Definition wrap_step (indent : nat) (st : string * nat * nat) (i : nat)
    (val : string) : string * nat * nat :=
  let '(buf, line_length, tokens) := st in
  if has_newline val then
    let buf := if bool_decide (i <> 0) then buf +:+ "," else buf in
    let indented := util_indent val indent in
    (buf +:+ nl +:+ indented, String.length (last_line indented), 1)
  else if bool_decide (0 < tokens) && bool_decide (line_length <> 0)
          && bool_decide (max_length < String.length val + line_length) then
    let buf := if bool_decide (i <> 0)
               then buf +:+ ("," +:+ nl +:+ "       ") else buf +:+ nl in
    (buf +:+ val, String.length val + 7, 1)
  else
    let buf := if bool_decide (i <> 0) then buf +:+ "," else buf in
    (buf +:+ " " +:+ val, line_length + (String.length val + 2), tokens + 1).

Fixpoint wrap_loop (indent : nat) (st : string * nat * nat) (i : nat)
    (formatted : list string) : string * nat * nat :=
  match formatted with
  | [] => st
  | val :: rest => wrap_loop indent (wrap_step indent st i val) (S i) rest
  end.

Definition format_select_set (self : Select) : outcome string :=
  match s_select_set self with
  | None => Fails (Raised TypeError)
  | Some select_set =>
      formatted ← format_select_items self select_set None;
      let '(buf, _, _) :=
        wrap_loop (s_indent self) (EmptyString, 0, 0) 0 formatted in
      let select_key := if s_distinct self then "SELECT DISTINCT" else "SELECT" in
      Done (select_key +:+ buf)
  end.

Definition format_table_set (self : Select) : result (option string) :=
  match s_table_set self with
  | None => Ok None
  | Some table_set =>
      let helper := TableSetFormatter.init (s_context self) table_set in
      r ← TableSetFormatter.get_result helper;
      Ok (Some ("FROM " +:+ r))
  end.

Definition format_group_by (self : Select) : result (option string) :=
  match s_group_by self with
  | [] => Ok None
  | group_by =>
      let clause :=
        "GROUP BY " +:+ join_str ", " (map (fun x => pretty (x + 1)) group_by) in
      lines ←
        match s_having self with
        | [] => Ok [clause]
        | having =>
            trans_exprs ← traverse (fun e => _translate self e false false) having;
            Ok [clause; "HAVING " +:+ join_str " AND " trans_exprs]
        end;
      Ok (Some (join_str nl lines))
  end.

Definition format_where (self : Select) : result (option string) :=
  match s_where self with
  | [] => Ok None
  | where_ =>
      let npreds := length where_ in
      fmt_preds ←
        traverse
          (fun pred =>
             new_pred ← _translate self pred false true;
             Ok (if bool_decide (1 < npreds)
                 then "(" +:+ new_pred +:+ ")" else new_pred))
          where_;
      let conj := " AND" +:+ nl +:+ "      " in
      Ok (Some ("WHERE " +:+ join_str conj fmt_preds))
  end.

Definition format_order_by (self : Select) : result (option string) :=
  match s_order_by self with
  | [] => Ok None
  | order_by =>
      formatted ←
        traverse
          (fun e =>
             match op e with
             | ops.SortKey key_expr ascending =>
                 translated ← _translate self key_expr false false;
                 Ok (if ascending then translated else translated +:+ " DESC")
             | ops.SummaryFilter key_expr =>
                 (* a node with an [expr] and no [ascending] *)
                 _ ← _translate self key_expr false false;
                 Raise AttributeError
             | _ => Raise AttributeError
             end)
          order_by;
      Ok (Some ("ORDER BY " +:+ join_str ", " formatted))
  end.

Definition format_limit (self : Select) : option string :=
  match s_limit self with
  | None => None
  | Some (n, offset) =>
      Some ("LIMIT " +:+ pretty n
            +:+ (if bool_decide (offset <> 0%Z)
                 then " OFFSET " +:+ pretty offset else EmptyString))
  end.

(** [compile]; the context's note of the statement being compiled is read
    by the translator only. *)
Definition compile (self : Select) : outcome string :=
  with_frag ← run (format_subqueries self);
  select_frag ← format_select_set self;
  from_frag ← run (format_table_set self);
  where_frag ← run (format_where self);
  groupby_frag ← run (format_group_by self);
  order_frag ← run (format_order_by self);
  let limit_frag := format_limit self in
  Done (join_str nl
          (present [with_frag; Some select_frag; from_frag; where_frag;
                    groupby_frag; order_frag; limit_frag])).

End defs.
End Select.

(** ** Shapes named in the statements *)

Definition is_Union (e : expr) : bool :=
  match op e with ops.Union _ _ _ => true | _ => false end.

(** The right-recursive chain [t UNION[d1] (t1 UNION[d2] (t2 ...))]. *)
Fixpoint union_chain (t : expr) (rest : list (bool * expr)) : expr :=
  match rest with
  | [] => t
  | (d, t') :: rest' => to_table (ops.Union t (union_chain t' rest') d)
  end.

Definition physical (name : string) : expr :=
  to_table (ops.PhysicalTable (Some name)).

(** A join tree nested on the left only: no join has a join as its right
    operand. *)
Fixpoint left_deep (n : node) : bool :=
  match n with
  | ops.Join _ l r _ =>
      negb (isinstance_Join (op r))
      && (if isinstance_Join (op l) then left_deep (op l) else true)
  | _ => true
  end.

(** The tables of a join tree nested on the left, left to right, and its
    joins, innermost first. *)
Fixpoint spine_tables (n : node) : list expr :=
  match n with
  | ops.Join _ l r _ =>
      (if isinstance_Join (op l) then spine_tables (op l) else [l]) ++ [r]
  | _ => []
  end.

Fixpoint spine_joins (n : node) : list (ops.join_type * list expr) :=
  match n with
  | ops.Join how l r ps =>
      (if isinstance_Join (op l) then spine_joins (op l) else []) ++ [(how, ps)]
  | _ => []
  end.

Section formatter_shapes.
Context `{Externals}.

(** The state of the formatter after it has read off the joins of a tree. *)
Definition walked (self : TableSetFormatter.t) (o : node)
    (ts : list (option string)) : TableSetFormatter.t :=
  TableSetFormatter.mk
    (TableSetFormatter.context self) (TableSetFormatter.expr_ self)
    (TableSetFormatter.indent self)
    (TableSetFormatter.join_tables self ++ ts)
    (TableSetFormatter.join_types self ++ map (fun j => TableSetFormatter._join_names j.1) (spine_joins o))
    (TableSetFormatter.join_predicates self ++ map snd (spine_joins o)).

(** The tables a table-set joins. *)
Definition joined_tables (e : expr) : list expr :=
  if isinstance_Join (op e) then spine_tables (op e) else [e].

(** The join keywords, as the specification gives them: a fixed table
    from the type of a join to its keyword, each of them ending in JOIN. *)
Definition join_keyword (how : ops.join_type) : string :=
  match how with
  | ops.InnerJoin => "INNER"
  | ops.LeftJoin => "LEFT OUTER"
  | ops.RightJoin => "RIGHT OUTER"
  | ops.OuterJoin => "FULL OUTER"
  | ops.LeftAntiJoin => "LEFT ANTI"
  | ops.LeftSemiJoin => "LEFT SEMI"
  | ops.CrossJoin => "CROSS"
  end +:+ " JOIN".

(** [clause] is the text of one join with the text [table] of its right
    table: the line of the join keyword and the table, then the line of
    the predicates when there are any, every predicate translated and
    parenthesized exactly when the join has more than one. *)
Definition renders (ctx : QueryContext) (j : ops.join_type * list expr)
    (table : option string) (clause : string) : Prop :=
  exists fmt_preds : list string,
    Forall2 (fun p f => exists t,
               translate ctx p false false = Ok t
               /\ f = if bool_decide (1 < length j.2)
                      then "(" +:+ t +:+ ")" else t)
      j.2 fmt_preds
    /\ clause
       = nl +:+ util_indent (join_keyword j.1 +:+ " " +:+ fmt table) 2
         +:+ match j.2 with
             | [] => EmptyString
             | _ => nl +:+ util_indent
                             ("ON " +:+ join_str (" AND" +:+ nl +:+ "   ")
                                          fmt_preds) 4
             end.

(** The text of a table-set: the text of its first table, then one clause
    for each join and the table to its right, in the order of the joins,
    as many clauses as joins. *)
Definition rendered_joins (ctx : QueryContext)
    (joins : list (ops.join_type * list expr)) (tables : list (option string))
    (s : string) : Prop :=
  exists (first : string) (clauses : list string),
    head tables = Some (Some first)
    /\ length clauses = length joins
    /\ Forall2 (fun jt clause => renders ctx jt.1 jt.2 clause)
         (zip joins (tail tables)) clauses
    /\ s = first +:+ concat_str clauses.

End formatter_shapes.

Section correlated_shapes.
Context `{Hashing} `{ExprAPI}.

(** A root of the statement: a node that is one of the root tables of the
    table-set of the statement; nodes are compared by their keys. *)
Definition statement_root (table_set : expr) (n : node) : bool :=
  existsb (fun root => bool_decide (node_key root = node_key n))
    (_root_tables table_set).

(** The nodes at which the walk enters a subquery, as the specification
    lists them: views of a table as an array, existence predicates, and a
    column reference whose table is not a root of the statement. *)
Definition subquery_boundary (table_set : expr) (n : node) : bool :=
  match n with
  | ops.TableArrayView _ | ops.ExistsSubquery _ _ | ops.NotExistsSubquery _ _ =>
      true
  | ops.TableColumn _ table => negb (statement_root table_set (op table))
  | _ => false
  end.

(** The nodes the check classifies: physical tables and self-references. *)
Definition is_table_reference (n : node) : bool :=
  match n with
  | ops.PhysicalTable _ | ops.SelfReference _ => true
  | _ => false
  end.

(** The walk of the check over a predicate, without its caches.  A node is
    looked at as a value ([value_call]) or as a table ([table_call]), with
    the inside-a-subquery flag.  From a node looked at as a value the walk
    goes to every expression argument, a table expression as a table and
    another expression as a value, with the flag set when it was set or
    the node is a subquery boundary; from a node looked at as a table it
    goes to every expression argument as a value, with the same flag. *)
Inductive call :=
| value_call (n : node) (in_subquery : bool)
| table_call (n : node) (in_subquery : bool).

Inductive check_step (table_set : expr) : call -> call -> Prop :=
| step_value n s a :
    In (AExpr a) (flat_args n) -> isinstance_TableExpr a = false ->
    check_step table_set (value_call n s)
      (value_call (op a) (s || subquery_boundary table_set n))
| step_table n s a :
    In (AExpr a) (flat_args n) -> isinstance_TableExpr a = true ->
    check_step table_set (value_call n s)
      (table_call (op a) (s || subquery_boundary table_set n))
| step_below n s a :
    In (AExpr a) (flat_args n) ->
    check_step table_set (table_call n s) (value_call (op a) s).

(** The table references the walk from a call meets: the physical tables
    and self-references it looks at as tables, each with the flag it is
    looked at with. *)
Definition meets (table_set : expr) (c : call) (n : node) (s : bool) : Prop :=
  rtc (check_step table_set) c (table_call n s)
  /\ is_table_reference n = true.

(** The table references met by the walk of the predicate [root], which
    starts at the predicate looked at as a value, outside a subquery. *)
Definition encountered_table (table_set root : expr) (n : node) (s : bool)
  : Prop :=
  meets table_set (value_call (op root) false) n s.

(** The expressions below [root]. *)
Inductive subexpr (root : expr) : expr -> Prop :=
| subexpr_root : subexpr root root
| subexpr_child e a :
    subexpr root e -> In (AExpr a) (flat_args (op e)) -> subexpr root a.

(** Two expressions below [root] that the caches of the walk take for the
    same, by the key of their nodes or by their own key, have the same
    node. *)
Definition keys_identify_nodes (root : expr) : Prop :=
  forall a b, subexpr root a -> subexpr root b ->
    node_key (op a) = node_key (op b) \/ expr_key a = expr_key b ->
    op a = op b.

End correlated_shapes.

Section correlated_invariant.
Context `{Hashing} `{ExprAPI}.

(** The two flags of a checker say what its history holds: a root of the
    statement, respectively a foreign table, met inside a subquery. *)
Definition flags_of_history (table_set : expr) (self : _CorrelatedRefCheck.t)
  : Prop :=
  _CorrelatedRefCheck.has_query_root self
  = existsb (fun p => p.2 && statement_root table_set p.1)
      (_CorrelatedRefCheck.encountered self)
  /\ _CorrelatedRefCheck.has_foreign_root self
     = existsb (fun p => p.2 && negb (statement_root table_set p.1))
         (_CorrelatedRefCheck.encountered self).

(** Every entry of the history is a table reference that the walk of
    [root] meets, with the flag of that call. *)
Definition history_sound (table_set root : expr)
    (self : _CorrelatedRefCheck.t) : Prop :=
  Forall (fun p => encountered_table table_set root p.1 p.2)
    (_CorrelatedRefCheck.encountered self).

(** The roots of the checker are those of the table-set. *)
Definition roots_of (table_set : expr) (self : _CorrelatedRefCheck.t) : Prop :=
  forall n, _CorrelatedRefCheck.is_root self n = statement_root table_set n.

Definition walk_inv (table_set root : expr)
    (st : _CorrelatedRefCheck.walk_state) : Prop :=
  roots_of table_set st.1.1
  /\ flags_of_history table_set st.1.1 /\ history_sound table_set root st.1.1.

(** The history holds every table reference that the walk from the call
    [c] meets. *)
Definition recorded (table_set : expr) (c : call)
    (st : _CorrelatedRefCheck.walk_state) : Prop :=
  forall n s, meets table_set c n s ->
              In (n, s) (_CorrelatedRefCheck.encountered st.1.1).

(** The entries of the two caches for expressions below [root] of size [m]
    at most are calls whose table references the history holds. *)
Definition caches_closed (table_set root : expr) (m : nat)
    (st : _CorrelatedRefCheck.walk_state) : Prop :=
  (forall b s, subexpr root b -> (node_key (op b), s) ∈ st.1.2 ->
     expr_size b <= m -> recorded table_set (value_call (op b) s) st)
  /\ (forall b s c, subexpr root b -> st.2 = Some c -> (expr_key b, s) ∈ c ->
        expr_size b <= m -> recorded table_set (table_call (op b) s) st).

(** From [st] to [st'] the roots are kept, the history grows, and every
    entry that the caches have gained is a call whose table references the
    history holds. *)
Definition advanced (table_set root : expr)
    (st st' : _CorrelatedRefCheck.walk_state) : Prop :=
  _CorrelatedRefCheck.query_roots st'.1.1 = _CorrelatedRefCheck.query_roots st.1.1
  /\ incl (_CorrelatedRefCheck.encountered st.1.1)
       (_CorrelatedRefCheck.encountered st'.1.1)
  /\ (forall b s, subexpr root b -> (node_key (op b), s) ∈ st'.1.2 ->
        (node_key (op b), s) ∈ st.1.2
        \/ recorded table_set (value_call (op b) s) st')
  /\ (forall b s c', subexpr root b -> st'.2 = Some c' -> (expr_key b, s) ∈ c' ->
        (exists c, st.2 = Some c /\ (expr_key b, s) ∈ c)
        \/ recorded table_set (table_call (op b) s) st').

End correlated_invariant.

Section any_to_exists_shapes.
Context `{Hashing} `{ExprAPI}.

(** The walk of the lowering through the argument tree of a predicate,
    the arguments of a node read from left to right.  [walk e ps ts]:
    [ps] are the predicates collected and [ts] the table arguments met, in
    the order of the walk.  A table argument is met and not walked into;
    of a boolean column argument every conjunct is collected and then
    walked; another expression argument is walked. *)
Inductive walk : expr -> list expr -> list expr -> Prop :=
| walk_node e ps ts :
    walk_args (flat_args (op e)) ps ts -> walk e ps ts
with walk_args : list arg -> list expr -> list expr -> Prop :=
| walk_args_nil : walk_args [] [] []
| walk_args_value v rest ps ts :
    walk_args rest ps ts -> walk_args (AVal v :: rest) ps ts
| walk_args_table a rest ps ts :
    isinstance_TableExpr a = true ->
    walk_args rest ps ts -> walk_args (AExpr a :: rest) ps (a :: ts)
| walk_args_boolean a rest ps1 ts1 ps ts :
    isinstance_TableExpr a = false -> isinstance_BooleanColumn a = true ->
    walk_conjuncts (flatten_predicate a) ps1 ts1 ->
    walk_args rest ps ts ->
    walk_args (AExpr a :: rest) (ps1 ++ ps) (ts1 ++ ts)
| walk_args_other a rest ps1 ts1 ps ts :
    isinstance_TableExpr a = false -> isinstance_BooleanColumn a = false ->
    walk a ps1 ts1 ->
    walk_args rest ps ts ->
    walk_args (AExpr a :: rest) (ps1 ++ ps) (ts1 ++ ts)
with walk_conjuncts : list expr -> list expr -> list expr -> Prop :=
| walk_conjuncts_nil : walk_conjuncts [] [] []
| walk_conjuncts_cons p rest ps1 ts1 ps ts :
    walk p ps1 ts1 ->
    walk_conjuncts rest ps ts ->
    walk_conjuncts (p :: rest) (p :: ps1 ++ ps) (ts1 ++ ts).

Scheme walk_min := Minimality for walk Sort Prop
  with walk_args_min := Minimality for walk_args Sort Prop
  with walk_conjuncts_min := Minimality for walk_conjuncts Sort Prop.

(** What one argument of a node gives to the walk. *)
Inductive walk_arg : arg -> list expr -> list expr -> Prop :=
| walk_arg_value v : walk_arg (AVal v) [] []
| walk_arg_table a : isinstance_TableExpr a = true -> walk_arg (AExpr a) [] [a]
| walk_arg_boolean a ps ts :
    isinstance_TableExpr a = false -> isinstance_BooleanColumn a = true ->
    walk_conjuncts (flatten_predicate a) ps ts -> walk_arg (AExpr a) ps ts
| walk_arg_other a ps ts :
    isinstance_TableExpr a = false -> isinstance_BooleanColumn a = false ->
    walk a ps ts -> walk_arg (AExpr a) ps ts.

(** The blocking table of a table expression: the expression itself when
    its node blocks, and otherwise the blocking table of the first of its
    expression arguments, from left to right, that has one; [None] when
    there is none. *)
Inductive blocking_table : expr -> option expr -> Prop :=
| blocking_here e :
    blocks (op e) = true -> blocking_table e (Some e)
| blocking_below e r :
    blocks (op e) = false ->
    first_blocking (flat_args (op e)) r -> blocking_table e r
with first_blocking : list arg -> option expr -> Prop :=
| first_blocking_nil : first_blocking [] None
| first_blocking_value v rest r :
    first_blocking rest r -> first_blocking (AVal v :: rest) r
| first_blocking_found a rest b :
    blocking_table a (Some b) -> first_blocking (AExpr a :: rest) (Some b)
| first_blocking_next a rest r :
    blocking_table a None ->
    first_blocking rest r -> first_blocking (AExpr a :: rest) r.

(** A table is foreign to the table-set [parent_table] when it has a
    blocking table that is not one of the root tables of the table-set;
    nodes are compared by their keys. *)
Definition foreign_to (parent_table t : expr) : Prop :=
  exists base_table,
    blocking_table t (Some base_table)
    /\ ~ exists root, In root (_root_tables parent_table)
                      /\ node_key root = node_key (op base_table).

(** The foreign table after the tables [tables] are met in this order:
    the last of them that is foreign to the table-set, and [before] when
    none of them is. *)
Definition last_foreign (parent_table : expr) (before : option expr)
    (tables : list expr) (after : option expr) : Prop :=
  (after = before
   /\ Forall (fun t => ~ foreign_to parent_table t) tables)
  \/ (exists l t r,
        tables = l ++ t :: r
        /\ foreign_to parent_table t
        /\ Forall (fun u => ~ foreign_to parent_table u) r
        /\ after = Some t).

(** The transform after a part of the walk that collects [ps] and meets
    [ts]. *)
Definition walked_over (parent_table : expr) (ps ts : list expr)
    (self self' : _AnyToExistsTransform.t) : Prop :=
  _AnyToExistsTransform.query_roots self'
  = _AnyToExistsTransform.query_roots self
  /\ _AnyToExistsTransform.expr_ self' = _AnyToExistsTransform.expr_ self
  /\ _AnyToExistsTransform.predicates self'
     = _AnyToExistsTransform.predicates self ++ ps
  /\ last_foreign parent_table (_AnyToExistsTransform.foreign_table self) ts
       (_AnyToExistsTransform.foreign_table self').

End any_to_exists_shapes.

(** The limit node that collection at the top level reaches first: the
    root, or the one below distinct and self-reference nodes. *)
Fixpoint outermost_limit (e : expr) : option (Z * Z) :=
  match e with
  | Expr _ (ops.Limit _ n offset) => Some (n, offset)
  | Expr _ (ops.Distinct table) | Expr _ (ops.SelfReference table) =>
      outermost_limit table
  | _ => None
  end.

(** The computation ends within its fuel. *)
Definition within_fuel {A} (r : result A) : Prop := r <> Raise RecursionError.

(** ** The query builder *)

Section QueryBuilder.
Context `{Hashing} `{ExprAPI}.

(** A statement of one of the four kinds the builder makes. *)
Inductive query :=
| UnionQuery (u : Union.t)
| IntersectionQuery (i : Intersection.t)
| DifferenceQuery (d : Difference.t)
| SelectQuery (s : Select).

(** [QueryAST]: the context, the statement, and the setup and teardown
    statements. *)
Record QueryAST := mkQueryAST {
  ast_context : QueryContext;
  ast_query : query;
  setup_queries : list string;
  teardown_queries : list string;
}.

Definition generate_setup_queries (self : QueryBuilder) : list string := [].
Definition generate_teardown_queries (self : QueryBuilder) : list string := [].

Definition _make_select (self : QueryBuilder) : result Select :=
  builder ← SelectBuilder.init (qb_expr self) (qb_context self);
  '(q, _) ← SelectBuilder.get_result builder;
  Ok q.

Definition QueryBuilder_get_result (self : QueryBuilder) : result QueryAST :=
  let o := op (qb_expr self) in
  let setup_queries := generate_setup_queries self in
  let teardown_queries := generate_teardown_queries self in
  q ← match o with
      | ops.Union _ _ _ => u ← _make_union self; Ok (UnionQuery u)
      | ops.Intersection _ _ => Ok (IntersectionQuery (_make_intersect self))
      | ops.Difference _ _ => Ok (DifferenceQuery (_make_difference self))
      | _ => s ← _make_select self; Ok (SelectQuery s)
      end;
  Ok (mkQueryAST (qb_context self) q setup_queries teardown_queries).

End QueryBuilder.

(** ** Shapes named in the further properties *)

(** The operands of a tree of unions, left to right, and the flags of its
    union nodes in the same order. *)
Fixpoint union_operands (e : expr) : list expr :=
  match e with
  | Expr _ (ops.Union l r _) => union_operands l ++ union_operands r
  | _ => [e]
  end.

Fixpoint union_flags (e : expr) : list bool :=
  match e with
  | Expr _ (ops.Union l r d) => union_flags l ++ d :: union_flags r
  | _ => []
  end.

(** The tables and the flags among the entries of an operand list. *)
Definition entry_tables (l : list item) : list expr :=
  omap (fun x => match x with inl t => Some t | inr _ => None end) l.

Definition entry_flags (l : list item) : list bool :=
  omap (fun x => match x with inl _ => None | inr d => Some d end) l.

(** The table that collection at the top level reaches below the distinct,
    limit and self-reference nodes of the root. *)
Fixpoint collected_root (e : expr) : expr :=
  match e with
  | Expr _ (ops.Distinct table) | Expr _ (ops.Limit table _ _)
  | Expr _ (ops.SelfReference table) => collected_root table
  | _ => e
  end.

(** Whether a distinct node is among them. *)
Fixpoint has_distinct (e : expr) : bool :=
  match e with
  | Expr _ (ops.Distinct _) => true
  | Expr _ (ops.Limit table _ _) | Expr _ (ops.SelfReference table) =>
      has_distinct table
  | _ => false
  end.

Definition is_set_operation (n : node) : bool :=
  match n with
  | ops.Union _ _ _ | ops.Intersection _ _ | ops.Difference _ _ => true
  | _ => false
  end.

Definition is_SummaryFilter (e : expr) : bool :=
  match op e with ops.SummaryFilter _ => true | _ => false end.

(** An expression without a histogram where the analysis of the select-set
    looks. *)
Fixpoint no_histogram (e : expr) : bool :=
  match e with
  | Expr _ o =>
      negb (SelectBuilder.isinstance_Histogram o)
      && match o with
         | ops.TableColumn _ a | ops.TableArrayView a | ops.Any a
         | ops.NotAny a | ops.SummaryFilter a => no_histogram a
         | ops.TopK a _ b | ops.BinaryOp _ _ a b =>
             no_histogram a && no_histogram b
         | ops.ValueOp _ _ args =>
             forallb (fun a => match a with
                               | inl x => no_histogram x
                               | inr _ => true
                               end) args
         | _ => true
         end
  end.

(** The tables of a tree of joins nested on either side, left to right,
    and all the nodes of the tree. *)
Fixpoint join_leaves (e : expr) : list expr :=
  match e with
  | Expr _ (ops.Join _ l r _) => join_leaves l ++ join_leaves r
  | _ => [e]
  end.

Fixpoint join_nodes (e : expr) : list expr :=
  match e with
  | Expr _ (ops.Join _ l r _) => e :: join_nodes l ++ join_nodes r
  | _ => [e]
  end.

Section subtable_shapes.
Context `{Hashing}.

(** The loop of [_get_subtables] read as a walk of the tree: the seen set
    and the list of subtables after the expression and all that it pushes
    on the stack have been popped. *)
Fixpoint subtables_walk (e : expr) (st : gset key * list expr)
  : gset key * list expr :=
  match e with
  | Expr _ (ops.Join _ l r _) =>
      if bool_decide (node_key (op e) ∈ st.1) then st
      else subtables_walk r (subtables_walk l ({[node_key (op e)]} ∪ st.1, st.2))
  | _ =>
      if bool_decide (node_key (op e) ∈ st.1) then st
      else ({[node_key (op e)]} ∪ st.1, st.2 ++ [e])
  end.

(** The keys of the nodes of a list of tables. *)
Definition keys_of (l : list expr) : list key :=
  map (fun t => node_key (op t)) l.

(** Every table joined below [e] has its key among those of [subs]. *)
Definition covered (e : expr) (subs : list expr) : Prop :=
  forall t, In t (join_leaves e) -> In (node_key (op t)) (keys_of subs).

(** Among the nodes of [root] whose key is seen, those of size [m] at most
    have their tables covered. *)
Definition closed_upto (root : expr) (m : nat) (seen : gset key)
    (subs : list expr) : Prop :=
  forall x, In x (join_nodes root) -> node_key (op x) ∈ seen ->
            expr_size x <= m -> covered x subs.

(** Two nodes of [root] with the same key are the same node. *)
Definition keys_identify (root : expr) : Prop :=
  forall a b, In a (join_nodes root) -> In b (join_nodes root) ->
              node_key (op a) = node_key (op b) -> op a = op b.

End subtable_shapes.

Section checker_shapes.
Context `{Hashing} `{ExprAPI}.

(** What the correlated-reference check may do to a context: it keeps the
    aliases there are, gives no alias to a root of the statement, and leaves
    the extraction set, the always-alias flag and the parent alone. *)
Definition aliases_grown (roots : gset key) (c c' : QueryContext) : Prop :=
  table_refs c ⊆ table_refs c'
  /\ (forall k, k ∈ roots -> table_refs c' !! k = table_refs c !! k)
  /\ extracted_subexprs c' = extracted_subexprs c
  /\ always_alias c' = always_alias c
  /\ parent c' = parent c.

End checker_shapes.

Section builder_shapes.
Context `{Hashing} `{ExprAPI}.

(** A predicate that the filter analysis has nothing to rewrite in: where
    the analysis looks, there is no existence test, no top-K filter and no
    reduction, and every node is one it handles. *)
Fixpoint plain_filter (e : expr) : bool :=
  match e with
  | Expr c o =>
      match o with
      | ops.Any _ | ops.NotAny _ | ops.SummaryFilter _ => false
      | _ =>
          negb (ir.is_ScalarExpr c && is_reduction e)
          && match o with
             | ops.BinaryOp _ _ l r => plain_filter l && plain_filter r
             | ops.ValueOp _ true _ | ops.TableColumn _ _ | ops.Literal _ => true
             | ops.ValueOp _ false args =>
                 forallb (fun a => match a with
                                   | inl x => plain_filter x
                                   | inr _ => true
                                   end) args
             | ops.TableArrayView table => plain_filter table
             | ops.TopK a _ b => plain_filter a && plain_filter b
             | _ => false
             end
      end
  end.

(** The builder with another memo of visited nodes. *)
Definition with_memo (self : SelectBuilder.t) (memo : gset key)
  : SelectBuilder.t :=
  SelectBuilder.mk (SelectBuilder.expr_ self) (SelectBuilder.query_expr self)
    (SelectBuilder.result_handler self) (SelectBuilder.context self)
    (SelectBuilder.queries self) (SelectBuilder.table_set self)
    (SelectBuilder.select_set self) (SelectBuilder.group_by self)
    (SelectBuilder.having self) (SelectBuilder.filters self)
    (SelectBuilder.limit self) (SelectBuilder.sort_by self)
    (SelectBuilder.subqueries self) (SelectBuilder.distinct_ self) memo.

(** The blocking bases of a list of tables, when each of them has one. *)
Definition blocking_bases (subtables bases : list expr) : Prop :=
  Forall2 (fun t b => SelectBuilder._blocking_base (expr_size t) t = Ok (Some b))
    subtables bases.

(** A predicate without a top-K filter where the filter analysis looks:
    the analysis goes through the operands of a binary operation and the
    arguments of a value operation that is not a boolean one, and not into
    an existence test, a reduction, a column or a literal. *)
Fixpoint summary_free (e : expr) : bool :=
  match e with
  | Expr c o =>
      match o with
      | ops.SummaryFilter _ => false
      | ops.Any _ | ops.NotAny _ => true
      | _ =>
          (ir.is_ScalarExpr c && is_reduction e)
          || match o with
             | ops.BinaryOp _ _ l r => summary_free l && summary_free r
             | ops.ValueOp _ false args =>
                 forallb (fun a => match a with
                                   | inl x => summary_free x
                                   | inr _ => true
                                   end) args
             | ops.TableArrayView table => summary_free table
             | ops.TopK a _ b => summary_free a && summary_free b
             | _ => true
             end
      end
  end.

(** The builder after a visit differs from the one before by its table-set
    at most. *)
Definition table_set_framed (self self' : SelectBuilder.t) : Prop :=
  self' = SelectBuilder.set_table_set self (SelectBuilder.table_set self').

(** What a visit of a filter returns: nothing exactly for a top-K filter,
    and a builder that differs by its table-set at most. *)
Definition filter_visited (self : SelectBuilder.t) (e : expr)
    (o : option expr) (self' : SelectBuilder.t) : Prop :=
  table_set_framed self self'
  /\ (is_SummaryFilter e = true <-> o = None).

(** The arguments of a node as visits that returned them hand them on. *)
Definition as_visited (args : list arg) : list (option expr + value) :=
  map (fun a => match a with inl e => inl (Some e) | inr v => inr v end) args.

End builder_shapes.

(** ** Shapes of the text of a statement *)

Definition starts_with (prefix s : string) : Prop :=
  exists rest, s = prefix +:+ rest.

(** A clause that is written exactly when its part of the statement is
    there, and then opens with its keyword. *)
Definition clause_of (there : bool) (keyword : string) (clause : option string)
  : Prop :=
  if there then exists text, clause = Some text /\ starts_with keyword text
  else clause = None.

Definition nonempty {A} (l : list A) : bool :=
  match l with [] => false | _ => true end.

Definition given {A} (o : option A) : bool :=
  match o with Some _ => true | None => false end.

Section statement_shapes.
Context `{Externals}.

(** The text of one item of the select-set: a value expression is
    translated with its name; a table expression is a star, prefixed by the
    alias of the table when the context asks for aliases and has one. *)
Definition select_item (self : Select) (e : expr) (text : string) : Prop :=
  (ir.is_ValueExpr (class_of e) = true
   /\ translate (s_context self) e true false = Ok text)
  \/ (ir.is_ValueExpr (class_of e) = false
      /\ isinstance_TableExpr e = true
      /\ text = if need_aliases (s_context self) then
                  match get_ref (s_context self) (op e) with
                  | Some EmptyString | None => "*"
                  | Some alias => alias +:+ ".*"
                  end
                else "*").

(** The text of one sort key: the translation of its expression, followed
    by DESC when the key is descending. *)
Definition sort_key_text (self : Select) (key : expr) (text : string) : Prop :=
  exists e ascending t,
    op key = ops.SortKey e ascending
    /\ translate (s_context self) e false false = Ok t
    /\ text = if ascending : bool then t else t +:+ " DESC".

(** The text of one subquery of the WITH clause: its alias (printed as
    [None] when it has none), then its compiled text, indented by two, in
    parentheses on lines of their own. *)
Definition with_text (self : Select) (e : expr) (text : string) : Prop :=
  exists compiled,
    get_compiled_expr (s_context self) e = Ok compiled
    /\ text = fmt (get_ref (s_context self) (op e)) +:+ " AS (" +:+ nl
              +:+ util_indent compiled 2 +:+ nl +:+ ")".

(** The text of one predicate of the WHERE clause: its translation, where a
    subquery is permitted, in parentheses when the clause has more than one
    predicate. *)
Definition where_text (self : Select) (p : expr) (text : string) : Prop :=
  exists t,
    translate (s_context self) p false true = Ok t
    /\ text = if bool_decide (1 < length (s_where self))
              then "(" +:+ t +:+ ")" else t.

End statement_shapes.

(** ** The backend

    [BaseBackend] of [backends/base/__init__.py].  The two dialect classes
    are objects shared by all backends: the property [dialect] stores the
    translator of the backend in the class it returns.  The translator
    classes, the parameters of a compilation, [make_context] of a dialect
    class and [compile] of a query AST are defined outside the sources. *)
Module BaseBackend.
Section defs.
Context `{Hashing}.
Context {translator params ast : Type}.

Inductive dialect_class := AlchemyDialect | Dialect.

(** The attribute [translator] of the two classes. *)
Record classes := mk_classes {
  alchemy_translator : translator;
  dialect_translator : translator;
}.

Definition translator_of (st : classes) (c : dialect_class) : translator :=
  match c with
  | AlchemyDialect => alchemy_translator st
  | Dialect => dialect_translator st
  end.

Definition set_translator (st : classes) (c : dialect_class) (tr : translator)
  : classes :=
  match c with
  | AlchemyDialect => mk_classes tr (dialect_translator st)
  | Dialect => mk_classes (alchemy_translator st) tr
  end.

Variable make_context : dialect_class -> classes -> params -> result QueryContext.
Variable ast_compile : ast -> result string.

(** A backend: its abstract properties.  [builder] stands for
    [self.builder(expr, context=context).get_result()], which returns a
    query AST or a list of them; a backend may have no builder. *)
Record t := mk {
  name : string;
  kind : string;
  builder : option (expr -> QueryContext -> result (ast + list ast));
  translator_ : translator;
}.

Definition dialect (self : t) (st : classes) : classes * result dialect_class :=
  if bool_decide (kind self = "sqlalchemy") then
    (set_translator st AlchemyDialect (translator_ self), Ok AlchemyDialect)
  else if bool_decide (kind self ∈ ["sql"; "pandas"; "spark"]) then
    (set_translator st Dialect (translator_ self), Ok Dialect)
  else (st, Raise ValueError).

Definition compile (self : t) (st : classes) (e : expr) (p : params)
  : classes * result string :=
  let '(st, d) := dialect self st in
  (st,
   dialect_class ← d;
   context ← make_context dialect_class st p;
   query_ast ← match builder self with
               | Some b => b e context
               | None => Raise TypeError
               end;
   query_ast ← match query_ast with
               | inl a => Ok a
               | inr (a :: _) => Ok a
               | inr [] => Raise IndexError
               end;
   ast_compile query_ast).

Definition verify (self : t) (st : classes) (e : expr) (p : params)
  : classes * result bool :=
  let '(st, r) := compile self st e p in
  (st,
   match r with
   | Ok _ => Ok true
   | Raise TranslationError => Ok false
   | Raise err => Raise err
   end).

(** The backend of [backends/dask/__init__.py]. *)
Definition dask (DaskExprTranslator : translator) : t :=
  mk "dask" "pandas" None DaskExprTranslator.

End defs.
End BaseBackend.

(** ** A small instance of the interfaces, for examples

    Nodes are keyed by their printed form; the expression interface covers
    plain tables and columns, and the dialect prints an expression as it
    is. *)

Module Example.

Definition class_repr (c : ir.class) : string :=
  match c with
  | ir.TableExpr => "TableExpr"
  | ir.BooleanColumn => "BooleanColumn"
  | ir.BooleanScalar => "BooleanScalar"
  | ir.ColumnExpr => "ColumnExpr"
  | ir.ScalarExpr => "ScalarExpr"
  | ir.AnalyticExpr => "AnalyticExpr"
  | ir.ExprList => "ExprList"
  | ir.OtherExpr => "Expr"
  end.

Definition value_repr (v : value) : string :=
  match v with
  | VNone => "None"
  | VBool b => if b then "True" else "False"
  | VInt z => pretty z
  | VStr s => s
  end.

Definition call (f : string) (args : list string) : string :=
  f +:+ "(" +:+ join_str ", " args +:+ ")".

Definition list_repr (l : list string) : string :=
  "[" +:+ join_str ", " l +:+ "]".

Fixpoint repr (e : expr) : string :=
  match e with
  | Expr _ n => node_repr n
  end
with node_repr (n : node) : string :=
  let opt o := match o with Some e => repr e | None => "None" end in
  match n with
  | ops.PhysicalTable name => call "PhysicalTable" [fmt name]
  | ops.SQLQueryResult q => call "SQLQueryResult" [q]
  | ops.SelfReference t => call "SelfReference" [repr t]
  | ops.Join how l r ps =>
      call (TableSetFormatter._join_names how)
        [repr l; repr r; list_repr (map repr ps)]
  | ops.MaterializedJoin j => call "MaterializedJoin" [repr j]
  | ops.Selection t sel ps sk =>
      call "Selection"
        [repr t; list_repr (map repr sel); list_repr (map repr ps);
         list_repr (map repr sk)]
  | ops.Aggregation t ms bys hv ps sk =>
      call "Aggregation"
        [repr t; list_repr (map repr ms); list_repr (map repr bys);
         list_repr (map repr hv); list_repr (map repr ps);
         list_repr (map repr sk)]
  | ops.Distinct t => call "Distinct" [repr t]
  | ops.Limit t n off => call "Limit" [repr t; pretty n; pretty off]
  | ops.Union l r d => call "Union" [repr l; repr r; value_repr (VBool d)]
  | ops.Intersection l r => call "Intersection" [repr l; repr r]
  | ops.Difference l r => call "Difference" [repr l; repr r]
  | ops.TableColumn name t => call "TableColumn" [name; repr t]
  | ops.TableArrayView t => call "TableArrayView" [repr t]
  | ops.ExistsSubquery ft ps =>
      call "ExistsSubquery" [opt ft; list_repr (map repr ps)]
  | ops.NotExistsSubquery ft ps =>
      call "NotExistsSubquery" [opt ft; list_repr (map repr ps)]
  | ops.Literal v => call "Literal" [value_repr v]
  | ops.Any a => call "Any" [repr a]
  | ops.NotAny a => call "NotAny" [repr a]
  | ops.TopK a k b => call "TopK" [repr a; pretty k; repr b]
  | ops.SummaryFilter a => call "SummaryFilter" [repr a]
  | ops.SortKey a asc => call "SortKey" [repr a; value_repr (VBool asc)]
  | ops.BinaryOp nm _ l r => call nm [repr l; repr r]
  | ops.ValueOp nm _ args =>
      call nm (map (fun a => match a with
                             | inl e => repr e
                             | inr v => value_repr v
                             end) args)
  | ops.ExpressionList es => call "ExpressionList" [list_repr (map repr es)]
  end.

Definition hashing : Hashing :=
  {| key := string;
     node_key := node_repr;
     expr_key := fun e => class_repr (class_of e) +:+ ":" +:+ repr e |}.

(** The root tables of a table expression: the tables of its join tree. *)
Fixpoint root_tables (e : expr) : list node :=
  match e with
  | Expr _ (ops.Join _ l r _) => root_tables l ++ root_tables r
  | Expr _ n => [n]
  end.

(** The conjuncts of a predicate. *)
Fixpoint conjuncts (e : expr) : list expr :=
  match e with
  | Expr _ (ops.BinaryOp nm _ l r) =>
      if bool_decide (nm = "And") then conjuncts l ++ conjuncts r else [e]
  | _ => [e]
  end.

Definition blocking (n : node) : bool :=
  match n with
  | ops.Selection _ sel _ _ => bool_decide (sel <> [])
  | ops.Join _ _ _ _ => false
  | _ => isinstance_TableNode n
  end.

(** The node constructors coerce [None] to the null literal. *)
Definition null_literal : expr := Expr ir.ScalarExpr (ops.Literal VNone).

Definition over_null (o : node) (visited : list (option expr + value))
  : result node :=
  let args :=
    map (fun a => match a with
                  | inl (Some e) => inl e
                  | inl None => inl null_literal
                  | inr v => inr v
                  end) visited in
  match o, args with
  | ops.BinaryOp nm bl _ _, [inl l; inl r] => Ok (ops.BinaryOp nm bl l r)
  | ops.ValueOp nm b _, _ => Ok (ops.ValueOp nm b args)
  | ops.TableArrayView _, [inl t] => Ok (ops.TableArrayView t)
  | ops.TopK _ k _, [inl a; _; inl b] => Ok (ops.TopK a k b)
  | _, _ => Raise TypeError
  end.

Definition api : ExprAPI :=
  {| _root_tables := root_tables;
     blocks := blocking;
     flatten_predicate := conjuncts;
     is_reduction := fun _ => false;
     is_scalar_reduction := fun _ => false;
     reduction_to_aggregation := fun e nm => (e, nm);
     substitute_parents := fun e => e;
     find_base_table := fun _ => None;
     find_source_table := fun e => e;
     get_name := fun e =>
       match op e with
       | ops.TableColumn nm _ => Ok nm
       | _ => Raise ValueError
       end;
     name := fun e _ => e;
     to_aggregation := fun e => e;
     topk_to_aggregation := fun e nm parent =>
       match op e, parent with
       | ops.TopK a _ b, Some t => to_table (ops.Aggregation t [b] [a] [] [] [])
       | _, _ => e
       end;
     to_array := fun e => Expr ir.ColumnExpr (ops.TableArrayView e);
     aggregate := fun t es => to_table (ops.Aggregation t es [] [] [] []);
     projection := fun t es => to_table (ops.Selection t es [] []);
     distinct := fun t => to_table (ops.Distinct t);
     get_column := fun t nm => Expr ir.ColumnExpr (ops.TableColumn nm t);
     visit_select_Histogram := fun e ts => Ok (e, ts);
     extract_subqueries := fun _ _ => [];
     overlapping_columns := fun _ => false;
     construct_over_None := over_null |}.

Definition spaces (n : nat) : string := concat_str (replicate n " ").

Definition externals : @Externals hashing :=
  {| quote_identifier := fun s => "`" +:+ s +:+ "`";
     util_indent := fun text n => spaces n +:+ text;
     translate := fun _ e _ _ => Ok (repr e);
     get_compiled_expr := fun _ e => Ok (repr e) |}.

(** Tables, a column and a comparison to build examples from. *)
Definition column (c : string) (t : expr) : expr :=
  Expr ir.ColumnExpr (ops.TableColumn c t).

Definition inner_join (l r : expr) (ps : list expr) : expr :=
  to_table (ops.Join ops.InnerJoin l r ps).

End Example.

Section example_values.
#[local] Existing Instance Example.hashing.
#[local] Existing Instance Example.api.

(** Three tables, a join nested on the left, a top-K filter and a builder
    that has collected a table and a list of filters. *)
Definition table_a : expr := physical "a".
Definition table_b : expr := physical "b".
Definition table_c : expr := physical "c".

Definition same_key (l r : expr) : expr :=
  equals_ (Example.column "k" l) (Example.column "k" r).

Definition join_abc : expr :=
  Example.inner_join
    (Example.inner_join table_a table_b [same_key table_a table_b])
    table_c
    [same_key table_a table_c; same_key table_b table_c].

Definition top_k_filter : expr :=
  Expr ir.BooleanColumn
    (ops.SummaryFilter
       (Expr ir.AnalyticExpr
          (ops.TopK (Example.column "k" table_a) 3 (Example.column "v" table_a)))).

Definition collected_builder (ts : expr) (filters : list expr)
  : SelectBuilder.t :=
  SelectBuilder.mk ts ts identity empty_context [] (Some ts) (Some [ts])
    None None filters None [] [] false ∅.

(** [any(a.k == b.k)] as a filter of a statement over [a]. *)
Definition any_filter : expr :=
  Expr ir.BooleanColumn (ops.Any (same_key table_a table_b)).

(** [EXISTS (SELECT 1 FROM b WHERE a.k = b.k)] as a filter of a statement
    over [a]. *)
Definition exists_filter : expr :=
  Expr ir.BooleanColumn
    (ops.ExistsSubquery (Some table_b) [same_key table_a table_b]).

Definition limit_limit : expr :=
  to_table (ops.Limit (to_table (ops.Limit table_a 5 0)) 10 2).

(** The value of a computation known not to raise. *)
Definition result_get {A} (d : A) (r : result A) : A :=
  match r with Ok a => a | Raise _ => d end.

(** The builders over the table [a] and over the two nested limits, and
    what their first [get_result] returns. *)
Definition builder_a : SelectBuilder.t :=
  Eval vm_compute in
    result_get (collected_builder table_a [])
      (SelectBuilder.init table_a empty_context).

Definition built_a : Select * SelectBuilder.t :=
  Eval vm_compute in
    result_get (SelectBuilder._select_class builder_a, builder_a)
      (SelectBuilder.get_result builder_a).

Definition builder_limit : SelectBuilder.t :=
  Eval vm_compute in
    result_get (collected_builder table_a [])
      (SelectBuilder.init limit_limit empty_context).

Definition built_limit : Select * SelectBuilder.t :=
  Eval vm_compute in
    result_get (SelectBuilder._select_class builder_a, builder_a)
      (SelectBuilder.get_result builder_limit).

End example_values.

Section example_text.
#[local] Existing Instance Example.hashing.
#[local] Existing Instance Example.externals.

(** The FROM fragment of the join of the three tables. *)
Definition rendered_abc : string :=
  Eval vm_compute in
    result_get EmptyString
      (TableSetFormatter.get_result
         (TableSetFormatter.init empty_context join_abc)).

End example_text.

Section further_example_values.
#[local] Existing Instance Example.hashing.
#[local] Existing Instance Example.api.
#[local] Existing Instance Example.externals.

(** A limit over a union, an aggregation of the table [a] by [k], a scalar
    literal and two columns. *)
Definition limited_union : expr :=
  to_table (ops.Limit (to_table (ops.Union table_a table_b true)) 5 0).

Definition column_k : expr := Example.column "k" table_a.
Definition column_v : expr := Example.column "v" table_a.

Definition aggregation_a : expr :=
  to_table (ops.Aggregation table_a [column_v] [column_k] [] [] []).

Definition literal_one : expr := Expr ir.ScalarExpr (ops.Literal (VInt 1)).

(** The builder of the table [a] after the collection of the table at the
    top level, and after the collection of a join of two tables
    below the top level. *)
Definition collected_a : SelectBuilder.t :=
  Eval vm_compute in
    result_get builder_a (SelectBuilder._collect 2 builder_a table_a true).

Definition join_ab : expr := Example.inner_join table_a table_b [].

Definition collected_join : SelectBuilder.t :=
  Eval vm_compute in
    result_get builder_a (SelectBuilder._collect 4 builder_a join_ab false).

(** The builder of the aggregation, and after its collection. *)
Definition builder_aggregation : SelectBuilder.t :=
  Eval vm_compute in
    result_get builder_a (SelectBuilder.init aggregation_a empty_context).

Definition collected_aggregation : SelectBuilder.t :=
  Eval vm_compute in
    result_get builder_a
      (SelectBuilder._collect 3 builder_aggregation aggregation_a true).

(** A builder with a top-K filter and a comparison, and after the analysis
    of its filters. *)
Definition builder_filters : SelectBuilder.t :=
  collected_builder table_a [top_k_filter; same_key table_a table_b].

Definition analyzed_filters : SelectBuilder.t :=
  Eval vm_compute in
    result_get builder_a (SelectBuilder._analyze_filter_exprs builder_filters).

(** A statement over the table [a] grouped by its first two items, and the
    text of the statement the builder makes for the table [a]. *)
Definition grouped_statement : Select :=
  mkSelect empty_context (Some [column_k; column_v]) (Some table_a) false
    table_a [] [0; 1] [] [] None [] 2 identity.

Definition top_k : expr :=
  Expr ir.AnalyticExpr (ops.TopK column_k 3 column_v).

Definition compiled_a : string :=
  Eval vm_compute in
    match Select.compile built_a.1 with
    | Done text => text
    | Fails _ => EmptyString
    end.

End further_example_values.

(** * Properties *)

(** ** Set-operation flattening *)

Lemma flatten_union_not_union (t : expr) :
  is_Union t = false -> flatten_union t = [inl t].
Proof.
  destruct t as [c n]; destruct n; simpl; intros E; try reflexivity.
  discriminate E.
Qed.

Lemma flatten_union_chain (t : expr) (rest : list (bool * expr)) :
  is_Union t = false ->
  Forall (fun p => is_Union p.2 = false) rest ->
  flatten_union (union_chain t rest)
  = inl t :: flat_map (fun p => [inr p.1; inl p.2]) rest.
Proof.
  revert t. induction rest as [|[d t'] rest IH]; intros t Ht Hrest.
  - simpl. now apply flatten_union_not_union.
  - inversion Hrest as [|? ? Ht' Hrest']; subst. simpl in Ht'.
    simpl. rewrite (flatten_union_not_union t Ht).
    rewrite (IH t' Ht' Hrest'). reflexivity.
Qed.

Lemma slices_interleaved {A} (x : A) (l : list (A * A)) :
  slice_even (x :: flat_map (fun p => [p.1; p.2]) l) = x :: map snd l
  /\ slice_odd (x :: flat_map (fun p => [p.1; p.2]) l) = map fst l.
Proof.
  revert x. induction l as [|[a b] l IH]; intros x; [now split|].
  destruct (IH b) as [He Ho]. split; simpl in *; [now rewrite He|now rewrite Ho].
Qed.

(** The flattened list of any expression alternates tables and flags and
    has odd length. *)
Lemma flatten_union_odd (t : expr) :
  Nat.odd (length (flatten_union t)) = true.
Proof.
  assert (Hsz : forall n t, expr_size t < n ->
    Nat.odd (length (flatten_union t)) = true).
  { intros n. induction n as [|n IH]; intros u Hu; [lia|].
    destruct u as [c [ | | | | | | | | |l r d| | | | | | | | | | | | | | | ]];
      try reflexivity.
    simpl in *. rewrite length_app. simpl.
    assert (Hl := IH l ltac:(lia)). assert (Hr := IH r ltac:(lia)).
    rewrite Nat.add_succ_r, Nat.odd_succ, Nat.even_add.
    rewrite <- !Nat.negb_odd, Hl, Hr. reflexivity. }
  eapply Hsz. apply Nat.lt_succ_diag_r.
Qed.

Lemma keyword_list_of_flags `{Hashing} (u : Union.t) (ds : list bool) :
  Union.distincts u = map inr ds ->
  Union._get_keyword_list u = Ok (map Union.keyword ds).
Proof.
  unfold Union._get_keyword_list. intros ->.
  induction ds as [|d ds IH]; [reflexivity|].
  simpl in *. rewrite IH. reflexivity.
Qed.

(** C4: a right-recursive chain of unions over the operands [t, t1, ..., tk]
    with flags [d1, ..., dk] flattens to [2k+1] alternating elements, the
    odd count passes the validation, the statement holds the [k+1] operands
    in order and the [k] flags, and the keyword list has one keyword per
    flag, UNION when the flag is true and UNION ALL otherwise. *)
Theorem make_union_chain `{Hashing} `{ExprAPI} (ctx : QueryContext) (t : expr)
    (rest : list (bool * expr)) :
  rest <> [] ->
  is_Union t = false ->
  Forall (fun p => is_Union p.2 = false) rest ->
  let chain := union_chain t rest in
  length (flatten_union chain) = 2 * length rest + 1
  /\ exists u,
       _make_union (mkQueryBuilder chain ctx) = Ok u
       /\ Union.tables u = map inl (t :: map snd rest)
       /\ Union.distincts u = map inr (map fst rest)
       /\ length (Union.tables u) = S (length rest)
       /\ Union._get_keyword_list u
          = Ok (map (fun p : bool * expr => if p.1 then "UNION" else "UNION ALL")
                  rest)
       /\ QueryBuilder_get_result (mkQueryBuilder chain ctx)
          = Ok (mkQueryAST ctx (UnionQuery u) [] []).
Proof.
  intros Hne Ht Hrest chain.
  assert (Hflat := flatten_union_chain t rest Ht Hrest). fold chain in Hflat.
  assert (Hlen : length (flatten_union chain) = 2 * length rest + 1).
  { rewrite Hflat. simpl. clear. induction rest as [|p rest IH]; simpl; lia. }
  split; [exact Hlen|].
  assert (Hsl := slices_interleaved (A := item) (inl t)
                   (map (fun p : bool * expr => (inr p.1, inl p.2)) rest)).
  assert (Hfm : flat_map (fun p : item * item => [p.1; p.2])
                  (map (fun p : bool * expr => (inr p.1, inl p.2)) rest)
                = flat_map (fun p : bool * expr => [inr p.1; inl p.2]) rest).
  { clear. induction rest as [|p rest IH]; simpl; [reflexivity|now rewrite IH]. }
  rewrite Hfm, <- Hflat in Hsl. destruct Hsl as [Hev Hod].
  rewrite !map_map in Hev, Hod. simpl in Hev, Hod.
  eexists. split.
  - unfold _make_union. cbn [qb_expr qb_context]. rewrite Hlen.
    assert (Hodd : ((2 * length rest + 1) mod 2 =? 0)%nat = false).
    { apply Nat.eqb_neq. rewrite Nat.add_comm, Nat.mul_comm, Nat.Div0.mod_add.
      discriminate. }
    rewrite Hodd.
    rewrite bool_decide_eq_true_2; [reflexivity|].
    destruct rest; [contradiction|simpl; lia].
  - cbn [Union.tables Union.distincts]. rewrite Hev, Hod.
    repeat split.
    + simpl. now rewrite map_map.
    + now rewrite map_map.
    + simpl. now rewrite length_map.
    + erewrite keyword_list_of_flags with (ds := map fst rest).
      * now rewrite map_map.
      * cbn [Union.distincts]. now rewrite map_map.
    + unfold QueryBuilder_get_result. cbn [qb_expr qb_context].
      assert (Hm : _make_union (mkQueryBuilder chain ctx)
                   = Ok (Union.mk (map inl (t :: map snd rest)) chain ctx
                           (map inr (map fst rest)))).
      { unfold _make_union. cbn [qb_expr qb_context]. rewrite Hlen, Hev, Hod.
        assert (Hodd : ((2 * length rest + 1) mod 2 =? 0)%nat = false).
        { apply Nat.eqb_neq.
          rewrite Nat.add_comm, Nat.mul_comm, Nat.Div0.mod_add. discriminate. }
        rewrite Hodd, bool_decide_eq_true_2
          by (destruct rest; [contradiction|simpl; lia]).
        simpl. now rewrite !map_map. }
      subst chain. destruct rest as [|[d t'] rest]; [contradiction|].
      cbn [union_chain to_table op]. cbn [union_chain to_table] in Hm.
      rewrite Hm. simpl. now rewrite !map_map.
Qed.

(** ** Loops over lists *)

Lemma traverse_app {A B} (f : A -> result B) (l1 l2 : list A) :
  traverse f (l1 ++ l2)
  = match traverse f l1 with
    | Ok r1 =>
        match traverse f l2 with
        | Ok r2 => Ok (r1 ++ r2)
        | Raise e => Raise e
        end
    | Raise e => Raise e
    end.
Proof.
  induction l1 as [|x l1 IH]; simpl.
  - destruct (traverse f l2); reflexivity.
  - destruct (f x); [|reflexivity]. rewrite IH.
    destruct (traverse f l1); [|reflexivity].
    destruct (traverse f l2); reflexivity.
Qed.

Lemma traverse_Forall2 {A B} (f : A -> result B) (l : list A) (r : list B) :
  traverse f l = Ok r <-> Forall2 (fun x y => f x = Ok y) l r.
Proof.
  revert r. induction l as [|x l IH]; intros r; simpl.
  - split; [intros [= <-]; constructor|intros Hf; inversion Hf; reflexivity].
  - split.
    + destruct (f x) as [y|] eqn:Ey; [|discriminate].
      destruct (traverse f l) as [ys|] eqn:Eys; [|discriminate].
      intros [= <-]. constructor; [exact Ey|now apply IH].
    + intros Hf. inversion Hf as [|? y ? ys Hy Hys]; subst.
      rewrite Hy. apply IH in Hys. rewrite Hys. reflexivity.
Qed.

Lemma traverse_length {A B} (f : A -> result B) (l : list A) (r : list B) :
  traverse f l = Ok r -> length r = length l.
Proof.
  intros Hf. apply traverse_Forall2 in Hf.
  symmetry. eapply Forall2_length, Hf.
Qed.

Lemma traverse_ext {A B} (f g : A -> result B) (l : list A) :
  (forall x, f x = g x) -> traverse f l = traverse g l.
Proof.
  intros E. induction l as [|x l IH]; simpl; [reflexivity|].
  now rewrite E, IH.
Qed.

(** ** The table-set formatter *)

Section TableSetFormatter_props.
Context `{Externals}.

Local Abbreviation walk := TableSetFormatter._walk_join_tree.
Local Abbreviation format_table := TableSetFormatter._format_table.
Local Abbreviation jname := TableSetFormatter._join_names.

Lemma validate_join_predicates_ok (ps : list expr) :
  TableSetFormatter._validate_join_predicates ps = Ok tt.
Proof.
  induction ps as [|p ps IH]; simpl; [reflexivity|].
  unfold TableSetFormatter._non_equijoin_supported. simpl.
  rewrite andb_false_r. exact IH.
Qed.

Lemma format_table_frame (self self' : TableSetFormatter.t) (e : expr) :
  TableSetFormatter.context self' = TableSetFormatter.context self ->
  TableSetFormatter.indent self' = TableSetFormatter.indent self ->
  format_table self' e = format_table self e.
Proof.
  intros Hc Hi. unfold TableSetFormatter._format_table. now rewrite Hc, Hi.
Qed.

Lemma walk_right_join (self : TableSetFormatter.t) how l r ps :
  isinstance_Join (op r) = true ->
  walk self (ops.Join how l r ps) = Raise NotImplementedError.
Proof.
  intros Hr. simpl. rewrite Hr.
  destruct (isinstance_Join (op l)) eqn:Hl; simpl; [reflexivity|].
  rewrite validate_join_predicates_ok. simpl. reflexivity.
Qed.

Lemma walk_not_left_deep (o : node) : forall self,
  isinstance_Join o = true -> left_deep o = false ->
  walk self o = Raise NotImplementedError.
Proof.
  assert (Hsz : forall n o, node_size o < n -> forall self,
    isinstance_Join o = true -> left_deep o = false ->
    walk self o = Raise NotImplementedError).
  { clear o. intros n. induction n as [|n IH]; intros o Hn self Hj Hd; [lia|].
    destruct o; try discriminate Hj.
    destruct (isinstance_Join (op right)) eqn:Hr.
    { now apply walk_right_join. }
    simpl in Hd. rewrite Hr in Hd. simpl in Hd.
    destruct (isinstance_Join (op left)) eqn:Hl; [|discriminate Hd].
    simpl. rewrite Hl, Hr. simpl. rewrite validate_join_predicates_ok. simpl.
    rewrite IH; [reflexivity| |exact Hl|exact Hd].
    destruct left as [c nl]. simpl in *. lia. }
  intros self. eapply Hsz. apply Nat.lt_succ_diag_r.
Qed.

Lemma walk_left_deep (o : node) : forall self,
  isinstance_Join o = true -> left_deep o = true ->
  walk self o
  = match traverse (format_table self) (spine_tables o) with
    | Ok ts => Ok (walked self o ts)
    | Raise e => Raise e
    end.
Proof.
  assert (Hsz : forall n o, node_size o < n -> forall self,
    isinstance_Join o = true -> left_deep o = true ->
    walk self o
    = match traverse (format_table self) (spine_tables o) with
      | Ok ts => Ok (walked self o ts)
      | Raise e => Raise e
      end).
  { clear o. intros n. induction n as [|n IH]; intros o Hn self Hj Hd; [lia|].
    destruct o; try discriminate Hj.
    simpl in Hd. apply andb_true_iff in Hd as [Hr Hd].
    apply negb_true_iff in Hr.
    simpl. rewrite Hr, andb_false_r, validate_join_predicates_ok. simpl.
    destruct (isinstance_Join (op left)) eqn:Hl.
    - rewrite IH; [|destruct left; simpl in *; lia|exact Hl|exact Hd].
      rewrite traverse_app.
      destruct (traverse (format_table self) (spine_tables (op left)))
        as [ts|e]; [|reflexivity].
      simpl. rewrite (format_table_frame self) by reflexivity.
      destruct (format_table self right) as [tr|e]; [|reflexivity].
      simpl. unfold walked, TableSetFormatter.push. simpl.
      rewrite Hl, !map_app, <- !app_assoc. reflexivity.
    - simpl.
      destruct (format_table self left) as [tl|e]; [|reflexivity]. simpl.
      destruct (format_table self right) as [tr|e]; [|reflexivity]. simpl.
      unfold walked, TableSetFormatter.push. simpl. rewrite Hl. reflexivity. }
  intros self. eapply Hsz. apply Nat.lt_succ_diag_r.
Qed.

Lemma spine_counts (o : node) :
  isinstance_Join o = true -> left_deep o = true ->
  length (spine_tables o) = S (length (spine_joins o)).
Proof.
  assert (Hsz : forall n o, node_size o < n ->
    isinstance_Join o = true -> left_deep o = true ->
    length (spine_tables o) = S (length (spine_joins o))).
  { clear o. intros n. induction n as [|n IH]; intros o Hn Hj Hd; [lia|].
    destruct o; try discriminate Hj.
    simpl in Hd. apply andb_true_iff in Hd as [_ Hd].
    simpl. rewrite !length_app. simpl.
    destruct (isinstance_Join (op left)) eqn:Hl; [|reflexivity].
    rewrite IH; [lia|destruct left; simpl in *; lia|exact Hl|exact Hd]. }
  eapply Hsz. apply Nat.lt_succ_diag_r.
Qed.

Lemma string_app_assoc (a b c : string) : (a +:+ b) +:+ c = a +:+ (b +:+ c).
Proof.
  induction a as [|x a IH]; [reflexivity|].
  change (String x ((a +:+ b) +:+ c) = String x (a +:+ (b +:+ c))).
  now rewrite IH.
Qed.

Lemma string_app_nil_r (a : string) : a +:+ EmptyString = a.
Proof.
  induction a as [|x a IH]; [reflexivity|].
  change (String x (a +:+ EmptyString) = String x a). now rewrite IH.
Qed.

Lemma join_names_keyword (how : ops.join_type) : jname how = join_keyword how.
Proof. now destruct how. Qed.

Lemma format_join_renders (self : TableSetFormatter.t) how table preds clause :
  TableSetFormatter.indent self = 2 ->
  TableSetFormatter.format_join self (jname how, table, preds) = Ok clause ->
  renders (TableSetFormatter.context self) (how, preds) table clause.
Proof.
  intros Hi. unfold TableSetFormatter.format_join.
  destruct (traverse _ preds) as [fmt_preds|] eqn:Et; [|discriminate].
  rewrite join_names_keyword.
  simpl. intros Hc. exists fmt_preds. split.
  - apply traverse_Forall2 in Et. eapply Forall2_impl; [exact Et|].
    intros p f. unfold TableSetFormatter.format_pred, TableSetFormatter._translate.
    simpl. destruct (translate _ p false false) as [t|]; [|discriminate].
    simpl. intros [= <-]. now exists t.
  - apply traverse_length in Et. rewrite Hi in Hc. simpl.
    destruct preds as [|p preds]; destruct fmt_preds as [|f fmt_preds];
      try discriminate Et; simpl in Hc.
    + injection Hc as <-. now rewrite string_app_nil_r.
    + injection Hc as <-. now rewrite !string_app_assoc.
Qed.

Lemma joins_render (self : TableSetFormatter.t)
    (sj : list (ops.join_type * list expr)) : forall tl clauses,
  TableSetFormatter.indent self = 2 ->
  length tl = length sj ->
  traverse (TableSetFormatter.format_join self)
    (TableSetFormatter.zip3 (map (fun j => jname j.1) sj) tl (map snd sj))
  = Ok clauses ->
  Forall2 (fun jt clause =>
             renders (TableSetFormatter.context self) jt.1 jt.2 clause)
    (zip sj tl) clauses.
Proof.
  intros tl clauses Hi. revert tl clauses.
  induction sj as [|[how preds] sj IH]; intros [|t tl] clauses Hl; try discriminate Hl.
  - simpl. intros [= <-]. constructor.
  - unfold TableSetFormatter.zip3. cbn [map zip zip_with fst snd traverse].
    destruct (TableSetFormatter.format_join self _) as [c|] eqn:Ec; [|discriminate].
    destruct (traverse _ _) as [cs|] eqn:Ecs; [|discriminate].
    intros [= <-]. constructor.
    + cbn [fst snd]. eapply format_join_renders; eassumption.
    + eapply IH; [|exact Ecs]. simpl in Hl. lia.
Qed.

Lemma format_preds_ok (self : TableSetFormatter.t) (n : nat) (preds : list expr) :
  Forall (fun p => exists s,
            translate (TableSetFormatter.context self) p false false = Ok s)
    preds ->
  exists fs, traverse (TableSetFormatter.format_pred self n) preds = Ok fs.
Proof.
  induction 1 as [|p ps [s Hs] _ [fs IH]]; [now exists []|].
  eexists. simpl. unfold TableSetFormatter.format_pred at 1.
  unfold TableSetFormatter._translate. rewrite Hs. simpl. rewrite IH.
  reflexivity.
Qed.

Lemma joins_format_ok (self : TableSetFormatter.t)
    (sj : list (ops.join_type * list expr)) (tl : list (option string)) :
  Forall (fun j => Forall (fun p => exists s,
            translate (TableSetFormatter.context self) p false false = Ok s) j.2)
    sj ->
  exists clauses,
    traverse (TableSetFormatter.format_join self)
      (TableSetFormatter.zip3 (map (fun j => jname j.1) sj) tl (map snd sj))
    = Ok clauses.
Proof.
  intros Hsj. revert tl.
  induction Hsj as [|[how preds] sj Hp _ IH]; intros tl; [now exists []|].
  destruct tl as [|t tl]; [now exists []|].
  destruct (IH tl) as [cs Hcs].
  unfold TableSetFormatter.zip3 in *. cbn [map zip zip_with fst snd traverse].
  rewrite Hcs.
  destruct (format_preds_ok self (length preds) preds Hp) as [fs Hfs].
  unfold TableSetFormatter.format_join. rewrite Hfs. simpl.
  destruct (bool_decide _); eexists; reflexivity.
Qed.

(** C8: a join whose right operand is a join, whatever its left operand,
    stops the walk with the unsupported-shape error; a tree that contains
    such a join on its left spine produces no text; a tree nested on the
    left only is walked, and rendered when its tables format and its
    predicates translate. *)
Theorem join_tree_left_deep_only (ctx : QueryContext) (e : expr) :
  isinstance_Join (op e) = true ->
  let self := TableSetFormatter.init ctx e in
  (forall self' how l r ps,
     isinstance_Join (op r) = true ->
     walk self' (ops.Join how l r ps) = Raise NotImplementedError)
  /\ (left_deep (op e) = false ->
      walk self (op e) = Raise NotImplementedError
      /\ TableSetFormatter.get_result self = Raise NotImplementedError)
  /\ (left_deep (op e) = true ->
      Forall (fun t => exists s, format_table self t = Ok (Some s))
        (spine_tables (op e)) ->
      Forall (fun j => Forall (fun p => exists s,
                          translate ctx p false false = Ok s) j.2)
        (spine_joins (op e)) ->
      exists ts s,
        walk self (op e) = Ok (walked self (op e) ts)
        /\ length ts = length (spine_tables (op e))
        /\ TableSetFormatter.get_result self = Ok s).
Proof.
  intros Hj self. split; [|split].
  - intros. now apply walk_right_join.
  - intros Hd. assert (Hw := walk_not_left_deep (op e) self Hj Hd).
    split; [exact Hw|].
    unfold TableSetFormatter.get_result. cbn [TableSetFormatter.expr_ self TableSetFormatter.init].
    rewrite Hj. fold self. rewrite Hw. reflexivity.
  - intros Hd Htabs Hpreds.
    assert (Hw := walk_left_deep (op e) self Hj Hd).
    assert (Hts : exists ss, traverse (format_table self) (spine_tables (op e))
                             = Ok (map Some ss)).
    { clear -Htabs. induction Htabs as [|t l [s Hs] _ [ss IH]].
      - now exists [].
      - exists (s :: ss). simpl. now rewrite Hs, IH. }
    destruct Hts as [ss Hss]. rewrite Hss in Hw.
    assert (Hlen : length (map Some ss) = length (spine_tables (op e))).
    { eapply traverse_length, Hss. }
    assert (Hcnt := spine_counts (op e) Hj Hd).
    destruct ss as [|s0 ss]; [simpl in Hlen; lia|].
    set (W := walked self (op e) (map Some (s0 :: ss))) in *.
    assert (Hjt : TableSetFormatter.join_tables W = Some s0 :: map Some ss)
      by reflexivity.
    assert (HJ : TableSetFormatter.joins W
                 = TableSetFormatter.zip3
                     (map (fun j => jname j.1) (spine_joins (op e)))
                     (map Some ss) (map snd (spine_joins (op e))))
      by reflexivity.
    assert (HcW : TableSetFormatter.context W = ctx) by reflexivity.
    assert (EW : W = walked self (op e) (map Some (s0 :: ss))) by reflexivity.
    clearbody W. rewrite <- HcW in Hpreds.
    destruct (joins_format_ok W (spine_joins (op e)) (map Some ss) Hpreds)
      as [clauses Hcl].
    exists (map Some (s0 :: ss)). eexists.
    split; [now rewrite <- EW|]. split; [exact Hlen|].
    unfold TableSetFormatter.get_result.
    cbn [TableSetFormatter.expr_ self TableSetFormatter.init].
    rewrite Hj. fold self. rewrite Hw. unfold mbind, result_bind.
    rewrite Hjt. unfold written. rewrite HJ, Hcl. reflexivity.
Qed.

Lemma spine_joins_not_join (o : node) :
  isinstance_Join o = false -> spine_joins o = [].
Proof. destruct o; simpl; intros E; try reflexivity; discriminate E. Qed.

(** C9: the text of a rendered table-set is the text of its first table
    followed by one clause for each join of the tree with the table to its
    right.  The clauses number one fewer than the joined tables; each holds
    the keyword of its join, one of INNER JOIN, LEFT OUTER JOIN, RIGHT
    OUTER JOIN, FULL OUTER JOIN, LEFT ANTI JOIN, LEFT SEMI JOIN and CROSS
    JOIN, once, before the text of its table; and in each clause every
    predicate is wrapped in parentheses exactly when the join carries more
    than one predicate. *)
Theorem join_keywords_and_parentheses (ctx : QueryContext) (e : expr) (s : string) :
  TableSetFormatter.get_result (TableSetFormatter.init ctx e) = Ok s ->
  exists tables : list (option string),
    Forall2 (fun t text =>
               format_table (TableSetFormatter.init ctx e) t = Ok text)
      (joined_tables e) tables
    /\ length (spine_joins (op e)) = length (joined_tables e) - 1
    /\ rendered_joins ctx (spine_joins (op e)) tables s.
Proof.
  set (self := TableSetFormatter.init ctx e).
  unfold TableSetFormatter.get_result, joined_tables.
  cbn [TableSetFormatter.expr_ self TableSetFormatter.init]. fold self.
  destruct (isinstance_Join (op e)) eqn:Hj.
  - destruct (left_deep (op e)) eqn:Hd;
      [|rewrite (walk_not_left_deep _ self Hj Hd); discriminate].
    rewrite (walk_left_deep _ self Hj Hd).
    destruct (traverse (format_table self) (spine_tables (op e))) as [ts|] eqn:Ets;
      [|discriminate].
    assert (Hlen := traverse_length _ _ _ Ets).
    assert (Hcnt := spine_counts (op e) Hj Hd).
    set (W := walked self (op e) ts).
    assert (HJ : TableSetFormatter.joins W
                 = TableSetFormatter.zip3
                     (map (fun j => jname j.1) (spine_joins (op e)))
                     (tail ts) (map snd (spine_joins (op e))))
      by reflexivity.
    assert (Hjt : TableSetFormatter.join_tables W = ts) by reflexivity.
    assert (HcW : TableSetFormatter.context W = ctx) by reflexivity.
    assert (HiW : TableSetFormatter.indent W = 2) by reflexivity.
    clearbody W. unfold mbind, result_bind. rewrite Hjt, HJ.
    destruct ts as [|t0 ts]; [discriminate|].
    destruct t0 as [first|]; [|discriminate]. cbn [written].
    destruct (traverse (TableSetFormatter.format_join W) _) as [clauses|] eqn:Ecl;
      [|discriminate].
    intros [= <-]. exists (Some first :: ts).
    split; [now apply traverse_Forall2|]. split; [lia|].
    assert (Hr : Forall2 (fun jt clause => renders ctx jt.1 jt.2 clause)
                   (zip (spine_joins (op e)) ts) clauses).
    { rewrite <- HcW. eapply joins_render; [exact HiW| |exact Ecl].
      simpl in *. lia. }
    exists first, clauses. split; [reflexivity|].
    split; [|split; [exact Hr|reflexivity]].
    apply Forall2_length in Hr. rewrite length_zip in Hr.
    simpl in *. lia.
  - rewrite (spine_joins_not_join _ Hj).
    destruct (format_table self e) as [tbl|] eqn:Et; [|discriminate].
    unfold mbind, result_bind. cbn.
    destruct tbl as [first|]; [|discriminate]. cbn [written].
    intros [= <-]. exists [Some first].
    split; [repeat constructor; exact Et|]. split; [reflexivity|].
    exists first, []. split; [reflexivity|]. split; [reflexivity|].
    split; [constructor|reflexivity].
Qed.

End TableSetFormatter_props.

(** ** Sizes of arguments *)

Lemma sum_sizes_in {A} (f : A -> nat) (x : A) (l : list A) :
  In x l -> f x <= sum_sizes f l.
Proof.
  induction l as [|y l IH]; simpl; [tauto|].
  intros [->|Hin]; [lia|]. specialize (IH Hin). lia.
Qed.

Lemma sum_sizes_app {A} (f : A -> nat) (l1 l2 : list A) :
  sum_sizes f (l1 ++ l2) = sum_sizes f l1 + sum_sizes f l2.
Proof. induction l1 as [|y l IH]; simpl; [reflexivity|]. rewrite IH. lia. Qed.

Lemma sum_sizes_args (es : list expr) (a : expr) :
  In (AExpr a) (map AExpr es) -> expr_size a <= sum_sizes expr_size es.
Proof.
  intros Hin. apply sum_sizes_in. apply in_map_iff in Hin as (x & [= ->] & Hx).
  exact Hx.
Qed.

Lemma flat_args_size (n : node) (a : expr) :
  In (AExpr a) (flat_args n) -> expr_size a <= node_size n.
Proof.
  destruct n; simpl;
    repeat (rewrite ?in_app_iff;
            match goal with
            | |- _ \/ _ -> _ => intros [?|?]
            | |- False -> _ => intros []
            | |- AExpr _ = AExpr _ -> _ => intros [= ->]; lia
            | |- AVal _ = AExpr _ -> _ => intros [=]
            | |- In _ (map AExpr _) -> _ =>
                let Hin := fresh in intros Hin; apply sum_sizes_args in Hin; lia
            | H : In _ (_ ++ _) |- _ => apply in_app_iff in H as [?|?]
            | H : In _ (map AExpr _) |- _ => apply sum_sizes_args in H; lia
            | H : AExpr _ = AExpr _ |- _ => injection H as ->; lia
            | H : AVal _ = AExpr _ |- _ => discriminate H
            | H : False |- _ => destruct H
            | H : _ \/ _ |- _ => destruct H
            | |- _ -> _ => intro
            end).
  - destruct foreign_table; simpl in *; [injection H as ->; lia|discriminate].
  - destruct foreign_table; simpl in *; [injection H as ->; lia|discriminate].
  - revert H. apply (sum_sizes_in
      (fun a => match a with inl e => expr_size e | inr _ => 0 end) (AExpr a)).
Qed.

Lemma child_size (e a : expr) :
  In (AExpr a) (flat_args (op e)) -> expr_size a < expr_size e.
Proof.
  destruct e as [c n]. simpl. intros Hin. apply flat_args_size in Hin. lia.
Qed.

(** ** Loops with fuel *)

Lemma for_each_inv {S A} (P : S -> Prop) (body : S -> A -> option S)
    (l : list A) : forall st st',
  (forall st a st', In a l -> P st -> body st a = Some st' -> P st') ->
  P st -> for_each body st l = Some st' -> P st'.
Proof.
  induction l as [|x l IH]; intros st st' Hb Hst; simpl.
  - now intros [= <-].
  - destruct (body st x) as [st1|] eqn:E; [|discriminate].
    apply IH; [|eapply Hb; [now left|exact Hst|exact E]].
    intros ? ? ? Hin. apply Hb. now right.
Qed.

Lemma for_each_total {S A} (P : S -> Prop) (body : S -> A -> option S)
    (l : list A) : forall st,
  (forall st a, In a l -> P st -> exists st', body st a = Some st' /\ P st') ->
  P st -> exists st', for_each body st l = Some st' /\ P st'.
Proof.
  induction l as [|x l IH]; intros st Hb Hst; simpl.
  - now exists st.
  - destruct (Hb st x (or_introl eq_refl) Hst) as (st1 & E & Hst1).
    rewrite E. apply IH; [|exact Hst1].
    intros ? ? Hin. apply Hb. now right.
Qed.

(** ** The correlated-reference check *)

Section CorrelatedRefCheck_props.
Context `{Hashing} `{ExprAPI}.

Local Abbreviation checker := _CorrelatedRefCheck.t.
Local Abbreviation ref_check := _CorrelatedRefCheck.ref_check.
Local Abbreviation is_root := _CorrelatedRefCheck.is_root.
Local Abbreviation is_subquery := _CorrelatedRefCheck.is_subquery.
Local Abbreviation visit := _CorrelatedRefCheck.visit.
Local Abbreviation visit_table := _CorrelatedRefCheck.visit_table.
Local Abbreviation encountered := _CorrelatedRefCheck.encountered.
Local Abbreviation wstate := _CorrelatedRefCheck.walk_state.

Lemma is_root_roots (self self0 : checker) (n : node) :
  _CorrelatedRefCheck.query_roots self = _CorrelatedRefCheck.query_roots self0 ->
  is_root self n = is_root self0 n.
Proof. unfold _CorrelatedRefCheck.is_root. now intros ->. Qed.

Lemma is_subquery_roots (self self0 : checker) (n : node) :
  _CorrelatedRefCheck.query_roots self = _CorrelatedRefCheck.query_roots self0 ->
  is_subquery self n = is_subquery self0 n.
Proof.
  intros E. destruct n; simpl; try reflexivity. now rewrite (is_root_roots _ _ _ E).
Qed.

Lemma ref_check_encountered (self : checker) (n : node) (s : bool) :
  encountered (ref_check self n s) = encountered self ++ [(n, s)].
Proof.
  unfold _CorrelatedRefCheck.ref_check. simpl.
  repeat match goal with |- context [if ?b then _ else _] => destruct b end;
    reflexivity.
Qed.

Lemma ref_check_fields (self : checker) (n : node) (s : bool) :
  _CorrelatedRefCheck.query_roots (ref_check self n s)
  = _CorrelatedRefCheck.query_roots self
  /\ _CorrelatedRefCheck.has_query_root (ref_check self n s)
     = _CorrelatedRefCheck.has_query_root self || (s && is_root self n)
  /\ _CorrelatedRefCheck.has_foreign_root (ref_check self n s)
     = _CorrelatedRefCheck.has_foreign_root self || (s && negb (is_root self n)).
Proof.
  unfold _CorrelatedRefCheck.ref_check, _CorrelatedRefCheck.is_root,
    _CorrelatedRefCheck.with_ctx.
  cbn [_CorrelatedRefCheck.query_roots _CorrelatedRefCheck.ctx].
  destruct (bool_decide _), s; cbn;
    repeat match goal with |- context [if ?b then _ else _] => destruct b end;
    cbn; rewrite ?orb_true_r, ?orb_false_r; auto.
Qed.

Lemma visit_total (fuel : nat) :
  (forall e s st, expr_size e <= fuel -> exists st', visit fuel e s st = Some st')
  /\ (forall e s st, expr_size e <= fuel ->
        exists st', visit_table fuel e s st = Some st').
Proof.
  induction fuel as [|fuel [IHv IHt]].
  - split; intros [c n] s st Hsz; simpl in Hsz; lia.
  - split; intros e s [[self vc] vtc] Hsz; simpl.
    + destruct (bool_decide _); [eauto|].
      match goal with |- context [for_each ?body ?st0 ?l] =>
        destruct (for_each_total (fun _ => True) body l st0) as (st' & E & _);
          [|exact I|exists st'; exact E]
      end.
      intros st [a|v] Hin _; [|eauto].
      apply child_size in Hin.
      destruct (isinstance_TableExpr a);
        [destruct (IHt a (s || is_subquery self (op e)) st ltac:(lia)) as [st1 E1]
        |destruct (IHv a (s || is_subquery self (op e)) st ltac:(lia)) as [st1 E1]];
        eauto.
    + destruct (bool_decide _); [eauto|].
      match goal with |- context [for_each ?body ?st0 ?l] =>
        destruct (for_each_total (fun _ => True) body l st0) as (st' & E & _);
          [|exact I|rewrite E; simpl; eauto]
      end.
      intros st [a|v] Hin _; [|eauto].
      apply child_size in Hin.
      destruct (IHv a s st ltac:(lia)) as [st1 E1]. eauto.
Qed.

Lemma table_reference_spec (n : node) :
  _CorrelatedRefCheck.isinstance_PhysicalTable_or_SelfReference n
  = is_table_reference n.
Proof. now destruct n. Qed.

Lemma is_root_init (context : QueryContext) (table_set e : expr) (n : node) :
  is_root (_CorrelatedRefCheck.init context table_set e) n
  = statement_root table_set n.
Proof.
  unfold _CorrelatedRefCheck.is_root, _CorrelatedRefCheck.init, statement_root.
  cbn [_CorrelatedRefCheck.query_roots].
  destruct (existsb _ _) eqn:E.
  - apply bool_decide_eq_true_2, elem_of_list_to_set, list_elem_of_fmap.
    apply existsb_exists in E as (r & Hin & Hr).
    apply bool_decide_eq_true_1 in Hr.
    exists r. split; [congruence|now apply list_elem_of_In].
  - apply bool_decide_eq_false_2. intros Hin.
    apply elem_of_list_to_set, list_elem_of_fmap in Hin as (r & Hr & Hin).
    assert (Ht : existsb (fun root => bool_decide (node_key root = node_key n))
                   (_root_tables table_set) = true).
    { apply existsb_exists. exists r.
      split; [now apply list_elem_of_In|].
      apply bool_decide_eq_true_2. congruence. }
    congruence.
Qed.

Lemma is_subquery_boundary (table_set : expr) (self : checker) (n : node) :
  roots_of table_set self ->
  is_subquery self n = subquery_boundary table_set n.
Proof.
  intros Hr. destruct n; simpl; try reflexivity.
  unfold roots_of in Hr. now rewrite Hr.
Qed.

Lemma roots_of_same (table_set : expr) (self self' : checker) :
  _CorrelatedRefCheck.query_roots self' = _CorrelatedRefCheck.query_roots self ->
  roots_of table_set self -> roots_of table_set self'.
Proof.
  intros E Hr n. rewrite <- (Hr n). now apply is_root_roots.
Qed.

Lemma ref_check_flags (table_set : expr) (self : checker) (n : node) (s : bool) :
  roots_of table_set self ->
  flags_of_history table_set self ->
  flags_of_history table_set (ref_check self n s).
Proof.
  intros Hr (Hq & Hf). unfold flags_of_history.
  destruct (ref_check_fields self n s) as (Er & Eq & Ef).
  rewrite Eq, Ef, ref_check_encountered, !existsb_app. simpl.
  rewrite !orb_false_r, <- Hq, <- Hf, (Hr n). auto.
Qed.

Lemma ref_check_sound (table_set root : expr) (self : checker) (n : node)
    (s : bool) :
  encountered_table table_set root n s ->
  history_sound table_set root self ->
  history_sound table_set root (ref_check self n s).
Proof.
  intros Hr Hs. unfold history_sound. rewrite ref_check_encountered.
  apply Forall_app. split; [exact Hs|]. constructor; [exact Hr|constructor].
Qed.

Lemma visit_preserves (table_set root : expr) (fuel : nat) :
  let start := value_call (op root) false in
  (forall e s st st',
     rtc (check_step table_set) start (value_call (op e) s) ->
     walk_inv table_set root st ->
     visit fuel e s st = Some st' -> walk_inv table_set root st')
  /\ (forall e s st st',
       rtc (check_step table_set) start (table_call (op e) s) ->
       walk_inv table_set root st ->
       visit_table fuel e s st = Some st' -> walk_inv table_set root st').
Proof.
  intros start.
  induction fuel as [|fuel [IHv IHt]]; [split; intros; discriminate|].
  split; intros e s [[self vc] vtc] st' Hreach Hinv; simpl.
  - destruct (bool_decide _); [now intros [= <-]|].
    assert (Esub : is_subquery self (op e) = subquery_boundary table_set (op e)).
    { apply is_subquery_boundary, Hinv. }
    rewrite Esub. apply for_each_inv with (P := walk_inv table_set root).
    + intros st [a|v] st1 Hin Hst; [|now intros [= <-]].
      destruct (isinstance_TableExpr a) eqn:Ea.
      * apply IHt; [|exact Hst].
        eapply rtc_r; [exact Hreach|]. now apply step_table.
      * apply IHv; [|exact Hst].
        eapply rtc_r; [exact Hreach|]. now apply step_value.
    + exact Hinv.
  - destruct (bool_decide _); [now intros [= <-]|].
    destruct (for_each _ _ _) as [[[self1 vc1] own]|] eqn:Ef; [|discriminate].
    simpl. intros [= <-].
    change (walk_inv table_set root (self1, vc1, own)).
    revert Ef. apply for_each_inv with (P := walk_inv table_set root).
    + intros st [a|v] st1 Hin Hst; [|now intros [= <-]].
      apply IHv; [|exact Hst].
      eapply rtc_r; [exact Hreach|]. now apply step_below.
    + destruct Hinv as (Hr & Hf & Hs). unfold walk_inv. simpl in *.
      destruct (_CorrelatedRefCheck.isinstance_PhysicalTable_or_SelfReference (op e))
        eqn:Ek; [|exact (conj Hr (conj Hf Hs))].
      rewrite table_reference_spec in Ek.
      split; [|split].
      * apply (roots_of_same _ self); [apply ref_check_fields|exact Hr].
      * now apply ref_check_flags.
      * apply ref_check_sound; [|exact Hs]. now split.
Qed.

Lemma recorded_mono (table_set : expr) (c : call) (st st' : wstate) :
  incl (encountered st.1.1) (encountered st'.1.1) ->
  recorded table_set c st -> recorded table_set c st'.
Proof. intros Hi Hr n s Hm. apply Hi. now apply Hr. Qed.

Lemma advanced_refl (table_set root : expr) (st : wstate) :
  advanced table_set root st st.
Proof.
  split; [reflexivity|]. split; [apply incl_refl|].
  split; [now left|]. intros b s c' _ E Hin. left. now exists c'.
Qed.

Lemma advanced_trans (table_set root : expr) (st1 st2 st3 : wstate) :
  advanced table_set root st1 st2 -> advanced table_set root st2 st3 ->
  advanced table_set root st1 st3.
Proof.
  intros (Hr1 & Hi1 & Hv1 & Ht1) (Hr2 & Hi2 & Hv2 & Ht2).
  split; [congruence|]. split; [eapply incl_tran; eassumption|]. split.
  - intros b s Hb Hin. destruct (Hv2 b s Hb Hin) as [Hin2|Hrec]; [|now right].
    destruct (Hv1 b s Hb Hin2) as [Hin1|Hrec]; [now left|right].
    now apply (recorded_mono _ _ st2).
  - intros b s c' Hb E Hin.
    destruct (Ht2 b s c' Hb E Hin) as [(c & E2 & Hin2)|Hrec]; [|now right].
    destruct (Ht1 b s c Hb E2 Hin2) as [Hl|Hrec]; [now left|right].
    now apply (recorded_mono _ _ st2).
Qed.

Lemma caches_closed_le (table_set root : expr) (m m' : nat) (st : wstate) :
  m' <= m -> caches_closed table_set root m st ->
  caches_closed table_set root m' st.
Proof.
  intros Hle [Hv Ht]. split.
  - intros b s Hb Hin Hsz. apply Hv; [exact Hb|exact Hin|lia].
  - intros b s c Hb E Hin Hsz. apply (Ht b s c); [exact Hb|exact E|exact Hin|lia].
Qed.

Lemma caches_closed_advanced (table_set root : expr) (m : nat)
    (st st' : wstate) :
  caches_closed table_set root m st -> advanced table_set root st st' ->
  caches_closed table_set root m st'.
Proof.
  intros [Hv Ht] (Hr & Hi & Hv' & Ht'). split.
  - intros b s Hb Hin Hsz. destruct (Hv' b s Hb Hin) as [Hin0|Hrec]; [|exact Hrec].
    apply (recorded_mono _ _ st); [exact Hi|]. now apply Hv.
  - intros b s c' Hb E Hin Hsz.
    destruct (Ht' b s c' Hb E Hin) as [(c & E0 & Hin0)|Hrec]; [|exact Hrec].
    apply (recorded_mono _ _ st); [exact Hi|]. now apply (Ht b s c).
Qed.

Lemma roots_of_advanced (table_set root : expr) (st st' : wstate) :
  roots_of table_set st.1.1 -> advanced table_set root st st' ->
  roots_of table_set st'.1.1.
Proof. intros Hr (E & _). now apply (roots_of_same _ st.1.1). Qed.

Lemma for_each_complete {A} (table_set root : expr) (m : nat)
    (D : A -> wstate -> Prop) (body : wstate -> A -> option wstate) :
  (forall x st st', D x st -> advanced table_set root st st' -> D x st') ->
  forall (l : list A) st st',
  roots_of table_set st.1.1 -> caches_closed table_set root m st ->
  (forall x st1 st2, In x l ->
     roots_of table_set st1.1.1 -> caches_closed table_set root m st1 ->
     body st1 x = Some st2 ->
     advanced table_set root st1 st2 /\ D x st2) ->
  for_each body st l = Some st' ->
  advanced table_set root st st' /\ forall x, In x l -> D x st'.
Proof.
  intros Hmono. induction l as [|x l IH]; intros st st' Hr Hc Hb; simpl.
  - intros [= <-]. split; [apply advanced_refl|intros x []].
  - destruct (body st x) as [st1|] eqn:E1; [|discriminate]. intros Hl.
    destruct (Hb x st st1 (or_introl eq_refl) Hr Hc E1) as [Ha1 Hd1].
    destruct (IH st1 st') as [Ha2 Hd2];
      [exact (roots_of_advanced _ _ _ _ Hr Ha1)
      |exact (caches_closed_advanced _ _ _ _ _ Hc Ha1)
      |intros y s1 s2 Hy; apply Hb; now right
      |exact Hl|].
    split; [exact (advanced_trans _ _ _ _ _ Ha1 Ha2)|].
    intros y [<-|Hy]; [exact (Hmono _ _ _ Hd1 Ha2)|now apply Hd2].
Qed.

Lemma recorded_value (table_set : expr) (n : node) (s : bool) (st : wstate) :
  (forall a, In (AExpr a) (flat_args n) ->
     recorded table_set
       ((if isinstance_TableExpr a then table_call else value_call)
          (op a) (s || subquery_boundary table_set n)) st) ->
  recorded table_set (value_call n s) st.
Proof.
  intros Hc m s' [Hrtc Href].
  apply rtc_inv in Hrtc as [E|(c1 & Hstep & Hrest)]; [discriminate E|].
  inversion Hstep as [? ? a Hin Ha|? ? a Hin Ha|]; subst;
    specialize (Hc a Hin); rewrite Ha in Hc; apply Hc; now split.
Qed.

Lemma recorded_table (table_set : expr) (n : node) (s : bool) (st : wstate) :
  (is_table_reference n = true -> In (n, s) (encountered st.1.1)) ->
  (forall a, In (AExpr a) (flat_args n) ->
     recorded table_set (value_call (op a) s) st) ->
  recorded table_set (table_call n s) st.
Proof.
  intros Hn Hc m s' [Hrtc Href].
  apply rtc_inv in Hrtc as [E|(c1 & Hstep & Hrest)].
  - injection E as <- <-. now apply Hn.
  - inversion Hstep as [| |? ? a Hin]; subst. apply (Hc a Hin). now split.
Qed.

Lemma expr_size_op (a b : expr) : op a = op b -> expr_size a = expr_size b.
Proof. destruct a, b. simpl. now intros ->. Qed.

Lemma visit_complete (table_set root : expr) (fuel : nat) :
  keys_identify_nodes root ->
  (forall e s st st',
     subexpr root e -> roots_of table_set st.1.1 ->
     caches_closed table_set root (expr_size e) st ->
     visit fuel e s st = Some st' ->
     advanced table_set root st st'
     /\ recorded table_set (value_call (op e) s) st')
  /\ (forall e s st st',
       subexpr root e -> roots_of table_set st.1.1 ->
       caches_closed table_set root (expr_size e) st ->
       visit_table fuel e s st = Some st' ->
       advanced table_set root st st'
       /\ recorded table_set (table_call (op e) s) st').
Proof.
  intros Hk.
  induction fuel as [|fuel [IHv IHt]]; [split; intros; discriminate|].
  split; intros e s [[self vc] vtc] st' Hsub Hr Hc.
  - cbn [_CorrelatedRefCheck.visit].
    destruct (bool_decide ((node_key (op e), s) ∈ vc)) eqn:Ein.
    { intros [= <-]. split; [apply advanced_refl|].
      apply bool_decide_eq_true_1 in Ein.
      exact (proj1 Hc e s Hsub Ein (le_n _)). }
    apply bool_decide_eq_false_1 in Ein.
    cbn [fst snd] in Hr.
    rewrite (is_subquery_boundary table_set self (op e) Hr).
    set (s1 := s || subquery_boundary table_set (op e)).
    set (st1 := (self, {[(node_key (op e), s)]} ∪ vc, vtc)).
    assert (Hc1 : caches_closed table_set root (pred (expr_size e)) st1).
    { split.
      - intros b sb Hb Hin Hsz. cbn [fst snd st1] in Hin.
        apply elem_of_union in Hin as [Hin|Hin].
        + apply elem_of_singleton in Hin. injection Hin as Hkey _.
          assert (Eop : op b = op e) by (apply Hk; auto).
          apply expr_size_op in Eop.
          assert (Hp : 0 < expr_size e) by (destruct e; simpl; lia). lia.
        + apply (recorded_mono _ _ (self, vc, vtc)); [apply incl_refl|].
          apply (proj1 Hc b sb Hb Hin). lia.
      - intros b sb c Hb E Hin Hsz.
        apply (recorded_mono _ _ (self, vc, vtc)); [apply incl_refl|].
        apply (proj2 Hc b sb c Hb E Hin). lia. }
    intros Hl.
    apply (for_each_complete table_set root (pred (expr_size e))
             (fun x st =>
                match x with
                | inl a =>
                    recorded table_set
                      ((if isinstance_TableExpr a then table_call
                        else value_call) (op a) s1) st
                | inr _ => True
                end)) in Hl; [| |exact Hr|exact Hc1|].
    + destruct Hl as [Ha Hd].
      assert (Hrec : recorded table_set (value_call (op e) s) st').
      { apply recorded_value. intros a Hin. exact (Hd (AExpr a) Hin). }
      split; [|exact Hrec].
      destruct Ha as (Hq & Hi & Hv & Ht).
      split; [exact Hq|]. split; [exact Hi|]. split; [|exact Ht].
      intros b sb Hb Hin. destruct (Hv b sb Hb Hin) as [Hin1|Hd1]; [|now right].
      cbn [fst snd st1] in Hin1.
      apply elem_of_union in Hin1 as [Hin1|Hin1]; [|now left].
      apply elem_of_singleton in Hin1. injection Hin1 as Hkey ->.
      right. assert (Eop : op b = op e) by (apply Hk; auto).
      now rewrite Eop.
    + intros [a|v] sa sb Hd Ha; [|exact I].
      apply (recorded_mono _ _ sa); [exact (proj1 (proj2 Ha))|exact Hd].
    + intros [a|v] sa sb Hin Hra Hca; [|intros [= <-]; split;
                                          [apply advanced_refl|exact I]].
      assert (Hsz := child_size e a Hin).
      assert (Hsa : subexpr root a) by (eapply subexpr_child; eassumption).
      assert (Hca' : caches_closed table_set root (expr_size a) sa).
      { apply (caches_closed_le _ _ (pred (expr_size e))); [lia|exact Hca]. }
      cbn beta iota. destruct (isinstance_TableExpr a); intros E.
      * exact (IHt a s1 sa sb Hsa Hra Hca' E).
      * exact (IHv a s1 sa sb Hsa Hra Hca' E).
  - cbn [_CorrelatedRefCheck.visit_table].
    remember (default ∅ vtc) as cache0 eqn:Ecache.
    assert (Hcache : forall k, k ∈ cache0 -> exists c, vtc = Some c /\ k ∈ c).
    { intros k Hin. subst cache0. destruct vtc as [c|].
      - now exists c.
      - now apply not_elem_of_empty in Hin. }
    destruct (bool_decide ((expr_key e, s) ∈ cache0)) eqn:Ein.
    { intros [= <-]. split; [apply advanced_refl|].
      apply bool_decide_eq_true_1 in Ein.
      destruct (Hcache _ Ein) as (c & Ec & Hin).
      exact (proj2 Hc e s c Hsub Ec Hin (le_n _)). }
    apply bool_decide_eq_false_1 in Ein.
    cbn [fst snd] in Hr.
    set (self1 := if _CorrelatedRefCheck.isinstance_PhysicalTable_or_SelfReference
                       (op e)
                  then ref_check self (op e) s else self).
    assert (Hq1 : _CorrelatedRefCheck.query_roots self1
                  = _CorrelatedRefCheck.query_roots self).
    { unfold self1. destruct (_CorrelatedRefCheck.isinstance_PhysicalTable_or_SelfReference _);
        [apply ref_check_fields|reflexivity]. }
    assert (Hi1 : incl (encountered self) (encountered self1)).
    { unfold self1. destruct (_CorrelatedRefCheck.isinstance_PhysicalTable_or_SelfReference _);
        [|apply incl_refl].
      rewrite ref_check_encountered. now apply incl_appl, incl_refl. }
    assert (Hn1 : is_table_reference (op e) = true ->
                  In (op e, s) (encountered self1)).
    { intros Hn. unfold self1. rewrite table_reference_spec, Hn.
      rewrite ref_check_encountered. apply in_or_app. right. now left. }
    set (st1 := (self1, vc, Some ({[(expr_key e, s)]} ∪ cache0))).
    assert (Hr1 : roots_of table_set st1.1.1)
      by exact (roots_of_same _ self self1 Hq1 Hr).
    assert (Hc1 : caches_closed table_set root (pred (expr_size e)) st1).
    { split.
      - intros b sb Hb Hin Hsz.
        apply (recorded_mono _ _ (self, vc, vtc)); [exact Hi1|].
        apply (proj1 Hc b sb Hb Hin). lia.
      - intros b sb c Hb E Hin Hsz. cbn [snd st1] in E. injection E as <-.
        apply elem_of_union in Hin as [Hin|Hin].
        + apply elem_of_singleton in Hin. injection Hin as Hkey _.
          assert (Eop : op b = op e) by (apply Hk; auto).
          apply expr_size_op in Eop.
          assert (Hp : 0 < expr_size e) by (destruct e; simpl; lia). lia.
        + apply (recorded_mono _ _ (self, vc, vtc)); [exact Hi1|].
          destruct (Hcache _ Hin) as (c & Ec & Hin0).
          apply (proj2 Hc b sb c Hb Ec Hin0). lia. }
    match goal with |- context [for_each ?body ?st0 ?l] =>
      destruct (for_each body st0 l) as [[[selfn vcn] own]|] eqn:Hl;
        [|discriminate]
    end.
    cbn [fmap option_fmap option_map]. intros [= <-].
    apply (for_each_complete table_set root (pred (expr_size e))
             (fun x st =>
                match x with
                | inl a => recorded table_set (value_call (op a) s) st
                | inr _ => True
                end)) in Hl; [| |exact Hr1|exact Hc1|].
    + destruct Hl as [Ha Hd].
      destruct Ha as (Hq & Hi & Hv & Ht). cbn [fst snd st1] in Hq, Hi, Hv, Ht.
      assert (Hrec : forall w,
                recorded table_set (table_call (op e) s) (selfn, vcn, w)).
      { intros w. apply recorded_table.
        - intros Hn. apply Hi. now apply Hn1.
        - intros a Hin.
          apply (recorded_mono _ _ (selfn, vcn, own)); [apply incl_refl|].
          exact (Hd (AExpr a) Hin). }
      split; [|apply Hrec].
      split; [cbn [fst snd]; congruence|].
      split; [cbn [fst snd]; eapply incl_tran; eassumption|].
      split.
      * intros b sb Hb Hin. cbn [fst snd] in Hin.
        destruct (Hv b sb Hb Hin) as [Hin1|Hd1]; [now left|right].
        apply (recorded_mono _ _ (selfn, vcn, own)); [apply incl_refl|].
        exact Hd1.
      * intros b sb c' Hb E Hin. cbn [snd] in E.
        assert (Eown : own = Some c') by (destruct vtc; [exact E|discriminate E]).
        destruct (Ht b sb c' Hb Eown Hin) as [(c & E1 & Hin1)|Hd1].
        -- injection E1 as <-.
           apply elem_of_union in Hin1 as [Hin1|Hin1].
           ++ apply elem_of_singleton in Hin1. injection Hin1 as Hkey ->.
              right. assert (Eop : op b = op e) by (apply Hk; auto).
              rewrite Eop. apply Hrec.
           ++ left. destruct (Hcache _ Hin1) as (c0 & Ec0 & Hin0).
              now exists c0.
        -- right.
           apply (recorded_mono _ _ (selfn, vcn, own)); [apply incl_refl|].
           exact Hd1.
    + intros [a|v] sa sb Hd Ha; [|exact I].
      apply (recorded_mono _ _ sa); [exact (proj1 (proj2 Ha))|exact Hd].
    + intros [a|v] sa sb Hin Hra Hca; [|intros [= <-]; split;
                                          [apply advanced_refl|exact I]].
      assert (Hsz := child_size e a Hin).
      assert (Hsa : subexpr root a) by (eapply subexpr_child; eassumption).
      assert (Hca' : caches_closed table_set root (expr_size a) sa).
      { apply (caches_closed_le _ _ (pred (expr_size e))); [lia|exact Hca]. }
      cbn beta iota. intros E. exact (IHv a s sa sb Hsa Hra Hca' E).
Qed.

(** C2: the check returns a result for every statement and predicate.  The
    result is true only when the walk of the predicate meets, inside a
    subquery, a table reference that is a root of the statement and one
    that is not; and when the caches of the walk tell the nodes of the
    predicate apart, it is true whenever the walk meets both.  The walk,
    the subquery boundaries and the roots are those of the specification:
    the walk goes through the arguments of every node, a table reference is
    a physical table or a self-reference looked at as a table, and the flag
    is set below a view of a table as an array, an existence predicate, or
    a column of a table that is no root. *)
Theorem correlated_iff_both_roots_inside_subquery
    (context : QueryContext) (table_set e : expr) :
  let both_met :=
    (exists n, encountered_table table_set e n true
               /\ statement_root table_set n = true)
    /\ (exists m, encountered_table table_set e m true
                  /\ statement_root table_set m = false) in
  exists (answer : bool) (self' : checker),
    _CorrelatedRefCheck.get_result
      (_CorrelatedRefCheck.init context table_set e)
    = Some (answer, self')
    /\ (answer = true -> both_met)
    /\ (keys_identify_nodes e -> both_met -> answer = true).
Proof.
  intros both_met. subst both_met.
  set (self := _CorrelatedRefCheck.init context table_set e).
  unfold _CorrelatedRefCheck.get_result.
  change (_CorrelatedRefCheck.expr_ self) with e.
  destruct (proj1 (visit_total (expr_size e)) e false (self, ∅, None) (le_n _))
    as [[[self' vc] vtc] Ev].
  rewrite Ev. eexists _, self'. split; [reflexivity|].
  assert (Hr0 : roots_of table_set self) by (intros n; apply is_root_init).
  assert (Hinv : walk_inv table_set e (self', vc, vtc)).
  { eapply (proj1 (visit_preserves table_set e _)); [apply rtc_refl| |exact Ev].
    split; [exact Hr0|]. split; [now split|constructor]. }
  assert (Hcomp : keys_identify_nodes e ->
                  recorded table_set (value_call (op e) false) (self', vc, vtc)).
  { intros Hk.
    apply (proj1 (visit_complete table_set e (expr_size e) Hk)
             e false (self, ∅, None) (self', vc, vtc) (subexpr_root e) Hr0);
      [|exact Ev].
    split.
    - intros b s _ Hin. now apply not_elem_of_empty in Hin.
    - intros b s c _ E. discriminate E. }
  destruct Hinv as (_ & (Hq & Hf) & Hs). cbn [fst snd] in Hq, Hf, Hs.
  unfold history_sound in Hs. rewrite Forall_forall in Hs.
  rewrite andb_true_iff, Hq, Hf, !existsb_exists. split.
  - intros [([n s] & Hin & Hn) ([m s'] & Him & Hm)]. cbn [fst snd] in *.
    apply andb_true_iff in Hn as [-> Hn]. apply andb_true_iff in Hm as [-> Hm].
    apply negb_true_iff in Hm.
    split; [exists n|exists m]; (split; [|assumption]).
    + exact (Hs (n, true) (proj2 (list_elem_of_In _ _) Hin)).
    + exact (Hs (m, true) (proj2 (list_elem_of_In _ _) Him)).
  - intros Hk [(n & Hen & Hn) (m & Hem & Hm)]. split.
    + exists (n, true). split; [exact (Hcomp Hk n true Hen)|].
      simpl. now rewrite Hn.
    + exists (m, true). split; [exact (Hcomp Hk m true Hem)|].
      simpl. now rewrite Hm.
Qed.

End CorrelatedRefCheck_props.

(** ** Lowering of existence predicates *)

Section AnyToExists_props.
Context `{Hashing} `{ExprAPI}.

Local Abbreviation transform := _AnyToExistsTransform.t.
Local Abbreviation a2e_visit := _AnyToExistsTransform._visit.
Local Abbreviation a2e_visit_table := _AnyToExistsTransform._visit_table.
Local Abbreviation find_blocking := _AnyToExistsTransform._find_blocking_table.

Lemma find_blocking_total (fuel : nat) : forall e,
  expr_size e <= fuel -> exists r, find_blocking fuel e = Some r.
Proof.
  induction fuel as [|fuel IH]; intros [c n] Hsz; [simpl in Hsz; lia|].
  simpl. destruct (blocks n); [eauto|].
  assert (Hargs : forall a, In (AExpr a) (flat_args n) -> expr_size a <= fuel).
  { intros a Hin. apply flat_args_size in Hin. simpl in Hsz. lia. }
  induction (flat_args n) as [|[a|v] l IHl]; [eauto| |].
  - destruct (IH a (Hargs a (or_introl eq_refl))) as [[r|] Er]; rewrite Er; [eauto|].
    apply IHl. intros b Hb. apply Hargs. now right.
  - apply IHl. intros b Hb. apply Hargs. now right.
Qed.

Lemma a2e_visit_total (fuel : nat) :
  (forall a s, In s (flatten_predicate a) -> expr_size s <= expr_size a) ->
  (forall e self, expr_size e <= fuel ->
     exists self', a2e_visit fuel self e = Some self')
  /\ (forall e self, expr_size e <= fuel ->
       exists self', a2e_visit_table fuel self e = Some self').
Proof.
  intros Hfp. induction fuel as [|fuel [IHv IHt]].
  - split; intros [c n] self Hsz; simpl in Hsz; lia.
  - split; intros e self Hsz; simpl.
    + match goal with |- context [for_each ?body ?st0 ?l] =>
        destruct (for_each_total (fun _ => True) body l st0) as (st' & E & _);
          [|exact I|exists st'; exact E]
      end.
      intros s [a|v] Hin _; [|eauto].
      apply child_size in Hin.
      destruct (isinstance_TableExpr a).
      { destruct (IHt a s ltac:(lia)) as [s' E]. eauto. }
      destruct (isinstance_BooleanColumn a).
      * match goal with |- context [for_each ?body ?st0 ?l] =>
          destruct (for_each_total (fun _ => True) body l st0) as (st' & E & _);
            [|exact I|exists st'; split; [exact E|exact I]]
        end.
        intros s1 sub Hsub _. apply Hfp in Hsub.
        destruct (IHv sub (_AnyToExistsTransform.append_predicate s1 sub)
                    ltac:(lia)) as [s' E].
        eauto.
      * destruct (IHv a s ltac:(lia)) as [s' E]. eauto.
    + destruct (isinstance_TableExpr e).
      * destruct (find_blocking_total (expr_size e) e (le_n _)) as [[base|] Ef];
          rewrite Ef; [|eauto].
        destruct (_AnyToExistsTransform._is_root self (op base)); eauto.
      * destruct (negb (blocks (op e))); [|eauto].
        match goal with |- context [for_each ?body ?st0 ?l] =>
          destruct (for_each_total (fun _ => True) body l st0) as (st' & E & _);
            [|exact I|exists st'; exact E]
        end.
        intros s [a|v] Hin _; [|eauto].
        apply child_size in Hin.
        destruct (IHv a s ltac:(lia)) as [s' E]. eauto.
Qed.

Lemma last_foreign_nil (pt : expr) (cur : option expr) :
  last_foreign pt cur [] cur.
Proof. left. split; [reflexivity|constructor]. Qed.

Lemma last_foreign_app (pt : expr) (cur mid ft : option expr)
    (ts1 ts2 : list expr) :
  last_foreign pt cur ts1 mid -> last_foreign pt mid ts2 ft ->
  last_foreign pt cur (ts1 ++ ts2) ft.
Proof.
  intros H1 [[-> H2]|(l & t & r & -> & Ht & Hr & ->)].
  - destruct H1 as [[-> H1]|(l & t & r & -> & Ht & Hr & ->)].
    + left. split; [reflexivity|]. apply Forall_app. now split.
    + right. exists l, t, (r ++ ts2). rewrite <- app_assoc.
      split; [reflexivity|]. split; [exact Ht|].
      split; [|reflexivity]. apply Forall_app. now split.
  - right. exists (ts1 ++ l), t, r. rewrite <- app_assoc.
    now repeat split.
Qed.

Lemma last_foreign_unique (pt : expr) (cur ft ft' : option expr)
    (ts : list expr) :
  last_foreign pt cur ts ft -> last_foreign pt cur ts ft' -> ft = ft'.
Proof.
  assert (Hno : forall l t r,
            foreign_to pt t ->
            Forall (fun u => ~ foreign_to pt u) (l ++ t :: r) -> False).
  { intros l t r Ht Hall. rewrite Forall_forall in Hall.
    apply (Hall t); [|exact Ht].
    apply list_elem_of_In, in_or_app. right. now left. }
  assert (Hsplit : forall l t r l' t' r',
            l ++ t :: r = l' ++ t' :: r' ->
            foreign_to pt t -> Forall (fun u => ~ foreign_to pt u) r ->
            foreign_to pt t' -> Forall (fun u => ~ foreign_to pt u) r' ->
            t = t').
  { induction l as [|x l IH]; intros t r [|x' l'] t' r' E Ht Hr Ht' Hr'.
    - now injection E.
    - injection E as -> ->. exfalso. exact (Hno _ _ _ Ht' Hr).
    - injection E as -> <-. exfalso. exact (Hno _ _ _ Ht Hr').
    - injection E as -> E. exact (IH _ _ _ _ _ E Ht Hr Ht' Hr'). }
  intros [[-> H1]|(l & t & r & E & Ht & Hr & ->)]
         [[-> H2]|(l' & t' & r' & E' & Ht' & Hr' & ->)].
  - reflexivity.
  - exfalso. rewrite E' in H1. exact (Hno _ _ _ Ht' H1).
  - exfalso. rewrite E in H2. exact (Hno _ _ _ Ht H2).
  - f_equal. rewrite E in E'. exact (Hsplit _ _ _ _ _ _ E' Ht Hr Ht' Hr').
Qed.

Lemma walked_over_refl (pt : expr) (self : transform) :
  walked_over pt [] [] self self.
Proof.
  split; [reflexivity|]. split; [reflexivity|].
  split; [now rewrite app_nil_r|apply last_foreign_nil].
Qed.

Lemma walked_over_trans (pt : expr) (ps1 ts1 ps2 ts2 : list expr)
    (s1 s2 s3 : transform) :
  walked_over pt ps1 ts1 s1 s2 -> walked_over pt ps2 ts2 s2 s3 ->
  walked_over pt (ps1 ++ ps2) (ts1 ++ ts2) s1 s3.
Proof.
  intros (Hr1 & He1 & Hp1 & Hf1) (Hr2 & He2 & Hp2 & Hf2).
  split; [congruence|]. split; [congruence|].
  split; [now rewrite Hp2, Hp1, app_assoc|].
  exact (last_foreign_app _ _ _ _ _ _ Hf1 Hf2).
Qed.

Lemma walked_over_append (pt : expr) (ps ts : list expr)
    (self self' : transform) (sub : expr) :
  walked_over pt ps ts (_AnyToExistsTransform.append_predicate self sub) self' ->
  walked_over pt (sub :: ps) ts self self'.
Proof.
  intros (Hr & He & Hp & Hf). simpl in *.
  split; [exact Hr|]. split; [exact He|].
  split; [now rewrite Hp, <- app_assoc|exact Hf].
Qed.

(** The search for the blocking table computes the relation. *)
Lemma find_blocking_spec (fuel : nat) : forall e r,
  expr_size e <= fuel ->
  find_blocking fuel e = Some r <-> blocking_table e r.
Proof.
  induction fuel as [|fuel IH]; intros e r Hsz.
  { destruct e as [c n]. simpl in Hsz. lia. }
  cbn [_AnyToExistsTransform._find_blocking_table].
  destruct (blocks (op e)) eqn:Hb.
  { split.
    - intros [= <-]. now constructor.
    - intros Hr. inversion Hr; subst; [reflexivity|congruence]. }
  assert (Hargs : forall a, In (AExpr a) (flat_args (op e)) ->
                            expr_size a <= fuel).
  { intros a Hin. apply child_size in Hin. lia. }
  assert (Hloop : forall l r,
            (forall a, In (AExpr a) l -> expr_size a <= fuel) ->
            (fix loop (args : list arg) : option (option expr) :=
               match args with
               | [] => Some None
               | inl a :: rest =>
                   match find_blocking fuel a with
                   | None => None
                   | Some (Some result) => Some (Some result)
                   | Some None => loop rest
                   end
               | inr _ :: rest => loop rest
               end) l = Some r
            <-> first_blocking l r).
  { clear -IH. induction l as [|[a|v] l IHl]; intros r Hl.
    - split; [intros [= <-]; constructor|].
      intros Hr. now inversion Hr.
    - assert (Ha : expr_size a <= fuel) by (apply Hl; now left).
      assert (Hrest : forall a', In (AExpr a') l -> expr_size a' <= fuel)
        by (intros; apply Hl; now right).
      split.
      + destruct (find_blocking fuel a) as [[b|]|] eqn:Ef; [| |discriminate].
        * intros [= <-]. apply first_blocking_found. now apply IH.
        * intros Hr. apply first_blocking_next; [now apply IH|].
          now apply IHl.
      + intros Hr. inversion Hr as [| |? ? b Hb|? ? ? Hn Hr']; subst.
        * apply IH in Hb; [|exact Ha]. now rewrite Hb.
        * apply IH in Hn; [|exact Ha]. rewrite Hn. now apply IHl.
    - assert (Hrest : forall a', In (AExpr a') l -> expr_size a' <= fuel)
        by (intros; apply Hl; now right).
      split.
      + intros Hr. constructor. now apply IHl.
      + intros Hr. inversion Hr; subst. now apply IHl. }
  rewrite (Hloop _ r Hargs). split.
  - intros Hr. now apply blocking_below.
  - intros Hr. inversion Hr; subst; [congruence|assumption].
Qed.

Lemma is_root_same_roots (self self0 : transform) (n : node) :
  _AnyToExistsTransform.query_roots self = _AnyToExistsTransform.query_roots self0 ->
  _AnyToExistsTransform._is_root self n = _AnyToExistsTransform._is_root self0 n.
Proof. unfold _AnyToExistsTransform._is_root. now intros ->. Qed.

Lemma is_root_spec (ctx : QueryContext) (root pt : expr) (n : node) :
  _AnyToExistsTransform._is_root (_AnyToExistsTransform.init ctx root pt) n
  = true
  <-> exists r, In r (_root_tables pt) /\ node_key r = node_key n.
Proof.
  unfold _AnyToExistsTransform._is_root, _AnyToExistsTransform.init.
  cbn [_AnyToExistsTransform.query_roots].
  rewrite bool_decide_eq_true, elem_of_list_to_set, list_elem_of_fmap.
  split; intros (r & Hr1 & Hr2); exists r.
  - split; [now apply list_elem_of_In|congruence].
  - split; [congruence|now apply list_elem_of_In].
Qed.

Lemma for_each_walked {A} (pt : expr) (W : A -> list expr -> list expr -> Prop)
    (Ws : list A -> list expr -> list expr -> Prop)
    (body : transform -> A -> option transform) (roots : gset key) :
  Ws [] [] [] ->
  (forall x l ps1 ts1 ps ts,
     W x ps1 ts1 -> Ws l ps ts -> Ws (x :: l) (ps1 ++ ps) (ts1 ++ ts)) ->
  forall (l : list A) self self',
  (forall x s s', In x l ->
     _AnyToExistsTransform.query_roots s = roots ->
     body s x = Some s' ->
     exists ps ts, W x ps ts /\ walked_over pt ps ts s s') ->
  _AnyToExistsTransform.query_roots self = roots ->
  for_each body self l = Some self' ->
  exists ps ts, Ws l ps ts /\ walked_over pt ps ts self self'.
Proof.
  intros Hnil Hcons.
  induction l as [|x l IH]; intros self self' Hb Hr; simpl.
  - intros [= <-]. exists [], []. split; [exact Hnil|apply walked_over_refl].
  - destruct (body self x) as [s1|] eqn:E1; [|discriminate]. intros Hl.
    destruct (Hb x self s1 (or_introl eq_refl) Hr E1) as (ps1 & ts1 & Hw1 & H1).
    assert (Hr1 : _AnyToExistsTransform.query_roots s1 = roots).
    { destruct H1 as (Hq & _). congruence. }
    destruct (IH s1 self') as (ps & ts & Hw & H2);
      [intros y s s' Hy; apply Hb; now right|exact Hr1|exact Hl|].
    exists (ps1 ++ ps), (ts1 ++ ts).
    split; [now apply Hcons|exact (walked_over_trans _ _ _ _ _ _ _ _ H1 H2)].
Qed.

Lemma walk_args_cons (x : arg) (l : list arg) (ps1 ts1 ps ts : list expr) :
  walk_arg x ps1 ts1 -> walk_args l ps ts ->
  walk_args (x :: l) (ps1 ++ ps) (ts1 ++ ts).
Proof.
  intros Hx Hl. destruct Hx.
  - now constructor.
  - now apply walk_args_table.
  - now apply walk_args_boolean.
  - now apply walk_args_other.
Qed.

Lemma a2e_visit_walk (ctx : QueryContext) (root pt : expr) (fuel : nat) :
  let roots :=
    _AnyToExistsTransform.query_roots (_AnyToExistsTransform.init ctx root pt) in
  (forall e self self',
     _AnyToExistsTransform.query_roots self = roots ->
     a2e_visit fuel self e = Some self' ->
     exists ps ts, walk e ps ts /\ walked_over pt ps ts self self')
  /\ (forall e self self',
       _AnyToExistsTransform.query_roots self = roots ->
       isinstance_TableExpr e = true ->
       a2e_visit_table fuel self e = Some self' ->
       walked_over pt [] [e] self self').
Proof.
  intros roots.
  induction fuel as [|fuel [IHv IHt]]; [split; intros; discriminate|].
  split.
  - intros e self self' Hr Hv. simpl in Hv.
    apply (for_each_walked pt walk_arg walk_args _ roots) in Hv;
      [|constructor|exact walk_args_cons| |exact Hr].
    + destruct Hv as (ps & ts & Hw & Hover). exists ps, ts.
      split; [now constructor|exact Hover].
    + intros [a|v] s s' Hin Hs;
        [|intros [= <-]; exists [], [];
          split; [constructor|apply walked_over_refl]].
      destruct (isinstance_TableExpr a) eqn:Ht.
      * intros Hb. apply (IHt a s s' Hs Ht) in Hb.
        exists [], [a]. split; [now constructor|exact Hb].
      * destruct (isinstance_BooleanColumn a) eqn:Hbc.
        -- intros Hb.
           apply (for_each_walked pt
                    (fun sub ps ts => exists ps1, ps = sub :: ps1
                                                  /\ walk sub ps1 ts)
                    walk_conjuncts _ roots) in Hb;
             [|constructor| | |exact Hs].
           ++ destruct Hb as (ps & ts & Hw & Hover). exists ps, ts.
              split; [now apply walk_arg_boolean|exact Hover].
           ++ intros x l ps1 ts1 ps ts (ps0 & -> & Hx) Hl.
              now apply (walk_conjuncts_cons x l ps0 ts1 ps ts).
           ++ intros sub s1 s1' Hsub Hs1 Hv1.
              apply IHv in Hv1; [|exact Hs1].
              destruct Hv1 as (ps & ts & Hw & Hover).
              exists (sub :: ps), ts. split; [now exists ps|].
              now apply walked_over_append.
        -- intros Hb. apply (IHv a s s' Hs) in Hb.
           destruct Hb as (ps & ts & Hw & Hover). exists ps, ts.
           split; [now apply walk_arg_other|exact Hover].
  - intros e self self' Hr Ht. simpl. rewrite Ht.
    assert (Hroot : forall n,
              _AnyToExistsTransform._is_root self n = true
              <-> exists r, In r (_root_tables pt)
                            /\ node_key r = node_key n).
    { intros n.
      rewrite (is_root_same_roots self (_AnyToExistsTransform.init ctx root pt))
        by exact Hr.
      apply is_root_spec. }
    assert (Hspec := fun r => find_blocking_spec (expr_size e) e r (le_n _)).
    assert (Hno : forall s : transform,
              (forall b, find_blocking (expr_size e) e = Some (Some b) ->
                 _AnyToExistsTransform._is_root self (op b) = true) ->
              walked_over pt [] [e] s s).
    { intros s Hb. split; [reflexivity|]. split; [reflexivity|].
      split; [now rewrite app_nil_r|].
      left. split; [reflexivity|]. constructor; [|constructor].
      intros (b & Hbt & Hnr). apply Hspec in Hbt.
      apply Hnr, Hroot, Hb, Hbt. }
    destruct (find_blocking (expr_size e) e) as [[base|]|] eqn:Ef;
      [| |discriminate].
    + destruct (_AnyToExistsTransform._is_root self (op base)) eqn:Eroot;
        intros [= <-].
      * apply Hno. now intros b [= <-].
      * split; [reflexivity|]. split; [reflexivity|].
        split; [simpl; now rewrite app_nil_r|].
        right. exists [], e, []. split; [reflexivity|].
        split; [|split; [constructor|reflexivity]].
        exists base. split; [now apply Hspec|].
        intros Hin. apply Hroot in Hin. congruence.
    + intros [= <-]. apply Hno. discriminate.
Qed.

(** The walk is a function of the predicate. *)
Lemma walk_functional (e : expr) (ps ts : list expr) :
  walk e ps ts ->
  forall ps' ts', walk e ps' ts' -> ps' = ps /\ ts' = ts.
Proof.
  revert e ps ts.
  apply (walk_min
           (fun e ps ts => forall ps' ts', walk e ps' ts' ->
              ps' = ps /\ ts' = ts)
           (fun l ps ts => forall ps' ts', walk_args l ps' ts' ->
              ps' = ps /\ ts' = ts)
           (fun l ps ts => forall ps' ts', walk_conjuncts l ps' ts' ->
              ps' = ps /\ ts' = ts)).
  - intros e ps ts _ IH ps' ts' Hw. inversion Hw; subst. now apply IH.
  - intros ps' ts' Hw. now inversion Hw.
  - intros v rest ps ts _ IH ps' ts' Hw. inversion Hw; subst. now apply IH.
  - intros a rest ps ts Ht _ IH ps' ts' Hw.
    inversion Hw; subst; try congruence.
    match goal with Hr : walk_args rest _ _ |- _ =>
      destruct (IH _ _ Hr) as [-> ->] end.
    now split.
  - intros a rest ps1 ts1 ps ts Ht Hb _ IH1 _ IH2 ps' ts' Hw.
    inversion Hw; subst; try congruence.
    match goal with
      Hc : walk_conjuncts _ _ _, Hr : walk_args rest _ _ |- _ =>
        destruct (IH1 _ _ Hc) as [-> ->]; destruct (IH2 _ _ Hr) as [-> ->]
    end.
    now split.
  - intros a rest ps1 ts1 ps ts Ht Hb _ IH1 _ IH2 ps' ts' Hw.
    inversion Hw; subst; try congruence.
    match goal with
      Hc : walk a _ _, Hr : walk_args rest _ _ |- _ =>
        destruct (IH1 _ _ Hc) as [-> ->]; destruct (IH2 _ _ Hr) as [-> ->]
    end.
    now split.
  - intros ps' ts' Hw. now inversion Hw.
  - intros p rest ps1 ts1 ps ts _ IH1 _ IH2 ps' ts' Hw.
    inversion Hw; subst.
    match goal with
      Hc : walk p _ _, Hr : walk_conjuncts rest _ _ |- _ =>
        destruct (IH1 _ _ Hc) as [-> ->]; destruct (IH2 _ _ Hr) as [-> ->]
    end.
    now split.
Qed.

(** C1: an Any or NotAny predicate lowers to a boolean column whose node is
    ExistsSubquery for Any and NotExistsSubquery for NotAny, from the
    transform and from the filter analysis of a builder with the same
    table-set.  The node carries the predicates collected from the argument
    tree, in the order of the walk and as often as the walk meets them, and
    as its foreign table the last table argument met whose blocking table
    is not a root table of the table-set, [None] when there is none; the
    walk determines both lists. *)
Theorem any_lowers_to_exists (ctx : QueryContext) (e parent_table : expr) :
  (forall a s, In s (flatten_predicate a) -> expr_size s <= expr_size a) ->
  exists (foreign_table : option expr) (predicates tables : list expr),
    walk e predicates tables
    /\ (forall ps ts, walk e ps ts -> ps = predicates /\ ts = tables)
    /\ last_foreign parent_table None tables foreign_table
    /\ (forall ft, last_foreign parent_table None tables ft ->
          ft = foreign_table)
    /\ (forall x, op e = ops.Any x ->
          _AnyToExistsTransform.get_result
            (_AnyToExistsTransform.init ctx e parent_table)
          = Some (Expr ir.BooleanColumn
                    (ops.ExistsSubquery foreign_table predicates)))
    /\ (forall x, op e = ops.NotAny x ->
          _AnyToExistsTransform.get_result
            (_AnyToExistsTransform.init ctx e parent_table)
          = Some (Expr ir.BooleanColumn
                    (ops.NotExistsSubquery foreign_table predicates)))
    /\ (forall b : SelectBuilder.t,
          SelectBuilder.table_set b = Some parent_table ->
          SelectBuilder.context b = ctx ->
          (forall x, op e = ops.Any x ->
             SelectBuilder._visit_filter b e
             = Ok (Some (Expr ir.BooleanColumn
                           (ops.ExistsSubquery foreign_table predicates)), b))
          /\ (forall x, op e = ops.NotAny x ->
               SelectBuilder._visit_filter b e
               = Ok (Some (Expr ir.BooleanColumn
                             (ops.NotExistsSubquery foreign_table predicates)),
                     b))).
Proof.
  intros Hfp.
  set (self := _AnyToExistsTransform.init ctx e parent_table).
  destruct (proj1 (a2e_visit_total (expr_size e) Hfp) e self (le_n _))
    as [self' Ev].
  destruct (proj1 (a2e_visit_walk ctx e parent_table (expr_size e))
              e self self' eq_refl Ev)
    as (ps & ts & Hw & _ & He & Hp & Hf).
  change (_AnyToExistsTransform.expr_ self) with e in He.
  change (_AnyToExistsTransform.predicates self) with (@nil expr) in Hp.
  change (_AnyToExistsTransform.foreign_table self) with (@None expr) in Hf.
  simpl in Hp.
  exists (_AnyToExistsTransform.foreign_table self'), ps, ts.
  assert (Hres : _AnyToExistsTransform.get_result self
                 = Some (Expr ir.BooleanColumn
                           match op e with
                           | ops.Any _ =>
                               ops.ExistsSubquery
                                 (_AnyToExistsTransform.foreign_table self') ps
                           | _ =>
                               ops.NotExistsSubquery
                                 (_AnyToExistsTransform.foreign_table self') ps
                           end)).
  { unfold _AnyToExistsTransform.get_result.
    change (_AnyToExistsTransform.mk _ _ _ _ None []) with self.
    change (_AnyToExistsTransform.expr_ self) with e.
    rewrite Ev, He, Hp. reflexivity. }
  split; [exact Hw|].
  split; [intros ps' ts'; exact (walk_functional e ps ts Hw ps' ts')|].
  split; [exact Hf|].
  split; [intros ft Hft; exact (last_foreign_unique _ _ _ _ _ Hft Hf)|].
  split; [intros x Hx; now rewrite Hres, Hx|].
  split; [intros x Hx; now rewrite Hres, Hx|].
  intros b Hts Hctx.
  assert (HAny : SelectBuilder._visit_filter_Any b e
                 = Ok (Expr ir.BooleanColumn
                         match op e with
                         | ops.Any _ =>
                             ops.ExistsSubquery
                               (_AnyToExistsTransform.foreign_table self') ps
                         | _ =>
                             ops.NotExistsSubquery
                               (_AnyToExistsTransform.foreign_table self') ps
                         end)).
  { unfold SelectBuilder._visit_filter_Any. rewrite Hts, Hctx.
    fold self. now rewrite Hres. }
  split; intros x Hx; destruct e as [c o]; cbn [op] in Hx; subst o;
    cbn [SelectBuilder._visit_filter]; rewrite HAny; reflexivity.
Qed.

End AnyToExists_props.

(** ** The select builder: filters *)

Section SelectBuilder_filter_props.
Context `{Hashing} `{ExprAPI}.

Local Abbreviation builder := SelectBuilder.t.
Local Abbreviation analyze_loop := SelectBuilder._analyze_filter_loop.

Lemma analyze_filter_loop_app (l1 l2 : list expr) : forall self nw,
  analyze_loop self (l1 ++ l2) nw
  = match analyze_loop self l1 nw with
    | Ok (w, s) => analyze_loop s l2 w
    | Raise e => Raise e
    end.
Proof.
  induction l1 as [|e l1 IH]; intros self nw; simpl; [reflexivity|].
  destruct (SelectBuilder._visit_filter self e) as [[[e'|] s]|]; simpl;
    [apply IH|apply IH|reflexivity].
Qed.

Lemma analyze_filter_loop_grows (l : list expr) : forall self nw w s,
  analyze_loop self l nw = Ok (w, s) ->
  exists added, w = nw ++ added /\ length added <= length l.
Proof.
  induction l as [|e l IH]; intros self nw w s; simpl.
  - intros [= <- <-]. exists []. split; [now rewrite app_nil_r|simpl; lia].
  - destruct (SelectBuilder._visit_filter self e) as [[[e'|] s1]|]; simpl;
      [| |discriminate]; intros Hl; apply IH in Hl as (added & -> & Hlen).
    + exists (e' :: added). split; [now rewrite <- app_assoc|simpl; lia].
    + exists added. split; [reflexivity|lia].
Qed.

Lemma visit_filter_SummaryFilter (self : builder) (c : ir.class)
    (summary a b : expr) (k : Z) (nm : string) (ts : expr) :
  op summary = ops.TopK a k b ->
  get_name a = Ok nm ->
  SelectBuilder.table_set self = Some ts ->
  let rank_set := topk_to_aggregation summary "__tmp__" (Some ts) in
  let pred := equals_ a (get_column rank_set nm) in
  SelectBuilder._visit_filter self (Expr c (ops.SummaryFilter summary))
  = Ok (None,
        SelectBuilder.set_table_set self (Some (semi_join ts rank_set [pred]))).
Proof.
  intros Hop Hnm Hts. simpl.
  unfold SelectBuilder._visit_filter_SummaryFilter. simpl.
  rewrite Hop, Hnm, Hts. reflexivity.
Qed.

(** C3: a top-K filter met by the filter analysis yields no predicate and
    replaces the table-set of the builder by the left-semi-join of the
    table-set with the ranking aggregation of the summary expression, on
    the equality of the ranked key with its column in the ranking table;
    the WHERE list of the analysis is the one of the filters before it
    followed by the one of the filters after it. *)
Theorem summary_filter_rewrites_table_set (self self1 : builder)
    (c : ir.class) (summary a b : expr) (k : Z) (nm : string) (ts : expr)
    (pre post w1 : list expr) :
  op summary = ops.TopK a k b ->
  get_name a = Ok nm ->
  SelectBuilder.filters self = pre ++ Expr c (ops.SummaryFilter summary) :: post ->
  analyze_loop self pre [] = Ok (w1, self1) ->
  SelectBuilder.table_set self1 = Some ts ->
  let rank_set := topk_to_aggregation summary "__tmp__" (Some ts) in
  let pred := equals_ a (get_column rank_set nm) in
  let joined := to_table (ops.Join ops.LeftSemiJoin ts rank_set [pred]) in
  let self2 := SelectBuilder.set_table_set self1 (Some joined) in
  SelectBuilder._visit_filter self1 (Expr c (ops.SummaryFilter summary))
  = Ok (None, self2)
  /\ SelectBuilder._analyze_filter_exprs self
     = match analyze_loop self2 post w1 with
       | Ok (w, s) => Ok (SelectBuilder.set_filters s w)
       | Raise e => Raise e
       end
  /\ forall self', SelectBuilder._analyze_filter_exprs self = Ok self' ->
       exists w2, SelectBuilder.filters self' = w1 ++ w2
                  /\ length w2 <= length post.
Proof.
  intros Hop Hnm Hf Hpre Hts rank_set pred joined self2.
  assert (Hv := visit_filter_SummaryFilter self1 c summary a b k nm ts Hop Hnm Hts).
  cbv zeta in Hv. fold rank_set pred in Hv.
  change (semi_join ts rank_set [pred]) with joined in Hv. fold self2 in Hv.
  assert (Ha : SelectBuilder._analyze_filter_exprs self
               = match analyze_loop self2 post w1 with
                 | Ok (w, s) => Ok (SelectBuilder.set_filters s w)
                 | Raise e => Raise e
                 end).
  { unfold SelectBuilder._analyze_filter_exprs.
    rewrite Hf, analyze_filter_loop_app, Hpre.
    cbn [SelectBuilder._analyze_filter_loop]. rewrite Hv. simpl.
    destruct (analyze_loop self2 post w1) as [[w s]|]; reflexivity. }
  split; [exact Hv|split; [exact Ha|]].
  intros self' Hself'. rewrite Ha in Hself'.
  destruct (analyze_loop self2 post w1) as [[w s]|] eqn:Hpost; [|discriminate].
  injection Hself' as <-.
  apply analyze_filter_loop_grows in Hpost as (w2 & -> & Hlen).
  now exists w2.
Qed.

End SelectBuilder_filter_props.

(** ** The select builder: subquery extraction *)

Section SelectBuilder_subquery_props.
Context `{Hashing} `{ExprAPI}.

Local Abbreviation builder := SelectBuilder.t.
Local Abbreviation sq_loop := SelectBuilder._analyze_subqueries_loop.
Local Abbreviation ekey := (fun e : expr => node_key (op e)).

Lemma is_extracted_spec (ctx : QueryContext) (e : expr) :
  is_extracted ctx e = true <-> ekey e ∈ extracted_subexprs ctx.
Proof. unfold is_extracted. apply bool_decide_eq_true. Qed.

Lemma analyze_subqueries_loop_spec (found : list expr) : forall self,
  let self' := sq_loop self found in
  extracted_subexprs (SelectBuilder.context self')
  = extracted_subexprs (SelectBuilder.context self) ∪ list_to_set (ekey <$> found)
  /\ exists added,
       SelectBuilder.subqueries self' = SelectBuilder.subqueries self ++ added
       /\ NoDup (ekey <$> added)
       /\ (forall e, In e added ->
             In e found /\ ekey e ∉ extracted_subexprs (SelectBuilder.context self))
       /\ (forall e, In e found ->
             ekey e ∉ extracted_subexprs (SelectBuilder.context self) ->
             ekey e ∈ (ekey <$> added)).
Proof.
  induction found as [|x found IH]; intros self; cbn zeta.
  - cbn. split; [set_solver|]. exists []. rewrite app_nil_r.
    split; [reflexivity|split; [apply NoDup_nil_2|split]]; intros e [].
  - cbn [SelectBuilder._analyze_subqueries_loop].
    destruct (is_extracted (SelectBuilder.context self) x) eqn:Ex; cbn [negb].
    + apply is_extracted_spec in Ex.
      destruct (IH self) as (Hext & added & Hsub & Hnd & Hin & Hall).
      split; [rewrite Hext; set_solver|].
      exists added. split; [exact Hsub|split; [exact Hnd|split]].
      * intros e He. destruct (Hin e He). split; [now right|assumption].
      * intros e [<-|He] Hne; [contradiction|now apply Hall].
    + assert (Hx : ekey x ∉ extracted_subexprs (SelectBuilder.context self)).
      { intros Hc. apply is_extracted_spec in Hc. congruence. }
      match goal with |- context [sq_loop ?s found] => set (s1 := s) end.
      destruct (IH s1) as (Hext & added & Hsub & Hnd & Hin & Hall).
      assert (Hext1 : extracted_subexprs (SelectBuilder.context s1)
                      = {[ekey x]} ∪ extracted_subexprs (SelectBuilder.context self))
        by reflexivity.
      rewrite Hext1 in *.
      split; [rewrite Hext; set_solver|].
      exists (x :: added). split; [|split; [|split]].
      * rewrite Hsub. simpl. now rewrite <- app_assoc.
      * simpl. constructor; [|exact Hnd].
        intros Hc. apply list_elem_of_fmap in Hc as (e & Ee & He).
        apply list_elem_of_In in He. destruct (Hin e He) as [_ Hne].
        apply Hne. rewrite <- Ee. set_solver.
      * intros e [<-|He]; [split; [now left|exact Hx]|].
        destruct (Hin e He) as [Hf Hne]. split; [now right|set_solver].
      * intros e He Hne. simpl.
        destruct (decide (ekey e = ekey x)) as [Ek|Ek].
        -- rewrite Ek. apply list_elem_of_here.
        -- apply list_elem_of_further. destruct He as [<-|He]; [congruence|].
           apply Hall; [exact He|set_solver].
Qed.

(** C7: of the sub-expressions found for extraction, one already marked
    extracted in the context is skipped, and one that is not is appended to
    the WITH list and marked, so that it is skipped when it comes again:
    the WITH list holds no sub-expression twice, and afterwards all of them
    are marked. *)
Theorem analyze_subqueries_extracts_once (self : builder) :
  let found :=
    extract_subqueries (SelectBuilder.table_set self) (SelectBuilder.filters self) in
  let self' := SelectBuilder._analyze_subqueries self in
  (forall e, In e (SelectBuilder.subqueries self') ->
     In e found /\ is_extracted (SelectBuilder.context self) e = false)
  /\ (forall e, In e found ->
        is_extracted (SelectBuilder.context self) e = false ->
        exists e', In e' (SelectBuilder.subqueries self')
                   /\ node_key (op e') = node_key (op e))
  /\ NoDup (map (fun e => node_key (op e)) (SelectBuilder.subqueries self'))
  /\ (forall e, In e found ->
        is_extracted (SelectBuilder.context self') e = true)
  /\ (forall e, is_extracted (SelectBuilder.context self) e = true ->
        is_extracted (SelectBuilder.context self') e = true).
Proof.
  intros found self'. unfold SelectBuilder._analyze_subqueries in self'.
  fold found in self'.
  destruct (analyze_subqueries_loop_spec found
              (SelectBuilder.set_subqueries self []))
    as (Hext & added & Hsub & Hnd & Hin & Hall).
  fold self' in Hext, Hsub. simpl in Hext, Hsub, Hin, Hall.
  assert (Hnot : forall e, is_extracted (SelectBuilder.context self) e = false
                           <-> ekey e ∉ extracted_subexprs (SelectBuilder.context self)).
  { intros e. rewrite <- is_extracted_spec. destruct (is_extracted _ e); split;
      congruence. }
  rewrite Hsub. split; [|split; [|split; [|split]]].
  - intros e He. destruct (Hin e He). split; [assumption|now apply Hnot].
  - intros e He Hne. apply Hnot in Hne.
    assert (Hk := Hall e He Hne).
    apply list_elem_of_fmap in Hk as (e' & Ee & He'). exists e'.
    split; [now apply list_elem_of_In|now symmetry].
  - exact Hnd.
  - intros e He. apply is_extracted_spec. rewrite Hext.
    apply elem_of_union_r, elem_of_list_to_set, list_elem_of_fmap.
    exists e. split; [reflexivity|now apply list_elem_of_In].
  - intros e He. apply is_extracted_spec. apply is_extracted_spec in He.
    rewrite Hext. set_solver.
Qed.

End SelectBuilder_subquery_props.

(** ** The select builder: collection and the limit *)

Section SelectBuilder_collect_props.
Context `{Hashing} `{ExprAPI}.

Local Abbreviation builder := SelectBuilder.t.
Local Abbreviation collect := SelectBuilder._collect.
Local Abbreviation limit := SelectBuilder.limit.

Lemma for_result_acc {S A} (P : S -> Prop) (body : S -> A -> result S)
    (l : list A) : forall (r : result S) (st' : S),
  (forall s x s', In x l -> P s -> body s x = Ok s' -> P s') ->
  (forall s, r = Ok s -> P s) ->
  foldl (fun r x => st ← r; body st x) r l = Ok st' -> P st'.
Proof.
  induction l as [|x l IH]; intros r st' Hb Hr; simpl.
  - exact (Hr st').
  - apply IH.
    + intros s y s' Hy. apply Hb. now right.
    + intros s. destruct r as [s0|]; simpl; [|discriminate].
      apply Hb; [now left|now apply Hr].
Qed.

Lemma for_result_inv {S A} (P : S -> Prop) (body : S -> A -> result S)
    (l : list A) (st st' : S) :
  (forall s x s', In x l -> P s -> body s x = Ok s' -> P s') ->
  P st -> SelectBuilder.for_result body st l = Ok st' -> P st'.
Proof.
  intros Hb Hst. apply for_result_acc; [exact Hb|].
  now intros s [= <-].
Qed.

Lemma collect_Join_limit (f : builder -> expr -> bool -> result builder)
    (self self' : builder) (e : expr) (tl b : bool) :
  (forall s x s', f s x false = Ok s' -> limit s' = limit s) ->
  SelectBuilder._collect_Join f self e tl = Ok (b, self') ->
  limit self' = limit self.
Proof.
  intros Hf. unfold SelectBuilder._collect_Join.
  destruct (SelectBuilder._get_subtables e) as [subtables|]; [|discriminate].
  simpl. destruct (SelectBuilder._all_distinct_roots subtables) as [[|]|];
    simpl; [| |discriminate].
  - destruct (SelectBuilder.for_result _ _ subtables) as [s1|] eqn:Ef;
      [|discriminate].
    simpl. intros [= <- <-].
    revert Ef. apply (for_result_inv (fun s => limit s = limit self)).
    + intros s x s' _ Hs Hx. apply Hf in Hx. congruence.
    + now destruct tl.
  - intros [= <- <-]. now destruct tl.
Qed.

(** Collection below the top level leaves the limit as it is, and
    collection at any level keeps a limit that is recorded. *)
Lemma collect_limit (fuel : nat) : forall self e tl self',
  collect fuel self e tl = Ok self' ->
  (tl = false -> limit self' = limit self)
  /\ (forall l, limit self = Some l -> limit self' = Some l).
Proof.
  induction fuel as [|fuel IH]; intros self e tl self'; [discriminate|].
  assert (IHf : forall s x s', collect fuel s x false = Ok s' -> limit s' = limit s).
  { intros s x s' Hx. now apply (IH s x false s'). }
  simpl. destruct (bool_decide _); [intros [= <-]; auto|].
  match goal with
  | |- (?m ≫= _) = _ -> _ =>
      destruct m as [s1|] eqn:Hm; [|discriminate];
      simpl; intros [= <-];
      change (limit (SelectBuilder.memoize s1 (op e))) with (limit s1);
      cut ((tl = false -> limit s1 = limit self)
           /\ (forall l, limit self = Some l -> limit s1 = Some l));
      [tauto|]
  end.
  destruct e as [c o]. cbn [op] in Hm.
  destruct o; try discriminate Hm.
  - (* PhysicalTable *)
    destruct tl; injection Hm as <-; auto.
  - (* SQLQueryResult *)
    destruct tl; injection Hm as <-; auto.
  - (* SelfReference *)
    destruct tl; [|injection Hm as <-; auto].
    apply IH in Hm. destruct Hm as [_ Hm]. split; [discriminate|exact Hm].
  - (* Join *)
    destruct (SelectBuilder._collect_Join _ _ _ _) as [[b s2]|] eqn:Ej;
      [|discriminate].
    simpl in Hm. injection Hm as <-.
    apply collect_Join_limit in Ej; [|exact IHf]. rewrite Ej. auto.
  - (* MaterializedJoin *)
    destruct (SelectBuilder._collect_Join _ _ _ _) as [[b s2]|] eqn:Ej;
      [|discriminate].
    simpl in Hm. injection Hm as <-.
    apply collect_Join_limit in Ej; [|exact IHf]. rewrite Ej.
    destruct tl; auto.
  - (* Selection *)
    destruct tl; [|injection Hm as <-; auto].
    match type of Hm with
    | (?m ≫= _) = _ => destruct m as [[can_sub s2]|] eqn:Em; [|discriminate]
    end.
    assert (Hs2 : limit s2 = limit self).
    { destruct (isinstance_Join (op table)).
      - now apply collect_Join_limit in Em.
      - destruct (collect fuel self table false) as [s3|] eqn:Ec; [|discriminate].
        simpl in Em. injection Em as <- <-. now apply IHf in Ec. }
    simpl in Hm.
    match type of Hm with
    | (?m ≫= _) = _ => destruct m as [[[[sel fl] sk] tb]|]; [|discriminate]
    end.
    simpl in Hm. injection Hm as <-. cbn. rewrite Hs2.
    split; [discriminate|auto].
  - (* Aggregation *)
    destruct tl; [|injection Hm as <-; auto].
    destruct (op (SelectBuilder._sub _)); try discriminate Hm.
    apply IHf in Hm. cbn in Hm. rewrite Hm. split; [discriminate|auto].
  - (* Distinct *)
    apply IH in Hm. destruct tl; cbn in Hm; exact Hm.
  - (* Limit *)
    destruct tl; cbn [negb] in Hm; [|injection Hm as <-; auto].
    apply IH in Hm. destruct Hm as [_ Hm]. split; [discriminate|].
    intros l Hl. apply Hm. now rewrite Hl.
  - (* Union *)
    destruct tl; [discriminate|]. injection Hm as <-. auto.
Qed.

Lemma within_fuel_bind {A B} (m : result A) (k : A -> result B) :
  within_fuel m -> (forall a, m = Ok a -> within_fuel (k a)) ->
  within_fuel (m ≫= k).
Proof.
  unfold within_fuel. destruct m as [a|e]; simpl; intros Hm Hk; [now apply Hk|].
  congruence.
Qed.

Lemma expr_size_pos (e : expr) : 0 < expr_size e.
Proof. destruct e. simpl. lia. Qed.

Lemma get_subtables_loop_ok (B fuel : nat) : forall stack seen subs,
  sum_sizes expr_size stack <= fuel ->
  Forall (fun x => expr_size x <= B) stack ->
  Forall (fun x => expr_size x <= B) subs ->
  exists out, SelectBuilder._get_subtables_loop fuel stack seen subs = Ok out
              /\ Forall (fun x => expr_size x <= B) out.
Proof.
  induction fuel as [|fuel IH]; intros [|e stack] seen subs Hsum Hst Hsubs;
    try (simpl; now eauto).
  - assert (Hp := expr_size_pos e). simpl in Hsum. lia.
  - assert (Hp := expr_size_pos e).
    inversion Hst as [|? ? He Hst']; subst.
    change (sum_sizes expr_size (e :: stack))
      with (expr_size e + sum_sizes expr_size stack) in Hsum.
    cbn [SelectBuilder._get_subtables_loop].
    destruct (bool_decide _); [apply IH; [lia|assumption|assumption]|].
    assert (Hother : exists out,
      SelectBuilder._get_subtables_loop fuel stack
        ({[node_key (op e)]} ∪ seen) (subs ++ [e]) = Ok out
      /\ Forall (fun x => expr_size x <= B) out).
    { apply IH; [lia|assumption|].
      apply Forall_app. split; [assumption|]. now constructor. }
    destruct e as [c o]. cbn [op] in *. destruct o; try exact Hother.
    apply IH.
    + simpl in *. lia.
    + simpl in He. constructor; [lia|]. constructor; [lia|assumption].
    + assumption.
Qed.

Lemma get_subtables_ok (e : expr) :
  exists out, SelectBuilder._get_subtables e = Ok out
              /\ Forall (fun x => expr_size x <= expr_size e) out.
Proof.
  apply get_subtables_loop_ok; [simpl; lia| |constructor].
  constructor; [lia|constructor].
Qed.

Lemma get_subtables_join_ok (c : ir.class) how l r ps :
  exists out,
    SelectBuilder._get_subtables (Expr c (ops.Join how l r ps)) = Ok out
    /\ Forall (fun x => expr_size x < expr_size (Expr c (ops.Join how l r ps))) out.
Proof.
  unfold SelectBuilder._get_subtables.
  cbn [expr_size SelectBuilder._get_subtables_loop op].
  rewrite bool_decide_eq_false_2 by apply not_elem_of_empty.
  destruct (get_subtables_loop_ok
              (node_size (ops.Join how l r ps)) (node_size (ops.Join how l r ps))
              [l; r] ({[node_key (ops.Join how l r ps)]} ∪ ∅) [])
    as (out & Eo & Hout).
  - simpl. lia.
  - simpl. constructor; [lia|]. constructor; [lia|constructor].
  - constructor.
  - exists out. split; [exact Eo|].
    eapply Forall_impl; [exact Hout|]. simpl. intros x Hx. lia.
Qed.

Lemma first_table_arg_in (args : list arg) (a : expr) :
  SelectBuilder.first_table_arg args = Some a -> In (AExpr a) args.
Proof.
  unfold SelectBuilder.first_table_arg.
  induction args as [|[x|v] args IH]; simpl; [discriminate| |].
  - destruct (isinstance_TableExpr x); simpl; [intros [= ->]; now left|].
    intros Ha. right. now apply IH.
  - intros Ha. right. now apply IH.
Qed.

Lemma blocking_base_ok (fuel : nat) : forall e,
  expr_size e <= fuel -> exists r, SelectBuilder._blocking_base fuel e = Ok r.
Proof.
  induction fuel as [|fuel IH]; intros e Hsz.
  - assert (Hp := expr_size_pos e). lia.
  - simpl. destruct (_ || _); [eauto|].
    destruct (SelectBuilder.first_table_arg _) as [a|] eqn:Ea; [|eauto].
    apply first_table_arg_in, child_size in Ea. apply IH. lia.
Qed.

Lemma all_distinct_roots_within_fuel (subtables : list expr) : forall bases,
  within_fuel (SelectBuilder._all_distinct_roots_loop subtables bases).
Proof.
  induction subtables as [|t rest IH]; intros bases; simpl; [discriminate|].
  destruct (blocking_base_ok (expr_size t) t (le_n _)) as [[b|] Eb];
    rewrite Eb; simpl.
  - destruct (SelectBuilder.equals_any b bases); [discriminate|apply IH].
  - destruct bases; [apply IH|discriminate].
Qed.

Lemma for_result_within_fuel {S A} (body : S -> A -> result S) (l : list A) :
  (forall s x, In x l -> within_fuel (body s x)) ->
  forall st, within_fuel (SelectBuilder.for_result body st l).
Proof.
  unfold SelectBuilder.for_result. intros Hb st.
  assert (Hr : within_fuel (Ok st)) by discriminate.
  revert Hr. generalize (Ok st).
  induction l as [|x l IH]; intros r Hr; [exact Hr|].
  simpl. apply IH.
  - intros s y Hy. apply Hb. now right.
  - apply within_fuel_bind; [exact Hr|]. intros a _. apply Hb. now left.
Qed.

Lemma collect_Join_within_fuel (f : builder -> expr -> bool -> result builder)
    (self : builder) (e : expr) (tl : bool) (B : nat) :
  (exists out, SelectBuilder._get_subtables e = Ok out
               /\ Forall (fun x => expr_size x < B) out) ->
  (forall s x, expr_size x < B -> within_fuel (f s x false)) ->
  within_fuel (SelectBuilder._collect_Join f self e tl).
Proof.
  intros (out & Eo & Hout) Hf. unfold SelectBuilder._collect_Join.
  rewrite Eo. simpl.
  apply within_fuel_bind; [apply all_distinct_roots_within_fuel|].
  intros [|] _; [|discriminate].
  apply within_fuel_bind; [|discriminate].
  apply for_result_within_fuel. intros s x Hx. apply Hf.
  rewrite Forall_forall in Hout. apply Hout. now apply list_elem_of_In.
Qed.

(** Collection ends within its fuel when the fuel exceeds the size of the
    expression. *)
Lemma collect_within_fuel (fuel : nat) : forall self e tl,
  expr_size e < fuel -> within_fuel (collect fuel self e tl).
Proof.
  induction fuel as [|fuel IH]; intros self e tl Hsz; [lia|].
  simpl. destruct (bool_decide _); [discriminate|].
  apply within_fuel_bind; [|discriminate].
  destruct e as [c o]. cbn [op].
  destruct o; try discriminate; simpl in Hsz.
  - destruct tl; discriminate.
  - destruct tl; discriminate.
  - destruct tl; [apply IH; lia|discriminate].
  - apply within_fuel_bind; [|intros [b s] _; discriminate].
    apply collect_Join_within_fuel with (B := fuel).
    + destruct (get_subtables_join_ok c how left right predicates)
        as (out & Eo & Hout).
      exists out. split; [exact Eo|]. eapply Forall_impl; [exact Hout|].
      simpl. intros x Hx. lia.
    + intros s x Hx. now apply IH.
  - apply within_fuel_bind; [|intros [b s] _; discriminate].
    apply collect_Join_within_fuel with (B := fuel).
    + destruct (get_subtables_ok join) as (out & Eo & Hout).
      exists out. split; [exact Eo|]. eapply Forall_impl; [exact Hout|].
      simpl. intros x Hx. lia.
    + intros s x Hx. now apply IH.
  - destruct tl; [|discriminate].
    apply within_fuel_bind.
    + destruct (isinstance_Join (op table)).
      * apply collect_Join_within_fuel with (B := fuel).
        -- destruct (get_subtables_ok table) as (out & Eo & Hout).
           exists out. split; [exact Eo|]. eapply Forall_impl; [exact Hout|].
           simpl. intros x Hx. lia.
        -- intros s x Hx. now apply IH.
      * apply within_fuel_bind; [apply IH; lia|discriminate].
    + intros [can_sub s] _. apply within_fuel_bind.
      * destruct can_sub; [|discriminate].
        destruct (op (SelectBuilder._sub _)); discriminate.
      * intros [[[sel fl] sk] tb] _. discriminate.
  - destruct tl; [|discriminate].
    destruct (op (SelectBuilder._sub _)); try discriminate.
    apply IH. lia.
  - apply IH. lia.
  - destruct tl; cbn [negb]; [apply IH; lia|discriminate].
  - destruct tl; discriminate.
Qed.

(** *** The passes after collection keep the limit *)

Lemma visit_select_args_limit (f : builder -> expr -> result (expr * builder))
    (args : list arg) : forall self new self',
  (forall a s a' s', In (AExpr a) args -> f s a = Ok (a', s') ->
     limit s' = limit s) ->
  SelectBuilder.visit_select_args f self args = Ok (new, self') ->
  limit self' = limit self.
Proof.
  induction args as [|[a|v] args IH]; intros self new self' Hf; simpl.
  - now intros [= <- <-].
  - destruct (f self a) as [[a' s1]|] eqn:Ea; [|discriminate]. simpl.
    destruct (SelectBuilder.visit_select_args f s1 args) as [[rest s2]|] eqn:Er;
      [|discriminate].
    simpl. intros [= <- <-].
    apply IH in Er; [|intros; eapply Hf; [right|]; eassumption].
    apply Hf in Ea; [|now left]. congruence.
  - destruct (SelectBuilder.visit_select_args f self args) as [[rest s2]|] eqn:Er;
      [|discriminate].
    simpl. intros [= <- <-].
    apply IH in Er; [exact Er|intros; eapply Hf; [right|]; eassumption].
Qed.

Lemma visit_select_expr_limit (n : nat) : forall e self e' self',
  expr_size e < n ->
  SelectBuilder._visit_select_expr self e = Ok (e', self') ->
  limit self' = limit self.
Proof.
  induction n as [|n IH]; intros [c o] self e' self' Hsz; [lia|].
  simpl in Hsz.
  assert (Hstep : forall x s x' s', expr_size x <= node_size o ->
            SelectBuilder._visit_select_expr s x = Ok (x', s') ->
            limit s' = limit s).
  { intros x s x' s' Hx. apply IH. lia. }
  destruct o; simpl;
    try (intros [= <- <-]; reflexivity);
    try (destruct (SelectBuilder._visit_select_expr self _) as [[x1 s1]|] eqn:E1;
         [|discriminate]; simpl;
         try (destruct (SelectBuilder._visit_select_expr s1 _) as [[x2 s2]|] eqn:E2;
              [|discriminate]; simpl);
         intros [= <- <-];
         apply Hstep in E1; [|simpl; lia];
         try (apply Hstep in E2; [|simpl; lia]);
         congruence).
  destruct (bool_decide _).
  - destruct (visit_select_Histogram _ _) as [[new ts]|]; [|discriminate].
    simpl. now intros [= <- <-].
  - destruct (SelectBuilder.visit_select_args _ self args) as [[new s1]|] eqn:Ea;
      [|discriminate].
    simpl. intros [= <- <-].
    apply visit_select_args_limit in Ea; [exact Ea|].
    intros a s a' s' Hin. apply Hstep. simpl.
    apply (sum_sizes_in
             (fun a => match a with inl e => expr_size e | inr _ => 0 end)
             (AExpr a)), Hin.
Qed.

Lemma analyze_select_exprs_limit (self self' : builder) :
  SelectBuilder._analyze_select_exprs self = Ok self' ->
  limit self' = limit self.
Proof.
  unfold SelectBuilder._analyze_select_exprs.
  destruct (SelectBuilder.select_set self) as [ss|]; [|discriminate].
  destruct (SelectBuilder.visit_all _ self ss) as [[new s1]|] eqn:Ev;
    [|discriminate].
  simpl. intros [= <-]. cbn.
  revert self new s1 Ev. induction ss as [|e ss IHs]; intros self new s1; simpl.
  - now intros [= <- <-].
  - destruct (SelectBuilder._visit_select_expr self e) as [[e' s2]|] eqn:Ee;
      [|discriminate].
    simpl.
    destruct (SelectBuilder.visit_all _ s2 ss) as [[rest s3]|] eqn:Er;
      [|discriminate].
    simpl. intros [= <- <-]. apply IHs in Er.
    apply (visit_select_expr_limit (S (expr_size e))) in Ee; [congruence|lia].
Qed.

Lemma visit_filter_args_limit
    (f : builder -> expr -> result (option expr * builder))
    (args : list arg) : forall self new self',
  (forall a s a' s', In (AExpr a) args -> f s a = Ok (a', s') ->
     limit s' = limit s) ->
  SelectBuilder.visit_filter_args f self args = Ok (new, self') ->
  limit self' = limit self.
Proof.
  induction args as [|[a|v] args IH]; intros self new self' Hf; simpl.
  - now intros [= <- <-].
  - destruct (f self a) as [[a' s1]|] eqn:Ea; [|discriminate]. simpl.
    destruct (SelectBuilder.visit_filter_args f s1 args) as [[rest s2]|] eqn:Er;
      [|discriminate].
    simpl. intros [= <- <-].
    apply IH in Er; [|intros; eapply Hf; [right|]; eassumption].
    apply Hf in Ea; [|now left]. congruence.
  - destruct (SelectBuilder.visit_filter_args f self args) as [[rest s2]|] eqn:Er;
      [|discriminate].
    simpl. intros [= <- <-].
    apply IH in Er; [exact Er|intros; eapply Hf; [right|]; eassumption].
Qed.

Lemma visit_filter_limit (n : nat) : forall e self e' self',
  expr_size e < n ->
  SelectBuilder._visit_filter self e = Ok (e', self') ->
  limit self' = limit self.
Proof.
  induction n as [|n IH]; intros [c o] self e' self' Hsz; [lia|].
  simpl in Hsz.
  assert (Hstep : forall x s x' s', expr_size x <= node_size o ->
            SelectBuilder._visit_filter s x = Ok (x', s') ->
            limit s' = limit s).
  { intros x s x' s' Hx. apply IH. lia. }
  destruct o; cbn [SelectBuilder._visit_filter];
    try (destruct (_ && _); [now intros [= <- <-]|]);
    try discriminate;
    try (now intros [= <- <-]).
  - (* TableArrayView *)
    destruct (SelectBuilder._visit_filter self table) as [[x1 s1]|] eqn:E1;
      [|discriminate].
    simpl. destruct (SelectBuilder.rebuild _ _ _) as [nd|]; [|discriminate].
    simpl. intros [= <- <-]. apply Hstep in E1; [exact E1|simpl; lia].
  - (* Any *)
    destruct (SelectBuilder._visit_filter_Any self _); [|discriminate].
    simpl. now intros [= <- <-].
  - (* NotAny *)
    destruct (SelectBuilder._visit_filter_Any self _); [|discriminate].
    simpl. now intros [= <- <-].
  - (* TopK *)
    destruct (SelectBuilder._visit_filter self arg) as [[x1 s1]|] eqn:E1;
      [|discriminate].
    simpl.
    destruct (SelectBuilder._visit_filter s1 by_) as [[x2 s2]|] eqn:E2;
      [|discriminate].
    simpl. destruct (SelectBuilder.rebuild _ _ _) as [nd|]; [|discriminate].
    simpl. intros [= <- <-].
    apply Hstep in E1; [|simpl; lia]. apply Hstep in E2; [|simpl; lia].
    congruence.
  - (* SummaryFilter *)
    destruct (SelectBuilder._visit_filter_SummaryFilter self _) as [s1|] eqn:E1;
      [|discriminate].
    simpl. intros [= <- <-].
    unfold SelectBuilder._visit_filter_SummaryFilter in E1. cbn [op] in E1.
    destruct (op e); try discriminate E1.
    destruct (get_name arg); [|discriminate E1]. simpl in E1.
    destruct (SelectBuilder.table_set self); [|discriminate E1].
    now injection E1 as <-.
  - (* BinaryOp *)
    destruct (SelectBuilder._visit_filter self left) as [[x1 s1]|] eqn:E1;
      [|discriminate].
    simpl.
    destruct (SelectBuilder._visit_filter s1 right) as [[x2 s2]|] eqn:E2;
      [|discriminate].
    simpl. destruct (SelectBuilder.rebuild _ _ _) as [nd|]; [|discriminate].
    simpl. intros [= <- <-].
    apply Hstep in E1; [|simpl; lia]. apply Hstep in E2; [|simpl; lia].
    congruence.
  - (* ValueOp *)
    destruct boolean; [now intros [= <- <-]|].
    destruct (SelectBuilder.visit_filter_args _ self args) as [[new s1]|] eqn:Ea;
      [|discriminate].
    simpl. destruct (SelectBuilder.rebuild _ _ _) as [nd|]; [|discriminate].
    simpl. intros [= <- <-].
    apply visit_filter_args_limit in Ea; [exact Ea|].
    intros a s a' s' Hin. apply Hstep. simpl.
    apply (sum_sizes_in
             (fun a => match a with inl e => expr_size e | inr _ => 0 end)
             (AExpr a)), Hin.
Qed.

Lemma analyze_filter_exprs_limit (self self' : builder) :
  SelectBuilder._analyze_filter_exprs self = Ok self' ->
  limit self' = limit self.
Proof.
  unfold SelectBuilder._analyze_filter_exprs.
  destruct (SelectBuilder._analyze_filter_loop self _ []) as [[w s1]|] eqn:El;
    [|discriminate].
  simpl. intros [= <-]. cbn.
  revert El. generalize (@nil expr). generalize (SelectBuilder.filters self) at 1.
  intros l. revert self. induction l as [|e l IHl]; intros self nw; simpl.
  - now intros [= <- <-].
  - destruct (SelectBuilder._visit_filter self e) as [[e' s2]|] eqn:Ee;
      [|discriminate].
    simpl. apply (visit_filter_limit (S (expr_size e))) in Ee; [|lia].
    destruct e'; intros El; apply IHl in El; congruence.
Qed.

Lemma analyze_subqueries_limit (self : builder) :
  limit (SelectBuilder._analyze_subqueries self) = limit self.
Proof.
  unfold SelectBuilder._analyze_subqueries.
  generalize (extract_subqueries (SelectBuilder.table_set self)
                (SelectBuilder.filters self)).
  intros found.
  change (limit self) with (limit (SelectBuilder.set_subqueries self [])).
  generalize (SelectBuilder.set_subqueries self []).
  induction found as [|e found IH]; intros s; simpl; [reflexivity|].
  destruct (is_extracted _ e); simpl; now rewrite IH.
Qed.

Lemma populate_context_limit (self self' : builder) :
  SelectBuilder._populate_context self = Ok self' ->
  limit self' = limit self.
Proof.
  unfold SelectBuilder._populate_context.
  apply (for_result_inv (fun s => limit s = limit self)).
  - intros s e s' _ Hs.
    unfold SelectBuilder._foreign_ref_check.
    destruct (SelectBuilder.table_set s); [|discriminate].
    destruct (_CorrelatedRefCheck.get_result _) as [[r ch]|]; [|discriminate].
    simpl. destruct r; now intros [= <-].
  - now destruct (SelectBuilder.table_set self).
Qed.

Lemma init_fields (e : expr) (ctx : QueryContext) (self : builder) :
  SelectBuilder.init e ctx = Ok self ->
  SelectBuilder.queries self = []
  /\ limit self = None
  /\ SelectBuilder.op_memo self = ∅
  /\ SelectBuilder.context self = ctx.
Proof.
  unfold SelectBuilder.init.
  destruct (SelectBuilder._adapt_expr e) as [[qe rh]|]; [|discriminate].
  simpl. intros [= <-]. auto.
Qed.

Lemma collect_Limit_toplevel (fuel : nat) (self self' : builder) (c : ir.class)
    (table : expr) (n offset : Z) :
  limit self = None ->
  node_key (ops.Limit table n offset) ∉ SelectBuilder.op_memo self ->
  collect (S fuel) self (Expr c (ops.Limit table n offset)) true = Ok self' ->
  limit self' = Some (n, offset).
Proof.
  intros Hl Hm. cbn [SelectBuilder._collect op negb].
  rewrite bool_decide_eq_false_2 by exact Hm. rewrite Hl.
  destruct (collect fuel _ table true) as [s1|] eqn:Ec; [|discriminate].
  simpl. intros [= <-].
  apply collect_limit in Ec. destruct Ec as [_ Ec]. now apply Ec.
Qed.

Lemma collect_toplevel_limit (fuel : nat) : forall self e self',
  SelectBuilder.op_memo self = ∅ -> limit self = None ->
  collect fuel self e true = Ok self' ->
  limit self' = outermost_limit e.
Proof.
  induction fuel as [|fuel IH]; intros self e self' Hm Hl; [discriminate|].
  assert (IHf : forall s x s', collect fuel s x false = Ok s' -> limit s' = limit s).
  { intros s x s' Hx. now apply (collect_limit fuel s x false s'). }
  destruct e as [c o].
  cbn [SelectBuilder._collect op].
  rewrite bool_decide_eq_false_2 by (rewrite Hm; apply not_elem_of_empty).
  match goal with
  | |- (?m ≫= _) = _ -> _ =>
      destruct m as [s1|] eqn:Hc; [|discriminate];
      simpl; intros [= <-];
      change (limit (SelectBuilder.memoize s1 o)) with (limit s1)
  end.
  destruct o; try discriminate Hc; cbn [outermost_limit].
  - injection Hc as <-. exact Hl.
  - injection Hc as <-. exact Hl.
  - apply IH in Hc; assumption.
  - destruct (SelectBuilder._collect_Join _ _ _ _) as [[b s2]|] eqn:Ej;
      [|discriminate].
    simpl in Hc. injection Hc as <-.
    apply collect_Join_limit in Ej; [|exact IHf]. now rewrite Ej.
  - destruct (SelectBuilder._collect_Join _ _ _ _) as [[b s2]|] eqn:Ej;
      [|discriminate].
    simpl in Hc. injection Hc as <-.
    apply collect_Join_limit in Ej; [|exact IHf]. now rewrite Ej.
  - match type of Hc with
    | (?m ≫= _) = _ => destruct m as [[can_sub s2]|] eqn:Em; [|discriminate]
    end.
    assert (Hs2 : limit s2 = None).
    { rewrite <- Hl. destruct (isinstance_Join (op table)).
      - now apply collect_Join_limit in Em.
      - destruct (collect fuel self table false) as [s4|] eqn:Ec; [|discriminate].
        simpl in Em. injection Em as <- <-. now apply IHf in Ec. }
    simpl in Hc.
    match type of Hc with
    | (?m ≫= _) = _ => destruct m as [[[[sel fl] sk] tb]|]; [|discriminate]
    end.
    simpl in Hc. injection Hc as <-. exact Hs2.
  - destruct (op (SelectBuilder._sub _)); try discriminate Hc.
    apply IHf in Hc. cbn in Hc. congruence.
  - apply IH in Hc; assumption.
  - cbn [negb] in Hc. rewrite Hl in Hc. apply collect_limit in Hc.
    destruct Hc as [_ Hc]. now apply Hc.
Qed.

Lemma build_result_query_limit (self self' : builder) (q : Select) :
  SelectBuilder._build_result_query self = Ok (q, self') ->
  exists s1, SelectBuilder._collect_elements self = Ok s1
             /\ s_limit q = limit s1.
Proof.
  unfold SelectBuilder._build_result_query.
  destruct (SelectBuilder._collect_elements self) as [s1|]; [|discriminate].
  simpl.
  destruct (SelectBuilder._analyze_select_exprs s1) as [s2|] eqn:E2;
    [|discriminate].
  simpl.
  destruct (SelectBuilder._analyze_filter_exprs s2) as [s3|] eqn:E3;
    [|discriminate].
  simpl.
  destruct (SelectBuilder._populate_context _) as [s4|] eqn:E4; [|discriminate].
  simpl. intros [= <- <-]. exists s1. split; [reflexivity|].
  apply analyze_select_exprs_limit in E2. apply analyze_filter_exprs_limit in E3.
  apply populate_context_limit in E4. rewrite analyze_subqueries_limit in E4.
  cbn. congruence.
Qed.

(** C10: the statement that is built has as its limit the count and the
    offset of the Limit node that collection reaches first at the top
    level, the root when the root is a Limit node, and no limit when there
    is none.  Collection ends within its fuel; a limit that is recorded is
    kept by every later collection, so a Limit node further down does not
    change it; a Limit node collected below the top level changes nothing
    but the memo and its table is not collected; and no collection below
    the top level changes the limit. *)
Theorem outermost_limit_wins (e : expr) (ctx : QueryContext) (self : builder) :
  SelectBuilder.init e ctx = Ok self ->
  (forall q self', SelectBuilder.get_result self = Ok (q, self') ->
     s_limit q = outermost_limit (SelectBuilder.query_expr self))
  /\ (forall table n offset,
        op (SelectBuilder.query_expr self) = ops.Limit table n offset ->
        outermost_limit (SelectBuilder.query_expr self) = Some (n, offset))
  /\ within_fuel (SelectBuilder._collect_elements self)
  /\ (forall fuel s x tl l s',
        limit s = Some l -> collect fuel s x tl = Ok s' -> limit s' = Some l)
  /\ (forall fuel s c t' n' o',
        collect (S fuel) s (Expr c (ops.Limit t' n' o')) false
        = Ok (if bool_decide (node_key (ops.Limit t' n' o')
                              ∈ SelectBuilder.op_memo s)
              then s else SelectBuilder.memoize s (ops.Limit t' n' o')))
  /\ (forall fuel s x s',
        collect fuel s x false = Ok s' -> limit s' = limit s).
Proof.
  intros Hinit.
  destruct (init_fields e ctx self Hinit) as (Hq & Hl & Hm & _).
  split; [|split; [|split; [|split; [|split]]]].
  - intros q self'. unfold SelectBuilder.get_result. rewrite Hq.
    destruct (SelectBuilder._build_result_query self) as [[q1 s1]|] eqn:Eb;
      [|discriminate].
    simpl. intros [= <- <-].
    apply build_result_query_limit in Eb as (s0 & Ec & ->).
    unfold SelectBuilder._collect_elements in Ec.
    destruct (if isinstance_Join (op (SelectBuilder.query_expr self))
              then materialize (SelectBuilder.query_expr self)
              else Ok (SelectBuilder.query_expr self)) as [src|] eqn:Es;
      [|discriminate].
    cbn [mbind result_bind] in Ec.
    assert (Hsrc : outermost_limit src
                   = outermost_limit (SelectBuilder.query_expr self)
                   /\ (isinstance_Join (op (SelectBuilder.query_expr self))
                       = false -> src = SelectBuilder.query_expr self)).
    { destruct (isinstance_Join _) eqn:Ej;
        [|injection Es as <-; now split].
      unfold materialize in Es. rewrite Ej in Es.
      destruct (overlapping_columns _); [discriminate|].
      injection Es as <-. split; [|discriminate].
      destruct (SelectBuilder.query_expr self) as [c o].
      destruct o; try discriminate Ej; reflexivity. }
    destruct Hsrc as [Hsrc Hsame].
    destruct (isinstance_TableNode (op (SelectBuilder.query_expr self))) eqn:Et.
    + destruct (collect _ self _ true) as [s2|] eqn:E2; [|discriminate].
      simpl in Ec. destruct (SelectBuilder.table_set s2); [|discriminate].
      injection Ec as <-.
      apply collect_toplevel_limit in E2; [|exact Hm|exact Hl].
      now rewrite E2.
    + assert (Ej : isinstance_Join (op (SelectBuilder.query_expr self)) = false).
      { destruct (op (SelectBuilder.query_expr self)); try reflexivity;
          discriminate Et. }
      rewrite (Hsame Ej) in Ec.
      destruct (SelectBuilder.query_expr self) as [c o]. cbn [op] in *.
      destruct o; try discriminate Et; injection Ec as <-; exact Hl.
  - intros table n offset Hop.
    destruct (SelectBuilder.query_expr self) as [c o]. cbn [op] in Hop.
    now subst o.
  - unfold SelectBuilder._collect_elements.
    apply within_fuel_bind.
    { destruct (isinstance_Join _) eqn:Ej; [|discriminate].
      unfold materialize. rewrite Ej.
      destruct (overlapping_columns _); discriminate. }
    intros src _.
    destruct (isinstance_TableNode _).
    + apply within_fuel_bind.
      * apply collect_within_fuel. lia.
      * intros s _. destruct (SelectBuilder.table_set s); discriminate.
    + destruct (op _); discriminate.
  - intros fuel s x tl l s' Hs Hc. apply collect_limit in Hc.
    destruct Hc as [_ Hc]. now apply Hc.
  - intros fuel s c t' n' o'. cbn [SelectBuilder._collect op negb].
    destruct (bool_decide _); reflexivity.
  - intros fuel s x s' Hc. apply collect_limit in Hc. now apply Hc.
Qed.

(** C6: after a first call of [get_result] has produced a statement, the
    second call on the same builder does not return it: it looks up a
    method that the class does not define and raises. *)
Theorem get_result_twice_raises (self self' : builder) (q : Select) :
  SelectBuilder.get_result self = Ok (q, self') ->
  SelectBuilder.get_result self' = Raise AttributeError.
Proof.
  unfold SelectBuilder.get_result at 1.
  destruct (SelectBuilder.queries self) as [|q0 qs] eqn:Hq; [|discriminate].
  destruct (SelectBuilder._build_result_query self) as [[q1 s1]|]; [|discriminate].
  simpl. intros [= <- <-].
  unfold SelectBuilder.get_result. cbn [SelectBuilder.queries SelectBuilder.set_queries].
  destruct (SelectBuilder.queries s1 ++ [q1]) eqn:Ha; [|reflexivity].
  now apply app_eq_nil in Ha as [_ Ha].
Qed.

End SelectBuilder_collect_props.

(** ** The flattening of intersections and differences *)

(** C5 at a nested chain: the intersection of an intersection of [a] and
    [b] with [c] is flattened to two operands, the inner intersection and
    [c], with one keyword; the inner chain is kept whole.  The same holds
    for differences. *)
Theorem nested_intersection_not_flattened `{Hashing} `{ExprAPI}
    (ctx : QueryContext) :
  let inner := to_table (ops.Intersection (physical "a") (physical "b")) in
  let e := to_table (ops.Intersection inner (physical "c")) in
  let inner' := to_table (ops.Difference (physical "a") (physical "b")) in
  let e' := to_table (ops.Difference inner' (physical "c")) in
  Intersection.tables (_make_intersect (mkQueryBuilder e ctx))
  = [inl inner; inl (physical "c")]
  /\ Intersection._get_keyword_list (_make_intersect (mkQueryBuilder e ctx))
     = ["INTERSECT"]
  /\ Difference.tables (_make_difference (mkQueryBuilder e' ctx))
     = [inl inner'; inl (physical "c")]
  /\ Difference._get_keyword_list (_make_difference (mkQueryBuilder e' ctx))
     = ["EXCEPT"]
  /\ QueryBuilder_get_result (mkQueryBuilder e ctx)
     = Ok (mkQueryAST ctx
             (IntersectionQuery
                (Intersection.mk [inl inner; inl (physical "c")] e ctx))
             [] [])
  /\ QueryBuilder_get_result (mkQueryBuilder e' ctx)
     = Ok (mkQueryAST ctx
             (DifferenceQuery
                (Difference.mk [inl inner'; inl (physical "c")] e' ctx))
             [] []).
Proof. repeat split. Qed.

(** Whatever the operands, the keywords of an intersection and of a
    difference number one fewer than the operands kept. *)
Lemma setop_keyword_count `{Hashing} (i : Intersection.t) (d : Difference.t) :
  length (Intersection._get_keyword_list i) = length (Intersection.tables i) - 1
  /\ length (Difference._get_keyword_list d) = length (Difference.tables d) - 1.
Proof.
  unfold Intersection._get_keyword_list, Difference._get_keyword_list.
  now rewrite length_map, length_seq, length_replicate.
Qed.

(** ** Examples *)

Section Examples.
#[local] Existing Instance Example.hashing.
#[local] Existing Instance Example.api.
#[local] Existing Instance Example.externals.

Lemma conjuncts_size (a s : expr) :
  In s (Example.conjuncts a) -> expr_size s <= expr_size a.
Proof.
  assert (Hsz : forall n a s, expr_size a < n ->
            In s (Example.conjuncts a) -> expr_size s <= expr_size a).
  { clear. intros n. induction n as [|n IH]; intros [c o] s Hn; [lia|].
    assert (Hself : In s [Expr c o] -> expr_size s <= expr_size (Expr c o)).
    { intros [<-|[]]. lia. }
    destruct o; try exact Hself.
    cbn [Example.conjuncts]. destruct (bool_decide _); [|exact Hself].
    rewrite in_app_iff. simpl in Hn |- *.
    intros [Hl|Hr]; [apply IH in Hl|apply IH in Hr]; lia. }
  apply (Hsz (S (expr_size a))). lia.
Qed.

Lemma any_lowers_to_exists_witness :
  (forall a s, In s (flatten_predicate a) -> expr_size s <= expr_size a)
  /\ exists ft preds tables,
       walk any_filter preds tables
       /\ last_foreign table_a None tables ft
       /\ _AnyToExistsTransform.get_result
            (_AnyToExistsTransform.init empty_context any_filter table_a)
          = Some (Expr ir.BooleanColumn (ops.ExistsSubquery ft preds))
       /\ ft = Some table_b /\ preds = [same_key table_a table_b].
Proof.
  split; [exact conjuncts_size|].
  destruct (@any_lowers_to_exists Example.hashing Example.api
              empty_context any_filter table_a conjuncts_size)
    as (ft & preds & tables & Hw & _ & Hf & _ & HAny & _).
  exists ft, preds, tables. specialize (HAny _ eq_refl).
  split; [exact Hw|]. split; [exact Hf|]. split; [exact HAny|].
  assert (Hc : _AnyToExistsTransform.get_result
                 (_AnyToExistsTransform.init empty_context any_filter table_a)
               = Some (Expr ir.BooleanColumn
                         (ops.ExistsSubquery (Some table_b)
                            [same_key table_a table_b])))
    by (vm_compute; reflexivity).
  rewrite Hc in HAny. injection HAny as <- <-. split; reflexivity.
Defined.

Lemma summary_filter_rewrites_table_set_witness :
  let self := collected_builder table_a [top_k_filter] in
  let k := Example.column "k" table_a in
  let v := Example.column "v" table_a in
  let rank_set := to_table (ops.Aggregation table_a [v] [k] [] [] []) in
  op (Expr ir.AnalyticExpr (ops.TopK k 3 v)) = ops.TopK k 3 v
  /\ get_name k = Ok "k"
  /\ SelectBuilder.filters self = [] ++ top_k_filter :: []
  /\ SelectBuilder._analyze_filter_loop self [] [] = Ok ([], self)
  /\ SelectBuilder.table_set self = Some table_a
  /\ SelectBuilder._visit_filter self top_k_filter
     = Ok (None,
           SelectBuilder.set_table_set self
             (Some (to_table
                      (ops.Join ops.LeftSemiJoin table_a rank_set
                         [equals_ k (Example.column "k" rank_set)])))).
Proof.
  intros self k v rank_set.
  repeat (split; [reflexivity|]).
  exact (proj1 (summary_filter_rewrites_table_set self self ir.BooleanColumn
                  (Expr ir.AnalyticExpr (ops.TopK k 3 v)) k v 3 "k" table_a
                  [] [] [] eq_refl eq_refl eq_refl eq_refl eq_refl)).
Defined.

Lemma make_union_chain_witness :
  let rest := [(true, table_b); (false, table_c)] in
  rest <> []
  /\ is_Union table_a = false
  /\ Forall (fun p => is_Union p.2 = false) rest
  /\ length (flatten_union (union_chain table_a rest)) = 5
  /\ exists u,
       _make_union (mkQueryBuilder (union_chain table_a rest) empty_context) = Ok u
       /\ Union.tables u = [inl table_a; inl table_b; inl table_c]
       /\ Union._get_keyword_list u = Ok ["UNION"; "UNION ALL"].
Proof.
  intros rest.
  assert (H1 : rest <> []) by discriminate.
  assert (H2 : is_Union table_a = false) by reflexivity.
  assert (H3 : Forall (fun p : bool * expr => is_Union p.2 = false) rest)
    by (repeat constructor).
  split; [exact H1|split; [exact H2|split; [exact H3|]]].
  destruct (make_union_chain empty_context table_a rest H1 H2 H3)
    as (Hlen & u & Hu & Ht & _ & _ & Hk & _).
  split; [exact Hlen|]. exists u. split; [exact Hu|split; [exact Ht|exact Hk]].
Defined.

Lemma join_tree_left_deep_only_witness :
  isinstance_Join (op join_abc) = true
  /\ left_deep (op join_abc) = true
  /\ (exists s,
        TableSetFormatter.get_result
          (TableSetFormatter.init empty_context join_abc) = Ok s)
  /\ TableSetFormatter._walk_join_tree
       (TableSetFormatter.init empty_context join_abc)
       (ops.Join ops.InnerJoin table_a join_abc [])
     = Raise NotImplementedError.
Proof.
  assert (Hj : isinstance_Join (op join_abc) = true) by reflexivity.
  destruct (join_tree_left_deep_only empty_context join_abc Hj)
    as (Hright & _ & Hleft).
  split; [exact Hj|]. split; [reflexivity|]. split.
  - destruct (Hleft eq_refl) as (ts & s & _ & _ & Hs).
    + repeat constructor; eexists; vm_compute; reflexivity.
    + repeat constructor; eexists; vm_compute; reflexivity.
    + now exists s.
  - apply Hright. reflexivity.
Defined.

Lemma join_keywords_and_parentheses_witness :
  exists s tables,
    TableSetFormatter.get_result (TableSetFormatter.init empty_context join_abc)
    = Ok s
    /\ length (joined_tables join_abc) = 3
    /\ length (spine_joins (op join_abc)) = 2
    /\ rendered_joins empty_context (spine_joins (op join_abc)) tables s.
Proof.
  assert (Es : TableSetFormatter.get_result
                 (TableSetFormatter.init empty_context join_abc)
               = Ok rendered_abc) by (vm_compute; reflexivity).
  destruct (join_keywords_and_parentheses empty_context join_abc rendered_abc Es)
    as (tables & _ & Hlen & Hr).
  exists rendered_abc, tables. split; [exact Es|]. split; [reflexivity|].
  split; [exact Hlen|exact Hr].
Defined.

Lemma outermost_limit_wins_witness :
  exists self q self',
    SelectBuilder.init limit_limit empty_context = Ok self
    /\ SelectBuilder.get_result self = Ok (q, self')
    /\ s_limit q = Some (10, 2)%Z.
Proof.
  assert (Ei : SelectBuilder.init limit_limit empty_context = Ok builder_limit)
    by (vm_cast_no_check (@eq_refl _ (Ok builder_limit))).
  assert (Eg : SelectBuilder.get_result builder_limit = Ok built_limit)
    by (vm_cast_no_check (@eq_refl _ (Ok built_limit))).
  destruct (outermost_limit_wins limit_limit empty_context builder_limit Ei)
    as (Hbuilt & Hroot & _).
  exists builder_limit, built_limit.1, built_limit.2.
  split; [exact Ei|]. split; [exact Eg|].
  rewrite (Hbuilt built_limit.1 built_limit.2 Eg).
  exact (Hroot _ _ _ eq_refl).
Defined.

Lemma get_result_twice_raises_witness :
  exists self q self',
    SelectBuilder.init table_a empty_context = Ok self
    /\ SelectBuilder.get_result self = Ok (q, self')
    /\ SelectBuilder.get_result self' = Raise AttributeError.
Proof.
  assert (Ei : SelectBuilder.init table_a empty_context = Ok builder_a)
    by (vm_cast_no_check (@eq_refl _ (Ok builder_a))).
  assert (Eg : SelectBuilder.get_result builder_a = Ok built_a)
    by (vm_cast_no_check (@eq_refl _ (Ok built_a))).
  exists builder_a, built_a.1, built_a.2.
  split; [exact Ei|]. split; [exact Eg|].
  exact (get_result_twice_raises builder_a built_a.2 built_a.1 Eg).
Defined.

Lemma correlated_iff_both_roots_inside_subquery_witness :
  keys_identify_nodes exists_filter
  /\ (exists n, encountered_table table_a exists_filter n true
                /\ statement_root table_a n = true)
  /\ (exists m, encountered_table table_a exists_filter m true
                /\ statement_root table_a m = false)
  /\ exists self',
       _CorrelatedRefCheck.get_result
         (_CorrelatedRefCheck.init empty_context table_a exists_filter)
       = Some (true, self').
Proof.
  set (column_a := Example.column "k" table_a).
  set (column_b := Example.column "k" table_b).
  assert (Hsub : forall a, subexpr exists_filter a ->
                 In a [exists_filter; table_b; same_key table_a table_b;
                       column_a; column_b; table_a]).
  { induction 1 as [|x a _ IH Hin]; [now left|].
    cbn [In] in IH.
    destruct IH as [<-|[<-|[<-|[<-|[<-|[<-|[]]]]]]]; cbn in Hin;
      repeat match goal with
             | Hin : _ \/ _ |- _ => destruct Hin as [Hin|Hin]
             | Hin : False |- _ => destruct Hin
             | Hin : inl _ = inl _ |- _ => injection Hin as <-
             | Hin : inr _ = inl _ |- _ => discriminate Hin
             end;
      cbn [In]; tauto. }
  assert (Hk : keys_identify_nodes exists_filter).
  { intros a b Ha Hb Hkey. apply Hsub in Ha, Hb. cbn [In] in Ha, Hb.
    destruct Ha as [<-|[<-|[<-|[<-|[<-|[<-|[]]]]]]];
      destruct Hb as [<-|[<-|[<-|[<-|[<-|[<-|[]]]]]]];
      try reflexivity;
      exfalso; destruct Hkey as [K|K]; vm_compute in K; discriminate K. }
  destruct (correlated_iff_both_roots_inside_subquery
              empty_context table_a exists_filter)
    as (answer & self' & Hres & Honly & _).
  assert (Hb : fst <$> _CorrelatedRefCheck.get_result
                         (_CorrelatedRefCheck.init empty_context table_a
                            exists_filter)
               = Some true) by (vm_compute; reflexivity).
  rewrite Hres in Hb. injection Hb as ->.
  destruct (Honly eq_refl) as [Hroot Hforeign].
  split; [exact Hk|]. split; [exact Hroot|]. split; [exact Hforeign|].
  now exists self'.
Defined.

End Examples.

(** * Further properties *)

(** ** Set operations over trees of any shape *)

Lemma flatten_union_tree (e : expr) :
  exists (t : expr) (rest : list (bool * expr)),
    flatten_union e = inl t :: flat_map (fun p => [inr p.1; inl p.2]) rest
    /\ union_operands e = t :: map snd rest
    /\ union_flags e = map fst rest.
Proof.
  assert (Hsz : forall n e, expr_size e < n ->
    exists (t : expr) (rest : list (bool * expr)),
      flatten_union e = inl t :: flat_map (fun p => [inr p.1; inl p.2]) rest
      /\ union_operands e = t :: map snd rest
      /\ union_flags e = map fst rest).
  { intros n. induction n as [|n IH]; intros u Hu; [lia|].
    destruct u as [c [ | | | | | | | | |l r d| | | | | | | | | | | | | | | ]];
      try (eexists _, []; repeat split; reflexivity).
    simpl in Hu.
    destruct (IH l ltac:(lia)) as (tl & rl & Fl & Ol & Dl).
    destruct (IH r ltac:(lia)) as (tr & rr & Fr & Or & Dr).
    exists tl, (rl ++ (d, tr) :: rr).
    cbn [flatten_union union_operands union_flags].
    rewrite Fl, Fr, Ol, Or, Dl, Dr.
    rewrite flat_map_app, !map_app. simpl.
    repeat split; reflexivity. }
  eapply Hsz. apply Nat.lt_succ_diag_r.
Qed.

Lemma flat_map_pairs (rest : list (bool * expr)) :
  flat_map (fun p : item * item => [p.1; p.2])
    (map (fun p : bool * expr => (inr p.1, inl p.2)) rest)
  = flat_map (fun p : bool * expr => [inr p.1; inl p.2]) rest.
Proof. induction rest as [|p rest IH]; simpl; [reflexivity|now rewrite IH]. Qed.

Lemma flatten_union_slices (e : expr) :
  slice_even (flatten_union e) = map inl (union_operands e)
  /\ slice_odd (flatten_union e) = map inr (union_flags e)
  /\ length (flatten_union e) = 2 * length (union_flags e) + 1
  /\ length (union_operands e) = S (length (union_flags e)).
Proof.
  destruct (flatten_union_tree e) as (t & rest & F & O & D).
  destruct (slices_interleaved (A := item) (inl t)
              (map (fun p : bool * expr => (inr p.1, inl p.2)) rest))
    as [Hev Hod].
  rewrite flat_map_pairs, <- F, !map_map in Hev, Hod. simpl in Hev, Hod.
  rewrite Hev, Hod, F, O, D. simpl. rewrite !map_map, !length_map.
  repeat split; try reflexivity.
  clear. induction rest as [|p rest IH]; simpl; lia.
Qed.

Lemma union_operands_not_union (e : expr) :
  Forall (fun t => is_Union t = false) (union_operands e).
Proof.
  assert (Hsz : forall n e, expr_size e < n ->
    Forall (fun t => is_Union t = false) (union_operands e)).
  { intros n. induction n as [|n IH]; intros u Hu; [lia|].
    destruct u as [c [ | | | | | | | | |l r d| | | | | | | | | | | | | | | ]];
      try (repeat constructor; fail).
    simpl in Hu. cbn [union_operands]. apply Forall_app.
    split; apply IH; lia. }
  eapply Hsz. apply Nat.lt_succ_diag_r.
Qed.

Lemma entry_tables_flatten (e : expr) :
  entry_tables (flatten_union e) = union_operands e
  /\ entry_flags (flatten_union e) = union_flags e.
Proof.
  destruct (flatten_union_tree e) as (t & rest & F & O & D).
  rewrite F, O, D. unfold entry_tables, entry_flags. simpl.
  clear. induction rest as [|p rest [IH1 IH2]]; [now split|].
  simpl. rewrite IH2. injection IH1 as IH1. rewrite IH1. now split.
Qed.

(** X1: the validation of the union builder cannot fail.  Whatever the
    shape of a tree of unions (nested on the left, on the right or on both
    sides), the statement holds its operands from left to right, none of
    them a union, one flag per union node in the same order, one operand
    more than flags, and one keyword per flag: UNION for a distinct union
    and UNION ALL otherwise. *)
Theorem make_union_any_tree `{Hashing} `{ExprAPI} (ctx : QueryContext)
    (c : ir.class) (l r : expr) (d : bool) :
  let e := Expr c (ops.Union l r d) in
  let u := Union.mk (map inl (union_operands e)) e ctx
             (map inr (union_flags e)) in
  _make_union (mkQueryBuilder e ctx) = Ok u
  /\ union_operands e = union_operands l ++ union_operands r
  /\ union_flags e = union_flags l ++ d :: union_flags r
  /\ Forall (fun t => is_Union t = false) (union_operands e)
  /\ length (union_operands e) = S (length (union_flags e))
  /\ Union._get_keyword_list u
     = Ok (map (fun d : bool => if d then "UNION" else "UNION ALL")
             (union_flags e))
  /\ QueryBuilder_get_result (mkQueryBuilder e ctx)
     = Ok (mkQueryAST ctx (UnionQuery u) [] []).
Proof.
  intros e u.
  destruct (flatten_union_slices e) as (Hev & Hod & Hlen & Hops).
  assert (Hm : _make_union (mkQueryBuilder e ctx) = Ok u).
  { unfold _make_union. cbn [qb_expr qb_context]. rewrite Hlen, Hev, Hod.
    assert (Hodd : ((2 * length (union_flags e) + 1) mod 2 =? 0)%nat = false).
    { apply Nat.eqb_neq.
      rewrite Nat.add_comm, Nat.mul_comm, Nat.Div0.mod_add. discriminate. }
    rewrite Hodd, bool_decide_eq_true_2; [reflexivity|].
    subst e. cbn [union_flags]. rewrite length_app. simpl. lia. }
  split; [exact Hm|].
  split; [reflexivity|]. split; [reflexivity|].
  split; [apply union_operands_not_union|].
  split; [exact Hops|].
  split.
  - apply (keyword_list_of_flags u (union_flags e)). reflexivity.
  - unfold QueryBuilder_get_result. cbn [qb_expr qb_context].
    change (op e) with (ops.Union l r d). cbv beta iota.
    rewrite Hm. reflexivity.
Qed.

(** X2: an intersection and a difference are never refused.  Their operand
    lists are the flattened unions of the two sides: the tables are the
    union operands of the left side and then of the right side, the flags
    of the unions found there are kept among the operands, and the keyword
    list counts every entry, so each union on a side adds two keywords.
    When neither side is a union there are two operands and one keyword. *)
Theorem setop_operands_and_keywords `{Hashing} `{ExprAPI} (ctx : QueryContext)
    (c : ir.class) (l r : expr) :
  let ei := Expr c (ops.Intersection l r) in
  let ed := Expr c (ops.Difference l r) in
  let qi := _make_intersect (mkQueryBuilder ei ctx) in
  let qd := _make_difference (mkQueryBuilder ed ctx) in
  let unions := length (union_flags l) + length (union_flags r) in
  QueryBuilder_get_result (mkQueryBuilder ei ctx)
  = Ok (mkQueryAST ctx (IntersectionQuery qi) [] [])
  /\ QueryBuilder_get_result (mkQueryBuilder ed ctx)
     = Ok (mkQueryAST ctx (DifferenceQuery qd) [] [])
  /\ Intersection.tables qi = Difference.tables qd
  /\ entry_tables (Intersection.tables qi)
     = union_operands l ++ union_operands r
  /\ entry_flags (Intersection.tables qi) = union_flags l ++ union_flags r
  /\ Intersection._get_keyword_list qi = replicate (2 * unions + 1) "INTERSECT"
  /\ Difference._get_keyword_list qd = replicate (2 * unions + 1) "EXCEPT"
  /\ (is_Union l = false -> is_Union r = false ->
      Intersection.tables qi = [inl l; inl r]
      /\ Intersection._get_keyword_list qi = ["INTERSECT"]
      /\ Difference._get_keyword_list qd = ["EXCEPT"]).
Proof.
  intros ei ed qi qd unions.
  destruct (flatten_union_slices l) as (_ & _ & Ll & _).
  destruct (flatten_union_slices r) as (_ & _ & Lr & _).
  destruct (entry_tables_flatten l) as [Tl Fl].
  destruct (entry_tables_flatten r) as [Tr Fr].
  assert (Hlen : length (flatten_union l ++ flatten_union r) - 1
                 = 2 * unions + 1).
  { rewrite length_app, Ll, Lr. unfold unions. lia. }
  split; [reflexivity|]. split; [reflexivity|]. split; [reflexivity|].
  split.
  { cbn. unfold entry_tables in *. now rewrite omap_app, Tl, Tr. }
  split.
  { cbn. unfold entry_flags in *. now rewrite omap_app, Fl, Fr. }
  assert (Hi : Intersection._get_keyword_list qi
               = replicate (2 * unions + 1) "INTERSECT").
  { unfold Intersection._get_keyword_list. cbn [qi Intersection.tables
      _make_intersect flatten_intersection op ei qb_expr].
    rewrite Hlen. generalize (2 * unions + 1) as n. generalize 0 as k.
    intros k n. revert k. induction n as [|n IH]; intros k; [reflexivity|].
    simpl. now rewrite IH. }
  assert (Hd : Difference._get_keyword_list qd
               = replicate (2 * unions + 1) "EXCEPT").
  { unfold Difference._get_keyword_list. cbn [qd Difference.tables
      _make_difference flatten_difference op ed qb_expr].
    now rewrite Hlen. }
  split; [exact Hi|]. split; [exact Hd|].
  intros Ul Ur.
  assert (Hu : unions = 0).
  { unfold unions. destruct l as [cl [ ]], r as [cr [ ]];
      try discriminate Ul; try discriminate Ur; reflexivity. }
  rewrite Hi, Hd, Hu. split; [|now split].
  cbn. now rewrite (flatten_union_not_union l Ul), (flatten_union_not_union r Ur).
Qed.

(** ** The memo of collected nodes *)

Section SelectBuilder_memo_props.
Context `{Hashing} `{ExprAPI}.

Local Abbreviation builder := SelectBuilder.t.
Local Abbreviation collect := SelectBuilder._collect.
Local Abbreviation op_memo := SelectBuilder.op_memo.

(** Two builders that differ in the memo at most. *)
Local Abbreviation same_fields s s' := (with_memo s ∅ = with_memo s' ∅).

Lemma same_fields_with_memo (s s' : builder) :
  same_fields s s' -> s' = with_memo s (op_memo s').
Proof.
  destruct s, s'. unfold with_memo. cbn. intros E.
  injection E as -> -> -> -> -> -> -> -> -> -> -> -> -> ->. reflexivity.
Qed.

Lemma collect_Join_memo (f : builder -> expr -> bool -> result builder)
    (self self' : builder) (e : expr) (tl b : bool) :
  (forall s x s', f s x false = Ok s' ->
     op_memo s ⊆ op_memo s' /\ same_fields s s') ->
  SelectBuilder._collect_Join f self e tl = Ok (b, self') ->
  op_memo self ⊆ op_memo self' /\ (tl = false -> same_fields self self').
Proof.
  intros Hf. unfold SelectBuilder._collect_Join.
  destruct (SelectBuilder._get_subtables e) as [subtables|]; [|discriminate].
  simpl. destruct (SelectBuilder._all_distinct_roots subtables) as [[|]|];
    simpl; [| |discriminate].
  - match goal with
    | |- context [SelectBuilder.for_result ?body ?s0 subtables] =>
        destruct (SelectBuilder.for_result body s0 subtables) as [s1|] eqn:Ef;
          [|discriminate];
        simpl; intros [= <- <-];
        assert (Hs : op_memo s0 ⊆ op_memo s1 /\ same_fields s0 s1)
    end.
    { revert Ef.
      match goal with
      | |- SelectBuilder.for_result ?body ?s0 _ = _ -> _ =>
          apply (for_result_inv
                   (fun s => op_memo s0 ⊆ op_memo s /\ same_fields s0 s))
      end.
      - intros s x s' _ [Hs1 Hs2] Hx. apply Hf in Hx. destruct Hx as [Hx1 Hx2].
        split; [set_solver|congruence].
      - split; [set_solver|reflexivity]. }
    destruct tl; [|exact (conj (proj1 Hs) (fun _ => proj2 Hs))].
    split; [exact (proj1 Hs)|discriminate].
  - intros [= <- <-]. destruct tl; (split; [set_solver|]);
      [discriminate|reflexivity].
Qed.

Lemma collect_memo (fuel : nat) : forall self e tl self',
  collect fuel self e tl = Ok self' ->
  op_memo self ⊆ op_memo self'
  /\ node_key (op e) ∈ op_memo self'
  /\ (tl = false -> same_fields self self').
Proof.
  induction fuel as [|fuel IH]; intros self e tl self'; [discriminate|].
  assert (IHf : forall s x s', collect fuel s x false = Ok s' ->
            op_memo s ⊆ op_memo s' /\ same_fields s s').
  { intros s x s' Hx. apply IH in Hx. destruct Hx as (H1 & _ & H3).
    split; [exact H1|now apply H3]. }
  simpl. destruct (bool_decide _) eqn:Hhit.
  { intros [= <-]. apply bool_decide_eq_true_1 in Hhit.
    split; [set_solver|]. split; [exact Hhit|reflexivity]. }
  match goal with
  | |- (?m ≫= _) = _ -> _ =>
      destruct m as [s1|] eqn:Hm; [|discriminate];
      simpl; intros [= <-];
      cut (op_memo self ⊆ op_memo s1 /\ (tl = false -> same_fields self s1))
  end.
  { intros [H1 H2]. split; [cbn; set_solver|]. split; [cbn; set_solver|].
    intros Htl. specialize (H2 Htl). unfold with_memo in *. cbn.
    injection H2 as -> -> -> -> -> -> -> -> -> -> -> -> -> ->. reflexivity. }
  clear Hhit.
  destruct e as [c o]. cbn [op] in Hm.
  destruct o; try discriminate Hm.
  - (* PhysicalTable *)
    destruct tl; injection Hm as <-; (split; [set_solver|]);
      [discriminate|reflexivity].
  - (* SQLQueryResult *)
    destruct tl; injection Hm as <-; (split; [set_solver|]);
      [discriminate|reflexivity].
  - (* SelfReference *)
    destruct tl; [|injection Hm as <-; split; [set_solver|reflexivity]].
    apply IH in Hm. destruct Hm as (Hm & _). split; [exact Hm|discriminate].
  - (* Join *)
    destruct (SelectBuilder._collect_Join _ _ _ _) as [[b s2]|] eqn:Ej;
      [|discriminate].
    simpl in Hm. injection Hm as <-.
    apply collect_Join_memo in Ej; [exact Ej|exact IHf].
  - (* MaterializedJoin *)
    destruct (SelectBuilder._collect_Join _ _ _ _) as [[b s2]|] eqn:Ej;
      [|discriminate].
    simpl in Hm. injection Hm as <-.
    apply collect_Join_memo in Ej; [|exact IHf].
    destruct Ej as [E1 E2]. specialize (E2 eq_refl).
    destruct tl; [split; [exact E1|discriminate]|].
    split; [exact E1|intros _; exact E2].
  - (* Selection *)
    destruct tl; [|injection Hm as <-; split; [set_solver|reflexivity]].
    match type of Hm with
    | (?m ≫= _) = _ => destruct m as [[can_sub s2]|] eqn:Em; [|discriminate]
    end.
    assert (Hs2 : op_memo self ⊆ op_memo s2).
    { destruct (isinstance_Join (op table)).
      - now apply collect_Join_memo in Em.
      - destruct (collect fuel self table false) as [s3|] eqn:Ec; [|discriminate].
        simpl in Em. injection Em as <- <-. now apply IHf in Ec. }
    simpl in Hm.
    match type of Hm with
    | (?m ≫= _) = _ => destruct m as [[[[sel fl] sk] tb]|]; [|discriminate]
    end.
    simpl in Hm. injection Hm as <-. split; [exact Hs2|discriminate].
  - (* Aggregation *)
    destruct tl; [|injection Hm as <-; split; [set_solver|reflexivity]].
    destruct (op (SelectBuilder._sub _)); try discriminate Hm.
    apply IHf in Hm. split; [exact (proj1 Hm)|discriminate].
  - (* Distinct *)
    apply IH in Hm. destruct Hm as (H1 & _ & H3).
    destruct tl; [split; [exact H1|discriminate]|].
    split; [exact H1|exact H3].
  - (* Limit *)
    destruct tl; cbn [negb] in Hm;
      [|injection Hm as <-; split; [set_solver|reflexivity]].
    apply IH in Hm. destruct Hm as (H1 & _).
    split; [|discriminate]. destruct (SelectBuilder.limit self); exact H1.
  - (* Union *)
    destruct tl; [discriminate|]. injection Hm as <-.
    split; [set_solver|reflexivity].
Qed.

(** X3: no node is collected twice.  A successful collection, at the top
    level or below it, keeps every node of the memo, adds the node of the
    expression collected, and makes every later collection of that
    expression return at once with the builder unchanged. *)
Theorem collect_records_node (fuel : nat) (self self' : builder) (e : expr)
    (toplevel : bool) :
  collect fuel self e toplevel = Ok self' ->
  op_memo self ⊆ op_memo self'
  /\ node_key (op e) ∈ op_memo self'
  /\ forall fuel' toplevel', collect (S fuel') self' e toplevel' = Ok self'.
Proof.
  intros Hc. apply collect_memo in Hc. destruct Hc as (H1 & H2 & _).
  split; [exact H1|]. split; [exact H2|].
  intros fuel' tl'. simpl. now rewrite bool_decide_eq_true_2.
Qed.

(** X4: below the top level, collection records nothing but the memo: the
    table-set, the select-set, the filters, the grouping, the sort keys, the
    limit, the distinct flag, the subqueries and the context of the builder
    are the ones it had. *)
Theorem collect_below_top_level (fuel : nat) (self self' : builder) (e : expr) :
  collect fuel self e false = Ok self' ->
  self' = with_memo self (op_memo self').
Proof.
  intros Hc. apply collect_memo in Hc. destruct Hc as (_ & _ & H3).
  apply same_fields_with_memo. now apply H3.
Qed.

End SelectBuilder_memo_props.

(** ** Roots the select builder refuses *)

Section SelectBuilder_root_props.
Context `{Hashing} `{ExprAPI}.

Local Abbreviation builder := SelectBuilder.t.
Local Abbreviation collect := SelectBuilder._collect.

Lemma collect_set_operation (fuel : nat) : forall (self : builder) (e : expr),
  expr_size e < fuel ->
  SelectBuilder.op_memo self = ∅ ->
  is_set_operation (op (collected_root e)) = true ->
  collect fuel self e true = Raise NotImplementedError.
Proof.
  induction fuel as [|fuel IH]; intros self [c o] Hsz Hmemo Hroot; [lia|].
  cbn [SelectBuilder._collect op].
  rewrite bool_decide_eq_false_2 by (rewrite Hmemo; apply not_elem_of_empty).
  destruct o; simpl in Hsz; try discriminate Hroot; try reflexivity.
  - (* SelfReference *)
    rewrite IH; [reflexivity|lia|exact Hmemo|exact Hroot].
  - (* Distinct *)
    rewrite IH; [reflexivity|lia|exact Hmemo|exact Hroot].
  - (* Limit *)
    cbn [negb]. rewrite IH; [reflexivity|lia| |exact Hroot].
    destruct (SelectBuilder.limit self); exact Hmemo.
Qed.

(** X5: a set operation below the limits, the distinct nodes and the
    self-references of the root is refused.  The builder of such a table
    expression is made, and its result raises [NotImplementedError]; so does
    the result of the query builder when the root itself is not a set
    operation. *)
Theorem set_operation_below_root_refused (e : expr) (ctx : QueryContext) :
  isinstance_TableExpr e = true ->
  is_set_operation (op (collected_root e)) = true ->
  (exists self,
     SelectBuilder.init e ctx = Ok self
     /\ SelectBuilder.get_result self = Raise NotImplementedError)
  /\ (is_set_operation (op e) = false ->
      QueryBuilder_get_result (mkQueryBuilder e ctx)
      = Raise NotImplementedError).
Proof.
  intros Hcls Hroot.
  destruct e as [c o]. destruct c; try discriminate Hcls.
  set (e := Expr ir.TableExpr o) in *.
  set (self := SelectBuilder.mk e e identity ctx [] None None None None []
                 None [] [] false ∅).
  assert (Ei : SelectBuilder.init e ctx = Ok self) by reflexivity.
  assert (Enj : isinstance_Join o = false).
  { destruct o; try reflexivity; discriminate Hroot. }
  assert (Etn : isinstance_TableNode o = true).
  { destruct o; try reflexivity; discriminate Hroot. }
  assert (Ec : SelectBuilder._collect_elements self = Raise NotImplementedError).
  { unfold SelectBuilder._collect_elements.
    cbn [SelectBuilder.query_expr self e op]. rewrite Enj, Etn.
    cbn [mbind result_bind].
    rewrite collect_set_operation; [reflexivity|lia|reflexivity|exact Hroot]. }
  assert (Eg : SelectBuilder.get_result self = Raise NotImplementedError).
  { unfold SelectBuilder.get_result, SelectBuilder._build_result_query.
    cbn [SelectBuilder.queries self]. rewrite Ec. reflexivity. }
  split; [exists self; split; [exact Ei|exact Eg]|].
  intros Hset. unfold QueryBuilder_get_result, _make_select.
  cbn [qb_expr qb_context]. change (op e) with o.
  destruct o; try discriminate Hset;
    (change (SelectBuilder.init _ ctx) with (SelectBuilder.init e ctx);
     rewrite Ei; cbn [mbind result_bind]; rewrite Eg; reflexivity).
Qed.

End SelectBuilder_root_props.

(** ** The analysis of the filters *)

Section SelectBuilder_where_props.
Context `{Hashing} `{ExprAPI}.

Local Abbreviation builder := SelectBuilder.t.
Local Abbreviation table_set := SelectBuilder.table_set.
Local Abbreviation filters := SelectBuilder.filters.

Lemma table_set_framed_refl (s : builder) : table_set_framed s s.
Proof. unfold table_set_framed. now destruct s. Qed.

Lemma table_set_framed_trans (s1 s2 s3 : builder) :
  table_set_framed s1 s2 -> table_set_framed s2 s3 -> table_set_framed s1 s3.
Proof.
  unfold table_set_framed. intros E1 E2. rewrite E2 at 1. rewrite E1.
  now destruct s1.
Qed.

Lemma visit_filter_args_rel (R : builder -> builder -> Prop)
    (f : builder -> expr -> result (option expr * builder))
    (args : list arg) : forall self new self',
  (forall s, R s s) -> (forall s1 s2 s3, R s1 s2 -> R s2 s3 -> R s1 s3) ->
  (forall a s a' s', In (AExpr a) args -> f s a = Ok (a', s') -> R s s') ->
  SelectBuilder.visit_filter_args f self args = Ok (new, self') ->
  R self self'.
Proof.
  induction args as [|[a|v] args IH]; intros self new self' Hr Ht Hf; simpl.
  - intros [= <- <-]. apply Hr.
  - destruct (f self a) as [[a' s1]|] eqn:Ea; [|discriminate]. simpl.
    destruct (SelectBuilder.visit_filter_args f s1 args) as [[rest s2]|] eqn:Er;
      [|discriminate].
    simpl. intros [= <- <-].
    apply IH in Er; [|exact Hr|exact Ht
                     |intros; eapply Hf; [right|]; eassumption].
    apply Hf in Ea; [|now left]. exact (Ht _ _ _ Ea Er).
  - destruct (SelectBuilder.visit_filter_args f self args) as [[rest s2]|] eqn:Er;
      [|discriminate].
    simpl. intros [= <- <-].
    apply IH in Er; [exact Er|exact Hr|exact Ht
                     |intros; eapply Hf; [right|]; eassumption].
Qed.

Lemma visit_filter_rel (R : builder -> builder -> Prop)
    (ok : expr -> bool) (n : nat) :
  (forall s, R s s) -> (forall s1 s2 s3, R s1 s2 -> R s2 s3 -> R s1 s3) ->
  (forall e s s', ok e = true ->
     SelectBuilder._visit_filter_SummaryFilter s e = Ok s' -> R s s') ->
  (forall c o a, ok (Expr c o) = true -> In (AExpr a) (flat_args o) ->
     (ir.is_ScalarExpr c && is_reduction (Expr c o)) = false ->
     match o with
     | ops.BinaryOp _ _ _ _ | ops.ValueOp _ false _ | ops.TableArrayView _
     | ops.TopK _ _ _ => ok a = true
     | _ => True
     end) ->
  forall e self o self',
  expr_size e < n -> ok e = true ->
  SelectBuilder._visit_filter self e = Ok (o, self') ->
  R self self'.
Proof.
  intros Hr Ht Hsf Hok.
  induction n as [|n IH]; intros [c o] self e' self' Hsz He; [lia|].
  simpl in Hsz.
  assert (Hstep : forall x s x' s', In (AExpr x) (flat_args o) ->
            ok x = true ->
            SelectBuilder._visit_filter s x = Ok (x', s') -> R s s').
  { intros x s x' s' Hin Hx. apply IH; [|exact Hx].
    apply (child_size (Expr c o)) in Hin. simpl in Hin. lia. }
  specialize (Hok c o).
  destruct o; cbn [SelectBuilder._visit_filter];
    unfold isinstance_ScalarExpr; cbn [class_of];
    try (destruct (_ && _) eqn:Ered; [intros [= <- <-]; apply Hr|]);
    try discriminate;
    try (intros [= <- <-]; apply Hr).
  - (* TableArrayView *)
    destruct (SelectBuilder._visit_filter self table) as [[x1 s1]|] eqn:E1;
      [|discriminate].
    simpl. destruct (SelectBuilder.rebuild _ _ _) as [nd|]; [|discriminate].
    simpl. intros [= <- <-].
    apply Hstep in E1; [exact E1|simpl; auto|].
    apply (Hok table He); [simpl; auto|reflexivity].
  - (* Any *)
    destruct (SelectBuilder._visit_filter_Any self _); [|discriminate].
    simpl. intros [= <- <-]. apply Hr.
  - (* NotAny *)
    destruct (SelectBuilder._visit_filter_Any self _); [|discriminate].
    simpl. intros [= <- <-]. apply Hr.
  - (* TopK *)
    destruct (SelectBuilder._visit_filter self arg) as [[x1 s1]|] eqn:E1;
      [|discriminate].
    simpl.
    destruct (SelectBuilder._visit_filter s1 by_) as [[x2 s2]|] eqn:E2;
      [|discriminate].
    simpl. destruct (SelectBuilder.rebuild _ _ _) as [nd|]; [|discriminate].
    simpl. intros [= <- <-].
    apply Hstep in E1;
      [|simpl; auto|apply (Hok arg He); [simpl; auto|reflexivity]].
    apply Hstep in E2;
      [|simpl; auto|apply (Hok by_ He); [simpl; auto|reflexivity]].
    exact (Ht _ _ _ E1 E2).
  - (* SummaryFilter *)
    destruct (SelectBuilder._visit_filter_SummaryFilter self _) as [s1|] eqn:E1;
      [|discriminate].
    simpl. intros [= <- <-]. exact (Hsf _ _ _ He E1).
  - (* BinaryOp *)
    destruct (SelectBuilder._visit_filter self left) as [[x1 s1]|] eqn:E1;
      [|discriminate].
    simpl.
    destruct (SelectBuilder._visit_filter s1 right) as [[x2 s2]|] eqn:E2;
      [|discriminate].
    simpl. destruct (SelectBuilder.rebuild _ _ _) as [nd|]; [|discriminate].
    simpl. intros [= <- <-].
    apply Hstep in E1;
      [|simpl; auto|apply (Hok left He); [simpl; auto|reflexivity]].
    apply Hstep in E2;
      [|simpl; auto|apply (Hok right He); [simpl; auto|reflexivity]].
    exact (Ht _ _ _ E1 E2).
  - (* ValueOp *)
    destruct boolean; [intros [= <- <-]; apply Hr|].
    destruct (SelectBuilder.visit_filter_args _ self args) as [[new s1]|] eqn:Ea;
      [|discriminate].
    simpl. destruct (SelectBuilder.rebuild _ _ _) as [nd|]; [|discriminate].
    simpl. intros [= <- <-].
    apply (visit_filter_args_rel R) in Ea; [exact Ea|exact Hr|exact Ht|].
    intros a s a' s' Hin. apply Hstep; [exact Hin|].
    apply (Hok a He); [exact Hin|reflexivity].
Qed.

Lemma visit_filter_SummaryFilter_framed (self self' : builder) (e : expr) :
  SelectBuilder._visit_filter_SummaryFilter self e = Ok self' ->
  table_set_framed self self'.
Proof.
  unfold SelectBuilder._visit_filter_SummaryFilter.
  destruct (op e); try discriminate.
  destruct (op _); try discriminate.
  destruct (get_name arg); [|discriminate]. simpl.
  destruct (SelectBuilder.table_set self); [|discriminate].
  intros [= <-]. unfold table_set_framed. now destruct self.
Qed.

Lemma visit_filter_framed (e : expr) (self : builder) (o : option expr)
    (self' : builder) :
  SelectBuilder._visit_filter self e = Ok (o, self') ->
  table_set_framed self self'.
Proof.
  apply (visit_filter_rel table_set_framed (fun _ => true) (S (expr_size e)));
    [exact table_set_framed_refl|exact table_set_framed_trans
    | |intros c o' a _ _ _; destruct o'; try exact I; try reflexivity;
       destruct boolean; [exact I|reflexivity]
    |lia|reflexivity].
  intros x s s' _. apply visit_filter_SummaryFilter_framed.
Qed.

Lemma visit_filter_summary_free (e : expr) (self : builder) (o : option expr)
    (self' : builder) :
  summary_free e = true ->
  SelectBuilder._visit_filter self e = Ok (o, self') ->
  self' = self.
Proof.
  intros He Hv. symmetry. revert He Hv.
  apply (visit_filter_rel eq summary_free (S (expr_size e)));
    [reflexivity|intros; congruence| | |lia].
  - intros [c x] s s' Hx. unfold SelectBuilder._visit_filter_SummaryFilter.
    cbn [op]. destruct x; try discriminate; discriminate Hx.
  - intros c x a Hx Hin Hred.
    destruct x; try exact I; cbn [summary_free] in Hx; rewrite Hred in Hx;
      cbn [orb] in Hx; simpl in Hin.
    + destruct Hin as [[= <-]|[]]. exact Hx.
    + apply andb_prop in Hx. destruct Hx as [H1 H2].
      destruct Hin as [[= <-]|[[=]|[[= <-]|[]]]]; assumption.
    + apply andb_prop in Hx. destruct Hx as [H1 H2].
      destruct Hin as [[= <-]|[[= <-]|[]]]; assumption.
    + destruct boolean; [exact I|].
      rewrite forallb_forall in Hx. exact (Hx (AExpr a) Hin).
Qed.

Lemma visit_filter_None (e : expr) (self : builder) (o : option expr)
    (self' : builder) :
  SelectBuilder._visit_filter self e = Ok (o, self') ->
  is_SummaryFilter e = true <-> o = None.
Proof.
  destruct e as [c x]. unfold is_SummaryFilter. cbn [op].
  destruct x; cbn [SelectBuilder._visit_filter];
    try (destruct (_ && _);
         [intros [= <- <-]; split; discriminate|]);
    try discriminate;
    try (intros [= <- <-]; split; discriminate);
    repeat match goal with
      | |- context [SelectBuilder._visit_filter ?s ?a] =>
          destruct (SelectBuilder._visit_filter s a) as [[? ?]|];
            [cbn [mbind result_bind]|discriminate]
      | |- context [SelectBuilder._visit_filter_Any ?s ?a] =>
          destruct (SelectBuilder._visit_filter_Any s a);
            [cbn [mbind result_bind]|discriminate]
      | |- context [SelectBuilder._visit_filter_SummaryFilter ?s ?a] =>
          destruct (SelectBuilder._visit_filter_SummaryFilter s a);
            [cbn [mbind result_bind]|discriminate]
      | |- context [SelectBuilder.rebuild ?a ?b ?d] =>
          destruct (SelectBuilder.rebuild a b d) as [nd|];
            [cbn [mbind result_bind]|discriminate]
      end;
    try (intros [= <- <-]; split; (discriminate || reflexivity)).
  destruct boolean; [intros [= <- <-]; split; discriminate|].
  destruct (SelectBuilder.visit_filter_args _ _ _) as [[? ?]|];
    [cbn [mbind result_bind]|discriminate].
  destruct (SelectBuilder.rebuild _ _ _) as [nd|];
    [cbn [mbind result_bind]|discriminate].
  intros [= <- <-]; split; discriminate.
Qed.

Lemma visit_filter_shape (e : expr) (self : builder) (o : option expr)
    (self' : builder) :
  SelectBuilder._visit_filter self e = Ok (o, self') ->
  filter_visited self e o self'.
Proof.
  intros Hv. split; [exact (visit_filter_framed _ _ _ _ Hv)|].
  exact (visit_filter_None _ _ _ _ Hv).
Qed.

Lemma analyze_filter_loop_shape (l : list expr) : forall self nw w self',
  SelectBuilder._analyze_filter_loop self l nw = Ok (w, self') ->
  table_set_framed self self'
  /\ length w
     = length nw + length (List.filter (fun e => negb (is_SummaryFilter e)) l)
  /\ (Forall (fun e => summary_free e = true) l -> self' = self).
Proof.
  induction l as [|e l IHl]; intros self nw w self';
    cbn [SelectBuilder._analyze_filter_loop List.filter].
  - intros [= <- <-]. split; [apply table_set_framed_refl|].
    split; [simpl; lia|reflexivity].
  - destruct (SelectBuilder._visit_filter self e) as [[e' s2]|] eqn:Ee;
      [|discriminate].
    cbn [mbind result_bind].
    assert (Hfree := fun Hf => visit_filter_summary_free e self e' s2 Hf Ee).
    apply visit_filter_shape in Ee. destruct Ee as (Hfr & Hn).
    destruct e' as [e'|].
    + assert (Hk : is_SummaryFilter e = false).
      { destruct (is_SummaryFilter e) eqn:Ek; [|reflexivity].
        discriminate (proj1 Hn eq_refl). }
      intros El. apply IHl in El. destruct El as (E1 & E2 & E3).
      rewrite Hk. cbn [negb length].
      split; [exact (table_set_framed_trans _ _ _ Hfr E1)|]. split.
      * rewrite E2, length_app. simpl. lia.
      * intros Hall. inversion Hall as [|? ? Hx Hl]; subst.
        rewrite (E3 Hl). now apply Hfree.
    + assert (Hk : is_SummaryFilter e = true) by now apply Hn.
      intros El. apply IHl in El. destruct El as (E1 & E2 & E3).
      rewrite Hk. cbn [negb].
      split; [exact (table_set_framed_trans _ _ _ Hfr E1)|].
      split; [exact E2|].
      intros Hall. inversion Hall as [|? ? Hx Hl]; subst.
      rewrite (E3 Hl). now apply Hfree.
Qed.

(** X6: the analysis of the filters changes the filters and the table-set
    of the builder and nothing else.  The WHERE list it leaves has one
    predicate for every filter that is not itself a top-K filter, so it is
    never longer than the list of filters; and when no filter has a top-K
    filter where the analysis looks, at its root or below it, the table-set
    stays as it was. *)
Theorem analyze_filter_exprs_shape (self self' : builder) :
  SelectBuilder._analyze_filter_exprs self = Ok self' ->
  self' = SelectBuilder.set_filters
            (SelectBuilder.set_table_set self (table_set self'))
            (filters self')
  /\ length (filters self')
     = length (List.filter (fun e => negb (is_SummaryFilter e)) (filters self))
  /\ length (filters self') <= length (filters self)
  /\ (Forall (fun e => summary_free e = true) (filters self) ->
      table_set self' = table_set self).
Proof.
  unfold SelectBuilder._analyze_filter_exprs.
  destruct (SelectBuilder._analyze_filter_loop self _ []) as [[w s1]|] eqn:El;
    [|discriminate].
  simpl. intros [= <-].
  apply analyze_filter_loop_shape in El. destruct El as (E1 & E2 & E3).
  split; [|split; [exact E2|split]].
  - cbn. unfold table_set_framed in E1. rewrite E1 at 1. reflexivity.
  - cbn [SelectBuilder.filters SelectBuilder.set_filters]. rewrite E2. simpl.
    apply List.filter_length_le.
  - intros Hall. cbn. now rewrite (E3 Hall).
Qed.

Lemma visit_filter_args_plain
    (f : builder -> expr -> result (option expr * builder)) (self : builder)
    (args : list arg) :
  (forall a, In (AExpr a) args -> f self a = Ok (Some a, self)) ->
  SelectBuilder.visit_filter_args f self args = Ok (as_visited args, self).
Proof.
  induction args as [|[a|v] args IH]; intros Hf; simpl; [reflexivity| |].
  - rewrite (Hf a) by now left. simpl.
    rewrite IH by (intros; apply Hf; now right). reflexivity.
  - rewrite IH by (intros; apply Hf; now right). reflexivity.
Qed.

Lemma all_present_as_visited (args : list arg) :
  SelectBuilder.all_present (as_visited args) = Some args.
Proof.
  induction args as [|[a|v] args IH]; simpl; [reflexivity| |];
    now rewrite IH.
Qed.

Lemma rebuild_as_visited (o : node) (build : list arg -> node)
    (args : list arg) :
  SelectBuilder.rebuild o (build <$> SelectBuilder.all_present (as_visited args))
    (as_visited args)
  = Ok (build args).
Proof. now rewrite all_present_as_visited. Qed.

Lemma visit_filter_plain (n : nat) : forall e self,
  expr_size e < n ->
  plain_filter e = true ->
  SelectBuilder._visit_filter self e = Ok (Some e, self).
Proof.
  induction n as [|n IH]; intros [c o] self Hsz Hp; [lia|].
  simpl in Hsz.
  destruct o; simpl in Hsz; cbn [plain_filter] in Hp; try discriminate Hp;
    apply andb_prop in Hp; destruct Hp as [Hred Hp];
    try discriminate Hp;
    cbn [SelectBuilder._visit_filter];
    unfold isinstance_ScalarExpr; cbn [class_of];
    apply negb_true_iff in Hred; rewrite Hred;
    try reflexivity.
  - (* TableArrayView *)
    rewrite IH; [reflexivity|simpl; lia|exact Hp].
  - (* TopK *)
    apply andb_prop in Hp. destruct Hp as [H1 H2].
    rewrite IH; [|simpl; lia|exact H1]. simpl.
    rewrite IH; [reflexivity|simpl; lia|exact H2].
  - (* BinaryOp *)
    apply andb_prop in Hp. destruct Hp as [H1 H2].
    rewrite IH; [|simpl; lia|exact H1]. simpl.
    rewrite IH; [reflexivity|simpl; lia|exact H2].
  - (* ValueOp *)
    destruct boolean; [reflexivity|].
    rewrite visit_filter_args_plain;
      [cbn [mbind result_bind]; rewrite rebuild_as_visited; reflexivity|].
    intros a Hin. apply IH.
    + assert (Hle := sum_sizes_in
             (fun a => match a with inl e => expr_size e | inr _ => 0 end)
             (AExpr a) args Hin).
      simpl in Hle. simpl. lia.
    + rewrite forallb_forall in Hp. exact (Hp (AExpr a) Hin).
Qed.

(** X7: a predicate with nothing to rewrite passes the filter analysis
    unchanged: when no filter holds an existence test, a top-K filter or a
    reduction, and every node is one the analysis handles, the analysis
    returns the builder as it was. *)
Theorem analyze_filter_exprs_plain (self : builder) :
  Forall (fun e => plain_filter e = true) (filters self) ->
  SelectBuilder._analyze_filter_exprs self = Ok self.
Proof.
  intros Hall. unfold SelectBuilder._analyze_filter_exprs.
  assert (Hl : forall l nw, Forall (fun e => plain_filter e = true) l ->
            SelectBuilder._analyze_filter_loop self l nw = Ok (nw ++ l, self)).
  { induction l as [|e l IHl]; intros nw Hl; simpl.
    - now rewrite app_nil_r.
    - inversion Hl as [|? ? He Hl']; subst.
      rewrite (visit_filter_plain (S (expr_size e))); [|lia|exact He].
      simpl. rewrite IHl by exact Hl'. now rewrite <- app_assoc. }
  rewrite Hl by exact Hall. simpl. now destruct self.
Qed.

End SelectBuilder_where_props.

(** ** The analysis of the select-set *)

Section SelectBuilder_select_props.
Context `{Hashing} `{ExprAPI}.

Local Abbreviation builder := SelectBuilder.t.
Local Abbreviation table_set := SelectBuilder.table_set.
Local Abbreviation select_set := SelectBuilder.select_set.
Local Abbreviation visit := SelectBuilder._visit_select_expr.

(** The builder with another table-set at most. *)
Local Abbreviation same_but_tables s s' :=
  (s' = SelectBuilder.set_table_set s (table_set s')).

Lemma same_but_tables_refl (s : builder) : same_but_tables s s.
Proof. now destruct s. Qed.

Lemma same_but_tables_trans (s1 s2 s3 : builder) :
  same_but_tables s1 s2 -> same_but_tables s2 s3 -> same_but_tables s1 s3.
Proof. intros E1 E2. rewrite E2, E1. reflexivity. Qed.

Lemma visit_select_args_frame
    (f : builder -> expr -> result (expr * builder)) (args : list arg) :
  forall self new self',
  (forall a s a' s', In (AExpr a) args -> f s a = Ok (a', s') ->
     same_but_tables s s') ->
  SelectBuilder.visit_select_args f self args = Ok (new, self') ->
  same_but_tables self self'.
Proof.
  induction args as [|[a|v] args IH]; intros self new self' Hf; simpl.
  - intros [= <- <-]. apply same_but_tables_refl.
  - destruct (f self a) as [[a' s1]|] eqn:Ea; [|discriminate]. simpl.
    destruct (SelectBuilder.visit_select_args f s1 args) as [[rest s2]|] eqn:Er;
      [|discriminate].
    simpl. intros [= <- <-].
    apply IH in Er; [|intros; eapply Hf; [right|]; eassumption].
    apply Hf in Ea; [|now left].
    exact (same_but_tables_trans _ _ _ Ea Er).
  - destruct (SelectBuilder.visit_select_args f self args) as [[rest s2]|] eqn:Er;
      [|discriminate].
    simpl. intros [= <- <-].
    apply IH in Er; [exact Er|intros; eapply Hf; [right|]; eassumption].
Qed.

Lemma visit_select_expr_frame (n : nat) : forall e self e' self',
  expr_size e < n ->
  visit self e = Ok (e', self') ->
  same_but_tables self self'.
Proof.
  induction n as [|n IH]; intros [c o] self e' self' Hsz; [lia|].
  assert (Hstep : forall x s x' s', expr_size x <= node_size o ->
            visit s x = Ok (x', s') -> same_but_tables s s').
  { intros x s x' s' Hx. apply IH. simpl in Hsz. lia. }
  assert (H1 : forall a (k : expr -> node),
            expr_size a <= node_size o ->
            ('(a, self) ← visit self a;
             Ok (SelectBuilder._factory (Expr c o) (k a), self))
            = Ok (e', self') ->
            same_but_tables self self').
  { intros a k Ha.
    destruct (visit self a) as [[a' s1]|] eqn:Ea; [|discriminate].
    simpl. intros [= <- <-]. exact (Hstep _ _ _ _ Ha Ea). }
  assert (H2 : forall a b (k : expr -> expr -> node),
            expr_size a + expr_size b <= node_size o ->
            ('(a, self) ← visit self a;
             '(b, self) ← visit self b;
             Ok (SelectBuilder._factory (Expr c o) (k a b), self))
            = Ok (e', self') ->
            same_but_tables self self').
  { intros a b k Hab.
    destruct (visit self a) as [[a' s1]|] eqn:Ea; [|discriminate].
    simpl. destruct (visit s1 b) as [[b' s2]|] eqn:Eb; [|discriminate].
    simpl. intros [= <- <-].
    apply Hstep in Ea; [|lia]. apply Hstep in Eb; [|lia].
    exact (same_but_tables_trans _ _ _ Ea Eb). }
  cbn [SelectBuilder._visit_select_expr op].
  destruct (SelectBuilder.isinstance_Histogram o).
  { destruct (visit_select_Histogram _ _) as [[x ts]|]; [|discriminate].
    simpl. intros [= <- <-]. reflexivity. }
  destruct o;
    try (intros [= <- <-]; apply same_but_tables_refl).
  - apply (H1 table (fun a => ops.TableColumn name0 a)). simpl. lia.
  - apply (H1 table (fun a => ops.TableArrayView a)). simpl. lia.
  - apply (H1 arg (fun a => ops.Any a)). simpl. lia.
  - apply (H1 arg (fun a => ops.NotAny a)). simpl. lia.
  - apply (H2 arg by_ (fun a b => ops.TopK a k b)). simpl. lia.
  - apply (H1 e (fun a => ops.SummaryFilter a)). simpl. lia.
  - apply (H2 left right (fun a b => ops.BinaryOp name0 boolean a b)).
    simpl. lia.
  - destruct (SelectBuilder.visit_select_args _ self args) as [[new s1]|] eqn:Ea;
      [|discriminate].
    simpl. intros [= <- <-].
    apply visit_select_args_frame in Ea; [exact Ea|].
    intros a s a' s' Hin. apply Hstep. simpl.
    apply (sum_sizes_in
             (fun a => match a with inl e => expr_size e | inr _ => 0 end)
             (AExpr a)), Hin.
Qed.

Lemma visit_all_frame (l : list expr) : forall self new self',
  SelectBuilder.visit_all visit self l = Ok (new, self') ->
  same_but_tables self self' /\ length new = length l.
Proof.
  induction l as [|e l IH]; intros self new self'; simpl.
  - intros [= <- <-]. split; [apply same_but_tables_refl|reflexivity].
  - destruct (visit self e) as [[e' s1]|] eqn:Ee; [|discriminate]. simpl.
    destruct (SelectBuilder.visit_all visit s1 l) as [[rest s2]|] eqn:Er;
      [|discriminate].
    simpl. intros [= <- <-]. apply IH in Er. destruct Er as [Er El].
    apply (visit_select_expr_frame (S (expr_size e))) in Ee; [|lia].
    split; [exact (same_but_tables_trans _ _ _ Ee Er)|simpl; now rewrite El].
Qed.

(** X8: the analysis of the select-set needs a select-set (without one it
    raises [TypeError]); it keeps the number and the order of the items,
    and it changes nothing of the builder but the select-set and the
    table-set. *)
Theorem analyze_select_exprs_shape (self : builder) :
  (select_set self = None ->
   SelectBuilder._analyze_select_exprs self = Raise TypeError)
  /\ forall self', SelectBuilder._analyze_select_exprs self = Ok self' ->
     exists old new,
       select_set self = Some old /\ select_set self' = Some new
       /\ length new = length old
       /\ self' = SelectBuilder.set_select_set
                    (SelectBuilder.set_table_set self (table_set self'))
                    (Some new).
Proof.
  unfold SelectBuilder._analyze_select_exprs.
  split; [now intros ->|]. intros self'.
  destruct (select_set self) as [old|]; [|discriminate].
  destruct (SelectBuilder.visit_all visit self old) as [[new s1]|] eqn:Ev;
    [|discriminate].
  simpl. intros [= <-]. apply visit_all_frame in Ev. destruct Ev as [Ef El].
  exists old, new. split; [reflexivity|]. split; [reflexivity|].
  split; [exact El|]. cbn. rewrite Ef at 1. reflexivity.
Qed.

Lemma visit_select_args_plain
    (f : builder -> expr -> result (expr * builder)) (self : builder)
    (args : list arg) :
  (forall a, In (AExpr a) args -> f self a = Ok (a, self)) ->
  SelectBuilder.visit_select_args f self args = Ok (args, self).
Proof.
  induction args as [|[a|v] args IH]; intros Hf; simpl; [reflexivity| |].
  - rewrite (Hf a) by now left. simpl.
    rewrite IH by (intros; apply Hf; now right). reflexivity.
  - rewrite IH by (intros; apply Hf; now right). reflexivity.
Qed.

Lemma visit_select_expr_plain (n : nat) : forall e self,
  expr_size e < n ->
  no_histogram e = true ->
  visit self e = Ok (e, self).
Proof.
  induction n as [|n IH]; intros [c o] self Hsz Hp; [lia|].
  cbn [no_histogram] in Hp. apply andb_prop in Hp. destruct Hp as [Hh Hp].
  apply negb_true_iff in Hh.
  cbn [SelectBuilder._visit_select_expr op]. rewrite Hh.
  destruct o; simpl in Hsz; try reflexivity;
    try (rewrite IH; [reflexivity|lia|exact Hp]).
  - apply andb_prop in Hp. destruct Hp as [H1 H2].
    rewrite IH; [|lia|exact H1]. simpl.
    rewrite IH; [reflexivity|lia|exact H2].
  - apply andb_prop in Hp. destruct Hp as [H1 H2].
    rewrite IH; [|lia|exact H1]. simpl.
    rewrite IH; [reflexivity|lia|exact H2].
  - rewrite visit_select_args_plain; [reflexivity|].
    intros a Hin. apply IH.
    + assert (Hle := sum_sizes_in
             (fun a => match a with inl e => expr_size e | inr _ => 0 end)
             (AExpr a) args Hin).
      simpl in Hle. lia.
    + rewrite forallb_forall in Hp. exact (Hp (AExpr a) Hin).
Qed.

(** X9: without a histogram among the items, the analysis of the
    select-set returns the builder as it was. *)
Theorem analyze_select_exprs_plain (self : builder) (items : list expr) :
  select_set self = Some items ->
  Forall (fun e => no_histogram e = true) items ->
  SelectBuilder._analyze_select_exprs self = Ok self.
Proof.
  intros Hs Hall. unfold SelectBuilder._analyze_select_exprs. rewrite Hs.
  assert (Hl : forall l, Forall (fun e => no_histogram e = true) l ->
            SelectBuilder.visit_all visit self l = Ok (l, self)).
  { induction l as [|e l IHl]; intros Hl; simpl; [reflexivity|].
    inversion Hl as [|? ? He Hl']; subst.
    rewrite (visit_select_expr_plain (S (expr_size e))); [|lia|exact He].
    simpl. now rewrite IHl by exact Hl'. }
  rewrite Hl by exact Hall. simpl. rewrite <- Hs. now destruct self.
Qed.

End SelectBuilder_select_props.

(** ** The text of a select statement *)

Section Select_props.
Context `{Externals}.

Lemma append_nonempty (a b : string) :
  a <> EmptyString -> a +:+ b <> EmptyString.
Proof. destruct a as [|c a]; [congruence|]. intros _ E. discriminate E. Qed.

Lemma present_cons_some (s : string) (l : list (option string)) :
  s <> EmptyString -> present (Some s :: l) = s :: present l.
Proof. destruct s; [congruence|reflexivity]. Qed.

Lemma present_cons_none (l : list (option string)) :
  present (None :: l) = present l.
Proof. reflexivity. Qed.

Lemma present_clause (there : bool) (keyword : string) (clause : option string)
    (l : list (option string)) :
  keyword <> EmptyString ->
  clause_of there keyword clause ->
  present (clause :: l)
  = match clause with Some s => s :: present l | None => present l end.
Proof.
  intros Hk. destruct there; simpl.
  - intros (text & -> & rest & ->). apply present_cons_some.
    now apply append_nonempty.
  - now intros ->.
Qed.

Lemma format_subqueries_clause (self : Select) (o : option string) :
  Select.format_subqueries self = Ok o ->
  clause_of (nonempty (s_subqueries self)) "WITH " o.
Proof.
  unfold Select.format_subqueries.
  destruct (s_subqueries self) as [|e l]; [now intros [= <-]|].
  destruct (traverse _ (e :: l)) as [buf|]; [|discriminate].
  simpl. intros [= <-]. eexists. split; [reflexivity|]. now eexists.
Qed.

Lemma format_select_set_clause (self : Select) (s : string) :
  Select.format_select_set self = Done s ->
  starts_with (if s_distinct self then "SELECT DISTINCT" else "SELECT") s.
Proof.
  unfold Select.format_select_set.
  destruct (s_select_set self) as [l|]; [|discriminate].
  destruct (Select.format_select_items self l None) as [formatted|];
    [|discriminate].
  simpl. destruct (Select.wrap_loop _ _ _ _) as [[buf n] k].
  intros [= <-]. now eexists.
Qed.

Lemma format_table_set_clause (self : Select) (o : option string) :
  Select.format_table_set self = Ok o ->
  clause_of (given (s_table_set self)) "FROM " o.
Proof.
  unfold Select.format_table_set.
  destruct (s_table_set self) as [ts|]; [|now intros [= <-]].
  destruct (TableSetFormatter.get_result _) as [r|]; [|discriminate].
  simpl. intros [= <-]. eexists. split; [reflexivity|]. now eexists.
Qed.

Lemma format_where_clause (self : Select) (o : option string) :
  Select.format_where self = Ok o ->
  clause_of (nonempty (s_where self)) "WHERE " o.
Proof.
  unfold Select.format_where.
  destruct (s_where self) as [|e l]; [now intros [= <-]|].
  destruct (traverse _ (e :: l)) as [buf|]; [|discriminate].
  simpl. intros [= <-]. eexists. split; [reflexivity|]. now eexists.
Qed.

Lemma format_group_by_clause (self : Select) (o : option string) :
  Select.format_group_by self = Ok o ->
  clause_of (nonempty (s_group_by self)) "GROUP BY " o.
Proof.
  unfold Select.format_group_by.
  destruct (s_group_by self) as [|e l]; [now intros [= <-]|].
  destruct (s_having self) as [|h hs].
  - simpl. intros [= <-]. eexists. split; [reflexivity|]. now eexists.
  - destruct (traverse _ (h :: hs)) as [buf|]; [|discriminate].
    simpl. intros [= <-]. eexists. split; [reflexivity|].
    eexists. apply string_app_assoc.
Qed.

Lemma format_order_by_clause (self : Select) (o : option string) :
  Select.format_order_by self = Ok o ->
  clause_of (nonempty (s_order_by self)) "ORDER BY " o.
Proof.
  unfold Select.format_order_by.
  destruct (s_order_by self) as [|e l]; [now intros [= <-]|].
  destruct (traverse _ (e :: l)) as [buf|]; [|discriminate].
  simpl. intros [= <-]. eexists. split; [reflexivity|]. now eexists.
Qed.

Lemma format_limit_clause (self : Select) :
  clause_of (given (s_limit self)) "LIMIT " (Select.format_limit self).
Proof.
  unfold Select.format_limit.
  destruct (s_limit self) as [[n offset]|]; [|reflexivity].
  simpl. eexists. split; [reflexivity|]. now eexists.
Qed.

(** X10: the clauses of a compiled statement.  The text is made of lines
    joined by line breaks, in the order WITH, SELECT, FROM, WHERE, GROUP BY,
    ORDER BY, LIMIT.  The SELECT clause is always there and opens with
    SELECT or, for a distinct statement, SELECT DISTINCT; every other
    clause is there exactly when the statement has subqueries, a table-set,
    predicates, group keys, sort keys or a limit, and opens with its
    keyword. *)
Theorem compile_clauses (self : Select) (text : string) :
  Select.compile self = Done text ->
  exists (with_ from_ where_ group_ order_ limit_ : option string)
         (select_ : string),
    text = join_str nl
             (omap id [with_; Some select_; from_; where_; group_; order_;
                       limit_])
    /\ clause_of (nonempty (s_subqueries self)) "WITH " with_
    /\ starts_with (if s_distinct self then "SELECT DISTINCT" else "SELECT")
         select_
    /\ clause_of (given (s_table_set self)) "FROM " from_
    /\ clause_of (nonempty (s_where self)) "WHERE " where_
    /\ clause_of (nonempty (s_group_by self)) "GROUP BY " group_
    /\ clause_of (nonempty (s_order_by self)) "ORDER BY " order_
    /\ clause_of (given (s_limit self)) "LIMIT " limit_.
Proof.
  unfold Select.compile.
  destruct (Select.format_subqueries self) as [w|] eqn:Ew; [|discriminate].
  destruct (Select.format_select_set self) as [s|] eqn:Es; [|discriminate].
  destruct (Select.format_table_set self) as [f|] eqn:Ef; [|discriminate].
  destruct (Select.format_where self) as [wh|] eqn:Eh; [|discriminate].
  destruct (Select.format_group_by self) as [g|] eqn:Eg; [|discriminate].
  destruct (Select.format_order_by self) as [o|] eqn:Eo; [|discriminate].
  cbn [mbind outcome_bind run]. intros E.
  assert (Et : text = join_str nl (present [w; Some s; f; wh; g; o;
                                            Select.format_limit self]))
    by congruence.
  clear E. rewrite Et. clear Et.
  apply format_subqueries_clause in Ew. apply format_select_set_clause in Es.
  apply format_table_set_clause in Ef. apply format_where_clause in Eh.
  apply format_group_by_clause in Eg. apply format_order_by_clause in Eo.
  assert (El := format_limit_clause self).
  exists w, f, wh, g, o, (Select.format_limit self), s.
  split; [|tauto]. apply (f_equal (join_str nl)).
  assert (K : forall c k, String c k <> EmptyString) by discriminate.
  assert (Hsel : s <> EmptyString).
  { destruct Es as [rest ->]. apply append_nonempty.
    destruct (s_distinct self); discriminate. }
  rewrite (present_clause _ "WITH " _ _ (K _ _) Ew).
  assert (Hrest : present [Some s; f; wh; g; o; Select.format_limit self]
                  = omap id [Some s; f; wh; g; o; Select.format_limit self]).
  { rewrite (present_cons_some _ _ Hsel).
    rewrite (present_clause _ "FROM " _ _ (K _ _) Ef).
    assert (Hw : present [wh; g; o; Select.format_limit self]
                 = omap id [wh; g; o; Select.format_limit self]).
    { rewrite (present_clause _ "WHERE " _ _ (K _ _) Eh).
      assert (Hg : present [g; o; Select.format_limit self]
                   = omap id [g; o; Select.format_limit self]).
      { rewrite (present_clause _ "GROUP BY " _ _ (K _ _) Eg).
        assert (Ho : present [o; Select.format_limit self]
                     = omap id [o; Select.format_limit self]).
        { rewrite (present_clause _ "ORDER BY " _ _ (K _ _) Eo).
          assert (Hl : present [Select.format_limit self]
                       = omap id [Select.format_limit self]).
          { rewrite (present_clause _ "LIMIT " _ _ (K _ _) El).
            now destruct (Select.format_limit self). }
          destruct o; rewrite Hl; reflexivity. }
        destruct g; rewrite Ho; reflexivity. }
      destruct wh; rewrite Hg; reflexivity. }
    destruct f; rewrite Hw; reflexivity. }
  destruct w; rewrite Hrest; reflexivity.
Qed.

Lemma traverse_Raise {A B} (f : A -> result B) (l : list A) (err : exception) :
  traverse f l = Raise err
  <-> exists pre x post ys,
        l = pre ++ x :: post /\ traverse f pre = Ok ys /\ f x = Raise err.
Proof.
  induction l as [|x l IH]; simpl.
  - split; [discriminate|]. intros (pre & y & post & ys & E & _).
    now destruct pre.
  - destruct (f x) as [y|e] eqn:Ex.
    + destruct (traverse f l) as [ys|e] eqn:El.
      * split; [discriminate|]. intros (pre & z & post & zs & E & Hp & Hz).
        destruct pre as [|p pre]; simpl in E; injection E as -> ->.
        { congruence. }
        simpl in Hp. rewrite Ex in Hp.
        destruct (traverse f pre) as [ps|] eqn:Ep; [|discriminate].
        assert (Hr : traverse f (pre ++ z :: post) = Raise err).
        { rewrite traverse_app, Ep. simpl. now rewrite Hz. }
        congruence.
      * split.
        -- intros [= ->].
           destruct (proj1 IH eq_refl) as (pre & z & post & zs & -> & Hp & Hz).
           exists (x :: pre), z, post, (y :: zs). split; [reflexivity|].
           split; [simpl; now rewrite Ex, Hp|exact Hz].
        -- intros (pre & z & post & zs & E & Hp & Hz).
           destruct pre as [|p pre]; simpl in E; injection E as -> ->.
           { congruence. }
           simpl in Hp. rewrite Ex in Hp.
           destruct (traverse f pre) as [ps|] eqn:Ep; [|discriminate].
           assert (Hr : traverse f (pre ++ z :: post) = Raise err).
           { rewrite traverse_app, Ep. simpl. now rewrite Hz. }
           congruence.
    + split.
      * intros [= ->]. exists [], x, l, []. now repeat split.
      * intros (pre & z & post & zs & E & Hp & Hz).
        destruct pre as [|p pre]; simpl in E; injection E as -> ->.
        { congruence. }
        simpl in Hp. now rewrite Ex in Hp.
Qed.

(** X11: the WHERE clause.  Without predicates there is no clause.
    Otherwise every predicate is translated where a subquery is permitted,
    put in parentheses exactly when there are two predicates or more, and
    the predicates are joined by AND at the end of the line; the first
    translation that raises ends the formatting with its exception. *)
Theorem where_clause_text (self : Select) :
  (s_where self = [] -> Select.format_where self = Ok None)
  /\ (forall clause, s_where self <> [] ->
        Select.format_where self = Ok clause
        <-> exists texts,
              Forall2 (where_text self) (s_where self) texts
              /\ clause
                 = Some ("WHERE "
                         +:+ join_str (" AND" +:+ nl +:+ "      ") texts))
  /\ (forall err,
        Select.format_where self = Raise err
        <-> exists pre p post texts,
              s_where self = pre ++ p :: post
              /\ Forall2 (where_text self) pre texts
              /\ translate (s_context self) p false true = Raise err).
Proof.
  assert (Hw : forall f,
            f = (fun pred =>
                   new_pred ← Select._translate self pred false true;
                   Ok (if bool_decide (1 < length (s_where self))
                       then "(" +:+ new_pred +:+ ")" else new_pred)) ->
            Select.format_where self
            = match s_where self with
              | [] => Ok None
              | _ => fmt_preds ← traverse f (s_where self);
                     Ok (Some ("WHERE "
                               +:+ join_str (" AND" +:+ nl +:+ "      ")
                                     fmt_preds))
              end).
  { intros f ->. unfold Select.format_where.
    destruct (s_where self); reflexivity. }
  set (f := fun pred =>
              new_pred ← Select._translate self pred false true;
              Ok (if bool_decide (1 < length (s_where self))
                  then "(" +:+ new_pred +:+ ")" else new_pred)).
  specialize (Hw f eq_refl).
  assert (Hf : forall p t, f p = Ok t <-> where_text self p t).
  { intros p t. unfold f, where_text, Select._translate.
    destruct (translate _ p false true) as [t0|]; simpl.
    - split; [intros [= <-]; now exists t0|]. now intros (t1 & [= <-] & ->).
    - split; [discriminate|]. now intros (t1 & E & _). }
  assert (Hfr : forall p err, f p = Raise err
                <-> translate (s_context self) p false true = Raise err).
  { intros p err. unfold f, Select._translate.
    destruct (translate _ p false true) as [t0|]; simpl; [|reflexivity].
    split; discriminate. }
  assert (HF : forall l texts, traverse f l = Ok texts
               <-> Forall2 (where_text self) l texts).
  { intros l texts. rewrite traverse_Forall2. split; intros HH;
      (eapply Forall2_impl; [exact HH|]); intros p t; apply Hf. }
  split; [|split].
  - unfold Select.format_where. now intros ->.
  - intros clause Hne. rewrite Hw.
    destruct (s_where self) as [|p l] eqn:El; [contradiction|].
    destruct (traverse f (p :: l)) as [texts|e] eqn:Et; cbn [mbind result_bind].
    + apply HF in Et. split.
      * intros [= <-]. now exists texts.
      * intros (texts' & Ht' & ->). apply HF in Et, Ht'. congruence.
    + split; [discriminate|]. intros (texts' & Ht' & _).
      apply HF in Ht'. congruence.
  - intros err. rewrite Hw.
    destruct (s_where self) as [|p l] eqn:El.
    { split; [discriminate|]. intros (pre & q & post & ts & E & _).
      now destruct pre. }
    destruct (traverse f (p :: l)) as [texts|e] eqn:Et; cbn [mbind result_bind].
    + split; [discriminate|].
      intros (pre & q & post & ts & E & Hp & Hq).
      assert (Hr : traverse f (p :: l) = Raise err).
      { apply traverse_Raise. exists pre, q, post, ts.
        split; [exact E|]. split; [now apply HF|now apply Hfr]. }
      congruence.
    + split.
      * intros [= ->]. apply traverse_Raise in Et.
        destruct Et as (pre & q & post & ts & E & Hp & Hq).
        exists pre, q, post, ts. split; [exact E|].
        split; [now apply HF|now apply Hfr].
      * intros (pre & q & post & ts & E & Hp & Hq).
        assert (Hr : traverse f (p :: l) = Raise err).
        { apply traverse_Raise. exists pre, q, post, ts.
          split; [exact E|]. split; [now apply HF|now apply Hfr]. }
        congruence.
Qed.

Lemma ordinals_shift (k : nat) :
  map (fun x => pretty (x + 1)) (seq 0 k) = map pretty (seq 1 k).
Proof.
  rewrite <- seq_shift, map_map. apply map_ext. intros x.
  now rewrite Nat.add_1_r.
Qed.

(** X12: the GROUP BY clause.  The group keys are written as the ordinals
    1, 2, ..., k of the first k items of the select-set, where k is the
    number of grouping expressions of the aggregation; the HAVING line
    follows when there are post-predicates, joined by AND.  Without group
    keys there is no clause, and post-predicates are then neither
    translated nor written. *)
Theorem group_by_clause_text (self : Select) (keys : list expr) :
  s_group_by self = SelectBuilder._convert_group_by keys ->
  let ordinals :=
    "GROUP BY " +:+ join_str ", " (map pretty (seq 1 (length keys))) in
  (keys = [] -> Select.format_group_by self = Ok None)
  /\ (keys <> [] -> s_having self = [] ->
      Select.format_group_by self = Ok (Some ordinals))
  /\ (forall texts,
        keys <> [] -> s_having self <> [] ->
        Forall2 (fun e t => translate (s_context self) e false false = Ok t)
          (s_having self) texts ->
        Select.format_group_by self
        = Ok (Some (ordinals +:+ nl +:+ "HAVING " +:+ join_str " AND " texts))).
Proof.
  intros Hg ordinals. unfold Select.format_group_by. rewrite Hg.
  unfold SelectBuilder._convert_group_by.
  split; [now intros ->|].
  assert (Hk : keys <> [] ->
            exists x l, seq 0 (length keys) = x :: l).
  { destruct keys; [contradiction|]. intros _. simpl. eauto. }
  split.
  - intros Hne Hh. destruct (Hk Hne) as (x & l & E).
    subst ordinals. rewrite <- (ordinals_shift (length keys)).
    rewrite E, Hh. reflexivity.
  - intros texts Hne Hh Ht. destruct (Hk Hne) as (x & l & E).
    subst ordinals. rewrite <- (ordinals_shift (length keys)).
    rewrite E.
    destruct (s_having self) as [|h hs]; [contradiction|].
    apply traverse_Forall2 in Ht. unfold Select._translate.
    rewrite Ht. cbn [mbind result_bind join_str].
    now rewrite string_app_assoc.
Qed.

(** X13: the ORDER BY clause.  Without sort keys there is no clause.  When
    every key is a sort-key node, the clause is written exactly when the
    expression of every key translates: the translations are joined by
    commas, each followed by DESC when its key is descending. *)
Theorem order_by_clause_text (self : Select) :
  (s_order_by self = [] -> Select.format_order_by self = Ok None)
  /\ (forall clause, s_order_by self <> [] ->
        Select.format_order_by self = Ok clause
        <-> exists texts,
              Forall2 (sort_key_text self) (s_order_by self) texts
              /\ clause = Some ("ORDER BY " +:+ join_str ", " texts)).
Proof.
  set (f := fun e =>
              match op e with
              | ops.SortKey key_expr ascending =>
                  translated ← Select._translate self key_expr false false;
                  Ok (if ascending then translated else translated +:+ " DESC")
              | ops.SummaryFilter key_expr =>
                  _ ← Select._translate self key_expr false false;
                  Raise AttributeError
              | _ => Raise AttributeError
              end).
  assert (Hf : forall k t, f k = Ok t <-> sort_key_text self k t).
  { intros k t. unfold f, sort_key_text, Select._translate.
    destruct (op k) as [ | | | | | | | | | | | | | | | | | | | |x|x asc| | | ] eqn:Ek;
      try (split; [discriminate|intros (? & ? & ? & [=] & _)]; fail).
    - destruct (translate _ x false false) as [t0|]; simpl;
        (split; [discriminate|intros (? & ? & ? & [=] & _)]).
    - destruct (translate _ x false false) as [t0|] eqn:Et; simpl.
      + split.
        * intros [= <-]. exists x, asc, t0. now repeat split.
        * intros (x' & a & t1 & [= <- <-] & Et1 & ->).
          rewrite Et in Et1. now injection Et1 as ->.
      + split; [discriminate|].
        intros (x' & a & t1 & [= <- <-] & Et1 & _).
        rewrite Et in Et1. discriminate Et1. }
  assert (HF : forall l texts, traverse f l = Ok texts
               <-> Forall2 (sort_key_text self) l texts).
  { intros l texts. rewrite traverse_Forall2. split; intros HH;
      (eapply Forall2_impl; [exact HH|]); intros p t; apply Hf. }
  assert (Hw : Select.format_order_by self
               = match s_order_by self with
                 | [] => Ok None
                 | _ => formatted ← traverse f (s_order_by self);
                        Ok (Some ("ORDER BY " +:+ join_str ", " formatted))
                 end).
  { unfold Select.format_order_by, f. destruct (s_order_by self); reflexivity. }
  split.
  - unfold Select.format_order_by. now intros ->.
  - intros clause Hne. rewrite Hw.
    destruct (s_order_by self) as [|p l] eqn:El; [contradiction|].
    destruct (traverse f (p :: l)) as [texts|e] eqn:Et; cbn [mbind result_bind].
    + apply HF in Et. split.
      * intros [= <-]. now exists texts.
      * intros (texts' & Ht' & ->). apply HF in Et, Ht'. congruence.
    + split; [discriminate|]. intros (texts' & Ht' & _).
      apply HF in Ht'. congruence.
Qed.

Lemma format_select_items_texts (self : Select) (items : list expr)
    (texts : list string) :
  Forall2 (select_item self) items texts ->
  forall prev, Select.format_select_items self items prev = Done texts.
Proof.
  induction 1 as [|e t items texts He _ IH]; intros prev; [reflexivity|].
  cbn [Select.format_select_items]. unfold Select._translate.
  destruct He as [(Hv & Ht)|(Hv & Htab & ->)]; rewrite Hv.
  - rewrite Ht. cbn [mbind outcome_bind run]. now rewrite IH.
  - rewrite Htab. destruct (need_aliases (s_context self)).
    + destruct (get_ref (s_context self) (op e)) as [[|c a]|];
        cbn [mbind outcome_bind]; now rewrite IH.
    + cbn [mbind outcome_bind]. now rewrite IH.
Qed.

Lemma wrap_loop_one_line (indent : nat) (texts : list string) :
  forall buf line_length tokens i,
  0 < i -> 0 < tokens ->
  Forall (fun t => has_newline t = false) texts ->
  line_length + sum_sizes (fun t => String.length t + 2) texts <= 72 ->
  Select.wrap_loop indent (buf, line_length, tokens) i texts
  = (buf +:+ concat_str (map (fun t => ", " +:+ t) texts),
     line_length + sum_sizes (fun t => String.length t + 2) texts,
     tokens + length texts).
Proof.
  induction texts as [|t texts IH]; intros buf ll tokens i Hi Htok Hnl Hfit.
  - simpl. now rewrite string_app_nil_r, !Nat.add_0_r.
  - inversion Hnl as [|? ? Ht Hnl']; subst.
    change (sum_sizes (fun t => String.length t + 2) (t :: texts))
      with (String.length t + 2
            + sum_sizes (fun t => String.length t + 2) texts) in *.
    cbn [Select.wrap_loop Select.wrap_step]. rewrite Ht.
    rewrite (bool_decide_eq_false_2
               (Select.max_length < String.length t + ll))
      by (unfold Select.max_length; lia).
    rewrite andb_false_r.
    rewrite (bool_decide_eq_true_2 (i <> 0)) by lia.
    rewrite IH; [|lia|lia|exact Hnl'|lia].
    cbn [map concat_str foldr length]. f_equal; [f_equal|]; [|lia|lia].
    rewrite !string_app_assoc. reflexivity.
Qed.

Lemma join_str_cons (sep t : string) (texts : list string) :
  join_str sep (t :: texts)
  = t +:+ concat_str (map (fun x => sep +:+ x) texts).
Proof.
  revert t. induction texts as [|u texts IH]; intros t.
  - simpl. now rewrite string_app_nil_r.
  - change (join_str sep (t :: u :: texts))
      with (t +:+ sep +:+ join_str sep (u :: texts)).
    rewrite IH. cbn [map concat_str foldr].
    now rewrite !string_app_assoc.
Qed.

(** X14: the layout of the select-set.  Every item is the translation of a
    value expression with its name, or a star for a table expression.
    Items without a line break that fit in the width of a line are written
    on the line of the keyword, separated by commas; when the items up to
    some item fit and that item does not, it opens a new line, after a
    comma, indented by seven spaces. *)
Theorem select_set_layout (self : Select) (items : list expr)
    (texts : list string) :
  s_select_set self = Some items ->
  Forall2 (select_item self) items texts ->
  Forall (fun t => has_newline t = false) texts ->
  let width l := sum_sizes (fun t => String.length t + 2) l in
  let key := if s_distinct self then "SELECT DISTINCT" else "SELECT" in
  (width texts <= 72 ->
   Select.format_select_set self
   = Done (key +:+ match texts with
                 | [] => EmptyString
                 | _ => " " +:+ join_str ", " texts
                 end))
  /\ (forall first t rest,
        texts = first ++ t :: rest ->
        first <> [] ->
        width first <= 72 ->
        70 < String.length t + width first ->
        String.length t + 7 + width rest <= 72 ->
        Select.format_select_set self
        = Done (key +:+ " " +:+ join_str ", " first
              +:+ "," +:+ nl +:+ "       " +:+ join_str ", " (t :: rest))).
Proof.
  intros Hs Hitems Hnl width key.
  assert (Hf : Select.format_select_set self
               = let '(buf, _, _) :=
                   Select.wrap_loop (s_indent self) (EmptyString, 0, 0) 0 texts in
                 Done (key +:+ buf)).
  { unfold Select.format_select_set. rewrite Hs.
    rewrite (format_select_items_texts self items texts Hitems None).
    reflexivity. }
  assert (Hfirst : forall t l,
            has_newline t = false ->
            Select.wrap_loop (s_indent self) (EmptyString, 0, 0) 0 (t :: l)
            = Select.wrap_loop (s_indent self)
                (" " +:+ t, String.length t + 2, 1) 1 l).
  { intros t l Ht. cbn [Select.wrap_loop Select.wrap_step]. rewrite Ht.
    reflexivity. }
  split.
  - intros Hfit. rewrite Hf. destruct texts as [|t texts].
    + simpl. reflexivity.
    + inversion Hnl as [|? ? Ht Hnl']; subst.
      rewrite (Hfirst _ _ Ht).
      change (width (t :: texts))
        with (String.length t + 2 + width texts) in Hfit.
      rewrite wrap_loop_one_line; [|lia|lia|exact Hnl'|exact Hfit].
      rewrite join_str_cons, !string_app_assoc. reflexivity.
  - intros first t rest -> Hne Hw1 Hlong Hw2. rewrite Hf.
    destruct first as [|t0 first]; [contradiction|].
    apply Forall_app in Hnl. destruct Hnl as [Hnl1 Hnl2].
    inversion Hnl1 as [|? ? Ht0 Hnl1']; subst.
    inversion Hnl2 as [|? ? Ht Hnl2']; subst.
    change (width (t0 :: first))
      with (String.length t0 + 2 + width first) in Hw1, Hlong.
    cbn [app]. rewrite (Hfirst _ _ Ht0).
    assert (Happ : forall l1 l2 st i,
              Select.wrap_loop (s_indent self) st i (l1 ++ l2)
              = Select.wrap_loop (s_indent self)
                  (Select.wrap_loop (s_indent self) st i l1)
                  (i + length l1) l2).
    { induction l1 as [|x l1 IH1]; intros l2 st i; simpl.
      - now rewrite Nat.add_0_r.
      - rewrite IH1. now rewrite Nat.add_succ_r. }
    rewrite Happ.
    rewrite wrap_loop_one_line; [|lia|lia|exact Hnl1'|exact Hw1].
    cbn [Select.wrap_loop Select.wrap_step]. rewrite Ht.
    rewrite (bool_decide_eq_true_2 (0 < 1 + length first)) by lia.
    rewrite (bool_decide_eq_true_2
               (String.length t0 + 2 + width first <> 0)) by lia.
    rewrite (bool_decide_eq_true_2
               (Select.max_length
                < String.length t + (String.length t0 + 2 + width first)))
      by (unfold Select.max_length; lia).
    cbn [andb].
    rewrite (bool_decide_eq_true_2 (1 + length first <> 0)) by lia.
    rewrite wrap_loop_one_line; [|lia|lia|exact Hnl2'|exact Hw2].
    rewrite !join_str_cons, !string_app_assoc. reflexivity.
Qed.

Lemma format_select_items_app (self : Select) (pre : list expr)
    (texts : list string) :
  Forall2 (select_item self) pre texts ->
  forall prev rest,
  Select.format_select_items self (pre ++ rest) prev
  = (formatted ← Select.format_select_items self rest
                   (match texts with
                    | [] => prev
                    | _ => Some (List.last texts EmptyString)
                    end);
     Done (texts ++ formatted)).
Proof.
  induction 1 as [|e t pre texts He Hrest IH]; intros prev rest.
  - cbn [app]. now destruct (Select.format_select_items self rest prev).
  - assert (Hstep : Select.format_select_items self ((e :: pre) ++ rest) prev
                    = (formatted ← Select.format_select_items self (pre ++ rest)
                                     (Some t);
                       Done (t :: formatted))).
    { cbn [app Select.format_select_items]. unfold Select._translate.
      destruct He as [(Hv & Ht)|(Hv & Htab & ->)]; rewrite Hv.
      - rewrite Ht. reflexivity.
      - rewrite Htab. destruct (need_aliases (s_context self)); [|reflexivity].
        now destruct (get_ref (s_context self) (op e)) as [[|c a]|]. }
    rewrite Hstep, IH.
    assert (El : match texts with
                 | [] => Some t
                 | _ => Some (List.last texts EmptyString)
                 end = Some (List.last (t :: texts) EmptyString)).
    { destruct texts; reflexivity. }
    rewrite El.
    now destruct (Select.format_select_items self rest _).
Qed.

(** X24: a select item that is neither a value nor a table expression.
    The loop of [format_select_set] binds the text of an item only for
    value and table expressions: for another item first in the select-set
    it raises [UnboundLocalError], and for one that comes later it writes
    the text of the item before it a second time. *)
Theorem select_item_of_another_kind (self : Select) (e : expr)
    (pre post : list expr) (texts texts' : list string) :
  ir.is_ValueExpr (class_of e) = false ->
  isinstance_TableExpr e = false ->
  Forall2 (select_item self) pre texts ->
  Forall2 (select_item self) post texts' ->
  Select.format_select_items self (pre ++ e :: post) None
  = match texts with
    | [] => Fails UnboundLocalError
    | _ => Done (texts ++ List.last texts EmptyString :: texts')
    end.
Proof.
  intros Hv Ht Hpre Hpost.
  rewrite (format_select_items_app self pre texts Hpre None (e :: post)).
  cbn [Select.format_select_items]. rewrite Hv, Ht.
  destruct texts as [|t texts]; [reflexivity|].
  cbn [mbind outcome_bind].
  now rewrite (format_select_items_texts self post texts' Hpost).
Qed.

(** X25: the WITH clause.  Without subqueries there is no clause.
    Otherwise the clause is written exactly when every subquery compiles:
    each is written as its alias, AS, and its compiled text indented by two
    between parentheses, and they are joined by a comma at the end of the
    line; the first compilation that raises ends the formatting with its
    exception. *)
Theorem with_clause_text (self : Select) :
  (s_subqueries self = [] -> Select.format_subqueries self = Ok None)
  /\ (forall clause, s_subqueries self <> [] ->
        Select.format_subqueries self = Ok clause
        <-> exists texts,
              Forall2 (with_text self) (s_subqueries self) texts
              /\ clause = Some ("WITH " +:+ join_str ("," +:+ nl) texts))
  /\ (forall err,
        Select.format_subqueries self = Raise err
        <-> exists pre e post texts,
              s_subqueries self = pre ++ e :: post
              /\ Forall2 (with_text self) pre texts
              /\ get_compiled_expr (s_context self) e = Raise err).
Proof.
  set (f := fun e =>
              compiled ← get_compiled_expr (s_context self) e;
              Ok (fmt (get_ref (s_context self) (op e)) +:+ " AS (" +:+ nl
                  +:+ util_indent compiled 2 +:+ nl +:+ ")")).
  assert (Hw : Select.format_subqueries self
               = match s_subqueries self with
                 | [] => Ok None
                 | _ => buf ← traverse f (s_subqueries self);
                        Ok (Some ("WITH " +:+ join_str ("," +:+ nl) buf))
                 end).
  { unfold Select.format_subqueries, f. now destruct (s_subqueries self). }
  assert (Hf : forall e t, f e = Ok t <-> with_text self e t).
  { intros e t. unfold f, with_text.
    destruct (get_compiled_expr _ e) as [c|]; simpl.
    - split; [intros [= <-]; now exists c|]. now intros (c' & [= <-] & ->).
    - split; [discriminate|]. now intros (c' & E & _). }
  assert (Hfr : forall e err, f e = Raise err
                <-> get_compiled_expr (s_context self) e = Raise err).
  { intros e err. unfold f.
    destruct (get_compiled_expr _ e) as [c|]; simpl; [|reflexivity].
    split; discriminate. }
  assert (HF : forall l texts, traverse f l = Ok texts
               <-> Forall2 (with_text self) l texts).
  { intros l texts. rewrite traverse_Forall2. split; intros HH;
      (eapply Forall2_impl; [exact HH|]); intros p t; apply Hf. }
  split; [|split].
  - unfold Select.format_subqueries. now intros ->.
  - intros clause Hne. rewrite Hw.
    destruct (s_subqueries self) as [|p l] eqn:El; [contradiction|].
    destruct (traverse f (p :: l)) as [texts|e] eqn:Et; cbn [mbind result_bind].
    + apply HF in Et. split.
      * intros [= <-]. now exists texts.
      * intros (texts' & Ht' & ->). apply HF in Et, Ht'. congruence.
    + split; [discriminate|]. intros (texts' & Ht' & _).
      apply HF in Ht'. congruence.
  - intros err. rewrite Hw.
    destruct (s_subqueries self) as [|p l] eqn:El.
    { split; [discriminate|]. intros (pre & q & post & ts & E & _).
      now destruct pre. }
    destruct (traverse f (p :: l)) as [texts|e] eqn:Et; cbn [mbind result_bind].
    + split; [discriminate|].
      intros (pre & q & post & ts & E & Hp & Hq).
      assert (Hr : traverse f (p :: l) = Raise err).
      { apply traverse_Raise. exists pre, q, post, ts.
        split; [exact E|]. split; [now apply HF|now apply Hfr]. }
      congruence.
    + split.
      * intros [= ->]. apply traverse_Raise in Et.
        destruct Et as (pre & q & post & ts & E & Hp & Hq).
        exists pre, q, post, ts. split; [exact E|].
        split; [now apply HF|now apply Hfr].
      * intros (pre & q & post & ts & E & Hp & Hq).
        assert (Hr : traverse f (p :: l) = Raise err).
        { apply traverse_Raise. exists pre, q, post, ts.
          split; [exact E|]. split; [now apply HF|now apply Hfr]. }
        congruence.
Qed.

End Select_props.

(** ** The FROM clause of a single table *)

Section single_table_props.
Context `{Externals}.

Lemma get_result_single (ctx : QueryContext) (e : expr) :
  isinstance_Join (op e) = false ->
  TableSetFormatter.get_result (TableSetFormatter.init ctx e)
  = (tbl ← TableSetFormatter._format_table (TableSetFormatter.init ctx e) e;
     written tbl).
Proof.
  intros Hj. unfold TableSetFormatter.get_result, TableSetFormatter.init.
  cbn [TableSetFormatter.expr_]. rewrite Hj.
  destruct (TableSetFormatter._format_table _ e) as [[s|]|]; try reflexivity.
  cbn. now rewrite string_app_nil_r.
Qed.

(** X17: the FROM clause of a table-set that is not a join.  The table
    looked at is the expression itself, or the table a self-reference
    refers to; the alias is always the one of the expression.  A physical
    table without a name raises [RelationError]; a named one is written as
    its quoted name, followed by the alias when the context asks for
    aliases.  Another table that the context has extracted is written as
    its alias, after the alias of the table referred to for a
    self-reference, and raises [TypeError] when it has no alias; one that is
    not extracted is written as its compiled text in parentheses, always
    followed by the alias. *)
Theorem from_single_table (ctx : QueryContext) (e : expr) :
  isinstance_Join (op e) = false ->
  let target := match op e with ops.SelfReference table => table | _ => e end in
  let alias := get_ref ctx (op e) in
  let from_ := TableSetFormatter.get_result (TableSetFormatter.init ctx e) in
  (op target = ops.PhysicalTable None -> from_ = Raise RelationError)
  /\ (forall nm, op target = ops.PhysicalTable (Some nm) ->
        from_ = Ok (quote_identifier nm
                    +:+ if need_aliases ctx then " " +:+ fmt alias
                        else EmptyString))
  /\ ((forall nm, op target <> ops.PhysicalTable nm) ->
      is_extracted ctx target = true ->
      from_ = match op e with
              | ops.SelfReference _ =>
                  Ok (fmt (get_ref ctx (op target)) +:+ " " +:+ fmt alias)
              | _ => match alias with
                     | Some a => Ok a
                     | None => Raise TypeError
                     end
              end)
  /\ ((forall nm, op target <> ops.PhysicalTable nm) ->
      is_extracted ctx target = false ->
      forall compiled, get_compiled_expr ctx e = Ok compiled ->
      from_ = Ok ("(" +:+ nl +:+ util_indent compiled 2 +:+ nl +:+ ")"
                  +:+ " " +:+ fmt alias)).
Proof.
  intros Hj target alias from_. subst from_.
  rewrite (get_result_single ctx e Hj).
  unfold TableSetFormatter._format_table.
  cbn [TableSetFormatter.init TableSetFormatter.context
       TableSetFormatter.indent].
  fold target. fold alias.
  split; [|split; [|split]].
  - intros ->. reflexivity.
  - intros nm ->. cbn [orb]. destruct (need_aliases ctx); cbn.
    + reflexivity.
    + now rewrite string_app_nil_r.
  - intros Hnp Hex.
    destruct (op target) eqn:Et; try (exfalso; eapply Hnp; reflexivity);
      rewrite Hex; destruct (op e); try reflexivity;
      destruct alias; reflexivity.
  - intros Hnp Hex compiled Hc.
    destruct (op target) eqn:Et; try (exfalso; eapply Hnp; reflexivity);
      rewrite Hex, Hc; cbn; now rewrite !string_app_assoc.
Qed.

End single_table_props.

(** ** From a table expression to the text of its statement *)

Section compile_props.
Context `{Externals} `{ExprAPI}.

Local Abbreviation builder := SelectBuilder.t.
Local Abbreviation collect := SelectBuilder._collect.

(** The builder after the collection of limits and distinct nodes over a
    physical table. *)
Local Abbreviation collected_table self e t memo :=
  (with_memo
     (SelectBuilder.set_table_set
        (SelectBuilder.set_select_set
           (SelectBuilder.set_limit
              (SelectBuilder.set_distinct self
                 (SelectBuilder.distinct_ self || has_distinct e))
              (match SelectBuilder.limit self with
               | Some l => Some l
               | None => outermost_limit e
               end))
           (Some [t]))
        (Some t))
     memo).

Lemma collect_chain (nm : string) (fuel : nat) : forall (self : builder) (e : expr),
  expr_size e < fuel ->
  SelectBuilder.op_memo self = ∅ ->
  collected_root e = physical nm ->
  exists memo,
    collect fuel self e true = Ok (collected_table self e (physical nm) memo).
Proof.
  induction fuel as [|fuel IH]; intros self [c o] Hsz Hmemo Hroot; [lia|].
  cbn [SelectBuilder._collect op].
  rewrite bool_decide_eq_false_2 by (rewrite Hmemo; apply not_elem_of_empty).
  destruct self as [? ? ? ? ? ? ? ? ? ? lim ? ? d memo0].
  destruct o; simpl in Hsz; try discriminate Hroot.
  - (* PhysicalTable *)
    cbn [collected_root] in Hroot. rewrite Hroot.
    eexists. cbn [mbind result_bind]. f_equal.
    unfold with_memo, SelectBuilder.memoize. cbn.
    rewrite orb_false_r. destruct lim; reflexivity.
  - (* SelfReference *)
    cbn [collected_root] in Hroot.
    destruct (IH _ table ltac:(lia) Hmemo Hroot) as (memo & ->).
    eexists. cbn [mbind result_bind]. f_equal.
  - (* Distinct *)
    cbn [collected_root] in Hroot.
    match goal with
    | |- context [collect fuel ?s table true] =>
        destruct (IH s table ltac:(lia) Hmemo Hroot) as (memo & ->)
    end.
    eexists. cbn [mbind result_bind]. f_equal.
    unfold with_memo, SelectBuilder.memoize. cbn.
    rewrite orb_true_r. reflexivity.
  - (* Limit *)
    cbn [collected_root] in Hroot. cbn [negb].
    match goal with
    | |- context [collect fuel ?s table true] =>
        destruct (IH s table ltac:(lia)
                    ltac:(destruct lim; exact Hmemo)
                    Hroot) as (memo & ->)
    end.
    eexists. cbn [mbind result_bind]. f_equal.
    unfold with_memo, SelectBuilder.memoize. cbn.
    destruct lim; reflexivity.
Qed.

(** The text of the limit of a statement. *)
Local Abbreviation limit_line l :=
  (match l with
   | None => EmptyString
   | Some (n, offset) =>
       nl +:+ "LIMIT " +:+ pretty n
       +:+ (if bool_decide (offset <> 0%Z)
            then " OFFSET " +:+ pretty offset else EmptyString)
   end).

Lemma compile_star (q : Select) (nm : string) :
  s_select_set q = Some [physical nm] ->
  s_table_set q = Some (physical nm) ->
  need_aliases (s_context q) = false ->
  s_subqueries q = [] -> s_where q = [] -> s_group_by q = [] ->
  s_order_by q = [] ->
  Select.compile q
  = Done ((if s_distinct q then "SELECT DISTINCT *" else "SELECT *")
          +:+ nl +:+ "FROM " +:+ quote_identifier nm
          +:+ limit_line (s_limit q)).
Proof.
  intros Hsel Htab Hal Hsub Hwh Hgb Hob.
  assert (Es : Select.format_select_set q
               = Done (if s_distinct q then "SELECT DISTINCT *"
                       else "SELECT *")).
  { unfold Select.format_select_set. rewrite Hsel.
    cbn [Select.format_select_items class_of physical to_table
         ir.is_ValueExpr ir.is_ScalarExpr ir.is_ColumnExpr orb
         isinstance_TableExpr ir.is_TableExpr].
    rewrite Hal. cbn. now destruct (s_distinct q). }
  assert (Ef : Select.format_table_set q
               = Ok (Some ("FROM " +:+ quote_identifier nm))).
  { unfold Select.format_table_set. rewrite Htab.
    unfold TableSetFormatter.get_result, TableSetFormatter.init.
    cbn [TableSetFormatter.expr_ op physical to_table isinstance_Join
         TableSetFormatter._format_table TableSetFormatter.context
         mbind result_bind].
    rewrite Hal.
    cbn [orb TableSetFormatter.join_tables TableSetFormatter.join_types
         TableSetFormatter.join_predicates app written mbind result_bind
         TableSetFormatter.joins TableSetFormatter.zip3 zip zip_with tail traverse concat_str foldr
         TableSetFormatter.indent TableSetFormatter._quote_identifier].
    now rewrite string_app_nil_r. }
  unfold Select.compile.
  rewrite Es, Ef.
  unfold Select.format_subqueries, Select.format_where, Select.format_group_by,
    Select.format_order_by, Select.format_limit.
  rewrite Hsub, Hwh, Hgb, Hob. cbn [mbind outcome_bind run]. f_equal.
  assert (K : forall c k, String c k <> EmptyString) by discriminate.
  rewrite present_cons_none, present_cons_some
    by (destruct (s_distinct q); apply K).
  rewrite present_cons_some by apply K.
  rewrite !present_cons_none.
  destruct (s_limit q) as [[n offset]|].
  - rewrite present_cons_some by apply K. reflexivity.
  - cbn [present omap list_omap join_str]. now rewrite string_app_nil_r.
Qed.

Lemma make_alias_empty (n : node) :
  make_alias empty_context n
  = mkQueryContext (<[node_key n := "t" +:+ pretty 0]> ∅) ∅ false None
  /\ need_aliases (make_alias empty_context n) = false.
Proof.
  assert (E : make_alias empty_context n
              = mkQueryContext (<[node_key n := "t" +:+ pretty 0]> ∅) ∅ false
                  None).
  { unfold make_alias, empty_context.
    cbn [get_ref table_refs parent]. rewrite lookup_empty.
    cbn [set_ref table_refs extracted_subexprs always_alias parent count_refs].
    rewrite map_size_empty. reflexivity. }
  split; [exact E|]. rewrite E. unfold need_aliases.
  cbn [always_alias table_refs orb].
  rewrite insert_empty, map_size_singleton.
  apply bool_decide_eq_false_2. lia.
Qed.

Lemma populate_context_no_filters (self : builder) (ts : expr) :
  SelectBuilder.table_set self = Some ts ->
  SelectBuilder.filters self = [] ->
  SelectBuilder._populate_context self
  = Ok (SelectBuilder.set_context self
          (SelectBuilder._make_table_aliases (SelectBuilder.context self) ts)).
Proof.
  intros Ht Hf. unfold SelectBuilder._populate_context. rewrite Ht.
  cbn [SelectBuilder.filters SelectBuilder.set_context]. rewrite Hf.
  reflexivity.
Qed.

Lemma make_table_aliases_physical (nm : string) :
  SelectBuilder._make_table_aliases empty_context (physical nm)
  = make_alias empty_context (op (physical nm)).
Proof.
  cbn [SelectBuilder._make_table_aliases physical to_table].
  unfold is_extracted. cbn [extracted_subexprs empty_context].
  rewrite bool_decide_eq_false_2 by apply not_elem_of_empty.
  reflexivity.
Qed.

Lemma build_chain (e : expr) (nm : string) :
  isinstance_TableExpr e = true ->
  collected_root e = physical nm ->
  extract_subqueries (Some (physical nm)) [] = [] ->
  exists self self',
    SelectBuilder.init e empty_context = Ok self
    /\ SelectBuilder.get_result self
       = Ok (mkSelect (make_alias empty_context (op (physical nm)))
               (Some [physical nm]) (Some (physical nm)) (has_distinct e) e
               [] [] [] [] (outermost_limit e) [] 2 identity,
             self').
Proof.
  intros Hcls Hroot Hext.
  destruct e as [c o]. destruct c; try discriminate Hcls.
  set (e := Expr ir.TableExpr o) in *.
  set (self := SelectBuilder.mk e e identity empty_context [] None None None
                 None [] None [] [] false ∅).
  assert (Ei : SelectBuilder.init e empty_context = Ok self) by reflexivity.
  assert (Enj : isinstance_Join o = false).
  { destruct o; try reflexivity; discriminate Hroot. }
  assert (Etn : isinstance_TableNode o = true).
  { destruct o; try reflexivity; discriminate Hroot. }
  destruct (collect_chain nm (S (expr_size e)) self e ltac:(lia) eq_refl Hroot)
    as (memo & Ec).
  set (s1 := SelectBuilder.mk e e identity empty_context []
               (Some (physical nm)) (Some [physical nm]) None None
               [] (outermost_limit e) [] [] (has_distinct e) memo).
  assert (Ece : SelectBuilder._collect_elements self = Ok s1).
  { unfold SelectBuilder._collect_elements.
    cbn [SelectBuilder.query_expr self]. change (op e) with o.
    rewrite Enj, Etn. cbn [mbind result_bind]. rewrite Ec. reflexivity. }
  assert (Esel : SelectBuilder._analyze_select_exprs s1 = Ok s1)
    by reflexivity.
  assert (Efil : SelectBuilder._analyze_filter_exprs s1 = Ok s1)
    by reflexivity.
  assert (Esub : SelectBuilder._analyze_subqueries s1 = s1).
  { unfold SelectBuilder._analyze_subqueries.
    change (SelectBuilder.table_set s1) with (Some (physical nm)).
    change (SelectBuilder.filters s1) with (@nil expr).
    rewrite Hext. reflexivity. }
  assert (Epop := populate_context_no_filters s1 (physical nm) eq_refl eq_refl).
  change (SelectBuilder.context s1) with empty_context in Epop.
  rewrite make_table_aliases_physical in Epop.
  exists self. eexists. split; [exact Ei|].
  unfold SelectBuilder.get_result, SelectBuilder._build_result_query.
  change (SelectBuilder.queries self) with (@nil Select).
  rewrite Ece. cbn [mbind result_bind].
  rewrite Esel. cbn [mbind result_bind].
  rewrite Efil. cbn [mbind result_bind].
  rewrite Esub, Epop. reflexivity.
Qed.

(** X15: limits and distinct nodes over a physical table compile to one
    statement.  For a table expression that reaches a named physical table
    through limits, distinct nodes and self-references, compiled in an
    empty context with no subquery to extract, the query builder makes a
    select statement with the outermost limit, distinct when a distinct
    node is met, and its text is SELECT * or SELECT DISTINCT *, the FROM
    line of the quoted name without an alias, and the LIMIT line, with the
    OFFSET when the offset is not zero. *)
Theorem compile_table_with_limit (e : expr) (nm : string) :
  isinstance_TableExpr e = true ->
  collected_root e = physical nm ->
  extract_subqueries (Some (physical nm)) [] = [] ->
  exists ast q,
    QueryBuilder_get_result (mkQueryBuilder e empty_context) = Ok ast
    /\ ast_query ast = SelectQuery q
    /\ s_distinct q = has_distinct e
    /\ s_limit q = outermost_limit e
    /\ Select.compile q
       = Done ((if has_distinct e then "SELECT DISTINCT *" else "SELECT *")
             +:+ nl +:+ "FROM " +:+ quote_identifier nm
             +:+ match outermost_limit e with
                 | None => EmptyString
                 | Some (n, offset) =>
                     nl +:+ "LIMIT " +:+ pretty n
                     +:+ (if bool_decide (offset <> 0%Z)
                          then " OFFSET " +:+ pretty offset else EmptyString)
                 end).
Proof.
  intros Hcls Hroot Hext.
  destruct (build_chain e nm Hcls Hroot Hext) as (self & self' & Ei & Eg).
  set (q := mkSelect (make_alias empty_context (op (physical nm)))
              (Some [physical nm]) (Some (physical nm)) (has_distinct e) e
              [] [] [] [] (outermost_limit e) [] 2 identity) in *.
  assert (Eq : QueryBuilder_get_result (mkQueryBuilder e empty_context)
               = Ok (mkQueryAST empty_context (SelectQuery q) [] [])).
  { unfold QueryBuilder_get_result, _make_select.
    cbn [qb_expr qb_context].
    destruct e as [c o]. destruct o; try discriminate Hroot;
      cbn [op]; rewrite Ei; cbn [mbind result_bind]; rewrite Eg; reflexivity. }
  exists (mkQueryAST empty_context (SelectQuery q) [] []), q.
  split; [exact Eq|]. split; [reflexivity|]. split; [reflexivity|].
  split; [reflexivity|].
  rewrite (compile_star q nm); try reflexivity.
  apply make_alias_empty.
Qed.

(** X19: a scalar expression without a table compiles to a SELECT without
    FROM.  For a scalar expression that is no reduction and no scalar
    parameter and refers to no table, the builder names the expression
    [tmp], hands back the cell of that column, and makes a statement with
    the named expression as its only item and no table-set; its text is
    SELECT, a space and the translation of the named expression when the
    translation is on one line, and SELECT, a line break and the
    translation indented by two when it has a line break. *)
Theorem compile_scalar_without_table (e : expr) (text : string) :
  ir.is_ScalarExpr (class_of e) = true ->
  is_scalar_reduction e = false ->
  find_base_table e = None ->
  (forall b args, op e <> ops.ValueOp "ScalarParameter" b args) ->
  let named := name e "tmp" in
  isinstance_TableNode (op named) = false ->
  (forall exprs, op named <> ops.ExpressionList exprs) ->
  ir.is_ValueExpr (class_of named) = true ->
  no_histogram named = true ->
  extract_subqueries None [] = [] ->
  translate empty_context named true false = Ok text ->
  exists self q self',
    SelectBuilder.init e empty_context = Ok self
    /\ SelectBuilder.result_handler self = scalar_handler "tmp"
    /\ SelectBuilder.get_result self = Ok (q, self')
    /\ s_select_set q = Some [named]
    /\ s_table_set q = None
    /\ Select.compile q
       = Done (if has_newline text
               then "SELECT" +:+ nl +:+ util_indent text 2
               else "SELECT " +:+ text).
Proof.
  intros Hcls Hred Hbase Hpar named Htn Hel Hval Hhist Hext Htr.
  set (self := SelectBuilder.mk e named (scalar_handler "tmp") empty_context []
                 None None None None [] None [] [] false ∅).
  assert (Ei : SelectBuilder.init e empty_context = Ok self).
  { unfold SelectBuilder.init, SelectBuilder._adapt_expr.
    rewrite Hred, Hbase.
    assert (Ea : match op e with
                 | ops.ValueOp "ScalarParameter" _ _ =>
                     match get_name e with
                     | Ok name => Ok (e, scalar_handler name)
                     | Raise _ => Raise AssertionError
                     end
                 | _ => Ok (name e "tmp", scalar_handler "tmp")
                 end = Ok (named, scalar_handler "tmp")).
    { destruct (op e) as [ | | | | | | | | | | | | | | | | | | | | | | |nm b args| ];
        try reflexivity.
      destruct (decide (nm = "ScalarParameter")) as [->|Hn].
      - exfalso. now apply (Hpar b args).
      - repeat (destruct nm as [|[[] [] [] [] [] [] [] []] nm];
                try reflexivity; try (exfalso; apply Hn; reflexivity)). }
    destruct (class_of e); try discriminate Hcls; rewrite Ea; reflexivity. }
  set (s1 := SelectBuilder.set_select_set self (Some [named])).
  assert (Enj : isinstance_Join (op named) = false).
  { destruct (op named); try reflexivity; discriminate Htn. }
  assert (Ece : SelectBuilder._collect_elements self = Ok s1).
  { unfold SelectBuilder._collect_elements.
    change (SelectBuilder.query_expr self) with named.
    rewrite Enj, Htn.
    destruct (op named) eqn:Eo; try reflexivity.
    exfalso. now apply (Hel exprs). }
  assert (Esel : SelectBuilder._analyze_select_exprs s1 = Ok s1).
  { unfold SelectBuilder._analyze_select_exprs.
    change (SelectBuilder.select_set s1) with (Some [named]).
    cbn [SelectBuilder.visit_all].
    rewrite (visit_select_expr_plain (S (expr_size named))); [|lia|exact Hhist].
    reflexivity. }
  assert (Efil : SelectBuilder._analyze_filter_exprs s1 = Ok s1)
    by reflexivity.
  assert (Esub : SelectBuilder._analyze_subqueries s1 = s1).
  { unfold SelectBuilder._analyze_subqueries.
    change (SelectBuilder.table_set s1) with (@None expr).
    change (SelectBuilder.filters s1) with (@nil expr).
    rewrite Hext. reflexivity. }
  assert (Epop : SelectBuilder._populate_context s1 = Ok s1) by reflexivity.
  set (q := SelectBuilder._select_class s1).
  exists self, q. eexists.
  split; [exact Ei|]. split; [reflexivity|]. split.
  { unfold SelectBuilder.get_result, SelectBuilder._build_result_query.
    change (SelectBuilder.queries self) with (@nil Select).
    rewrite Ece. cbn [mbind result_bind].
    rewrite Esel. cbn [mbind result_bind].
    rewrite Efil. cbn [mbind result_bind].
    rewrite Esub, Epop. reflexivity. }
  split; [reflexivity|]. split; [reflexivity|].
  assert (Es : Select.format_select_set q
               = Done (if has_newline text
                       then "SELECT" +:+ nl +:+ util_indent text 2
                       else "SELECT " +:+ text)).
  { unfold Select.format_select_set.
    change (s_select_set q) with (Some [named]).
    cbn [Select.format_select_items]. rewrite Hval.
    unfold Select._translate. change (s_context q) with empty_context.
    rewrite Htr.
    cbn [mbind outcome_bind run Select.wrap_loop Select.wrap_step].
    destruct (has_newline text); reflexivity. }
  unfold Select.compile. rewrite Es.
  change (Select.format_subqueries q) with (@Ok (option string) None).
  change (Select.format_table_set q) with (@Ok (option string) None).
  change (Select.format_where q) with (@Ok (option string) None).
  change (Select.format_group_by q) with (@Ok (option string) None).
  change (Select.format_order_by q) with (@Ok (option string) None).
  change (Select.format_limit q) with (@None string).
  cbn [mbind outcome_bind run]. destruct (has_newline text); reflexivity.
Qed.

End compile_props.

(** ** The tables of a join *)

Section subtables_props.
Context `{Hashing} `{ExprAPI}.

Local Abbreviation walk_all stack st :=
  (foldl (fun acc x => subtables_walk x acc) st stack).

Lemma get_subtables_loop_walk (fuel : nat) : forall stack seen subs,
  sum_sizes expr_size stack <= fuel ->
  SelectBuilder._get_subtables_loop fuel stack seen subs
  = Ok (walk_all stack (seen, subs)).2.
Proof.
  induction fuel as [|fuel IH]; intros [|e stack] seen subs Hsum;
    try reflexivity.
  - assert (Hp := expr_size_pos e). simpl in Hsum. lia.
  - assert (Hp := expr_size_pos e).
    change (sum_sizes expr_size (e :: stack))
      with (expr_size e + sum_sizes expr_size stack) in Hsum.
    cbn [SelectBuilder._get_subtables_loop foldl].
    destruct e as [c o]. cbn [op].
    destruct o; cbn [subtables_walk op fst snd];
      (destruct (bool_decide _); [apply IH; lia|]);
      try (rewrite IH by lia; reflexivity).
    rewrite IH; [reflexivity|]. simpl in *. lia.
Qed.

Lemma keys_of_app (l1 l2 : list expr) :
  keys_of (l1 ++ l2) = keys_of l1 ++ keys_of l2.
Proof. apply map_app. Qed.

(** What a walk adds: tables of the tree, in order, not seen before, seen
    afterwards, no two with the same key, none of them a join. *)
Lemma subtables_walk_sound (n : nat) : forall e seen subs,
  expr_size e < n ->
  exists added,
    (subtables_walk e (seen, subs)).2 = subs ++ added
    /\ seen ⊆ (subtables_walk e (seen, subs)).1
    /\ added `sublist_of` join_leaves e
    /\ NoDup (keys_of added)
    /\ Forall (fun t => node_key (op t) ∉ seen
                        /\ node_key (op t) ∈ (subtables_walk e (seen, subs)).1
                        /\ isinstance_Join (op t) = false) added.
Proof.
  induction n as [|n IH]; intros [c o] seen subs Hsz; [lia|].
  assert (Hleaf : isinstance_Join o = false ->
    subtables_walk (Expr c o) (seen, subs)
    = if bool_decide (node_key o ∈ seen) then (seen, subs)
      else ({[node_key o]} ∪ seen, subs ++ [Expr c o])).
  { destruct o; try reflexivity. discriminate. }
  assert (Hl : isinstance_Join o = false ->
    exists added,
      (subtables_walk (Expr c o) (seen, subs)).2 = subs ++ added
      /\ seen ⊆ (subtables_walk (Expr c o) (seen, subs)).1
      /\ added `sublist_of` [Expr c o]
      /\ NoDup (keys_of added)
      /\ Forall (fun t => node_key (op t) ∉ seen
                   /\ node_key (op t) ∈ (subtables_walk (Expr c o) (seen, subs)).1
                   /\ isinstance_Join (op t) = false) added).
  { intros Hj. rewrite (Hleaf Hj).
    destruct (bool_decide (node_key o ∈ seen)) eqn:Hk.
    - exists []. rewrite app_nil_r. split; [reflexivity|].
      split; [set_solver|]. split; [apply sublist_nil_l|].
      split; constructor.
    - apply bool_decide_eq_false_1 in Hk.
      exists [Expr c o]. split; [reflexivity|]. split; [set_solver|].
      split; [reflexivity|]. split; [repeat constructor; set_solver|].
      constructor; [|constructor]. cbn [op].
      split; [exact Hk|]. split; [set_solver|exact Hj]. }
  destruct o; try (apply Hl; reflexivity).
  clear Hl Hleaf. simpl in Hsz.
  cbn [subtables_walk join_leaves op fst snd].
  set (k := node_key (ops.Join how left right predicates)).
  destruct (bool_decide (k ∈ seen)) eqn:Hk.
  { exists []. rewrite app_nil_r. split; [reflexivity|].
    split; [set_solver|]. split; [apply sublist_nil_l|]. split; constructor. }
  destruct (IH left ({[k]} ∪ seen) subs ltac:(lia))
    as (a1 & E1 & S1 & L1 & N1 & F1).
  destruct (subtables_walk left ({[k]} ∪ seen, subs)) as [seen1 subs1] eqn:W1.
  cbn [fst snd] in *. subst subs1.
  destruct (IH right seen1 (subs ++ a1) ltac:(lia))
    as (a2 & E2 & S2 & L2 & N2 & F2).
  destruct (subtables_walk right (seen1, subs ++ a1)) as [seen2 subs2] eqn:W2.
  cbn [fst snd] in *. subst subs2.
  exists (a1 ++ a2). split; [now rewrite app_assoc|].
  split; [set_solver|]. split; [now apply sublist_app|].
  rewrite Forall_forall in F1, F2. split.
  - rewrite keys_of_app. apply NoDup_app. split; [exact N1|]. split; [|exact N2].
    intros x Hx1 Hx2. unfold keys_of in Hx1, Hx2.
    apply list_elem_of_In, in_map_iff in Hx1.
    apply list_elem_of_In, in_map_iff in Hx2.
    destruct Hx1 as (t1 & <- & Ht1), Hx2 as (t2 & Ek & Ht2).
    apply list_elem_of_In in Ht1, Ht2.
    destruct (F1 t1 Ht1) as (_ & Hin & _).
    destruct (F2 t2 Ht2) as (Hnot & _). apply Hnot. now rewrite Ek.
  - apply Forall_forall. intros t Ht. apply elem_of_app in Ht.
    destruct Ht as [Ht|Ht].
    + destruct (F1 t Ht) as (Ha & Hb & Hc).
      split; [set_solver|]. split; [set_solver|exact Hc].
    + destruct (F2 t Ht) as (Ha & Hb & Hc).
      split; [set_solver|]. split; [exact Hb|exact Hc].
Qed.

Lemma covered_op (x y : expr) (subs : list expr) :
  op x = op y -> covered x subs -> covered y subs.
Proof.
  destruct x as [cx ox], y as [cy oy]. cbn [op]. intros <- Hc t Ht.
  destruct ox; try (destruct Ht as [<-|[]]; apply (Hc _ (or_introl eq_refl))).
  apply Hc. exact Ht.
Qed.

Lemma covered_app (x : expr) (subs more : list expr) :
  covered x subs -> covered x (subs ++ more).
Proof.
  intros Hc t Ht. unfold keys_of. rewrite map_app. apply in_or_app. left.
  now apply Hc.
Qed.

Lemma size_op (x y : expr) : op x = op y -> expr_size x = expr_size y.
Proof. destruct x, y. cbn [op]. now intros ->. Qed.

Lemma join_nodes_self (e : expr) : In e (join_nodes e).
Proof. destruct e as [c o]. destruct o; now left. Qed.

Lemma subtables_walk_complete (root : expr) (n : nat) :
  keys_identify root ->
  forall e seen subs,
  expr_size e < n ->
  incl (join_nodes e) (join_nodes root) ->
  closed_upto root (expr_size e) seen subs ->
  covered e (subtables_walk e (seen, subs)).2
  /\ forall k, k ∈ (subtables_walk e (seen, subs)).1 -> k ∉ seen ->
       exists y, In y (join_nodes e) /\ node_key (op y) = k
                 /\ covered y (subtables_walk e (seen, subs)).2.
Proof.
  intros Hinj. induction n as [|n IH]; intros [c o] seen subs Hsz Hin Hcl; [lia|].
  set (e := Expr c o) in *.
  assert (He0 : In e (join_nodes root)) by (apply Hin, join_nodes_self).
  assert (Hseen : node_key o ∈ seen ->
            covered e subs) by (intros Hk; apply (Hcl e He0 Hk); lia).
  assert (Hleaf : isinstance_Join o = false ->
    subtables_walk e (seen, subs)
    = if bool_decide (node_key o ∈ seen) then (seen, subs)
      else ({[node_key o]} ∪ seen, subs ++ [e])).
  { destruct o; try reflexivity. discriminate. }
  assert (Hl : isinstance_Join o = false ->
    covered e (subtables_walk e (seen, subs)).2
    /\ forall k, k ∈ (subtables_walk e (seen, subs)).1 -> k ∉ seen ->
         exists y, In y (join_nodes e) /\ node_key (op y) = k
                   /\ covered y (subtables_walk e (seen, subs)).2).
  { intros Hj. rewrite (Hleaf Hj).
    destruct (bool_decide (node_key o ∈ seen)) eqn:Hk.
    - apply bool_decide_eq_true_1 in Hk.
      split; [now apply Hseen|]. intros k Hk1 Hk2. contradiction.
    - assert (Hc : covered e (subs ++ [e])).
      { intros t Ht. assert (Et : t = e).
        { subst e. destruct o; try discriminate Hj;
            destruct Ht as [<-|[]]; reflexivity. }
        subst t. unfold keys_of. rewrite map_app. apply in_or_app. right.
        now left. }
      split; [exact Hc|]. intros k Hk1 Hk2. cbn [fst snd] in *.
      exists e. split; [apply join_nodes_self|].
      split; [set_solver|exact Hc]. }
  destruct o; try (apply Hl; reflexivity).
  clear Hl Hleaf. simpl in Hsz.
  set (k := node_key (ops.Join how left right predicates)) in *.
  assert (Ew : subtables_walk e (seen, subs)
               = if bool_decide (k ∈ seen) then (seen, subs)
                 else subtables_walk right
                        (subtables_walk left ({[k]} ∪ seen, subs)))
    by reflexivity.
  rewrite Ew. clear Ew.
  destruct (bool_decide (k ∈ seen)) eqn:Hk.
  { apply bool_decide_eq_true_1 in Hk.
    split; [now apply Hseen|]. intros k' Hk1 Hk2. contradiction. }
  apply bool_decide_eq_false_1 in Hk.
  assert (Hinl : incl (join_nodes left) (join_nodes root)).
  { intros x Hx. apply Hin. cbn [e join_nodes]. right. apply in_or_app.
    now left. }
  assert (Hinr : incl (join_nodes right) (join_nodes root)).
  { intros x Hx. apply Hin. cbn [e join_nodes]. right. apply in_or_app.
    now right. }
  assert (Hroot : forall x m, In x (join_nodes root) -> node_key (op x) = k ->
            expr_size x <= m -> m < expr_size e -> False).
  { intros x m Hx Ek Hm Hlt.
    assert (Eop : op x = op e) by (apply Hinj; [exact Hx|exact He0|exact Ek]).
    apply size_op in Eop. lia. }
  assert (Hcl0 : forall m, m < expr_size e ->
            closed_upto root m ({[k]} ∪ seen) subs).
  { intros m Hm x Hx Hkx Hsx.
    destruct (decide (node_key (op x) = k)) as [Ek|Nk].
    - exfalso. exact (Hroot x m Hx Ek Hsx Hm).
    - apply (Hcl x Hx); [set_solver|lia]. }
  destruct (subtables_walk_sound (S (expr_size left)) left ({[k]} ∪ seen) subs
              ltac:(lia)) as (a1 & E1 & S1 & _).
  destruct (IH left ({[k]} ∪ seen) subs ltac:(lia) Hinl
              (Hcl0 (expr_size left) ltac:(unfold e; simpl; lia))) as [C1 B1].
  destruct (subtables_walk left ({[k]} ∪ seen, subs)) as [seen1 subs1] eqn:W1.
  cbn [fst snd] in *. subst subs1.
  assert (Hcl1 : closed_upto root (expr_size right) seen1 (subs ++ a1)).
  { intros x Hx Hkx Hsx.
    destruct (decide (node_key (op x) ∈ {[k]} ∪ seen)) as [Hold|Hnew].
    - apply covered_app. apply (Hcl0 (expr_size right)); try assumption.
      unfold e. simpl. lia.
    - destruct (B1 _ Hkx Hnew) as (y & Hy & Ey & Cy).
      apply (covered_op y x); [|exact Cy].
      apply Hinj; [now apply Hinl|exact Hx|exact Ey]. }
  destruct (subtables_walk_sound (S (expr_size right)) right seen1 (subs ++ a1)
              ltac:(lia)) as (a2 & E2 & S2 & _).
  destruct (IH right seen1 (subs ++ a1) ltac:(lia) Hinr Hcl1) as [C2 B2].
  destruct (subtables_walk right (seen1, subs ++ a1)) as [seen2 subs2] eqn:W2.
  cbn [fst snd] in *. subst subs2.
  assert (Ce : covered e ((subs ++ a1) ++ a2)).
  { intros t Ht. cbn [e join_leaves] in Ht. apply in_app_or in Ht.
    destruct Ht as [Ht|Ht]; [|now apply C2].
    apply covered_app with (x := left); [exact C1|exact Ht]. }
  split; [exact Ce|]. intros k' Hk1 Hk2.
  destruct (decide (k' = k)) as [->|Nk].
  { exists e. split; [apply join_nodes_self|]. split; [reflexivity|exact Ce]. }
  destruct (decide (k' ∈ seen1)) as [H1|H1].
  - destruct (B1 k' H1 ltac:(set_solver)) as (y & Hy & Ey & Cy).
    exists y. split; [cbn [e join_nodes]; right; apply in_or_app; now left|].
    split; [exact Ey|now apply covered_app].
  - destruct (B2 k' Hk1 H1) as (y & Hy & Ey & Cy).
    exists y. split; [cbn [e join_nodes]; right; apply in_or_app; now right|].
    split; [exact Ey|exact Cy].
Qed.

(** X16: the tables of a join.  The loop of [_get_subtables] ends within
    its fuel for every expression.  The tables it lists are tables joined
    in the tree, in their order from left to right, none of them a join and
    no two with the same node; an expression that is not a join is listed
    alone.  When equal keys mean equal nodes in the tree, every joined
    table has its node in the list: each distinct table is listed once. *)
Theorem get_subtables_lists_tables_once (e : expr) :
  exists out,
    SelectBuilder._get_subtables e = Ok out
    /\ out `sublist_of` join_leaves e
    /\ NoDup (keys_of out)
    /\ Forall (fun t => isinstance_Join (op t) = false) out
    /\ (isinstance_Join (op e) = false -> out = [e])
    /\ (keys_identify e ->
        forall t, In t (join_leaves e) -> In (node_key (op t)) (keys_of out)).
Proof.
  exists (subtables_walk e (∅, [])).2.
  split.
  { unfold SelectBuilder._get_subtables.
    rewrite get_subtables_loop_walk; [reflexivity|]. simpl. lia. }
  destruct (subtables_walk_sound (S (expr_size e)) e ∅ [] ltac:(lia))
    as (added & E & _ & Hsub & Hnd & Hall).
  rewrite E. cbn [app].
  split; [exact Hsub|]. split; [exact Hnd|]. split.
  { eapply Forall_impl; [exact Hall|]. now intros t (_ & _ & Ht). }
  split.
  { intros Hj. assert (Ew : subtables_walk e (∅, []) = ({[node_key (op e)]} ∪ ∅, [e])).
    { destruct e as [c o]. destruct o; try discriminate Hj;
        cbn [subtables_walk fst snd op];
        rewrite bool_decide_eq_false_2 by apply not_elem_of_empty;
        reflexivity. }
    rewrite Ew in E. cbn in E. now rewrite <- E. }
  intros Hinj.
  destruct (subtables_walk_complete e (S (expr_size e)) Hinj e ∅ []
              ltac:(lia) (fun x Hx => Hx)) as [Hc _].
  { intros x _ Hx. now apply not_elem_of_empty in Hx. }
  rewrite E in Hc. exact Hc.
Qed.

Lemma equals_any_spec (b : expr) (prev : list expr) :
  SelectBuilder.equals_any b (map Some prev) = true
  <-> In (expr_key b) (map expr_key prev).
Proof.
  unfold SelectBuilder.equals_any. rewrite existsb_exists. split.
  - intros (x & Hx & Hb). apply in_map_iff in Hx. destruct Hx as (p & <- & Hp).
    apply bool_decide_eq_true_1 in Hb. rewrite Hb. now apply in_map.
  - intros Hin. apply in_map_iff in Hin. destruct Hin as (p & Ep & Hp).
    exists (Some p). split; [now apply in_map|].
    now apply bool_decide_eq_true_2.
Qed.

Lemma all_distinct_roots_loop_app (pre rest : list expr) :
  forall bases prev,
  blocking_bases pre bases ->
  List.NoDup (map expr_key (prev ++ bases)) ->
  SelectBuilder._all_distinct_roots_loop (pre ++ rest) (map Some prev)
  = SelectBuilder._all_distinct_roots_loop rest (map Some (prev ++ bases)).
Proof.
  induction pre as [|t pre IH]; intros bases prev Hb Hnd.
  - inversion Hb; subst. now rewrite app_nil_r.
  - inversion Hb as [|? b ? bs Ht Hbs]; subst.
    cbn [app SelectBuilder._all_distinct_roots_loop]. rewrite Ht.
    cbn [mbind result_bind].
    destruct (SelectBuilder.equals_any b (map Some prev)) eqn:Eq.
    + exfalso. apply equals_any_spec in Eq.
      rewrite map_app in Hnd. cbn [map] in Hnd.
      apply List.NoDup_remove_2 in Hnd. apply Hnd, in_or_app. now left.
    + change (map Some prev ++ [Some b]) with (map Some prev ++ map Some [b]).
      rewrite <- map_app.
      rewrite (IH bs (prev ++ [b]) Hbs); [now rewrite <- app_assoc|].
      now rewrite <- app_assoc.
Qed.

Lemma all_distinct_roots_loop_dup (subtables : list expr) :
  forall bases prev,
  blocking_bases subtables bases ->
  ~ List.NoDup (map expr_key (prev ++ bases)) ->
  List.NoDup (map expr_key prev) ->
  SelectBuilder._all_distinct_roots_loop subtables (map Some prev) = Ok false.
Proof.
  induction subtables as [|t l IH]; intros bases prev Hb Hdup Hnd.
  - inversion Hb; subst. rewrite app_nil_r in Hdup. contradiction.
  - inversion Hb as [|? b ? bs Ht Hbs]; subst.
    cbn [SelectBuilder._all_distinct_roots_loop]. rewrite Ht.
    cbn [mbind result_bind].
    destruct (SelectBuilder.equals_any b (map Some prev)) eqn:Eq;
      [reflexivity|].
    change (map Some prev ++ [Some b]) with (map Some prev ++ map Some [b]).
    rewrite <- map_app. apply (IH bs).
    + exact Hbs.
    + now rewrite <- app_assoc.
    + rewrite map_app. cbn [map].
      apply List.NoDup_app; [exact Hnd|repeat constructor; now intros []|].
      intros x Hx [<-|[]]. apply equals_any_spec in Hx. congruence.
Qed.

(** X18: joined tables are fused exactly when their roots differ.  When
    every table has a blocking base, [_all_distinct_roots] answers, and it
    answers true exactly when no two of the bases are equal.  A table
    without a blocking base that comes after others with pairwise different
    bases raises [AttributeError]. *)
Theorem all_distinct_roots_spec (subtables bases : list expr) :
  blocking_bases subtables bases ->
  (exists answer,
     SelectBuilder._all_distinct_roots subtables = Ok answer
     /\ (answer = true <-> List.NoDup (map expr_key bases)))
  /\ (forall t rest,
        bases <> [] ->
        List.NoDup (map expr_key bases) ->
        SelectBuilder._blocking_base (expr_size t) t = Ok None ->
        SelectBuilder._all_distinct_roots (subtables ++ t :: rest)
        = Raise AttributeError).
Proof.
  intros Hb. unfold SelectBuilder._all_distinct_roots. split.
  - destruct (ListDec.NoDup_dec (decide_rel eq) (map expr_key bases))
      as [Hnd|Hdup].
    + exists true. split; [|tauto].
      rewrite <- (app_nil_r subtables).
      change (@nil (option expr)) with (map Some (@nil expr)).
      rewrite (all_distinct_roots_loop_app subtables [] bases [] Hb Hnd).
      reflexivity.
    + exists false. split; [|split; [discriminate|contradiction]].
      change (@nil (option expr)) with (map Some (@nil expr)).
      apply (all_distinct_roots_loop_dup subtables bases [] Hb Hdup).
      constructor.
  - intros t rest Hne Hnd Ht.
    change (@nil (option expr)) with (map Some (@nil expr)).
    rewrite (all_distinct_roots_loop_app subtables (t :: rest) bases [] Hb Hnd).
    cbn [app SelectBuilder._all_distinct_roots_loop]. rewrite Ht.
    cbn [mbind result_bind]. destruct bases; [contradiction|reflexivity].
Qed.

End subtables_props.

(** ** The collection of an aggregation *)

Section aggregation_props.
Context `{Hashing} `{ExprAPI}.

Local Abbreviation builder := SelectBuilder.t.
Local Abbreviation collect := SelectBuilder._collect.

(** X20: an aggregation at the top level is collected from its substituted
    form.  The group keys of the builder are the positions 0, ..., k-1 of
    the k grouping expressions, and the select-set lists the grouping
    expressions first and the metrics after them, so that the i-th group
    key names the i-th item; the table-set, the filters, the sort keys and
    the post-predicates are those of the aggregation, and the limit, the
    distinct flag and the context stay as they were. *)
Theorem collect_aggregation (fuel : nat) (self self' : builder) (e : expr)
    (table table' : expr)
    (metrics by_ having predicates sort_keys : list expr)
    (metrics' by' having' predicates' sort_keys' : list expr) :
  op e = ops.Aggregation table metrics by_ having predicates sort_keys ->
  op (SelectBuilder._sub e)
  = ops.Aggregation table' metrics' by' having' predicates' sort_keys' ->
  node_key (op e) ∉ SelectBuilder.op_memo self ->
  collect fuel self e true = Ok self' ->
  SelectBuilder.group_by self' = Some (seq 0 (length by'))
  /\ SelectBuilder.select_set self' = Some (by' ++ metrics')
  /\ take (length by') (by' ++ metrics') = by'
  /\ SelectBuilder.having self' = Some having'
  /\ SelectBuilder.table_set self' = Some table'
  /\ SelectBuilder.filters self' = predicates'
  /\ SelectBuilder.sort_by self' = sort_keys'
  /\ SelectBuilder.limit self' = SelectBuilder.limit self
  /\ SelectBuilder.distinct_ self' = SelectBuilder.distinct_ self
  /\ SelectBuilder.context self' = SelectBuilder.context self.
Proof.
  intros Hop Hsub Hmemo. destruct fuel as [|fuel]; [discriminate|].
  destruct e as [c o]. cbn [op] in Hop, Hmemo. subst o.
  cbn [SelectBuilder._collect op].
  rewrite bool_decide_eq_false_2 by exact Hmemo.
  rewrite Hsub.
  match goal with
  | |- context [collect fuel ?s table false] =>
      destruct (collect fuel s table false) as [s1|] eqn:Ec; [|discriminate];
      set (s0 := s) in *
  end.
  cbn [mbind result_bind]. intros [= <-].
  apply collect_memo in Ec. destruct Ec as (_ & _ & Ef).
  specialize (Ef eq_refl). apply same_fields_with_memo in Ef.
  rewrite Ef. cbn.
  repeat split; try reflexivity.
  now rewrite take_app_length.
Qed.

End aggregation_props.

(** ** The aliases the correlated-reference check makes *)

Section checker_alias_props.
Context `{Hashing} `{ExprAPI}.

Local Abbreviation checker := _CorrelatedRefCheck.t.
Local Abbreviation ref_check := _CorrelatedRefCheck.ref_check.
Local Abbreviation visit := _CorrelatedRefCheck.visit.
Local Abbreviation visit_table := _CorrelatedRefCheck.visit_table.

Lemma visit_invariant (P : checker -> Prop) (fuel : nat) :
  (forall self n s, P self -> P (ref_check self n s)) ->
  (forall e s st st', P st.1.1 -> visit fuel e s st = Some st' -> P st'.1.1)
  /\ (forall e s st st',
        P st.1.1 -> visit_table fuel e s st = Some st' -> P st'.1.1).
Proof.
  intros Hrc. induction fuel as [|fuel [IHv IHt]]; [split; intros; discriminate|].
  split; intros e s [[self vc] vtc] st' Hinv; simpl.
  - destruct (bool_decide _); [now intros [= <-]|].
    apply for_each_inv with (P := fun st => P st.1.1).
    + intros st [a|v] st1 Hin Hst; [|now intros [= <-]].
      destruct (isinstance_TableExpr a); [now apply IHt|now apply IHv].
    + exact Hinv.
  - destruct (bool_decide _); [now intros [= <-]|].
    destruct (for_each _ _ _) as [[[self1 vc1] own]|] eqn:Ef; [|discriminate].
    simpl. intros [= <-]. simpl.
    change (P (self1, vc1, own).1.1).
    revert Ef. apply for_each_inv with (P := fun st => P st.1.1).
    + intros st [a|v] st1 Hin Hst; [|now intros [= <-]].
      now apply IHv.
    + simpl in *.
      destruct (_CorrelatedRefCheck.isinstance_PhysicalTable_or_SelfReference _);
        [now apply Hrc|exact Hinv].
Qed.

Lemma has_ref_local (c : QueryContext) (n : node) :
  has_ref c n false = false -> table_refs c !! node_key n = None.
Proof.
  destruct c as [refs ex al par]. cbn [has_ref table_refs].
  now destruct (refs !! node_key n).
Qed.

Lemma make_alias_fresh (roots : gset key) (c0 c : QueryContext) (n : node) :
  table_refs c !! node_key n = None ->
  node_key n ∉ roots ->
  aliases_grown roots c0 c ->
  aliases_grown roots c0 (make_alias c n).
Proof.
  intros Hnone Hroot (H1 & H2 & H3 & H4 & H5).
  assert (E : exists a, make_alias c n
                        = mkQueryContext (<[node_key n := a]> (table_refs c))
                            (extracted_subexprs c) (always_alias c) (parent c)).
  { unfold make_alias. destruct (get_ref c n); eexists; reflexivity. }
  destruct E as (a & ->). unfold aliases_grown.
  cbn [table_refs extracted_subexprs always_alias parent].
  split; [|split; [|auto]].
  - etrans; [exact H1|]. now apply insert_subseteq.
  - intros k Hk. rewrite lookup_insert_ne; [now apply H2|].
    intros <-. contradiction.
Qed.

Lemma ref_check_aliases (self0 : checker) (self : checker) (n : node) (s : bool) :
  let roots := _CorrelatedRefCheck.query_roots self0 in
  _CorrelatedRefCheck.query_roots self = roots
  /\ aliases_grown roots (_CorrelatedRefCheck.ctx self0)
       (_CorrelatedRefCheck.ctx self) ->
  _CorrelatedRefCheck.query_roots (ref_check self n s) = roots
  /\ aliases_grown roots (_CorrelatedRefCheck.ctx self0)
       (_CorrelatedRefCheck.ctx (ref_check self n s)).
Proof.
  intros roots [Hr Hg].
  unfold _CorrelatedRefCheck.ref_check, _CorrelatedRefCheck.is_root,
    _CorrelatedRefCheck.with_ctx.
  cbn [_CorrelatedRefCheck.query_roots _CorrelatedRefCheck.ctx
       _CorrelatedRefCheck.expr_ _CorrelatedRefCheck.foreign_refs
       _CorrelatedRefCheck.has_foreign_root _CorrelatedRefCheck.has_query_root
       _CorrelatedRefCheck.encountered].
  destruct (bool_decide (node_key n ∈ _CorrelatedRefCheck.query_roots self))
    eqn:Eroot.
  - destruct s; cbn; now split.
  - apply bool_decide_eq_false_1 in Eroot. rewrite Hr in Eroot.
    destruct s.
    + destruct (has_ref (_CorrelatedRefCheck.ctx self) n false) eqn:Eh;
        cbn [negb andb]; [cbn; now split|].
      destruct (has_ref (_CorrelatedRefCheck.ctx self) n true);
        cbn; (split; [exact Hr|]); [|exact Hg].
      apply make_alias_fresh; [now apply has_ref_local|exact Eroot|exact Hg].
    + destruct (has_ref (_CorrelatedRefCheck.ctx self) n false) eqn:Eh;
        cbn [negb]; cbn; (split; [exact Hr|]); [exact Hg|].
      apply make_alias_fresh; [now apply has_ref_local|exact Eroot|exact Hg].
Qed.

(** X21: the aliases the correlated-reference check makes.  The check
    answers for every statement and predicate, and the context it leaves
    keeps every alias it had, has the aliases of the roots of the statement
    as they were (a root without an alias gets none), and has the same
    extraction set, always-alias flag and parent: the only change is new
    aliases for tables that are not roots. *)
Theorem correlated_check_aliases (context : QueryContext)
    (table_set e : expr) :
  let self := _CorrelatedRefCheck.init context table_set e in
  exists (answer : bool) (self' : checker),
    _CorrelatedRefCheck.get_result self = Some (answer, self')
    /\ table_refs context ⊆ table_refs (_CorrelatedRefCheck.ctx self')
    /\ (forall n, In n (_root_tables table_set) ->
          get_ref (_CorrelatedRefCheck.ctx self') n = get_ref context n)
    /\ extracted_subexprs (_CorrelatedRefCheck.ctx self')
       = extracted_subexprs context
    /\ always_alias (_CorrelatedRefCheck.ctx self') = always_alias context
    /\ parent (_CorrelatedRefCheck.ctx self') = parent context.
Proof.
  intros self.
  destruct (proj1 (visit_total (expr_size e)) e false (self, ∅, None)
              ltac:(lia)) as ([[self' vc] vtc] & Ev).
  exists (_CorrelatedRefCheck.has_query_root self'
          && _CorrelatedRefCheck.has_foreign_root self'), self'.
  split.
  { unfold _CorrelatedRefCheck.get_result.
    change (_CorrelatedRefCheck.expr_ self) with e. now rewrite Ev. }
  set (roots := _CorrelatedRefCheck.query_roots self).
  assert (Hinv : _CorrelatedRefCheck.query_roots self' = roots
                 /\ aliases_grown roots context (_CorrelatedRefCheck.ctx self')).
  { apply (proj1 (visit_invariant
             (fun s => _CorrelatedRefCheck.query_roots s = roots
                       /\ aliases_grown roots (_CorrelatedRefCheck.ctx self)
                            (_CorrelatedRefCheck.ctx s))
             (expr_size e)
             (fun s n b => ref_check_aliases self s n b))
           e false (self, ∅, None) (self', vc, vtc)); [|exact Ev].
    split; [reflexivity|]. unfold aliases_grown. now repeat split. }
  destruct Hinv as (_ & H1 & H2 & H3 & H4 & H5).
  split; [exact H1|]. split; [|now repeat split].
  intros n Hn.
  assert (Hk : node_key n ∈ roots).
  { unfold roots, self. cbn. apply elem_of_list_to_set, list_elem_of_fmap.
    exists n. split; [reflexivity|now apply list_elem_of_In]. }
  specialize (H2 _ Hk).
  destruct (_CorrelatedRefCheck.ctx self') as [refs' ex' al' par'],
    context as [refs ex al par].
  cbn in *. subst par'. now rewrite H2.
Qed.

Lemma get_result_grown (context : QueryContext) (table_set e : expr) :
  let self := _CorrelatedRefCheck.init context table_set e in
  exists (answer : bool) (self' : checker),
    _CorrelatedRefCheck.get_result self = Some (answer, self')
    /\ aliases_grown (_CorrelatedRefCheck.query_roots self) context
         (_CorrelatedRefCheck.ctx self').
Proof.
  intros self.
  destruct (proj1 (visit_total (expr_size e)) e false (self, ∅, None)
              ltac:(lia)) as ([[self' vc] vtc] & Ev).
  exists (_CorrelatedRefCheck.has_query_root self'
          && _CorrelatedRefCheck.has_foreign_root self'), self'.
  split.
  { unfold _CorrelatedRefCheck.get_result.
    change (_CorrelatedRefCheck.expr_ self) with e. now rewrite Ev. }
  set (roots := _CorrelatedRefCheck.query_roots self).
  apply (proj1 (visit_invariant
           (fun s => _CorrelatedRefCheck.query_roots s = roots
                     /\ aliases_grown roots (_CorrelatedRefCheck.ctx self)
                          (_CorrelatedRefCheck.ctx s))
           (expr_size e)
           (fun s n b => ref_check_aliases self s n b))
         e false (self, ∅, None) (self', vc, vtc)); [|exact Ev].
  split; [reflexivity|]. unfold aliases_grown. now repeat split.
Qed.

Lemma set_ref_frame (c : QueryContext) (n : node) (a : option string) :
  extracted_subexprs (set_ref c n a) = extracted_subexprs c
  /\ always_alias (set_ref c n a) = always_alias c
  /\ parent (set_ref c n a) = parent c.
Proof. now destruct a. Qed.

Lemma make_table_aliases_frame (n : nat) : forall (e : expr) (c : QueryContext),
  expr_size e <= n ->
  extracted_subexprs (SelectBuilder._make_table_aliases c e)
  = extracted_subexprs c
  /\ always_alias (SelectBuilder._make_table_aliases c e) = always_alias c
  /\ parent (SelectBuilder._make_table_aliases c e) = parent c.
Proof.
  induction n as [|n IH]; intros [k o] c Hsz; [simpl in Hsz; lia|].
  assert (Hleaf : forall e' : expr,
            let c' := if negb (is_extracted c e') then make_alias c (op e')
                      else set_ref c (op e')
                             (get_ref (top_context c) (op e')) in
            extracted_subexprs c' = extracted_subexprs c
            /\ always_alias c' = always_alias c
            /\ parent c' = parent c).
  { intros e'. cbn zeta. destruct (negb _); [|apply set_ref_frame].
    unfold make_alias. destruct (get_ref c (op e')); apply set_ref_frame. }
  destruct o; try exact (Hleaf (Expr k _)).
  cbn [SelectBuilder._make_table_aliases]. simpl in Hsz.
  match goal with
  | |- context [if isinstance_TableExpr ?r
                then SelectBuilder._make_table_aliases ?c1 ?r else _] =>
      assert (H1 : extracted_subexprs c1 = extracted_subexprs c
                   /\ always_alias c1 = always_alias c
                   /\ parent c1 = parent c)
        by (destruct (isinstance_TableExpr _); [apply IH; lia|auto]);
      destruct H1 as (E1 & E2 & E3);
      destruct (isinstance_TableExpr r); [|auto];
      destruct (IH r c1 ltac:(lia)) as (F1 & F2 & F3)
  end.
  rewrite F1, F2, F3. auto.
Qed.

(** X26: what populating the context does to the builder.  Without a
    table-set the builder is left as it is when there is no filter, and the
    check of the first filter raises [AttributeError] when there is one.
    With a table-set the call returns for every list of filters: of the
    builder only the context changes, and of the context only the aliases
    and the always-alias flag, which stays set when it was; without filters
    the context is the one the aliases of the table-set were made in. *)
Theorem populate_context_frame (self : SelectBuilder.t) :
  (SelectBuilder.table_set self = None ->
   SelectBuilder._populate_context self
   = match SelectBuilder.filters self with
     | [] => Ok self
     | _ => Raise AttributeError
     end)
  /\ (forall ts, SelectBuilder.table_set self = Some ts ->
      exists self',
        SelectBuilder._populate_context self = Ok self'
        /\ self' = SelectBuilder.set_context self (SelectBuilder.context self')
        /\ extracted_subexprs (SelectBuilder.context self')
           = extracted_subexprs (SelectBuilder.context self)
        /\ parent (SelectBuilder.context self')
           = parent (SelectBuilder.context self)
        /\ (always_alias (SelectBuilder.context self) = true ->
            always_alias (SelectBuilder.context self') = true)
        /\ (SelectBuilder.filters self = [] ->
            SelectBuilder.context self'
            = SelectBuilder._make_table_aliases (SelectBuilder.context self)
                ts)).
Proof.
  set (body := fun (self : SelectBuilder.t) (e : expr) =>
         '(needs_alias, self) ← SelectBuilder._foreign_ref_check self e;
         if needs_alias : bool
         then Ok (SelectBuilder.set_context self
                    (set_always_alias (SelectBuilder.context self)))
         else Ok self).
  assert (Hraise : forall (l : list expr) err,
            foldl (fun r x => st ← r; body st x) (Raise err) l = Raise err).
  { induction l as [|x l IH]; intros err; [reflexivity|]. simpl. apply IH. }
  split.
  - intros Hts. unfold SelectBuilder._populate_context. rewrite Hts.
    fold body. destruct (SelectBuilder.filters self) as [|x l]; [reflexivity|].
    unfold SelectBuilder.for_result. cbn [foldl mbind result_bind].
    assert (Eb : body self x = Raise AttributeError).
    { unfold body, SelectBuilder._foreign_ref_check. now rewrite Hts. }
    rewrite Eb. apply Hraise.
  - intros ts Hts.
    set (inv := fun (s0 s : SelectBuilder.t) =>
           s = SelectBuilder.set_context s0 (SelectBuilder.context s)
           /\ extracted_subexprs (SelectBuilder.context s)
              = extracted_subexprs (SelectBuilder.context s0)
           /\ parent (SelectBuilder.context s)
              = parent (SelectBuilder.context s0)
           /\ (always_alias (SelectBuilder.context s0) = true ->
               always_alias (SelectBuilder.context s) = true)).
    assert (Hbody : forall s x, SelectBuilder.table_set s = Some ts ->
              exists s', body s x = Ok s' /\ inv s s').
    { intros s x Hs. unfold body, SelectBuilder._foreign_ref_check.
      rewrite Hs.
      destruct (get_result_grown (SelectBuilder.context s) ts x)
        as (answer & chk & -> & _ & _ & G3 & G4 & G5).
      cbn [mbind result_bind].
      destruct answer; eexists; (split; [reflexivity|]); unfold inv;
        destruct s; cbn in *; repeat split; congruence. }
    assert (Hloop : forall (l : list expr) s,
              SelectBuilder.table_set s = Some ts ->
              exists s', SelectBuilder.for_result body s l = Ok s'
                         /\ inv s s').
    { unfold SelectBuilder.for_result.
      induction l as [|x l IH]; intros s Hs.
      - exists s. split; [reflexivity|]. unfold inv. now destruct s.
      - destruct (Hbody s x Hs) as (s1 & E1 & I1 & I2 & I3 & I4).
        assert (Hs1 : SelectBuilder.table_set s1 = Some ts)
          by (rewrite I1; exact Hs).
        destruct (IH s1 Hs1) as (s2 & E2 & J1 & J2 & J3 & J4).
        exists s2. cbn [foldl mbind result_bind]. rewrite E1.
        split; [exact E2|]. unfold inv.
        split; [rewrite J1 at 1; rewrite I1; now destruct s|].
        split; [congruence|]. split; [congruence|auto]. }
    unfold SelectBuilder._populate_context. rewrite Hts. fold body.
    set (s1 := SelectBuilder.set_context self
                 (SelectBuilder._make_table_aliases
                    (SelectBuilder.context self) ts)).
    assert (Hf : SelectBuilder.filters s1 = SelectBuilder.filters self)
      by reflexivity.
    rewrite Hf.
    destruct (Hloop (SelectBuilder.filters self) s1 Hts)
      as (s2 & E2 & J1 & J2 & J3 & J4).
    destruct (make_table_aliases_frame (expr_size ts) ts
                (SelectBuilder.context self) ltac:(lia)) as (F1 & F2 & F3).
    exists s2. split; [exact E2|].
    split; [rewrite J1 at 1; unfold s1; now destruct self|].
    split; [rewrite J2; exact F1|].
    split; [rewrite J3; exact F3|].
    split.
    + intros Ha. apply J4. unfold s1. cbn. now rewrite F2.
    + intros Hnil. rewrite Hnil in E2. injection E2 as <-. reflexivity.
Qed.

End checker_alias_props.

(** ** The backend *)

Section BaseBackend_props.
Context `{Hashing}.
Context {translator params ast : Type}.
Variable make_context :
  BaseBackend.dialect_class -> BaseBackend.classes (translator := translator)
  -> params -> result QueryContext.
Variable ast_compile : ast -> result string.

Local Abbreviation backend := (BaseBackend.t (translator := translator) (ast := ast)).
Local Abbreviation dialect := BaseBackend.dialect.
Local Abbreviation compile := (BaseBackend.compile make_context ast_compile).
Local Abbreviation verify := (BaseBackend.verify make_context ast_compile).

(** X22: the dialect classes are shared by the backends.  A backend of an
    unknown kind gets [ValueError] and changes no class.  Otherwise the
    class is chosen by the kind, the translator of the backend is stored in
    it and the other class keeps its translator; when a second backend of a
    kind with the same class asks for its dialect, the class, which the
    first backend holds too, carries the translator of the second. *)
Theorem dialect_class_shared (a b : backend)
    (st : BaseBackend.classes (translator := translator)) :
  let known k :=
    bool_decide (k ∈ ["sqlalchemy"; "sql"; "pandas"; "spark"]) in
  let class_of_kind k :=
    if bool_decide (k = "sqlalchemy") then BaseBackend.AlchemyDialect
    else BaseBackend.Dialect in
  let other c :=
    match c with
    | BaseBackend.AlchemyDialect => BaseBackend.Dialect
    | BaseBackend.Dialect => BaseBackend.AlchemyDialect
    end in
  (known (BaseBackend.kind a) = false ->
   dialect a st = (st, Raise ValueError))
  /\ (known (BaseBackend.kind a) = true ->
      let c := class_of_kind (BaseBackend.kind a) in
      (dialect a st).2 = Ok c
      /\ BaseBackend.translator_of (dialect a st).1 c = BaseBackend.translator_ a
      /\ BaseBackend.translator_of (dialect a st).1 (other c)
         = BaseBackend.translator_of st (other c)
      /\ (known (BaseBackend.kind b) = true ->
          class_of_kind (BaseBackend.kind b) = c ->
          (dialect b (dialect a st).1).2 = Ok c
          /\ BaseBackend.translator_of (dialect b (dialect a st).1).1 c
             = BaseBackend.translator_ b)).
Proof.
  intros known class_of_kind other.
  assert (Hk : forall k, known k
               = bool_decide (k = "sqlalchemy")
                 || bool_decide (k ∈ ["sql"; "pandas"; "spark"])).
  { intros k. unfold known.
    destruct (bool_decide (k = "sqlalchemy")) eqn:E1.
    - apply bool_decide_eq_true_1 in E1. subst k.
      apply bool_decide_eq_true_2. now left.
    - apply bool_decide_eq_false_1 in E1. cbn [orb].
      apply bool_decide_ext. rewrite (elem_of_cons _ k "sqlalchemy"). tauto. }
  assert (Hd : forall (x : backend) s, known (BaseBackend.kind x) = true ->
            dialect x s
            = (BaseBackend.set_translator s (class_of_kind (BaseBackend.kind x))
                 (BaseBackend.translator_ x),
               Ok (class_of_kind (BaseBackend.kind x)))).
  { intros x s Hx. rewrite Hk in Hx. unfold BaseBackend.dialect, class_of_kind.
    destruct (bool_decide (BaseBackend.kind x = "sqlalchemy")); [reflexivity|].
    cbn [orb] in Hx. now rewrite Hx. }
  split.
  - intros Ha. rewrite Hk in Ha. apply orb_false_iff in Ha.
    destruct Ha as [H1 H2]. unfold BaseBackend.dialect. now rewrite H1, H2.
  - intros Ha. rewrite (Hd a st Ha). cbn [fst snd].
    split; [reflexivity|].
    split; [now destruct (class_of_kind (BaseBackend.kind a))|].
    split; [now destruct (class_of_kind (BaseBackend.kind a))|].
    intros Hb Hc. rewrite (Hd b _ Hb), Hc. cbn [fst snd].
    split; [reflexivity|].
    now destruct (class_of_kind (BaseBackend.kind a)).
Qed.

(** X23: what [verify] answers.  It answers false only when the compilation
    raises [TranslationError]; every other exception of the compilation is
    raised by [verify] as well.  The dask backend has no builder: whenever
    its context is made, its compilation raises [TypeError], and so does
    its verification, for every expression. *)
Theorem verify_answers (self : backend)
    (st : BaseBackend.classes (translator := translator)) (e : expr)
    (p : params) (DaskExprTranslator : translator) :
  ((verify self st e p).2 = Ok false
   <-> (compile self st e p).2 = Raise TranslationError)
  /\ ((verify self st e p).2 = Ok true
      <-> exists text, (compile self st e p).2 = Ok text)
  /\ (forall err, err <> TranslationError ->
        (compile self st e p).2 = Raise err ->
        (verify self st e p).2 = Raise err)
  /\ (verify self st e p).1 = (compile self st e p).1
  /\ let dask := BaseBackend.dask DaskExprTranslator in
     let st' := BaseBackend.set_translator st BaseBackend.Dialect
                  DaskExprTranslator in
     (forall context,
        make_context BaseBackend.Dialect st' p = Ok context ->
        compile dask st e p = (st', Raise TypeError)
        /\ verify dask st e p = (st', Raise TypeError)).
Proof.
  assert (Hv : forall x : backend,
            verify x st e p
            = ((compile x st e p).1,
               match (compile x st e p).2 with
               | Ok _ => Ok true
               | Raise TranslationError => Ok false
               | Raise err => Raise err
               end)).
  { intros x. unfold BaseBackend.verify. now destruct (compile x st e p). }
  assert (Hdask : forall context,
            make_context BaseBackend.Dialect
              (BaseBackend.set_translator st BaseBackend.Dialect
                 DaskExprTranslator) p = Ok context ->
            compile (BaseBackend.dask DaskExprTranslator) st e p
            = (BaseBackend.set_translator st BaseBackend.Dialect
                 DaskExprTranslator, Raise TypeError)).
  { intros context Hctx.
    unfold BaseBackend.compile, BaseBackend.dialect, BaseBackend.dask.
    cbn [BaseBackend.kind BaseBackend.builder BaseBackend.translator_].
    rewrite bool_decide_eq_false_2 by discriminate.
    rewrite bool_decide_eq_true_2 by (right; left).
    cbn [mbind result_bind]. now rewrite Hctx. }
  rewrite (Hv self). cbn [fst snd].
  split; [|split; [|split; [|split; [reflexivity|]]]].
  - destruct ((compile self st e p).2) as [text|err].
    + split; discriminate.
    + destruct err; split; try discriminate; reflexivity.
  - destruct ((compile self st e p).2) as [text|err].
    + split; [intros _; now exists text|reflexivity].
    + split; [destruct err; discriminate|]. intros (text & Ht). discriminate Ht.
  - intros err Hne ->. destruct err; try reflexivity. contradiction.
  - intros context Hctx.
    split; [now apply (Hdask context)|].
    rewrite (Hv (BaseBackend.dask DaskExprTranslator)).
    now rewrite (Hdask context Hctx).
Qed.

End BaseBackend_props.

(** ** Further examples *)

Section Further_examples.
#[local] Existing Instance Example.hashing.
#[local] Existing Instance Example.api.
#[local] Existing Instance Example.externals.

Lemma collect_records_node_witness :
  exists self',
    SelectBuilder._collect 2 builder_a table_a true = Ok self'
    /\ node_key (op table_a) ∈ SelectBuilder.op_memo self'
    /\ SelectBuilder._collect 1 self' table_a false = Ok self'.
Proof.
  assert (Ec : SelectBuilder._collect 2 builder_a table_a true = Ok collected_a)
    by (vm_cast_no_check (@eq_refl _ (Ok collected_a))).
  destruct (collect_records_node 2 builder_a collected_a table_a true Ec)
    as (_ & Hin & Hagain).
  exists collected_a. split; [exact Ec|]. split; [exact Hin|exact (Hagain 0 false)].
Defined.

Lemma collect_below_top_level_witness :
  exists self',
    SelectBuilder._collect 4 builder_a join_ab false = Ok self'
    /\ self' = with_memo builder_a (SelectBuilder.op_memo self').
Proof.
  assert (Ec : SelectBuilder._collect 4 builder_a join_ab false
               = Ok collected_join)
    by (vm_cast_no_check (@eq_refl _ (Ok collected_join))).
  exists collected_join. split; [exact Ec|].
  exact (collect_below_top_level 4 builder_a collected_join join_ab Ec).
Defined.

Lemma set_operation_below_root_refused_witness :
  isinstance_TableExpr limited_union = true
  /\ is_set_operation (op (collected_root limited_union)) = true
  /\ QueryBuilder_get_result (mkQueryBuilder limited_union empty_context)
     = Raise NotImplementedError.
Proof.
  split; [reflexivity|]. split; [reflexivity|].
  exact (proj2 (set_operation_below_root_refused limited_union empty_context
                  eq_refl eq_refl) eq_refl).
Defined.

Lemma analyze_filter_exprs_shape_witness :
  exists self',
    SelectBuilder._analyze_filter_exprs builder_filters = Ok self'
    /\ length (SelectBuilder.filters builder_filters) = 2
    /\ length (SelectBuilder.filters self') = 1.
Proof.
  assert (Ea : SelectBuilder._analyze_filter_exprs builder_filters
               = Ok analyzed_filters)
    by (vm_cast_no_check (@eq_refl _ (Ok analyzed_filters))).
  destruct (analyze_filter_exprs_shape builder_filters analyzed_filters Ea)
    as (_ & Hlen & _).
  exists analyzed_filters. split; [exact Ea|]. split; [reflexivity|exact Hlen].
Defined.

Lemma analyze_filter_exprs_plain_witness :
  let self := collected_builder table_a [same_key table_a table_b] in
  Forall (fun e => plain_filter e = true) (SelectBuilder.filters self)
  /\ SelectBuilder._analyze_filter_exprs self = Ok self.
Proof.
  intros self.
  assert (Hp : Forall (fun e => plain_filter e = true)
                 (SelectBuilder.filters self))
    by (repeat constructor).
  split; [exact Hp|]. exact (analyze_filter_exprs_plain self Hp).
Defined.

Lemma analyze_select_exprs_plain_witness :
  let self := collected_builder table_a [] in
  SelectBuilder.select_set self = Some [table_a]
  /\ Forall (fun e => no_histogram e = true) [table_a]
  /\ SelectBuilder._analyze_select_exprs self = Ok self.
Proof.
  intros self.
  assert (Hp : Forall (fun e => no_histogram e = true) [table_a])
    by (repeat constructor).
  split; [reflexivity|]. split; [exact Hp|].
  exact (analyze_select_exprs_plain self [table_a] eq_refl Hp).
Defined.

Lemma compile_clauses_witness :
  exists text from_ select_,
    Select.compile built_a.1 = Done text
    /\ starts_with "SELECT" select_
    /\ clause_of true "FROM " from_
    /\ text = join_str nl (omap id [Some select_; from_]).
Proof.
  assert (Ec : Select.compile built_a.1 = Done compiled_a)
    by (vm_compute; reflexivity).
  destruct (compile_clauses built_a.1 compiled_a Ec)
    as (w & f & wh & g & o & l & s & Ht & Hw & Hs & Hf & Hwh & Hg & Ho & Hl).
  exists compiled_a, f, s. split; [exact Ec|]. split; [exact Hs|].
  split; [exact Hf|].
  cbn in Hw, Hwh, Hg, Ho, Hl. subst w wh g o l. exact Ht.
Defined.

Lemma group_by_clause_text_witness :
  s_group_by grouped_statement
  = SelectBuilder._convert_group_by [column_k; column_v]
  /\ Select.format_group_by grouped_statement
     = Ok (Some ("GROUP BY " +:+ join_str ", " (map pretty (seq 1 2)))).
Proof.
  split; [reflexivity|].
  exact (proj1 (proj2 (group_by_clause_text grouped_statement
                         [column_k; column_v] eq_refl))
           ltac:(discriminate) eq_refl).
Defined.

Lemma select_set_layout_witness :
  let texts := [Example.repr column_k; Example.repr column_v] in
  s_select_set grouped_statement = Some [column_k; column_v]
  /\ Forall2 (select_item grouped_statement) [column_k; column_v] texts
  /\ Forall (fun t => has_newline t = false) texts
  /\ sum_sizes (fun t => String.length t + 2) texts <= 72
  /\ Select.format_select_set grouped_statement
     = Done ("SELECT" +:+ " " +:+ join_str ", " texts).
Proof.
  intros texts.
  assert (H1 : Forall2 (select_item grouped_statement) [column_k; column_v]
                 texts)
    by (repeat constructor; left; split; reflexivity).
  assert (H2 : Forall (fun t => has_newline t = false) texts)
    by (repeat constructor).
  assert (H3 : sum_sizes (fun t => String.length t + 2) texts <= 72)
    by (vm_compute; lia).
  split; [reflexivity|]. split; [exact H1|]. split; [exact H2|].
  split; [exact H3|].
  exact (proj1 (select_set_layout grouped_statement [column_k; column_v] texts
                  eq_refl H1 H2) H3).
Defined.

Lemma compile_table_with_limit_witness :
  isinstance_TableExpr limit_limit = true
  /\ collected_root limit_limit = physical "a"
  /\ extract_subqueries (Some (physical "a")) [] = []
  /\ exists ast q,
       QueryBuilder_get_result (mkQueryBuilder limit_limit empty_context)
       = Ok ast
       /\ ast_query ast = SelectQuery q
       /\ s_limit q = Some (10, 2)%Z
       /\ s_distinct q = false.
Proof.
  assert (H1 : isinstance_TableExpr limit_limit = true) by reflexivity.
  assert (H2 : collected_root limit_limit = physical "a") by reflexivity.
  assert (H3 : extract_subqueries (Some (physical "a")) [] = [])
    by reflexivity.
  split; [exact H1|]. split; [exact H2|]. split; [exact H3|].
  destruct (compile_table_with_limit limit_limit "a" H1 H2 H3)
    as (ast & q & Ha & Hq & Hd & Hl & _).
  exists ast, q. split; [exact Ha|]. split; [exact Hq|].
  split; [exact Hl|exact Hd].
Defined.

Lemma from_single_table_witness :
  isinstance_Join (op table_a) = false
  /\ TableSetFormatter.get_result (TableSetFormatter.init empty_context table_a)
     = Ok (quote_identifier "a"
           +:+ if need_aliases empty_context
               then " " +:+ fmt (get_ref empty_context (op table_a))
               else EmptyString).
Proof.
  split; [reflexivity|].
  exact (proj1 (proj2 (from_single_table empty_context table_a eq_refl))
           "a" eq_refl).
Defined.

Lemma all_distinct_roots_spec_witness :
  blocking_bases [table_a; table_b] [table_a; table_b]
  /\ exists answer,
       SelectBuilder._all_distinct_roots [table_a; table_b] = Ok answer
       /\ (answer = true
           <-> List.NoDup (map expr_key [table_a; table_b])).
Proof.
  assert (Hb : blocking_bases [table_a; table_b] [table_a; table_b])
    by (repeat constructor).
  split; [exact Hb|].
  exact (proj1 (all_distinct_roots_spec [table_a; table_b] [table_a; table_b]
                  Hb)).
Defined.

Lemma compile_scalar_without_table_witness :
  exists self q self',
    SelectBuilder.init literal_one empty_context = Ok self
    /\ SelectBuilder.get_result self = Ok (q, self')
    /\ s_table_set q = None
    /\ Select.compile q = Done ("SELECT " +:+ Example.repr literal_one).
Proof.
  assert (Hpar : forall b args,
            op literal_one <> ops.ValueOp "ScalarParameter" b args)
    by (intros b args; discriminate).
  assert (Hel : forall exprs,
            op (name literal_one "tmp") <> ops.ExpressionList exprs)
    by (intros exprs; discriminate).
  assert (H1 : ir.is_ScalarExpr (class_of literal_one) = true) by reflexivity.
  assert (H2 : is_scalar_reduction literal_one = false) by reflexivity.
  assert (H3 : find_base_table literal_one = None) by reflexivity.
  assert (H4 : isinstance_TableNode (op (name literal_one "tmp")) = false)
    by reflexivity.
  assert (H5 : ir.is_ValueExpr (class_of (name literal_one "tmp")) = true)
    by reflexivity.
  assert (H6 : no_histogram (name literal_one "tmp") = true) by reflexivity.
  assert (H7 : extract_subqueries None [] = []) by reflexivity.
  assert (H8 : translate empty_context (name literal_one "tmp") true false
               = Ok (Example.repr literal_one)) by reflexivity.
  assert (H9 : has_newline (Example.repr literal_one) = false)
    by (vm_compute; reflexivity).
  destruct (compile_scalar_without_table literal_one
              (Example.repr literal_one) H1 H2 H3 Hpar H4 Hel H5 H6 H7 H8)
    as (self & q & self' & Hi & _ & Hg & _ & Ht & Hc).
  rewrite H9 in Hc.
  exists self, q, self'. split; [exact Hi|]. split; [exact Hg|].
  split; [exact Ht|exact Hc].
Defined.

Lemma collect_aggregation_witness :
  exists self',
    SelectBuilder._collect 3 builder_aggregation aggregation_a true = Ok self'
    /\ SelectBuilder.group_by self' = Some [0]
    /\ SelectBuilder.select_set self' = Some [column_k; column_v]
    /\ SelectBuilder.table_set self' = Some table_a.
Proof.
  assert (Ec : SelectBuilder._collect 3 builder_aggregation aggregation_a true
               = Ok collected_aggregation)
    by (vm_cast_no_check (@eq_refl _ (Ok collected_aggregation))).
  assert (Hm : node_key (op aggregation_a)
               ∉ SelectBuilder.op_memo builder_aggregation)
    by (apply not_elem_of_empty).
  assert (Ho : op aggregation_a
               = ops.Aggregation table_a [column_v] [column_k] [] [] [])
    by reflexivity.
  assert (Hs' : op (SelectBuilder._sub aggregation_a)
                = ops.Aggregation table_a [column_v] [column_k] [] [] [])
    by reflexivity.
  destruct (collect_aggregation 3 builder_aggregation collected_aggregation
              aggregation_a table_a table_a [column_v] [column_k] [] [] []
              [column_v] [column_k] [] [] [] Ho Hs' Hm Ec)
    as (Hg & Hs & _ & _ & Ht & _).
  exists collected_aggregation. split; [exact Ec|].
  split; [exact Hg|]. split; [exact Hs|exact Ht].
Defined.

Lemma select_item_of_another_kind_witness :
  let texts := [Example.repr column_k] in
  let texts' := [Example.repr column_v] in
  ir.is_ValueExpr (class_of top_k) = false
  /\ isinstance_TableExpr top_k = false
  /\ Forall2 (select_item grouped_statement) [column_k] texts
  /\ Forall2 (select_item grouped_statement) [column_v] texts'
  /\ Select.format_select_items grouped_statement
       ([column_k] ++ top_k :: [column_v]) None
     = Done (texts ++ List.last texts EmptyString :: texts').
Proof.
  intros texts texts'.
  assert (H1 : Forall2 (select_item grouped_statement) [column_k] texts)
    by (repeat constructor; left; split; reflexivity).
  assert (H2 : Forall2 (select_item grouped_statement) [column_v] texts')
    by (repeat constructor; left; split; reflexivity).
  split; [reflexivity|]. split; [reflexivity|].
  split; [exact H1|]. split; [exact H2|].
  exact (select_item_of_another_kind grouped_statement top_k [column_k]
           [column_v] texts texts' eq_refl eq_refl H1 H2).
Defined.

End Further_examples.
